(** * kdtree-index: a k-d tree stored as an implicit balanced tree in a flat array

    Shallow embedding of [include/details/bitwise.hpp] and
    [include/kdtree_index.hpp], and the properties of the rotating insert,
    the lookup, the per-axis extrema and the capacity policy.

    Conventions of the embedding:
    - [std::size_t] values ([_capacity], [_count], the size hint) are [Z] in
      [0, 2^64) with the wrap-around written out;
    - a slot address is its index ([Z]) from the start of the buffer, so
      [_start] is index [0] and [_finish] is the span of the live region;
      iterator arithmetic is arithmetic on indices;
    - the value array and the state array are two lists; a read or a write
      outside them is undefined behaviour in the source and is the outcome
      [Fault] here;
    - a throwing copy or move constructor of the value type is the outcome
      [Throw], which carries the memory as it is when the exception leaves;
    - recursion and loops of the source take a [fuel] argument; running out
      of it is the outcome [NoFuel];
    - allocation itself is assumed to succeed; fresh cells hold unspecified
      contents ([raw_value], [raw_state]). *)

From Stdlib Require Import ZArith Lia Bool List Permutation.
From stdpp Require Import base tactics option list.

Local Open Scope Z_scope.

(** ** details/bitwise.hpp *)

Module bitwise.

Definition WIDTH : Z := 64.

(** [u >> k] followed by [|=] on a 64-bit unsigned: neither operation can
    leave the range, so no wrap-around has to be applied. *)
Definition or_shr (u k : Z) : Z := Z.lor u (Z.shiftr u k).

(** [bitwise<U, 8>::ftz] *)
Definition ftz (u : Z) : Z :=
  let u := or_shr u 1 in
  let u := or_shr u 2 in
  let u := or_shr u 4 in
  let u := or_shr u 8 in
  let u := or_shr u 16 in
  let u := or_shr u 32 in
  u.

End bitwise.

(** ** State *)

Inductive State : Type := Invalid | Heads | Tails | Unsure.

#[global] Instance State_eq_dec : EqDecision State.
Proof. solve_decision. Defined.

Definition State_code (s : State) : Z :=
  match s with Invalid => 0 | Heads => 1 | Tails => 2 | Unsure => 3 end.

Definition State_of_code (z : Z) : State :=
  if z =? 0 then Invalid else if z =? 1 then Heads
  else if z =? 2 then Tails else Unsure.

(** [operator~]: xor of the two state bits with [0x3]. *)
Definition State_not (s : State) : State :=
  State_of_code (Z.lxor (State_code s) 3).

(** [operator+] *)
Definition State_add (a b : State) : State :=
  if decide (a = b) then a else Unsure.

(** ** Tree geometry on slot indices *)

Definition left (x o : Z) : Z := x - o.
Definition right (x o : Z) : Z := x + o.
Definition root (x d : Z) : Z := x + Z.quot d 2.
Definition root_offset (d : Z) : Z := Z.quot (d + 1) 4.

(** ** Outcomes and the memory monad *)

Inductive result (S A : Type) : Type :=
| Ok (a : A) (s : S)
| Throw (s : S)
| Fault
| NoFuel.
Arguments Ok {S A} a s.
Arguments Throw {S A} s.
Arguments Fault {S A}.
Arguments NoFuel {S A}.

Definition M (S A : Type) : Type := S -> result S A.

Definition ret {S A} (a : A) : M S A := fun s => Ok a s.

Definition bind {S A B} (m : M S A) (f : A -> M S B) : M S B :=
  fun s =>
    match m s with
    | Ok a s' => f a s'
    | Throw s' => Throw s'
    | Fault => Fault
    | NoFuel => NoFuel
    end.

Definition throw {S A} : M S A := fun s => Throw s.
Definition fault {S A} : M S A := fun _ => Fault.
Definition nofuel {S A} : M S A := fun _ => NoFuel.

Notation "x <- m ;; k" := (bind m (fun x => k))
  (at level 100, m at next level, right associativity).
Notation "m ;; k" := (bind m (fun _ => k))
  (at level 100, right associativity).

(** Index-addressed lists: negative and too large indices miss. *)
Definition zlookup {A} (l : list A) (p : Z) : option A :=
  if p <? 0 then None else l !! Z.to_nat p.

Definition zinsert {A} (p : Z) (x : A) (l : list A) : list A :=
  if p <? 0 then l else <[Z.to_nat p := x]> l.

Definition zlen {A} (l : list A) : Z := Z.of_nat (length l).

Section KDTree.

(** The value type, its dimension count [K], and the index capability
    reduced to the combined predicate that [select_compare] evaluates. *)
Context {V : Type}.
Variable K : nat.
Variable select_compare : nat -> V -> V -> bool.

(** Whether copy (move) construction of a value raises. *)
Variable copy_throws : V -> bool.
Variable move_throws : V -> bool.

(** Contents of freshly allocated cells. *)
Variable raw_value : V.
Variable raw_state : State.

(** [inc<K>] *)
Definition inc (d : nat) : nat := ((d + 1) mod K)%nat.

(** *** The two parallel arrays *)

Record store : Type := mkStore { vals : list V; sts : list State }.

Definition rdv (p : Z) : M store V :=
  fun st => match zlookup (vals st) p with Some v => Ok v st | None => Fault end.

Definition rds (p : Z) : M store State :=
  fun st => match zlookup (sts st) p with Some s => Ok s st | None => Fault end.

Definition upd_v (st : store) (p : Z) (v : V) : store :=
  mkStore (zinsert p v (vals st)) (sts st).

Definition upd_s (st : store) (p : Z) (s : State) : store :=
  mkStore (vals st) (zinsert p s (sts st)).

Definition wrv (p : Z) (v : V) : M store unit :=
  fun st => if (0 <=? p) && (p <? zlen (vals st)) then Ok tt (upd_v st p v) else Fault.

Definition wrs (p : Z) (s : State) : M store unit :=
  fun st => if (0 <=? p) && (p <? zlen (sts st)) then Ok tt (upd_s st p s) else Fault.

(** [std::memcpy(dst->value_ptr(), src->value_ptr(), sizeof(value_type))] *)
Definition memcpy (dst src : Z) : M store unit :=
  v <- rdv src ;; wrv dst v.

(** [kdtree_element::is_valid] *)
Definition is_valid (p : Z) : M store bool :=
  s <- rds p ;; ret (negb (bool_decide (s = Invalid))).

(** *** minimum / maximum *)

(** The body of [minimum] from the head of its [while] loop on, with the
    loop variables [node], [node_dim], [node_offset] and [best]. *)
Fixpoint minimum_loop (fuel : nat) (fixed_dim node_dim : nat)
    (node_offset node best : Z) : M store Z :=
  match fuel with
  | O => nofuel
  | S fuel =>
    if 1 <? node_offset then
      let child_dim := inc node_dim in
      let child_offset := Z.quot node_offset 2 in
      child <- minimum_loop fuel fixed_dim child_dim child_offset
                 (left node node_offset) (left node node_offset) ;;
      bv <- rdv best ;; cv <- rdv child ;;
      let best := if negb (select_compare fixed_dim bv cv) then child else best in
      if (node_dim =? fixed_dim)%nat then ret best
      else
        let child := right node node_offset in
        bv <- rdv best ;; cv <- rdv child ;;
        let best := if negb (select_compare fixed_dim bv cv) then child else best in
        minimum_loop fuel fixed_dim child_dim child_offset child best
    else if node_offset =? 1 then
      let child := left node node_offset in
      ok <- is_valid child ;;
      best <- (if ok then
                 bv <- rdv best ;; cv <- rdv child ;;
                 ret (if negb (select_compare fixed_dim bv cv) then child else best)
               else ret best) ;;
      let child := right node node_offset in
      ok <- is_valid child ;;
      (if ok then
         bv <- rdv best ;; cv <- rdv child ;;
         ret (if negb (select_compare fixed_dim bv cv) then child else best)
       else ret best)
    else ret best
  end.

Definition minimum (fuel : nat) (fixed_dim node_dim : nat)
    (node_offset node : Z) : M store Z :=
  minimum_loop fuel fixed_dim node_dim node_offset node node.

Fixpoint maximum_loop (fuel : nat) (fixed_dim node_dim : nat)
    (node_offset node best : Z) : M store Z :=
  match fuel with
  | O => nofuel
  | S fuel =>
    if 1 <? node_offset then
      let child_dim := inc node_dim in
      let child_offset := Z.quot node_offset 2 in
      child <- maximum_loop fuel fixed_dim child_dim child_offset
                 (right node node_offset) (right node node_offset) ;;
      cv <- rdv child ;; bv <- rdv best ;;
      let best := if negb (select_compare fixed_dim cv bv) then child else best in
      if (node_dim =? fixed_dim)%nat then ret best
      else
        let child := left node node_offset in
        cv <- rdv child ;; bv <- rdv best ;;
        let best := if negb (select_compare fixed_dim cv bv) then child else best in
        maximum_loop fuel fixed_dim child_dim child_offset child best
    else if node_offset =? 1 then
      let child := left node node_offset in
      ok <- is_valid child ;;
      best <- (if ok then
                 cv <- rdv child ;; bv <- rdv best ;;
                 ret (if negb (select_compare fixed_dim cv bv) then child else best)
               else ret best) ;;
      let child := right node node_offset in
      ok <- is_valid child ;;
      (if ok then
         cv <- rdv child ;; bv <- rdv best ;;
         ret (if negb (select_compare fixed_dim cv bv) then child else best)
       else ret best)
    else ret best
  end.

Definition maximum (fuel : nat) (fixed_dim node_dim : nat)
    (node_offset node : Z) : M store Z :=
  maximum_loop fuel fixed_dim node_dim node_offset node node.


(** *** Deferred placement *)

Inductive DeferredOp : Type :=
| _deferred_memcpy (p : Z)
| _deferred_copy (x : V)
| _deferred_move (x : V).

(** [DeferredOp::cref] *)
Definition cref (defer : DeferredOp) : M store V :=
  match defer with
  | _deferred_memcpy p => rdv p
  | _deferred_copy x => ret x
  | _deferred_move x => ret x
  end.

(** [DeferredOp::place_at] *)
Definition place_at (defer : DeferredOp) (x : Z) : M store unit :=
  match defer with
  | _deferred_memcpy p => memcpy x p
  | _deferred_copy v => if copy_throws v then throw else wrv x v
  | _deferred_move v => if move_throws v then throw else wrv x v
  end.

(** *** _erase_when_full *)

Fixpoint _erase_when_full (fuel : nat) (node_dim : nat)
    (node_offset node erased : Z) : M store unit :=
  match fuel with
  | O => nofuel
  | S fuel =>
    if 1 <? node_offset then
      let child_dim := inc node_dim in
      let child_offset := Z.quot node_offset 2 in
      let lnode := left node node_offset in
      let rnode := right node node_offset in
      (if node =? erased then
         tmp <- minimum fuel node_dim child_dim child_offset rnode ;;
         memcpy erased tmp ;;
         _erase_when_full fuel child_dim child_offset rnode tmp
       else if node <? erased then
         _erase_when_full fuel child_dim child_offset rnode erased
       else
         _erase_when_full fuel child_dim child_offset lnode erased) ;;
      wrs node Unsure
    else if node_offset =? 1 then
      let rnode := right node node_offset in
      (if node =? erased then
         memcpy node rnode ;; wrs rnode Invalid
       else wrs erased Invalid) ;;
      wrs node Unsure
    else wrs node Invalid
  end.

(** *** _single_insert *)

Fixpoint _single_insert (fuel : nat) (full_state : State) (node_dim : nat)
    (offset node : Z) (defer : DeferredOp) : M store Z :=
  match fuel with
  | O => nofuel
  | S fuel =>
    if offset =? 1 then
      let lnode := left node offset in
      let rnode := right node offset in
      pv <- cref defer ;; nv <- rdv node ;;
      if select_compare node_dim pv nv then
        lvalid <- is_valid lnode ;;
        if lvalid then
          memcpy rnode node ;;
          wrs rnode full_state ;;
          wrs node full_state ;;
          pv <- cref defer ;; lv <- rdv lnode ;;
          if select_compare node_dim pv lv then
            memcpy node lnode ;;
            place_at defer lnode ;;
            ret lnode
          else
            place_at defer node ;;
            ret node
        else
          place_at defer lnode ;;
          wrs lnode full_state ;;
          rvalid <- is_valid rnode ;;
          (if rvalid then wrs node full_state else ret tt) ;;
          ret lnode
      else
        rvalid <- is_valid rnode ;;
        if rvalid then
          memcpy lnode node ;;
          wrs lnode full_state ;;
          wrs node full_state ;;
          rv <- rdv rnode ;; pv <- cref defer ;;
          if select_compare node_dim rv pv then
            memcpy node rnode ;;
            place_at defer rnode ;;
            ret rnode
          else
            place_at defer node ;;
            ret node
        else
          place_at defer rnode ;;
          wrs rnode full_state ;;
          lvalid <- is_valid lnode ;;
          (if lvalid then wrs node full_state else ret tt) ;;
          ret rnode
    else if 1 <? offset then
      let child_dim := inc node_dim in
      let child_offset := Z.quot offset 2 in
      let lnode := left node offset in
      let rnode := right node offset in
      pv <- cref defer ;; nv <- rdv node ;;
      insert <-
        (if select_compare node_dim pv nv then
           ls <- rds lnode ;;
           if bool_decide (ls = full_state) then
             _single_insert fuel full_state child_dim child_offset rnode
               (_deferred_memcpy node) ;;
             tmp <- maximum fuel node_dim child_dim child_offset lnode ;;
             pv <- cref defer ;; tv <- rdv tmp ;;
             if select_compare node_dim pv tv then
               memcpy node tmp ;;
               _erase_when_full fuel child_dim child_offset lnode tmp ;;
               _single_insert fuel full_state child_dim child_offset lnode defer
             else
               place_at defer node ;;
               ret node
           else
             _single_insert fuel full_state child_dim child_offset lnode defer
         else
           nv <- rdv node ;; pv <- cref defer ;;
           if select_compare node_dim nv pv then
             rs <- rds rnode ;;
             if bool_decide (rs = full_state) then
               _single_insert fuel full_state child_dim child_offset lnode
                 (_deferred_memcpy node) ;;
               tmp <- minimum fuel node_dim child_dim child_offset rnode ;;
               tv <- rdv tmp ;; pv <- cref defer ;;
               if select_compare node_dim tv pv then
                 memcpy node tmp ;;
                 _erase_when_full fuel child_dim child_offset rnode tmp ;;
                 _single_insert fuel full_state child_dim child_offset rnode defer
               else
                 place_at defer node ;;
                 ret node
             else
               _single_insert fuel full_state child_dim child_offset rnode defer
           else
             ls <- rds lnode ;;
             if bool_decide (ls = full_state)
             then _single_insert fuel full_state child_dim child_offset rnode defer
             else _single_insert fuel full_state child_dim child_offset lnode defer) ;;
      ls <- rds lnode ;; rs <- rds rnode ;;
      wrs node (State_add ls rs) ;;
      ret insert
    else
      place_at defer node ;;
      wrs node full_state ;;
      ret node
  end.

(** *** _find *)

(** [for (; i < bound; ++i) { if (differ on axis i) break; }] run for the
    [n = bound - i] iterations it can take; the result is the final [i]. *)
Fixpoint scan_axes (n : nat) (i : nat) (nv val : V) : nat :=
  match n with
  | O => i
  | S n =>
    if select_compare i nv val || select_compare i val nv then i
    else scan_axes n (S i) nv val
  end.

(** The equality test inside [_find]: the two [for] loops over the axes
    below and above [node_dim]. *)
Definition all_axes_equal (node_dim : nat) (nv val : V) : bool :=
  let i := scan_axes node_dim 0 nv val in
  if (i =? node_dim)%nat then
    let i := S i in
    let i := scan_axes (K - i) i nv val in
    (i =? K)%nat
  else false.

(** The [for (; node->is_valid();)] loop continues with the right child;
    that continuation is the last recursive call. *)
Fixpoint _find (fuel : nat) (finish : Z) (node_dim : nat)
    (node_offset node : Z) (val : V) : M store Z :=
  match fuel with
  | O => nofuel
  | S fuel =>
    valid <- is_valid node ;;
    if valid then
      nv <- rdv node ;;
      let left_only := select_compare node_dim val nv in
      let right_only := select_compare node_dim nv val in
      if negb left_only && negb right_only && all_axes_equal node_dim nv val
      then ret node
      else if negb (node_offset =? 0) then
        let child_dim := inc node_dim in
        let child_offset := Z.quot node_offset 2 in
        probe <- (if negb right_only
                  then _find fuel finish child_dim child_offset
                         (left node node_offset) val
                  else ret finish) ;;
        if negb right_only && negb (probe =? finish) then ret probe
        else if left_only then ret finish
        else _find fuel finish child_dim child_offset
               (right node node_offset) val
      else ret finish
    else ret finish
  end.

(** *** The container *)

Record kdtree : Type := mkTree {
  _buf : store;          (* the arrays [_start] points to *)
  _finish : Z;           (* [_finish - _start] *)
  _capacity : Z;
  _count : Z;
  _full_state : State
}.

Definition wrap64 (z : Z) : Z := z mod 2 ^ 64.

Definition set_buf (c : kdtree) (b : store) : kdtree :=
  mkTree b (_finish c) (_capacity c) (_count c) (_full_state c).

(** A computation on the arrays, run on the arrays of a container. *)
Definition on_buf {A} (m : M store A) : M kdtree A :=
  fun c =>
    match m (_buf c) with
    | Ok a b => Ok a (set_buf c b)
    | Throw b => Throw (set_buf c b)
    | Fault => Fault
    | NoFuel => NoFuel
    end.

Definition allocate (n : Z) : store :=
  mkStore (replicate (Z.to_nat n) raw_value) (replicate (Z.to_nat n) raw_state).

(** [_kdtree_members()] *)
Definition _kdtree_members : kdtree :=
  mkTree (mkStore [] []) 0 0 0 Heads.

(** [_alloc_storage] *)
Definition _alloc_storage (n : Z) (c : kdtree) : kdtree :=
  if n =? 0 then c
  else
    let n := bitwise.ftz n in
    mkTree (allocate n) 0 n (_count c) (_full_state c).

(** [kdtree()] and [kdtree(std::size_t n)] *)
Definition kdtree_default : kdtree := _kdtree_members.
Definition kdtree_sized (n : Z) : kdtree := _alloc_storage n _kdtree_members.

Definition capacity (c : kdtree) : Z := _capacity c.
Definition size (c : kdtree) : Z := _count c.
Definition empty (c : kdtree) : bool := size c =? 0.
Definition begin_ (c : kdtree) : Z := 0.
Definition end_ (c : kdtree) : Z := _finish c.

(** The loop of [_expand]. The destination arrays are the memory of the
    monad; [old] is [Some] of the source arrays when they are another
    buffer, and [None] when [vp], [cp] are [_start] itself, so that the
    reads through [slow] see the writes through [last]. *)
Definition src_rds (old : option store) (p : Z) : M store State :=
  match old with
  | None => rds p
  | Some o => fun st => match rds p o with Ok s _ => Ok s st | _ => Fault end
  end.

Definition src_rdv (old : option store) (p : Z) : M store V :=
  match old with
  | None => rdv p
  | Some o => fun st => match rdv p o with Ok v _ => Ok v st | _ => Fault end
  end.

Fixpoint _expand_loop (fuel : nat) (old : option store)
    (first last slow : Z) : M store unit :=
  if negb (last =? first) then
    match fuel with
    | O => nofuel
    | S fuel =>
      let last := last - 1 in
      let slow := slow - 1 in
      s <- src_rds old slow ;;
      wrs last s ;;
      v <- src_rdv old slow ;;
      wrv last v ;;
      let last := last - 1 in
      wrs last Invalid ;;
      _expand_loop fuel old first last slow
    end
  else ret tt.

(** [_expand(vp, cp)]: [dst] is [None] for the expansion in place and
    [Some] of the new arrays otherwise; the result has the destination
    arrays as its buffer. *)
Definition _expand (dst : option store) : M kdtree unit :=
  fun c =>
    let offset := (_finish c - 0) * 2 in
    let old := match dst with None => None | Some _ => Some (_buf c) end in
    let target := match dst with None => _buf c | Some d => d end in
    match (wrs offset Invalid ;;
           _expand_loop (Z.to_nat offset) old 0 offset (_finish c)) target with
    | Ok _ b => Ok tt (mkTree b (offset + 1) (_capacity c) (_count c) (_full_state c))
    | Throw _ => Fault
    | Fault => Fault
    | NoFuel => NoFuel
    end.

(** [_expand_alloc] *)
Definition _expand_alloc : M kdtree unit :=
  fun c =>
    let n := wrap64 (_capacity c * 2 + 1) in
    match _expand (Some (allocate n)) c with
    | Ok _ c' =>
      Ok tt (mkTree (_buf c') (_finish c') n (_count c') (_full_state c'))
    | r => r
    end.

(** [_prepare_insert] *)
Definition _prepare_insert : M kdtree unit :=
  fun c =>
    if _count c =? 0 then
      let c := if _capacity c =? 0 then _alloc_storage 1 c else c in
      Ok tt (mkTree (_buf c) (0 + 1) (_capacity c) (_count c) (_full_state c))
    else if _count c =? _finish c - 0 then
      match (if _count c =? _capacity c then _expand_alloc c
             else _expand None c) with
      | Ok _ c =>
        Ok tt (mkTree (_buf c) (_finish c) (_capacity c) (_count c)
                 (State_not (_full_state c)))
      | r => r
      end
    else Ok tt c.

Definition incr_count : M kdtree unit :=
  fun c => Ok tt (mkTree (_buf c) (_finish c) (_capacity c)
                    (wrap64 (_count c + 1)) (_full_state c)).

Definition decr_count : M kdtree unit :=
  fun c => Ok tt (mkTree (_buf c) (_finish c) (_capacity c)
                    (wrap64 (_count c - 1)) (_full_state c)).

Definition insert_with (defer : DeferredOp) : M kdtree Z :=
  _prepare_insert ;;
  incr_count ;;
  (fun c =>
     let dist := _finish c - 0 in
     on_buf (_single_insert (Z.to_nat dist) (_full_state c) 0
               (root_offset dist) (root 0 dist) defer) c).

(** [insert(const value_type&)] and [insert(value_type&&)] *)
Definition insert (v : V) : M kdtree Z := insert_with (_deferred_copy v).
Definition insert_move (v : V) : M kdtree Z := insert_with (_deferred_move v).

(** [erase(const value_type&)] and [erase(iterator)] *)
Definition erase (v : V) : M kdtree Z := decr_count ;; ret 0.
Definition erase_at (it : Z) : M kdtree unit := decr_count.

(** [find] *)
Definition find (val : V) : M kdtree Z :=
  fun c =>
    let dist := _finish c - 0 in
    if _count c =? 0 then Ok (_finish c) c
    else on_buf (_find (Z.to_nat dist) (_finish c) 0 (root_offset dist)
                   (root 0 dist) val) c.

(** ** Specification vocabulary *)

(** The comparator contract of the index capability: on every axis
    [select_compare] is a strict weak ordering. *)
Definition strict_weak : Prop :=
  (forall d a b, select_compare d a b = true -> select_compare d b a = false) /\
  (forall d a b c, select_compare d a b = true ->
     select_compare d a c = true \/ select_compare d c b = true).

(** Contents of a slot, total: a slot outside the arrays reads as
    [raw_value] and [Invalid]. *)
Definition val (st : store) (p : Z) : V := default raw_value (zlookup (vals st) p).
Definition sta (st : store) (p : Z) : State := default Invalid (zlookup (sts st) p).
Definition ssize (st : store) : Z := Z.min (zlen (vals st)) (zlen (sts st)).
Definition live (st : store) (p : Z) : Prop := sta st p <> Invalid.

(** A subtree of height [h] rooted at slot [n] occupies the slots
    [n - wid h .. n + wid h]; its children are [off h] away. *)
Fixpoint wid (h : nat) : Z :=
  match h with O => 0 | S h => 2 * wid h + 1 end.

Definition off (h : nat) : Z :=
  match h with O => 0 | S h => wid h + 1 end.

Definition here (st : store) (p : Z) : list V :=
  if decide (sta st p = Invalid) then [] else [val st p].

(** The live values of a subtree, in slot order. *)
Fixpoint elems (st : store) (h : nat) (n : Z) : list V :=
  match h with
  | O => here st n
  | S h' => elems st h' (n - off h) ++ here st n ++ elems st h' (n + off h)
  end.

(** State discipline: every slot above the leaf layer is live; a leaf is
    [Invalid] or marked full; a node is marked full exactly when both its
    children are. *)
Fixpoint st_ok (fs : State) (st : store) (h : nat) (n : Z) : Prop :=
  match h with
  | O => sta st n = Invalid \/ sta st n = fs
  | S h' =>
    sta st n <> Invalid /\
    (sta st n = fs <-> sta st (n - off h) = fs /\ sta st (n + off h) = fs) /\
    st_ok fs st h' (n - off h) /\ st_ok fs st h' (n + off h)
  end.

(** k-d ordering of a subtree whose root splits on [dim]. *)
Fixpoint kd_ok (st : store) (dim : nat) (h : nat) (n : Z) : Prop :=
  match h with
  | O => True
  | S h' =>
    Forall (fun x => select_compare dim (val st n) x = false) (elems st h' (n - off h)) /\
    Forall (fun x => select_compare dim x (val st n) = false) (elems st h' (n + off h)) /\
    kd_ok st (inc dim) h' (n - off h) /\ kd_ok st (inc dim) h' (n + off h)
  end.

(** Two memories that differ at most on the slots [lo .. hi]. *)
Definition same_outside (st st' : store) (lo hi : Z) : Prop :=
  ssize st' = ssize st /\
  forall q, q < lo \/ hi < q -> val st' q = val st q /\ sta st' q = sta st q.

Definition axis_equal (a b : V) : Prop :=
  forall d, (d < K)%nat -> select_compare d a b = false /\ select_compare d b a = false.

(** ** Bit helper *)

Lemma or_shr_testbit u k i :
  0 <= k -> 0 <= i ->
  Z.testbit (bitwise.or_shr u k) i = Z.testbit u i || Z.testbit u (i + k).
Proof.
  intros Hk Hi. unfold bitwise.or_shr.
  rewrite Z.lor_spec, Z.shiftr_spec by lia. reflexivity.
Qed.

(** Some bit among [i .. i + n - 1] of [u] is set. *)
Definition any_bit (u i : Z) (n : nat) : bool :=
  existsb (fun j => Z.testbit u (i + Z.of_nat j)) (seq 0 n).

Lemma any_bit_true u i n :
  any_bit u i n = true <-> exists j, 0 <= j < Z.of_nat n /\ Z.testbit u (i + j) = true.
Proof.
  unfold any_bit. rewrite existsb_exists. split.
  - intros (j & Hin & Hb). apply in_seq in Hin. exists (Z.of_nat j). split; [lia|done].
  - intros (j & Hj & Hb). exists (Z.to_nat j). split.
    + apply in_seq. lia.
    + rewrite Z2Nat.id by lia. done.
Qed.

Lemma any_bit_double u x n :
  (forall i, 0 <= i -> Z.testbit x i = any_bit u i n) ->
  forall i, 0 <= i ->
    Z.testbit (bitwise.or_shr x (Z.of_nat n)) i = any_bit u i (n + n).
Proof.
  intros Hx i Hi. rewrite or_shr_testbit by lia.
  rewrite !Hx by lia. apply eq_true_iff_eq.
  rewrite orb_true_iff, !any_bit_true. split.
  - intros [(j & Hj & Hb)|(j & Hj & Hb)].
    + exists j. split; [lia|done].
    + exists (Z.of_nat n + j). split; [lia|]. rewrite Z.add_assoc. done.
  - intros (j & Hj & Hb). destruct (Z.lt_ge_cases j (Z.of_nat n)).
    + left. exists j. split; [lia|done].
    + right. exists (j - Z.of_nat n). split; [lia|].
      replace (i + Z.of_nat n + (j - Z.of_nat n)) with (i + j) by lia. done.
Qed.

Lemma ftz_testbit u i :
  0 <= i -> Z.testbit (bitwise.ftz u) i = any_bit u i 64.
Proof.
  revert i. unfold bitwise.ftz.
  assert (H1 : forall i, 0 <= i -> Z.testbit u i = any_bit u i 1).
  { intros i Hi. unfold any_bit. simpl. rewrite Z.add_0_r, orb_false_r. done. }
  pose proof (any_bit_double u _ 1 H1) as H2.
  pose proof (any_bit_double u _ 2 H2) as H4.
  pose proof (any_bit_double u _ 4 H4) as H8.
  pose proof (any_bit_double u _ 8 H8) as H16.
  pose proof (any_bit_double u _ 16 H16) as H32.
  pose proof (any_bit_double u _ 32 H32) as H64.
  exact H64.
Qed.

Lemma ftz_zero : bitwise.ftz 0 = 0.
Proof. reflexivity. Qed.

Lemma ftz_ones u :
  0 < u < 2 ^ 64 -> bitwise.ftz u = Z.ones (Z.log2 u + 1).
Proof.
  intros Hu.
  assert (Hlog : 0 <= Z.log2 u < 64).
  { split; [apply Z.log2_nonneg|]. apply Z.log2_lt_pow2; lia. }
  apply Z.bits_inj'. intros i Hi. rewrite ftz_testbit by done.
  destruct (Z.lt_ge_cases i (Z.log2 u + 1)) as [Hlt|Hge].
  - rewrite Z.ones_spec_low by lia. apply any_bit_true.
    exists (Z.log2 u - i). split; [lia|].
    replace (i + (Z.log2 u - i)) with (Z.log2 u) by lia.
    apply Z.bit_log2. lia.
  - rewrite Z.ones_spec_high by lia.
    destruct (any_bit u i 64) eqn:E; [|done].
    apply any_bit_true in E as (j & Hj & Hb).
    rewrite Z.bits_above_log2 in Hb by lia. done.
Qed.

Lemma ftz_smallest u :
  0 <= u < 2 ^ 64 ->
  (exists k, 0 <= k <= 64 /\ bitwise.ftz u = 2 ^ k - 1) /\
  u <= bitwise.ftz u /\
  (forall k, 0 <= k -> u <= 2 ^ k - 1 -> bitwise.ftz u <= 2 ^ k - 1).
Proof.
  intros Hu. destruct (Z.eq_dec u 0) as [->|Hne].
  - rewrite ftz_zero. split; [exists 0; split; [lia|reflexivity]|].
    split; [lia|]. intros k Hk _. pose proof (Z.pow_pos_nonneg 2 k). lia.
  - assert (Hpos : 0 < u) by lia.
    assert (Hlog : 0 <= Z.log2 u < 64).
    { split; [apply Z.log2_nonneg|]. apply Z.log2_lt_pow2; lia. }
    rewrite ftz_ones by lia. rewrite Z.ones_equiv.
    pose proof (Z.log2_spec u Hpos) as [Hlo Hhi].
    replace (Z.succ (Z.log2 u)) with (Z.log2 u + 1) in Hhi by lia.
    split; [exists (Z.log2 u + 1); split; lia|].
    split; [lia|]. intros k Hk Hle.
    assert (Z.log2 u < k).
    { apply Z.log2_lt_pow2; lia. }
    assert (2 ^ (Z.log2 u + 1) <= 2 ^ k) by (apply Z.pow_le_mono_r; lia).
    lia.
Qed.

(** ** Index-addressed lists *)

Lemma zlen_zinsert {A} p (x : A) l : zlen (zinsert p x l) = zlen l.
Proof.
  unfold zlen, zinsert. destruct (p <? 0); [done|]. by rewrite length_insert.
Qed.

Lemma zlookup_zinsert_eq {A} p (x : A) l :
  0 <= p < zlen l -> zlookup (zinsert p x l) p = Some x.
Proof.
  unfold zlen, zlookup, zinsert. intros Hp.
  destruct (p <? 0) eqn:E; [lia|]. apply list_lookup_insert_eq. lia.
Qed.

Lemma zlookup_zinsert_ne {A} p q (x : A) l :
  q <> p -> zlookup (zinsert p x l) q = zlookup l q.
Proof.
  unfold zlookup, zinsert. intros Hp.
  destruct (q <? 0) eqn:E; [done|]. destruct (p <? 0) eqn:E'; [done|].
  apply list_lookup_insert_ne. lia.
Qed.

Lemma zlookup_in_range {A} (l : list A) p :
  0 <= p < zlen l -> is_Some (zlookup l p).
Proof.
  unfold zlen, zlookup. intros Hp. destruct (p <? 0) eqn:E; [lia|].
  apply lookup_lt_is_Some. lia.
Qed.

(** ** Reads and writes that stay inside the arrays *)

Lemma ssize_upd_v st p v : ssize (upd_v st p v) = ssize st.
Proof. unfold ssize, upd_v. simpl. by rewrite zlen_zinsert. Qed.

Lemma ssize_upd_s st p s : ssize (upd_s st p s) = ssize st.
Proof. unfold ssize, upd_s. simpl. by rewrite zlen_zinsert. Qed.

Lemma val_upd_v_eq st p v : 0 <= p < ssize st -> val (upd_v st p v) p = v.
Proof.
  unfold ssize, val, upd_v. simpl. intros Hp.
  rewrite zlookup_zinsert_eq by lia. done.
Qed.

Lemma val_upd_v_ne st p q v : q <> p -> val (upd_v st p v) q = val st q.
Proof. unfold val, upd_v. simpl. intros Hp. by rewrite zlookup_zinsert_ne. Qed.

Lemma val_upd_s st p q s : val (upd_s st p s) q = val st q.
Proof. done. Qed.

Lemma sta_upd_v st p q v : sta (upd_v st p v) q = sta st q.
Proof. done. Qed.

Lemma sta_upd_s_eq st p s : 0 <= p < ssize st -> sta (upd_s st p s) p = s.
Proof.
  unfold ssize, sta, upd_s. simpl. intros Hp.
  rewrite zlookup_zinsert_eq by lia. done.
Qed.

Lemma sta_upd_s_ne st p q s : q <> p -> sta (upd_s st p s) q = sta st q.
Proof. unfold sta, upd_s. simpl. intros Hp. by rewrite zlookup_zinsert_ne. Qed.

Lemma rdv_ok st p : 0 <= p < ssize st -> rdv p st = Ok (val st p) st.
Proof.
  unfold ssize, rdv, val. intros Hp.
  destruct (zlookup_in_range (vals st) p) as [v Hv]; [lia|]. by rewrite Hv.
Qed.

Lemma rds_ok st p : 0 <= p < ssize st -> rds p st = Ok (sta st p) st.
Proof.
  unfold ssize, rds, sta. intros Hp.
  destruct (zlookup_in_range (sts st) p) as [v Hv]; [lia|]. by rewrite Hv.
Qed.

Lemma wrv_ok st p v : 0 <= p < ssize st -> wrv p v st = Ok tt (upd_v st p v).
Proof.
  unfold ssize, wrv. intros Hp.
  destruct (0 <=? p) eqn:E1; [|lia]. destruct (p <? zlen (vals st)) eqn:E2; [done|lia].
Qed.

Lemma wrs_ok st p s : 0 <= p < ssize st -> wrs p s st = Ok tt (upd_s st p s).
Proof.
  unfold ssize, wrs. intros Hp.
  destruct (0 <=? p) eqn:E1; [|lia]. destruct (p <? zlen (sts st)) eqn:E2; [done|lia].
Qed.

(** ** Stepping through the monad *)

Lemma bind_ok {S A B} (m : M S A) (k : A -> M S B) s a s' :
  m s = Ok a s' -> bind m k s = k a s'.
Proof. unfold bind. by intros ->. Qed.

Lemma bind_ret {S A B} (a : A) (k : A -> M S B) s : bind (ret a) k s = k a s.
Proof. done. Qed.

Lemma bind_assoc {S A B C} (m : M S A) (f : A -> M S B) (g : B -> M S C) s :
  bind (bind m f) g s = bind m (fun x => bind (f x) g) s.
Proof. unfold bind. by destruct (m s). Qed.

Lemma bind_rdv {B} st p (k : V -> M store B) :
  0 <= p < ssize st -> bind (rdv p) k st = k (val st p) st.
Proof. intros Hp. apply bind_ok, rdv_ok, Hp. Qed.

Lemma bind_rds {B} st p (k : State -> M store B) :
  0 <= p < ssize st -> bind (rds p) k st = k (sta st p) st.
Proof. intros Hp. apply bind_ok, rds_ok, Hp. Qed.

Lemma bind_wrv {B} st p v (k : unit -> M store B) :
  0 <= p < ssize st -> bind (wrv p v) k st = k tt (upd_v st p v).
Proof. intros Hp. apply bind_ok, wrv_ok, Hp. Qed.

Lemma bind_wrs {B} st p s (k : unit -> M store B) :
  0 <= p < ssize st -> bind (wrs p s) k st = k tt (upd_s st p s).
Proof. intros Hp. apply bind_ok, wrs_ok, Hp. Qed.

Lemma bind_memcpy {B} st d s (k : unit -> M store B) :
  0 <= d < ssize st -> 0 <= s < ssize st ->
  bind (memcpy d s) k st = k tt (upd_v st d (val st s)).
Proof.
  intros Hd Hs. unfold memcpy. rewrite bind_assoc, bind_rdv by done.
  by rewrite bind_wrv.
Qed.

Lemma bind_is_valid {B} st p (k : bool -> M store B) :
  0 <= p < ssize st ->
  bind (is_valid p) k st = k (negb (bool_decide (sta st p = Invalid))) st.
Proof.
  intros Hp. unfold is_valid. rewrite bind_assoc, bind_rds by done.
  by rewrite bind_ret.
Qed.

(** ** Geometry *)

Lemma wid_nonneg h : 0 <= wid h.
Proof. induction h; simpl; lia. Qed.

Lemma wid_S h : wid (S h) = 2 * wid h + 1.
Proof. done. Qed.

Lemma off_S h : off (S h) = wid h + 1.
Proof. done. Qed.

Lemma off_0 : off 0 = 0.
Proof. done. Qed.

Lemma off_half h : Z.quot (off (S h)) 2 = off h.
Proof.
  destruct h as [|h]; [done|]. rewrite !off_S, wid_S.
  replace (2 * wid h + 1 + 1) with ((wid h + 1) * 2) by lia.
  apply Z.quot_mul. lia.
Qed.

Lemma off_gt1 h : (1 <? off (S (S h))) = true.
Proof. rewrite off_S, wid_S. pose proof (wid_nonneg h). apply Z.ltb_lt. lia. Qed.

Lemma wid_pow h : wid h = 2 ^ Z.of_nat h - 1.
Proof.
  induction h as [|h IH]; [done|]. rewrite wid_S, IH, Nat2Z.inj_succ, Z.pow_succ_r by lia. lia.
Qed.

Lemma root_wid h : root 0 (wid (S h)) = wid h.
Proof.
  unfold root. rewrite wid_S. pose proof (wid_nonneg h).
  rewrite Z.quot_div_nonneg by lia. simpl. symmetry.
  apply (Z.div_unique _ _ _ 1); lia.
Qed.

Lemma root_offset_wid h : root_offset (wid (S h)) = off h.
Proof.
  unfold root_offset. rewrite wid_S.
  destruct h as [|h]; [done|]. rewrite wid_S, off_S.
  replace (2 * (2 * wid h + 1) + 1 + 1) with ((wid h + 1) * 4) by lia.
  apply Z.quot_mul. lia.
Qed.

(** ** States *)

Lemma State_not_involutive s : State_not (State_not s) = s.
Proof. by destruct s. Qed.

Lemma State_not_ne s : State_not s <> s.
Proof. by destruct s. Qed.

Lemma State_add_full fs a b :
  fs <> Unsure -> (State_add a b = fs <-> a = fs /\ b = fs).
Proof.
  unfold State_add. intros Hfs. destruct (decide (a = b)) as [->|Hne]; split.
  - by intros ->.
  - by intros [-> _].
  - by intros <-.
  - intros [-> ->]. done.
Qed.

Lemma State_add_live a b : a <> Invalid -> State_add a b <> Invalid.
Proof. unfold State_add. intros Ha. by destruct (decide (a = b)). Qed.

(** ** Consequences of the comparator contract *)

Section Order.
Hypothesis Hsw : strict_weak.

Lemma cmp_irrefl d a : select_compare d a a = false.
Proof.
  destruct (select_compare d a a) eqn:E; [|done].
  destruct Hsw as [Hasym _]. by rewrite (Hasym _ _ _ E) in E.
Qed.

Lemma cmp_asym d a b : select_compare d a b = true -> select_compare d b a = false.
Proof. destruct Hsw as [Hasym _]. apply Hasym. Qed.

(** [a >= b] and [b >= c] give [a >= c]. *)
Lemma cmp_ge_trans d a b c :
  select_compare d a b = false -> select_compare d b c = false ->
  select_compare d a c = false.
Proof.
  intros Hab Hbc. destruct (select_compare d a c) eqn:E; [|done].
  destruct Hsw as [_ Hco]. destruct (Hco _ _ _ b E); congruence.
Qed.

(** [a < b] and [b <= c] give [a < c]. *)
Lemma cmp_lt_le d a b c :
  select_compare d a b = true -> select_compare d c b = false ->
  select_compare d a c = true.
Proof.
  intros Hab Hcb. destruct Hsw as [_ Hco]. destruct (Hco _ _ _ c Hab); congruence.
Qed.

(** [a <= b] and [b < c] give [a < c]. *)
Lemma cmp_le_lt d a b c :
  select_compare d b a = false -> select_compare d b c = true ->
  select_compare d a c = true.
Proof.
  intros Hab Hbc. destruct Hsw as [_ Hco]. destruct (Hco _ _ _ a Hbc); congruence.
Qed.

End Order.

(** ** Framing *)

Definition agree (st st' : store) (lo hi : Z) : Prop :=
  forall q, lo <= q <= hi -> val st' q = val st q /\ sta st' q = sta st q.

Ltac wid_pos :=
  repeat match goal with
  | |- context [wid ?h] =>
    lazymatch goal with
    | _ : 0 <= wid h |- _ => fail
    | _ => pose proof (wid_nonneg h)
    end
  | _ : context [wid ?h] |- _ =>
    lazymatch goal with
    | _ : 0 <= wid h |- _ => fail
    | _ => pose proof (wid_nonneg h)
    end
  end.

Ltac geo :=
  unfold left, right in *;
  repeat rewrite off_S in *; repeat rewrite wid_S in *;
  wid_pos; lia.

Lemma agree_refl st lo hi : agree st st lo hi.
Proof. by intros q Hq. Qed.

Lemma agree_sub st st' lo hi lo' hi' :
  agree st st' lo hi -> lo <= lo' -> hi' <= hi -> agree st st' lo' hi'.
Proof. intros H Hlo Hhi q Hq. apply H. lia. Qed.

Lemma agree_sym st st' lo hi : agree st st' lo hi -> agree st' st lo hi.
Proof. intros H q Hq. destruct (H q Hq). by split. Qed.

Lemma agree_trans st1 st2 st3 lo hi :
  agree st1 st2 lo hi -> agree st2 st3 lo hi -> agree st1 st3 lo hi.
Proof.
  intros H1 H2 q Hq. destruct (H1 q Hq) as [<- <-]. by apply H2.
Qed.

Lemma same_outside_agree st st' lo hi lo' hi' :
  same_outside st st' lo hi -> hi' < lo \/ hi < lo' -> agree st st' lo' hi'.
Proof. intros [_ H] Hd q Hq. apply H. lia. Qed.

Lemma same_outside_refl st lo hi : same_outside st st lo hi.
Proof. by split. Qed.

Lemma same_outside_trans st1 st2 st3 lo hi :
  same_outside st1 st2 lo hi -> same_outside st2 st3 lo hi ->
  same_outside st1 st3 lo hi.
Proof.
  intros [Hs1 H1] [Hs2 H2]. split; [congruence|].
  intros q Hq. destruct (H1 q Hq) as [<- <-]. by apply H2.
Qed.

Lemma same_outside_sub st st' lo hi lo' hi' :
  same_outside st st' lo hi -> lo' <= lo -> hi <= hi' ->
  same_outside st st' lo' hi'.
Proof. intros [Hs H] Hlo Hhi. split; [done|]. intros q Hq. apply H. lia. Qed.

Lemma here_agree st st' p :
  val st' p = val st p -> sta st' p = sta st p -> here st' p = here st p.
Proof. unfold here. by intros -> ->. Qed.

Lemma elems_agree h : forall n st st',
  agree st st' (n - wid h) (n + wid h) -> elems st' h n = elems st h n.
Proof.
  induction h as [|h IH]; intros n st st' Hag.
  - simpl. destruct (Hag n) as [Hv Hs]; [simpl; lia|]. by apply here_agree.
  - cbn [elems]. destruct (Hag n) as [Hv Hs]; [geo|].
    rewrite (IH (n - off (S h)) st st'), (IH (n + off (S h)) st st').
    + by rewrite (here_agree st st').
    + eapply agree_sub; [exact Hag| |]; geo.
    + eapply agree_sub; [exact Hag| |]; geo.
Qed.

Lemma st_ok_agree fs h : forall n st st',
  agree st st' (n - wid h) (n + wid h) -> st_ok fs st h n -> st_ok fs st' h n.
Proof.
  induction h as [|h IH]; intros n st st' Hag.
  - simpl. destruct (Hag n) as [Hv ->]; [simpl; lia|]. done.
  - cbn [st_ok]. destruct (Hag n) as [_ ->]; [geo|].
    destruct (Hag (n - off (S h))) as [_ ->]; [geo|].
    destruct (Hag (n + off (S h))) as [_ ->]; [geo|].
    intros (H1 & H2 & H3 & H4). split; [done|]. split; [done|]. split.
    + eapply IH; [|done]. eapply agree_sub; [exact Hag| |]; geo.
    + eapply IH; [|done]. eapply agree_sub; [exact Hag| |]; geo.
Qed.

Lemma kd_ok_agree h : forall dim n st st',
  agree st st' (n - wid h) (n + wid h) -> kd_ok st dim h n -> kd_ok st' dim h n.
Proof.
  induction h as [|h IH]; intros dim n st st' Hag; [done|].
  cbn [kd_ok]. destruct (Hag n) as [-> _]; [geo|].
  assert (Hl : agree st st' (n - off (S h) - wid h) (n - off (S h) + wid h)).
  { eapply agree_sub; [exact Hag| |]; geo. }
  assert (Hr : agree st st' (n + off (S h) - wid h) (n + off (S h) + wid h)).
  { eapply agree_sub; [exact Hag| |]; geo. }
  rewrite (elems_agree h _ st st' Hl), (elems_agree h _ st st' Hr).
  intros (H1 & H2 & H3 & H4). repeat split; [done|done| |]; by eapply IH.
Qed.

Lemma elem_of_here st p y : y ∈ here st p <-> live st p /\ val st p = y.
Proof.
  unfold here, live. destruct (decide (sta st p = Invalid)) as [E|E].
  - split; [by intros ?%elem_of_nil|]. by intros [? _].
  - rewrite list_elem_of_singleton. split; [by intros ->|]. by intros [_ ->].
Qed.

Lemma elem_of_elems h : forall st n y,
  y ∈ elems st h n <->
  exists p, n - wid h <= p <= n + wid h /\ live st p /\ val st p = y.
Proof.
  induction h as [|h IH]; intros st n y.
  - simpl. rewrite elem_of_here. split.
    + intros [H1 H2]. exists n. split; [lia|done].
    + intros (p & Hp & H1 & H2). by replace n with p by lia.
  - cbn [elems]. rewrite !elem_of_app, !IH, elem_of_here. split.
    + intros [(p & Hp & H)|[[H1 H2]|(p & Hp & H)]].
      * exists p. split; [geo|done].
      * exists n. split; [geo|done].
      * exists p. split; [geo|done].
    + intros (p & Hp & H).
      destruct (Z.lt_trichotomy p n) as [Hlt|[->|Hgt]].
      * left. exists p. split; [geo|done].
      * right; left. done.
      * right; right. exists p. split; [geo|done].
Qed.

(** ** minimum and maximum *)

Ltac sz := repeat first [rewrite ssize_upd_v | rewrite ssize_upd_s]; lia.

Ltac mstep :=
  first [ rewrite bind_assoc | rewrite bind_ret
        | rewrite bind_rdv by sz | rewrite bind_rds by sz
        | rewrite bind_wrv by sz | rewrite bind_wrs by sz
        | rewrite bind_memcpy by sz | rewrite bind_is_valid by sz ];
  cbv beta.

Ltac msteps := repeat mstep.

Definition pick_max (fd : nat) (st : store) (best child : Z) : Z :=
  if negb (select_compare fd (val st child) (val st best)) then child else best.

Definition pick_min (fd : nat) (st : store) (best child : Z) : Z :=
  if negb (select_compare fd (val st best) (val st child)) then child else best.

Definition leaf_max (fd : nat) (st : store) (best c : Z) : Z :=
  if negb (bool_decide (sta st c = Invalid)) then pick_max fd st best c else best.

Definition leaf_min (fd : nat) (st : store) (best c : Z) : Z :=
  if negb (bool_decide (sta st c = Invalid)) then pick_min fd st best c else best.

Lemma leaf_max_run0 fd st best c :
  0 <= best < ssize st -> 0 <= c < ssize st ->
  (if negb (bool_decide (sta st c = Invalid))
   then cv <- rdv c;; bv <- rdv best;;
             ret (if negb (select_compare fd cv bv) then c else best)
   else ret best) st = Ok (leaf_max fd st best c) st.
Proof.
  intros Hb Hc. unfold leaf_max, pick_max.
  destruct (bool_decide (sta st c = Invalid)); simpl; msteps; done.
Qed.

Lemma leaf_max_run {B} fd st best c (k : Z -> M store B) :
  0 <= best < ssize st -> 0 <= c < ssize st ->
  bind (if negb (bool_decide (sta st c = Invalid))
        then cv <- rdv c;; bv <- rdv best;;
             ret (if negb (select_compare fd cv bv) then c else best)
        else ret best) k st = k (leaf_max fd st best c) st.
Proof. intros Hb Hc. by apply bind_ok, leaf_max_run0. Qed.

Lemma leaf_min_run0 fd st best c :
  0 <= best < ssize st -> 0 <= c < ssize st ->
  (if negb (bool_decide (sta st c = Invalid))
   then bv <- rdv best;; cv <- rdv c;;
             ret (if negb (select_compare fd bv cv) then c else best)
   else ret best) st = Ok (leaf_min fd st best c) st.
Proof.
  intros Hb Hc. unfold leaf_min, pick_min.
  destruct (bool_decide (sta st c = Invalid)); simpl; msteps; done.
Qed.

Lemma leaf_min_run {B} fd st best c (k : Z -> M store B) :
  0 <= best < ssize st -> 0 <= c < ssize st ->
  bind (if negb (bool_decide (sta st c = Invalid))
        then bv <- rdv best;; cv <- rdv c;;
             ret (if negb (select_compare fd bv cv) then c else best)
        else ret best) k st = k (leaf_min fd st best c) st.
Proof. intros Hb Hc. by apply bind_ok, leaf_min_run0. Qed.

Lemma elems_S st h n :
  elems st (S h) n = elems st h (n - off (S h)) ++ here st n ++ elems st h (n + off (S h)).
Proof. done. Qed.

Lemma st_ok_live fs st h n : st_ok fs st (S h) n -> live st n.
Proof. by intros [H _]. Qed.

Section Extrema.
Hypothesis Hsw : strict_weak.

Lemma pick_max_spec fd st best child :
  let r := pick_max fd st best child in
  (r = best \/ r = child) /\
  select_compare fd (val st r) (val st best) = false /\
  select_compare fd (val st r) (val st child) = false.
Proof.
  unfold pick_max. destruct (select_compare fd (val st child) (val st best)) eqn:E; simpl.
  - split; [by left|]. split; [by apply cmp_irrefl|]. by apply cmp_asym.
  - split; [by right|]. split; [done|]. by apply cmp_irrefl.
Qed.

Lemma pick_min_spec fd st best child :
  let r := pick_min fd st best child in
  (r = best \/ r = child) /\
  select_compare fd (val st best) (val st r) = false /\
  select_compare fd (val st child) (val st r) = false.
Proof.
  unfold pick_min. destruct (select_compare fd (val st best) (val st child)) eqn:E; simpl.
  - split; [by left|]. split; [by apply cmp_irrefl|]. by apply cmp_asym.
  - split; [by right|]. split; [done|]. by apply cmp_irrefl.
Qed.

Lemma leaf_max_spec fd st best c :
  let r := leaf_max fd st best c in
  (r = best \/ (r = c /\ live st c)) /\
  select_compare fd (val st r) (val st best) = false /\
  Forall (fun y => select_compare fd (val st r) y = false) (here st c).
Proof.
  unfold leaf_max, here, live. destruct (decide (sta st c = Invalid)) as [E|E].
  - rewrite bool_decide_eq_true_2 by done. simpl.
    split; [by left|]. split; [by apply cmp_irrefl|]. constructor.
  - rewrite bool_decide_eq_false_2 by done. simpl.
    destruct (pick_max_spec fd st best c) as ([->| ->] & H2 & H3); simpl in *.
    + split; [by left|]. split; [done|]. by repeat constructor.
    + split; [by right|]. split; [done|]. by repeat constructor.
Qed.

Lemma leaf_min_spec fd st best c :
  let r := leaf_min fd st best c in
  (r = best \/ (r = c /\ live st c)) /\
  select_compare fd (val st best) (val st r) = false /\
  Forall (fun y => select_compare fd y (val st r) = false) (here st c).
Proof.
  unfold leaf_min, here, live. destruct (decide (sta st c = Invalid)) as [E|E].
  - rewrite bool_decide_eq_true_2 by done. simpl.
    split; [by left|]. split; [by apply cmp_irrefl|]. constructor.
  - rewrite bool_decide_eq_false_2 by done. simpl.
    destruct (pick_min_spec fd st best c) as ([->| ->] & H2 & H3); simpl in *.
    + split; [by left|]. split; [done|]. by repeat constructor.
    + split; [by right|]. split; [done|]. by repeat constructor.
Qed.

Lemma maximum_loop_spec fs fd : forall h fuel nd n best st,
  (h < fuel)%nat ->
  0 <= n - wid h -> n + wid h < ssize st ->
  0 <= best < ssize st ->
  st_ok fs st h n -> kd_ok st nd h n ->
  select_compare fd (val st best) (val st n) = false ->
  exists r,
    maximum_loop fuel fd nd (off h) n best st = Ok r st /\
    (r = best \/ (n - wid h <= r <= n + wid h /\ r <> n /\ live st r)) /\
    select_compare fd (val st r) (val st best) = false /\
    Forall (fun y => select_compare fd (val st r) y = false) (elems st h n).
Proof.
  induction h as [|[|h] IH]; intros fuel nd n best st Hf Hlo Hhi Hb Hst Hkd Hbn;
    (destruct fuel as [|fuel]; [lia|]); cbn [maximum_loop].
  - (* a single slot *)
    simpl. exists best. split; [done|]. split; [by left|].
    split; [by apply cmp_irrefl|].
    unfold here. destruct (decide _); by repeat constructor.
  - (* a node over two leaves *)
    change (off 1) with 1. change (wid 1) with 1.
    cbn [Z.ltb Z.eqb Z.compare Pos.compare Pos.compare_cont Pos.eqb].
    simpl in Hlo, Hhi. unfold left, right.
    rewrite bind_is_valid by lia. rewrite leaf_max_run by lia.
    destruct (leaf_max_spec fd st best (n - 1)) as (H1a & H1b & H1c).
    set (b1 := leaf_max fd st best (n - 1)) in *. simpl in H1a, H1b, H1c.
    clearbody b1.
    assert (Hb1 : 0 <= b1 < ssize st) by (destruct H1a as [->|[-> _]]; lia).
    rewrite bind_is_valid by lia.
    destruct (leaf_max_spec fd st b1 (n + 1)) as (H2a & H2b & H2c).
    set (b2 := leaf_max fd st b1 (n + 1)) in *. simpl in H2a, H2b, H2c.
    exists b2. split.
    { apply leaf_max_run0; lia. }
    clearbody b2.
    split.
    { destruct H2a as [->|[-> ?]]; [destruct H1a as [->|[-> ?]]|].
      - by left.
      - right. split; [lia|]. split; [lia|done].
      - right. split; [lia|]. split; [lia|done]. }
    assert (Hb2b : select_compare fd (val st b2) (val st best) = false)
      by (eapply (cmp_ge_trans Hsw _ _ (val st b1)); eauto).
    split; [done|].
    cbn [elems]. change (off 1) with 1. rewrite !Forall_app. split; [|split; [|done]].
    + eapply Forall_impl; [exact H1c|]. intros y Hy. simpl in *. eapply (cmp_ge_trans Hsw _ _ (val st b1)); eauto.
    + destruct Hst as (Hl & _). unfold here. rewrite decide_False by done.
      repeat constructor. eapply (cmp_ge_trans Hsw _ _ (val st best)); eauto.
  - (* a taller subtree *)
    rewrite off_gt1. rewrite off_half.
    destruct Hst as (Hlive & Hfull & Hsl & Hsr).
    destruct Hkd as (Hkl & Hkr & Hkdl & Hkdr).
    unfold left, right.
    pose proof (wid_nonneg (S h)) as Hw. pose proof (off_S (S h)) as Ho.
    pose proof (wid_S (S h)) as Hww.
    set (lc := n - off (S (S h))) in *. set (rc := n + off (S (S h))) in *.
    destruct (IH fuel (inc nd) rc rc st) as (c & Hc & Hc1 & Hc2 & Hc3);
      [lia|unfold rc; lia|unfold rc; lia|unfold rc; lia
      |done|done|by apply cmp_irrefl|].
    assert (Hcr : 0 <= c < ssize st) by (unfold rc in *; lia).
    assert (Hcl : live st c).
    { destruct Hc1 as [->|(_ & _ & ?)]; [|done]. by eapply st_ok_live. }
    rewrite (bind_ok _ _ _ _ _ Hc). cbv beta.
    rewrite !bind_rdv by lia.
    fold (pick_max fd st best c).
    destruct (pick_max_spec fd st best c) as (Hp1 & Hp2 & Hp3).
    set (b1 := pick_max fd st best c) in *. simpl in Hp1, Hp2, Hp3.
    clearbody b1.
    assert (Hb1 : 0 <= b1 < ssize st) by (destruct Hp1 as [->| ->]; lia).
    assert (Hb1n : select_compare fd (val st b1) (val st n) = false)
      by (eapply (cmp_ge_trans Hsw _ _ (val st best)); eauto).
    assert (Hb1R : Forall (fun y => select_compare fd (val st b1) y = false)
                     (elems st (S h) rc)).
    { eapply Forall_impl; [exact Hc3|]. intros y Hy. simpl in *.
      eapply (cmp_ge_trans Hsw _ _ (val st c)); eauto. }
    assert (Hb1in : b1 = best \/ (n - wid (S (S h)) <= b1 <= n + wid (S (S h))
                                  /\ b1 <> n /\ live st b1)).
    { destruct Hp1 as [->| ->]; [by left|]. right. unfold rc in *. split; [lia|]. split; [lia|done]. }
    destruct (nd =? fd)%nat eqn:Edim.
    + (* the left subtree is pruned *)
      apply Nat.eqb_eq in Edim. subst nd.
      exists b1. split; [done|]. split; [done|]. split; [done|].
      rewrite (elems_S st (S h) n). fold lc rc.
      rewrite !Forall_app. split; [|split; [|done]].
      * eapply Forall_impl; [exact Hkl|]. intros y Hy. simpl in *.
        eapply (cmp_ge_trans Hsw _ _ (val st n)); eauto.
      * unfold here. rewrite decide_False by done. by repeat constructor.
    + rewrite !bind_rdv by (unfold lc; lia).
      fold (pick_max fd st b1 lc).
      destruct (pick_max_spec fd st b1 lc) as (Hq1 & Hq2 & Hq3).
      set (b2 := pick_max fd st b1 lc) in *. simpl in Hq1, Hq2, Hq3.
      clearbody b2.
      assert (Hb2 : 0 <= b2 < ssize st) by (destruct Hq1 as [->| ->]; unfold lc; lia).
      destruct (IH fuel (inc nd) lc b2 st) as (r & Hr & Hr1 & Hr2 & Hr3);
        [lia|unfold lc; lia|unfold lc; lia|done
        |done|done|done|].
      exists r. split; [done|].
      assert (Hrb1 : select_compare fd (val st r) (val st b1) = false)
        by (eapply (cmp_ge_trans Hsw _ _ (val st b2)); eauto).
      split.
      { destruct Hr1 as [->|(Hr1 & Hr1' & Hr1'')].
        - destruct Hq1 as [->| ->]; [done|]. right. unfold lc. split; [lia|]. split; [lia|].
          by eapply st_ok_live.
        - right. unfold lc in *. split; [lia|]. split; [lia|done]. }
      split; [eapply (cmp_ge_trans Hsw _ _ (val st b1)); eauto|].
      rewrite (elems_S st (S h) n). fold lc rc.
      rewrite !Forall_app. split; [done|split].
      * unfold here. rewrite decide_False by done. repeat constructor.
        eapply (cmp_ge_trans Hsw _ _ (val st b1)); eauto.
      * eapply Forall_impl; [exact Hb1R|]. intros y Hy. simpl in *.
        eapply (cmp_ge_trans Hsw _ _ (val st b1)); eauto.
Qed.

Lemma minimum_loop_spec fs fd : forall h fuel nd n best st,
  (h < fuel)%nat ->
  0 <= n - wid h -> n + wid h < ssize st ->
  0 <= best < ssize st ->
  st_ok fs st h n -> kd_ok st nd h n ->
  select_compare fd (val st n) (val st best) = false ->
  exists r,
    minimum_loop fuel fd nd (off h) n best st = Ok r st /\
    (r = best \/ (n - wid h <= r <= n + wid h /\ r <> n /\ live st r)) /\
    select_compare fd (val st best) (val st r) = false /\
    Forall (fun y => select_compare fd y (val st r) = false) (elems st h n).
Proof.
  induction h as [|[|h] IH]; intros fuel nd n best st Hf Hlo Hhi Hb Hst Hkd Hbn;
    (destruct fuel as [|fuel]; [lia|]); cbn [minimum_loop].
  - (* a single slot *)
    simpl. exists best. split; [done|]. split; [by left|].
    split; [by apply cmp_irrefl|].
    unfold here. destruct (decide _); by repeat constructor.
  - (* a node over two leaves *)
    change (off 1) with 1. change (wid 1) with 1.
    cbn [Z.ltb Z.eqb Z.compare Pos.compare Pos.compare_cont Pos.eqb].
    simpl in Hlo, Hhi. unfold left, right.
    rewrite bind_is_valid by lia. rewrite leaf_min_run by lia.
    destruct (leaf_min_spec fd st best (n - 1)) as (H1a & H1b & H1c).
    set (b1 := leaf_min fd st best (n - 1)) in *. simpl in H1a, H1b, H1c.
    clearbody b1.
    assert (Hb1 : 0 <= b1 < ssize st) by (destruct H1a as [->|[-> _]]; lia).
    rewrite bind_is_valid by lia.
    destruct (leaf_min_spec fd st b1 (n + 1)) as (H2a & H2b & H2c).
    set (b2 := leaf_min fd st b1 (n + 1)) in *. simpl in H2a, H2b, H2c.
    exists b2. split.
    { apply leaf_min_run0; lia. }
    clearbody b2.
    split.
    { destruct H2a as [->|[-> ?]]; [destruct H1a as [->|[-> ?]]|].
      - by left.
      - right. split; [lia|]. split; [lia|done].
      - right. split; [lia|]. split; [lia|done]. }
    assert (Hb2b : select_compare fd (val st best) (val st b2) = false)
      by (eapply (cmp_ge_trans Hsw _ _ (val st b1)); eauto).
    split; [done|].
    cbn [elems]. change (off 1) with 1. rewrite !Forall_app. split; [|split; [|done]].
    + eapply Forall_impl; [exact H1c|]. intros y Hy. simpl in *.
      eapply (cmp_ge_trans Hsw _ _ (val st b1)); eauto.
    + destruct Hst as (Hl & _). unfold here. rewrite decide_False by done.
      repeat constructor. eapply (cmp_ge_trans Hsw _ _ (val st best)); eauto.
  - (* a taller subtree *)
    rewrite off_gt1. rewrite off_half.
    destruct Hst as (Hlive & Hfull & Hsl & Hsr).
    destruct Hkd as (Hkl & Hkr & Hkdl & Hkdr).
    unfold left, right.
    pose proof (wid_nonneg (S h)) as Hw. pose proof (off_S (S h)) as Ho.
    pose proof (wid_S (S h)) as Hww.
    set (lc := n - off (S (S h))) in *. set (rc := n + off (S (S h))) in *.
    destruct (IH fuel (inc nd) lc lc st) as (c & Hc & Hc1 & Hc2 & Hc3);
      [lia|unfold lc; lia|unfold lc; lia|unfold lc; lia
      |done|done|by apply cmp_irrefl|].
    assert (Hcr : 0 <= c < ssize st) by (unfold lc in *; lia).
    assert (Hcl : live st c).
    { destruct Hc1 as [->|(_ & _ & ?)]; [|done]. by eapply st_ok_live. }
    rewrite (bind_ok _ _ _ _ _ Hc). cbv beta.
    rewrite !bind_rdv by lia.
    fold (pick_min fd st best c).
    destruct (pick_min_spec fd st best c) as (Hp1 & Hp2 & Hp3).
    set (b1 := pick_min fd st best c) in *. simpl in Hp1, Hp2, Hp3.
    clearbody b1.
    assert (Hb1 : 0 <= b1 < ssize st) by (destruct Hp1 as [->| ->]; lia).
    assert (Hb1n : select_compare fd (val st n) (val st b1) = false)
      by (eapply (cmp_ge_trans Hsw _ _ (val st best)); eauto).
    assert (Hb1L : Forall (fun y => select_compare fd y (val st b1) = false)
                     (elems st (S h) lc)).
    { eapply Forall_impl; [exact Hc3|]. intros y Hy. simpl in *.
      eapply (cmp_ge_trans Hsw _ _ (val st c)); eauto. }
    assert (Hb1in : b1 = best \/ (n - wid (S (S h)) <= b1 <= n + wid (S (S h))
                                  /\ b1 <> n /\ live st b1)).
    { destruct Hp1 as [->| ->]; [by left|]. right. unfold lc in *. split; [lia|]. split; [lia|done]. }
    destruct (nd =? fd)%nat eqn:Edim.
    + (* the right subtree is pruned *)
      apply Nat.eqb_eq in Edim. subst nd.
      exists b1. split; [done|]. split; [done|]. split; [done|].
      rewrite (elems_S st (S h) n). fold lc rc.
      rewrite !Forall_app. split; [done|split].
      * unfold here. rewrite decide_False by done. by repeat constructor.
      * eapply Forall_impl; [exact Hkr|]. intros y Hy. simpl in *.
        eapply (cmp_ge_trans Hsw _ _ (val st n)); eauto.
    + rewrite !bind_rdv by (unfold rc; lia).
      fold (pick_min fd st b1 rc).
      destruct (pick_min_spec fd st b1 rc) as (Hq1 & Hq2 & Hq3).
      set (b2 := pick_min fd st b1 rc) in *. simpl in Hq1, Hq2, Hq3.
      clearbody b2.
      assert (Hb2 : 0 <= b2 < ssize st) by (destruct Hq1 as [->| ->]; unfold rc; lia).
      destruct (IH fuel (inc nd) rc b2 st) as (r & Hr & Hr1 & Hr2 & Hr3);
        [lia|unfold rc; lia|unfold rc; lia|done
        |done|done|done|].
      exists r. split; [done|].
      assert (Hrb1 : select_compare fd (val st b1) (val st r) = false)
        by (eapply (cmp_ge_trans Hsw _ _ (val st b2)); eauto).
      split.
      { destruct Hr1 as [->|(Hr1 & Hr1' & Hr1'')].
        - destruct Hq1 as [->| ->]; [done|]. right. unfold rc. split; [lia|]. split; [lia|].
          by eapply st_ok_live.
        - right. unfold rc in *. split; [lia|]. split; [lia|done]. }
      split; [eapply (cmp_ge_trans Hsw _ _ (val st b1)); eauto|].
      rewrite (elems_S st (S h) n). fold lc rc.
      rewrite !Forall_app. split; [|split; [|done]].
      * eapply Forall_impl; [exact Hb1L|]. intros y Hy. simpl in *.
        eapply (cmp_ge_trans Hsw _ _ (val st b1)); eauto.
      * unfold here. rewrite decide_False by done. repeat constructor.
        eapply (cmp_ge_trans Hsw _ _ (val st b1)); eauto.
Qed.

(** [maximum] and [minimum] proper: the search starts with the root as best. *)
Lemma maximum_spec fs fd h fuel nd n st :
  (h < fuel)%nat ->
  0 <= n - wid h -> n + wid h < ssize st ->
  st_ok fs st h n -> kd_ok st nd h n -> live st n ->
  exists r,
    maximum fuel fd nd (off h) n st = Ok r st /\
    n - wid h <= r <= n + wid h /\ live st r /\
    Forall (fun y => select_compare fd (val st r) y = false) (elems st h n).
Proof.
  intros Hf Hlo Hhi Hst Hkd Hlive. pose proof (wid_nonneg h).
  destruct (maximum_loop_spec fs fd h fuel nd n n st) as (r & Hr & Hr1 & _ & Hr3);
    [done|done|done|lia|done|done|by apply cmp_irrefl|].
  exists r. split; [done|]. split; [|split; [|done]].
  - destruct Hr1 as [->|[? _]]; lia.
  - destruct Hr1 as [->|(_ & _ & ?)]; done.
Qed.

Lemma minimum_spec fs fd h fuel nd n st :
  (h < fuel)%nat ->
  0 <= n - wid h -> n + wid h < ssize st ->
  st_ok fs st h n -> kd_ok st nd h n -> live st n ->
  exists r,
    minimum fuel fd nd (off h) n st = Ok r st /\
    n - wid h <= r <= n + wid h /\ live st r /\
    Forall (fun y => select_compare fd y (val st r) = false) (elems st h n).
Proof.
  intros Hf Hlo Hhi Hst Hkd Hlive. pose proof (wid_nonneg h).
  destruct (minimum_loop_spec fs fd h fuel nd n n st) as (r & Hr & Hr1 & _ & Hr3);
    [done|done|done|lia|done|done|by apply cmp_irrefl|].
  exists r. split; [done|]. split; [|split; [|done]].
  - destruct Hr1 as [->|[? _]]; lia.
  - destruct Hr1 as [->|(_ & _ & ?)]; done.
Qed.

End Extrema.

(** ** Memory after a chain of writes *)

Ltac sz ::=
  repeat first
    [ rewrite ssize_upd_v | rewrite ssize_upd_s
    | match goal with H : ssize ?s = _ |- context [ssize ?s] => rewrite H end ];
  lia.


Lemma sta_upd_s_eq' st p q s :
  q = p /\ 0 <= p < ssize st -> sta (upd_s st p s) q = s.
Proof. intros [-> Hp]. by apply sta_upd_s_eq. Qed.

Lemma val_upd_v_eq' st p q v :
  q = p /\ 0 <= p < ssize st -> val (upd_v st p v) q = v.
Proof. intros [-> Hp]. by apply val_upd_v_eq. Qed.

Ltac mfin := repeat first [rewrite wrs_ok by sz | rewrite wrv_ok by sz].

Ltac sto :=
  repeat first
    [ rewrite sta_upd_v | rewrite val_upd_s
    | rewrite sta_upd_s_eq' by (split; [lia|sz])
    | rewrite sta_upd_s_ne by lia
    | rewrite val_upd_v_eq' by (split; [lia|sz])
    | rewrite val_upd_v_ne by lia ].

Ltac so_chain :=
  split; [repeat first [rewrite ssize_upd_v | rewrite ssize_upd_s]; reflexivity
         |let q := fresh "q" in let Hq := fresh "Hq" in intros q Hq; sto; done].

Lemma same_outside_upd_v st p v lo hi :
  lo <= p <= hi -> same_outside st (upd_v st p v) lo hi.
Proof.
  intros Hp. split; [apply ssize_upd_v|]. intros q Hq. by sto.
Qed.

Lemma same_outside_upd_s st p s lo hi :
  lo <= p <= hi -> same_outside st (upd_s st p s) lo hi.
Proof.
  intros Hp. split; [apply ssize_upd_s|]. intros q Hq. by sto.
Qed.

Lemma agree_upd_v st p v lo hi :
  p < lo \/ hi < p -> agree st (upd_v st p v) lo hi.
Proof. intros Hp q Hq. by sto. Qed.

Lemma agree_upd_s st p s lo hi :
  p < lo \/ hi < p -> agree st (upd_s st p s) lo hi.
Proof. intros Hp q Hq. by sto. Qed.

Lemma st_ok_S fs st h n :
  st_ok fs st (S h) n <->
  sta st n <> Invalid /\
  (sta st n = fs <-> sta st (n - off (S h)) = fs /\ sta st (n + off (S h)) = fs) /\
  st_ok fs st h (n - off (S h)) /\ st_ok fs st h (n + off (S h)).
Proof. done. Qed.

Lemma kd_ok_S st dim h n :
  kd_ok st dim (S h) n <->
  Forall (fun x => select_compare dim (val st n) x = false) (elems st h (n - off (S h))) /\
  Forall (fun x => select_compare dim x (val st n) = false) (elems st h (n + off (S h))) /\
  kd_ok st (inc dim) h (n - off (S h)) /\ kd_ok st (inc dim) h (n + off (S h)).
Proof. done. Qed.

Lemma here_live st p : sta st p <> Invalid -> here st p = [val st p].
Proof. intros H. unfold here. by rewrite decide_False. Qed.

Lemma here_dead st p : sta st p = Invalid -> here st p = [].
Proof. intros H. unfold here. by rewrite decide_True. Qed.

Ltac hsimp :=
  repeat match goal with
  | |- context [here ?s ?p] =>
    first [ rewrite (here_dead s p) by (sto; done)
          | rewrite (here_live s p) by (sto; congruence) ]
  end.

(** ** _erase_when_full *)

Section Erase.
Hypothesis Hsw : strict_weak.
Variable fs : State.
Hypothesis Hfs : fs = Heads \/ fs = Tails.

Lemma fs_live : fs <> Invalid.
Proof. destruct Hfs; congruence. Qed.

Lemma fs_sure : fs <> Unsure.
Proof. destruct Hfs; congruence. Qed.

Lemma erase_leaves nd fuel n erased st :
  (1 < fuel)%nat ->
  0 <= n - 1 -> n + 1 < ssize st ->
  st_ok fs st 1 n -> sta st n = fs -> kd_ok st nd 1 n ->
  n - 1 <= erased <= n + 1 ->
  exists st',
    _erase_when_full fuel nd 1 n erased st = Ok tt st' /\
    same_outside st st' (n - 1) (n + 1) /\
    st_ok fs st' 1 n /\ sta st' n <> fs /\ kd_ok st' nd 1 n /\
    elems st 1 n ≡ₚ val st erased :: elems st' 1 n.
Proof.
  intros Hf Hlo Hhi Hst Hfull Hkd He.
  pose proof fs_live as Hfl. pose proof fs_sure as Hfu.
  destruct fuel as [|fuel]; [lia|]. cbn [_erase_when_full].
  cbn [Z.ltb Z.eqb Z.compare Pos.compare Pos.compare_cont Pos.eqb]. unfold right.
  apply st_ok_S in Hst as (Hlive & Hiff & Hl & Hr). change (off 1) with 1 in *.
  apply Hiff in Hfull as Hch. destruct Hch as [Hsl Hsr].
  apply kd_ok_S in Hkd as (Hkl & Hkr & _ & _). change (off 1) with 1 in *.
  simpl in Hkl, Hkr. rewrite here_live in Hkl, Hkr by congruence.
  rewrite Forall_singleton in Hkl, Hkr.
  destruct (n =? erased) eqn:E.
  - apply Z.eqb_eq in E. subst erased. msteps. mfin.
    eexists. split; [done|]. split; [|split; [|split; [|split]]].
    + so_chain.
    + apply st_ok_S. change (off 1) with 1. simpl. sto.
      split; [done|]. split; [|split; [by right|by left]].
      split; [by intros ?|]. intros [_ ?]. congruence.
    + sto. congruence.
    + apply kd_ok_S. change (off 1) with 1. simpl. hsimp. sto.
      split; [|done]. rewrite Forall_singleton.
      eapply (cmp_ge_trans Hsw _ _ (val st n)); eauto.
    + cbn [elems]. change (off 1) with 1. hsimp. sto. simpl.
      solve_Permutation.
  - apply Z.eqb_neq in E. msteps. mfin.
    assert (erased = n - 1 \/ erased = n + 1) as [-> | ->] by lia.
    + eexists. split; [done|]. split; [|split; [|split; [|split]]].
      * so_chain.
      * apply st_ok_S. change (off 1) with 1. simpl. sto.
        split; [done|]. split; [|split; [by left|by right]].
        split; [by intros ?|]. intros [? _]. congruence.
      * sto. congruence.
      * apply kd_ok_S. change (off 1) with 1. simpl. hsimp. sto.
        split; [done|]. split; [|done]. by rewrite Forall_singleton.
      * cbn [elems]. change (off 1) with 1. hsimp. sto. simpl.
        solve_Permutation.
    + eexists. split; [done|]. split; [|split; [|split; [|split]]].
      * so_chain.
      * apply st_ok_S. change (off 1) with 1. simpl. sto.
        split; [done|]. split; [|split; [by right|by left]].
        split; [by intros ?|]. intros [_ ?]. congruence.
      * sto. congruence.
      * apply kd_ok_S. change (off 1) with 1. simpl. hsimp. sto.
        split; [|done]. by rewrite Forall_singleton.
      * cbn [elems]. change (off 1) with 1. hsimp. sto. simpl.
        solve_Permutation.
Qed.


Lemma erase_when_full_spec : forall h fuel nd n erased st,
  (S h < fuel)%nat ->
  0 <= n - wid (S h) -> n + wid (S h) < ssize st ->
  st_ok fs st (S h) n -> sta st n = fs -> kd_ok st nd (S h) n ->
  n - wid (S h) <= erased <= n + wid (S h) ->
  exists st',
    _erase_when_full fuel nd (off (S h)) n erased st = Ok tt st' /\
    same_outside st st' (n - wid (S h)) (n + wid (S h)) /\
    st_ok fs st' (S h) n /\ sta st' n <> fs /\ kd_ok st' nd (S h) n /\
    elems st (S h) n ≡ₚ val st erased :: elems st' (S h) n.
Proof.
  induction h as [|h IH]; intros fuel nd n erased st Hf Hlo Hhi Hst Hfull Hkd He.
  { change (off 1) with 1. change (wid 1) with 1 in *. by apply erase_leaves. }
  pose proof fs_live as Hfl. pose proof fs_sure as Hfu.
  destruct fuel as [|fuel]; [lia|]. cbn [_erase_when_full].
  rewrite off_gt1, off_half. unfold left, right.
  pose proof (wid_nonneg (S h)) as Hw. pose proof (off_S (S h)) as Ho.
  pose proof (wid_S (S h)) as Hww.
  apply st_ok_S in Hst as (Hlive & Hiff & Hsl & Hsr).
  apply Hiff in Hfull as Hch. destruct Hch as [Hfl' Hfr'].
  apply kd_ok_S in Hkd as (Hkl & Hkr & Hkdl & Hkdr).
  set (lc := n - off (S (S h))) in *. set (rc := n + off (S (S h))) in *.
  assert (Hlc : lc = n - (wid (S h) + 1)) by (unfold lc; lia).
  assert (Hrc : rc = n + (wid (S h) + 1)) by (unfold rc; lia).
  clearbody lc rc.
  destruct (n =? erased) eqn:E; [|destruct (n <? erased) eqn:E'].
  - (* the root goes: the minimum of the right subtree replaces it *)
    apply Z.eqb_eq in E. subst erased.
    destruct (minimum_spec Hsw fs nd (S h) fuel (inc nd) rc st)
      as (tmp & Ht & Htr & Htl & Htm); [lia|lia|lia|done|done|by eapply st_ok_live|].
    rewrite bind_assoc. rewrite (bind_ok _ _ _ _ _ Ht). msteps.
    set (st1 := upd_v st n (val st tmp)).
    assert (Hag1 : agree st st1 (rc - wid (S h)) (rc + wid (S h)))
      by (apply agree_upd_v; lia).
    destruct (IH fuel (inc nd) rc tmp st1)
      as (st2 & H2 & [Hsz2 Hfr2] & Hst2 & Hnf2 & Hkd2 & Hp2);
      [lia|lia|unfold st1; sz|by eapply st_ok_agree|by unfold st1; sto
      |by eapply kd_ok_agree|lia|].
    rewrite (elems_agree _ _ _ _ Hag1) in Hp2.
    replace (val st1 tmp) with (val st tmp) in Hp2 by (unfold st1; by sto).
    assert (Hsz1 : ssize st1 = ssize st) by apply ssize_upd_v.
    rewrite (bind_ok _ _ _ _ _ H2). rewrite wrs_ok by lia.
    set (st3 := upd_s st2 n Unsure).
    assert (Hv3 : val st3 n = val st tmp).
    { unfold st3. sto. destruct (Hfr2 n) as [-> _]; [lia|]. unfold st1. by sto. }
    assert (Hagl : agree st st3 (lc - wid (S h)) (lc + wid (S h))).
    { intros q Hq. unfold st3. sto. destruct (Hfr2 q) as [-> ->]; [lia|].
      unfold st1. by sto. }
    assert (Hagr : agree st2 st3 (rc - wid (S h)) (rc + wid (S h)))
      by (apply agree_upd_s; lia).
    assert (Hin : val st tmp ∈ elems st (S h) rc).
    { apply elem_of_elems. by exists tmp. }
    exists st3. split; [done|]. split; [|split; [|split; [|split]]].
    + split; [unfold st3; sz|]. intros q Hq. unfold st3. sto.
      destruct (Hfr2 q) as [-> ->]; [lia|]. unfold st1. by sto.
    + apply st_ok_S.
      replace (n - off (S (S h))) with lc by lia. replace (n + off (S (S h))) with rc by lia.
      unfold st3 at 1 2 3 4. sto. split; [done|]. split.
      * split; [by intros ?|]. intros [_ ?]. done.
      * split; [by eapply st_ok_agree|by eapply st_ok_agree].
    + unfold st3. by sto.
    + apply kd_ok_S.
      replace (n - off (S (S h))) with lc by lia. replace (n + off (S (S h))) with rc by lia.
      rewrite Hv3, (elems_agree _ _ _ _ Hagl), (elems_agree _ _ _ _ Hagr).
      split; [|split; [|split]].
      * rewrite Forall_forall in Hkr. specialize (Hkr _ Hin).
        eapply Forall_impl; [exact Hkl|]. intros y Hy. simpl in *.
        eapply (cmp_ge_trans Hsw _ _ (val st n)); eauto.
      * rewrite Hp2 in Htm. by apply Forall_cons in Htm as [_ ?].
      * by eapply kd_ok_agree.
      * by eapply kd_ok_agree.
    + rewrite (elems_S st (S h) n), (elems_S st3 (S h) n).
      replace (n - off (S (S h))) with lc by lia. replace (n + off (S (S h))) with rc by lia.
      rewrite (elems_agree _ _ _ _ Hagl), (elems_agree _ _ _ _ Hagr), Hp2.
      rewrite (here_live st n) by done.
      rewrite (here_live st3 n) by (unfold st3; by sto). rewrite Hv3.
      solve_Permutation.
  - (* the erased slot lies to the right *)
    apply Z.eqb_neq in E. apply Z.ltb_lt in E'.
    destruct (IH fuel (inc nd) rc erased st)
      as (st2 & H2 & [Hsz2 Hfr2] & Hst2 & Hnf2 & Hkd2 & Hp2);
      [lia|lia|lia|done|done|done|lia|].
    rewrite (bind_ok _ _ _ _ _ H2). rewrite wrs_ok by lia.
    set (st3 := upd_s st2 n Unsure).
    assert (Hv3 : val st3 n = val st n).
    { unfold st3. sto. by destruct (Hfr2 n) as [-> _]; [lia|]. }
    assert (Hagl : agree st st3 (lc - wid (S h)) (lc + wid (S h))).
    { intros q Hq. unfold st3. sto. by destruct (Hfr2 q) as [-> ->]; [lia|]. }
    assert (Hagr : agree st2 st3 (rc - wid (S h)) (rc + wid (S h)))
      by (apply agree_upd_s; lia).
    exists st3. split; [done|]. split; [|split; [|split; [|split]]].
    + split; [unfold st3; sz|]. intros q Hq. unfold st3. sto.
      by destruct (Hfr2 q) as [-> ->]; [lia|].
    + apply st_ok_S.
      replace (n - off (S (S h))) with lc by lia. replace (n + off (S (S h))) with rc by lia.
      unfold st3 at 1 2 3 4. sto. split; [done|]. split.
      * split; [by intros ?|]. intros [_ ?]. done.
      * split; [by eapply st_ok_agree|by eapply st_ok_agree].
    + unfold st3. by sto.
    + apply kd_ok_S.
      replace (n - off (S (S h))) with lc by lia. replace (n + off (S (S h))) with rc by lia.
      rewrite Hv3, (elems_agree _ _ _ _ Hagl), (elems_agree _ _ _ _ Hagr).
      split; [done|split; [|split]].
      * rewrite Hp2 in Hkr. by apply Forall_cons in Hkr as [_ ?].
      * by eapply kd_ok_agree.
      * by eapply kd_ok_agree.
    + rewrite (elems_S st (S h) n), (elems_S st3 (S h) n).
      replace (n - off (S (S h))) with lc by lia. replace (n + off (S (S h))) with rc by lia.
      rewrite (elems_agree _ _ _ _ Hagl), (elems_agree _ _ _ _ Hagr), Hp2.
      rewrite (here_live st n) by done.
      rewrite (here_live st3 n) by (unfold st3; by sto). rewrite Hv3.
      solve_Permutation.
  - (* the erased slot lies to the left *)
    apply Z.eqb_neq in E. apply Z.ltb_ge in E'.
    destruct (IH fuel (inc nd) lc erased st)
      as (st2 & H2 & [Hsz2 Hfr2] & Hst2 & Hnf2 & Hkd2 & Hp2);
      [lia|lia|lia|done|done|done|lia|].
    rewrite (bind_ok _ _ _ _ _ H2). rewrite wrs_ok by lia.
    set (st3 := upd_s st2 n Unsure).
    assert (Hv3 : val st3 n = val st n).
    { unfold st3. sto. by destruct (Hfr2 n) as [-> _]; [lia|]. }
    assert (Hagr : agree st st3 (rc - wid (S h)) (rc + wid (S h))).
    { intros q Hq. unfold st3. sto. by destruct (Hfr2 q) as [-> ->]; [lia|]. }
    assert (Hagl : agree st2 st3 (lc - wid (S h)) (lc + wid (S h)))
      by (apply agree_upd_s; lia).
    exists st3. split; [done|]. split; [|split; [|split; [|split]]].
    + split; [unfold st3; sz|]. intros q Hq. unfold st3. sto.
      by destruct (Hfr2 q) as [-> ->]; [lia|].
    + apply st_ok_S.
      replace (n - off (S (S h))) with lc by lia. replace (n + off (S (S h))) with rc by lia.
      unfold st3 at 1 2 3 4. sto. split; [done|]. split.
      * split; [by intros ?|]. intros [? _]. done.
      * split; [by eapply st_ok_agree|by eapply st_ok_agree].
    + unfold st3. by sto.
    + apply kd_ok_S.
      replace (n - off (S (S h))) with lc by lia. replace (n + off (S (S h))) with rc by lia.
      rewrite Hv3, (elems_agree _ _ _ _ Hagl), (elems_agree _ _ _ _ Hagr).
      split; [|split; [done|split]].
      * rewrite Hp2 in Hkl. by apply Forall_cons in Hkl as [_ ?].
      * by eapply kd_ok_agree.
      * by eapply kd_ok_agree.
    + rewrite (elems_S st (S h) n), (elems_S st3 (S h) n).
      replace (n - off (S (S h))) with lc by lia. replace (n + off (S (S h))) with rc by lia.
      rewrite (elems_agree _ _ _ _ Hagl), (elems_agree _ _ _ _ Hagr), Hp2.
      rewrite (here_live st n) by done.
      rewrite (here_live st3 n) by (unfold st3; by sto). rewrite Hv3.
      solve_Permutation.
Qed.

End Erase.

(** ** Deferred placement *)

(** The pending value [x] of [defer], as long as the slots [lo .. hi] are
    the only ones written: a relocation reads its source outside of
    them, a construction does not raise. *)
Definition defer_ok (defer : DeferredOp) (st : store) (x : V) (lo hi : Z) : Prop :=
  match defer with
  | _deferred_memcpy p => 0 <= p < ssize st /\ (p < lo \/ hi < p) /\ val st p = x
  | _deferred_copy v => v = x /\ copy_throws v = false
  | _deferred_move v => v = x /\ move_throws v = false
  end.

Lemma cref_run {B} defer st x lo hi (k : V -> M store B) :
  defer_ok defer st x lo hi -> bind (cref defer) k st = k x st.
Proof.
  destruct defer as [p|v|v]; simpl.
  - intros (Hp & _ & <-). by rewrite bind_rdv.
  - by intros [-> _].
  - by intros [-> _].
Qed.

Lemma place_at_run {B} defer st x lo hi p (k : unit -> M store B) :
  defer_ok defer st x lo hi -> 0 <= p < ssize st ->
  bind (place_at defer p) k st = k tt (upd_v st p x).
Proof.
  destruct defer as [q|v|v]; simpl.
  - intros (Hq & _ & <-) Hp. by rewrite bind_memcpy.
  - intros [-> ->] Hp. by rewrite bind_wrv.
  - intros [-> ->] Hp. by rewrite bind_wrv.
Qed.

Lemma defer_ok_frame defer st st' x lo hi :
  defer_ok defer st x lo hi -> same_outside st st' lo hi ->
  defer_ok defer st' x lo hi.
Proof.
  destruct defer as [q|v|v]; simpl; [|done|done].
  intros (Hq & Hout & <-) [Hsz Hfr]. split; [lia|]. split; [done|].
  by destruct (Hfr q Hout).
Qed.

Lemma defer_ok_sub defer st x lo hi lo' hi' :
  defer_ok defer st x lo hi -> lo <= lo' -> hi' <= hi ->
  defer_ok defer st x lo' hi'.
Proof.
  destruct defer as [q|v|v]; simpl; [|done|done].
  intros (Hq & Hout & <-) Hlo Hhi. split; [lia|]. split; [lia|done].
Qed.

Lemma cref_run' {B} defer st st' x lo hi (k : V -> M store B) :
  defer_ok defer st x lo hi -> same_outside st st' lo hi ->
  bind (cref defer) k st' = k x st'.
Proof. intros Hd Hso. eapply cref_run, defer_ok_frame; eauto. Qed.

Lemma place_at_run' {B} defer st st' x lo hi p (k : unit -> M store B) :
  defer_ok defer st x lo hi -> same_outside st st' lo hi -> 0 <= p < ssize st' ->
  bind (place_at defer p) k st' = k tt (upd_v st' p x).
Proof. intros Hd Hso Hp. eapply place_at_run; [|done]. eapply defer_ok_frame; eauto. Qed.

Ltac dstep H :=
  first [ rewrite (cref_run' _ _ _ _ _ _ _ H) by so_chain
        | rewrite (place_at_run' _ _ _ _ _ _ _ _ H) by (first [so_chain | sz]) ];
  cbv beta.

(** ** _single_insert *)

Section Insert.
Hypothesis Hsw : strict_weak.
Variable fs : State.
Hypothesis Hfs : fs = Heads \/ fs = Tails.

(** What [_single_insert] achieves on a subtree of height [h] that has
    room: the pending value joins the live values of the subtree, the
    state discipline and the k-d ordering are kept, nothing outside of the
    subtree is touched, and the returned slot holds the value. *)
Definition insert_spec_at (h : nat) : Prop :=
  forall fuel nd n defer st x,
    (h < fuel)%nat ->
    0 <= n - wid h -> n + wid h < ssize st ->
    st_ok fs st h n -> kd_ok st nd h n -> sta st n <> fs ->
    defer_ok defer st x (n - wid h) (n + wid h) ->
    exists st' p,
      _single_insert fuel fs nd (off h) n defer st = Ok p st' /\
      same_outside st st' (n - wid h) (n + wid h) /\
      st_ok fs st' h n /\ kd_ok st' nd h n /\
      elems st' h n ≡ₚ x :: elems st h n /\
      n - wid h <= p <= n + wid h /\ live st' p /\ val st' p = x.

Lemma insert_leaf : insert_spec_at 0.
Proof.
  intros fuel nd n defer st x Hf Hlo Hhi Hst Hkd Hroom Hd.
  pose proof (fs_live fs Hfs) as Hfl.
  destruct fuel as [|fuel]; [lia|]. cbn [_single_insert]. simpl in *.
  dstep Hd. msteps. eexists _, _. split; [done|].
  assert (Hinv : sta st n = Invalid) by (by destruct Hst).
  split; [so_chain|]. split; [sto; by right|]. split; [done|].
  split; [hsimp; by sto|]. split; [lia|]. split; [unfold live; by sto|by sto].
Qed.


Ltac ms H := repeat first [mstep | dstep H].

Ltac hsimp_in H :=
  repeat match type of H with
  | context [here ?s ?p] =>
    first [ rewrite (here_dead s p) in H by (sto; done)
          | rewrite (here_live s p) in H by (sto; congruence) ]
  end.

Ltac leaf_goals :=
  eexists _, _; split; [reflexivity|];
  split; [so_chain|];
  split; [apply st_ok_S; change (off 1) with 1; simpl; sto; intuition congruence|];
  split; [apply kd_ok_S; change (off 1) with 1; simpl; hsimp; sto;
          rewrite ?Forall_singleton; intuition eauto using cmp_asym|];
  split; [cbn [elems]; change (off 1) with 1; hsimp; sto; simpl; solve_Permutation|];
  split; [lia|];
  split; [unfold live; sto; congruence|sto; done].

Lemma insert_leaves : insert_spec_at 1.
Proof.
  intros fuel nd n defer st x Hf Hlo Hhi Hst Hkd Hroom Hd.
  pose proof (fs_live fs Hfs) as Hfl. pose proof (fs_sure fs Hfs) as Hfu.
  destruct fuel as [|fuel]; [lia|]. cbn [_single_insert].
  change (off 1) with 1. change (wid 1) with 1 in *.
  cbn [Z.ltb Z.eqb Z.compare Pos.compare Pos.compare_cont Pos.eqb]. unfold left, right.
  apply st_ok_S in Hst as (Hlive & Hiff & Hl & Hr). change (off 1) with 1 in *.
  simpl in Hl, Hr.
  apply kd_ok_S in Hkd as (Hkl & Hkr & _ & _). change (off 1) with 1 in *.
  simpl in Hkl, Hkr.
  ms Hd.
  destruct (select_compare nd x (val st n)) eqn:Ecmp.
  - ms Hd. destruct (decide (sta st (n - 1) = Invalid)) as [El|El].
    + rewrite bool_decide_eq_true_2 by done. cbn [negb]. ms Hd.
      destruct (decide (sta st (n + 1) = Invalid)) as [Er|Er].
      * rewrite bool_decide_eq_true_2 by (sto; done). cbn [negb]. ms Hd.
        hsimp_in Hkl. hsimp_in Hkr. leaf_goals.
      * rewrite bool_decide_eq_false_2 by (sto; done). cbn [negb]. ms Hd.
        hsimp_in Hkl. hsimp_in Hkr. rewrite Forall_singleton in Hkr.
        assert (sta st (n + 1) = fs) by (by destruct Hr). leaf_goals.
    + rewrite bool_decide_eq_false_2 by done. cbn [negb]. ms Hd.
      assert (Esl : sta st (n - 1) = fs) by (by destruct Hl).
      assert (Er : sta st (n + 1) = Invalid).
      { destruct Hr as [?|Hr]; [done|]. destruct Hroom. by apply Hiff. }
      hsimp_in Hkl. hsimp_in Hkr. rewrite Forall_singleton in Hkl.
      ms Hd.
      sto. destruct (select_compare nd x (val st (n - 1))) eqn:Ecmp2.
      * ms Hd. leaf_goals.
      * ms Hd. leaf_goals.
  - ms Hd. destruct (decide (sta st (n + 1) = Invalid)) as [Er|Er].
    + rewrite bool_decide_eq_true_2 by done. cbn [negb]. ms Hd.
      destruct (decide (sta st (n - 1) = Invalid)) as [El|El].
      * rewrite bool_decide_eq_true_2 by (sto; done). cbn [negb]. ms Hd.
        hsimp_in Hkl. hsimp_in Hkr. leaf_goals.
      * rewrite bool_decide_eq_false_2 by (sto; done). cbn [negb]. ms Hd.
        hsimp_in Hkl. hsimp_in Hkr. rewrite Forall_singleton in Hkl.
        assert (sta st (n - 1) = fs) by (by destruct Hl). leaf_goals.
    + rewrite bool_decide_eq_false_2 by done. cbn [negb]. ms Hd.
      assert (Esr : sta st (n + 1) = fs) by (by destruct Hr).
      assert (El : sta st (n - 1) = Invalid).
      { destruct Hl as [?|Hl]; [done|]. destruct Hroom. by apply Hiff. }
      hsimp_in Hkl. hsimp_in Hkr. rewrite Forall_singleton in Hkr.
      ms Hd.
      sto. destruct (select_compare nd (val st (n + 1)) x) eqn:Ecmp2.
      * ms Hd. leaf_goals.
      * ms Hd. leaf_goals.
Qed.


(** What a branch of the recursive case leaves behind, before the state of
    the node is recomputed; [h] is the height of the children. *)
Definition branch_post (st : store) (x : V) (nd h : nat) (n : Z)
    (stb : store) (p : Z) : Prop :=
  let lc := n - off (S h) in
  let rc := n + off (S h) in
  same_outside st stb (n - wid (S h)) (n + wid (S h)) /\
  st_ok fs stb h lc /\ st_ok fs stb h rc /\
  kd_ok stb (inc nd) h lc /\ kd_ok stb (inc nd) h rc /\
  Forall (fun y => select_compare nd (val stb n) y = false) (elems stb h lc) /\
  Forall (fun y => select_compare nd y (val stb n) = false) (elems stb h rc) /\
  elems stb h lc ++ [val stb n] ++ elems stb h rc ≡ₚ x :: elems st (S h) n /\
  n - wid (S h) <= p <= n + wid (S h) /\ (p = n \/ live stb p) /\ val stb p = x.

Lemma same_outside_at st st' lo hi q :
  same_outside st st' lo hi -> q < lo \/ hi < q ->
  val st' q = val st q /\ sta st' q = sta st q.
Proof. intros [_ H] Hq. by apply H. Qed.

Lemma insert_finish h nd n st stb p x :
  0 <= n - wid (S (S h)) -> n + wid (S (S h)) < ssize st ->
  branch_post st x nd (S h) n stb p ->
  exists st',
    (ls <- rds (n - off (S (S h)));; rs <- rds (n + off (S (S h)));;
     wrs n (State_add ls rs);; ret p) stb = Ok p st' /\
    same_outside st st' (n - wid (S (S h))) (n + wid (S (S h))) /\
    st_ok fs st' (S (S h)) n /\ kd_ok st' nd (S (S h)) n /\
    elems st' (S (S h)) n ≡ₚ x :: elems st (S (S h)) n /\
    n - wid (S (S h)) <= p <= n + wid (S (S h)) /\ live st' p /\ val st' p = x.
Proof.
  intros Hlo Hhi (Hso & Hsl & Hsr & Hkdl & Hkdr & Hkl & Hkr & Hperm & Hp & Hpl & Hpv).
  pose proof (fs_sure fs Hfs) as Hfu.
  pose proof (wid_nonneg (S h)) as Hw. pose proof (off_S (S h)) as Ho.
  pose proof (wid_S (S h)) as Hww.
  set (lc := n - off (S (S h))) in *. set (rc := n + off (S (S h))) in *.
  assert (Hlc : lc = n - (wid (S h) + 1)) by (unfold lc; lia).
  assert (Hrc : rc = n + (wid (S h) + 1)) by (unfold rc; lia).
  clearbody lc rc.
  assert (Hsz : ssize stb = ssize st) by apply Hso.
  msteps.
  set (st' := upd_s stb n (State_add (sta stb lc) (sta stb rc))).
  assert (Hagl : agree stb st' (lc - wid (S h)) (lc + wid (S h)))
    by (apply agree_upd_s; lia).
  assert (Hagr : agree stb st' (rc - wid (S h)) (rc + wid (S h)))
    by (apply agree_upd_s; lia).
  assert (Hll : sta stb lc <> Invalid) by (by eapply st_ok_live).
  exists st'. split; [done|]. split; [|split; [|split; [|split; [|split; [|split]]]]].
  - eapply same_outside_trans; [exact Hso|]. apply same_outside_upd_s. lia.
  - apply st_ok_S.
    replace (n - off (S (S h))) with lc by lia. replace (n + off (S (S h))) with rc by lia.
    unfold st' at 1 2 3 4. sto. split; [by apply State_add_live|].
    split; [by apply State_add_full|]. split; by eapply st_ok_agree.
  - apply kd_ok_S.
    replace (n - off (S (S h))) with lc by lia. replace (n + off (S (S h))) with rc by lia.
    rewrite (elems_agree _ _ _ _ Hagl), (elems_agree _ _ _ _ Hagr).
    replace (val st' n) with (val stb n) by (unfold st'; by sto).
    split; [done|]. split; [done|]. split; by eapply kd_ok_agree.
  - rewrite (elems_S st' (S h) n).
    replace (n - off (S (S h))) with lc by lia. replace (n + off (S (S h))) with rc by lia.
    rewrite (elems_agree _ _ _ _ Hagl), (elems_agree _ _ _ _ Hagr).
    rewrite (here_live st' n) by (unfold st'; sto; by apply State_add_live).
    replace (val st' n) with (val stb n) by (unfold st'; by sto). done.
  - done.
  - destruct Hpl as [->|Hpl].
    + unfold live, st'. sto. by apply State_add_live.
    + destruct (decide (p = n)) as [->|Hne].
      * unfold live, st'. sto. by apply State_add_live.
      * unfold live, st'. by sto.
  - unfold st'. by sto.
Qed.

Lemma recurse_left h fuel nd n defer st x :
  insert_spec_at (S h) ->
  (S h < fuel)%nat ->
  0 <= n - wid (S (S h)) -> n + wid (S (S h)) < ssize st ->
  st_ok fs st (S (S h)) n -> kd_ok st nd (S (S h)) n ->
  defer_ok defer st x (n - wid (S (S h))) (n + wid (S (S h))) ->
  sta st (n - off (S (S h))) <> fs ->
  select_compare nd (val st n) x = false ->
  exists stb p,
    _single_insert fuel fs (inc nd) (off (S h)) (n - off (S (S h))) defer st = Ok p stb /\
    branch_post st x nd (S h) n stb p.
Proof.
  intros IH Hf Hlo Hhi Hst Hkd Hd Hroom Hcmp.
  pose proof (wid_nonneg (S h)) as Hw. pose proof (off_S (S h)) as Ho.
  pose proof (wid_S (S h)) as Hww.
  apply st_ok_S in Hst as (Hlive & Hiff & Hsl & Hsr).
  apply kd_ok_S in Hkd as (Hkl & Hkr & Hkdl & Hkdr).
  unfold branch_post. rewrite (elems_S st (S h) n).
  set (lc := n - off (S (S h))) in *. set (rc := n + off (S (S h))) in *.
  assert (Hlc : lc = n - (wid (S h) + 1)) by (unfold lc; lia).
  assert (Hrc : rc = n + (wid (S h) + 1)) by (unfold rc; lia).
  clearbody lc rc.
  destruct (IH fuel (inc nd) lc defer st x)
    as (stb & p & Hrun & Hso & Hst' & Hkd' & Hperm & Hp & Hpl & Hpv);
    [lia|lia|lia|done|done|done|eapply defer_ok_sub; [exact Hd|lia|lia]|].
  assert (Hagr : agree st stb (rc - wid (S h)) (rc + wid (S h)))
    by (eapply same_outside_agree; [exact Hso|lia]).
  destruct (same_outside_at _ _ _ _ n Hso) as [Hvn Hsn]; [lia|].
  exists stb, p. split; [done|].
  split; [eapply same_outside_sub; [exact Hso|lia|lia]|].
  split; [done|]. split; [by eapply st_ok_agree|].
  split; [done|]. split; [by eapply kd_ok_agree|].
  rewrite Hvn, (elems_agree _ _ _ _ Hagr), (here_live st n) by done.
  split; [rewrite Hperm; by constructor|]. split; [done|].
  split; [rewrite Hperm; solve_Permutation|]. split; [lia|]. split; [by right|done].
Qed.

Lemma recurse_right h fuel nd n defer st x :
  insert_spec_at (S h) ->
  (S h < fuel)%nat ->
  0 <= n - wid (S (S h)) -> n + wid (S (S h)) < ssize st ->
  st_ok fs st (S (S h)) n -> kd_ok st nd (S (S h)) n ->
  defer_ok defer st x (n - wid (S (S h))) (n + wid (S (S h))) ->
  sta st (n + off (S (S h))) <> fs ->
  select_compare nd x (val st n) = false ->
  exists stb p,
    _single_insert fuel fs (inc nd) (off (S h)) (n + off (S (S h))) defer st = Ok p stb /\
    branch_post st x nd (S h) n stb p.
Proof.
  intros IH Hf Hlo Hhi Hst Hkd Hd Hroom Hcmp.
  pose proof (wid_nonneg (S h)) as Hw. pose proof (off_S (S h)) as Ho.
  pose proof (wid_S (S h)) as Hww.
  apply st_ok_S in Hst as (Hlive & Hiff & Hsl & Hsr).
  apply kd_ok_S in Hkd as (Hkl & Hkr & Hkdl & Hkdr).
  unfold branch_post. rewrite (elems_S st (S h) n).
  set (lc := n - off (S (S h))) in *. set (rc := n + off (S (S h))) in *.
  assert (Hlc : lc = n - (wid (S h) + 1)) by (unfold lc; lia).
  assert (Hrc : rc = n + (wid (S h) + 1)) by (unfold rc; lia).
  clearbody lc rc.
  destruct (IH fuel (inc nd) rc defer st x)
    as (stb & p & Hrun & Hso & Hst' & Hkd' & Hperm & Hp & Hpl & Hpv);
    [lia|lia|lia|done|done|done|eapply defer_ok_sub; [exact Hd|lia|lia]|].
  assert (Hagl : agree st stb (lc - wid (S h)) (lc + wid (S h)))
    by (eapply same_outside_agree; [exact Hso|lia]).
  destruct (same_outside_at _ _ _ _ n Hso) as [Hvn Hsn]; [lia|].
  exists stb, p. split; [done|].
  split; [eapply same_outside_sub; [exact Hso|lia|lia]|].
  split; [by eapply st_ok_agree|]. split; [done|].
  split; [by eapply kd_ok_agree|]. split; [done|].
  rewrite Hvn, (elems_agree _ _ _ _ Hagl), (here_live st n) by done.
  split; [done|]. split; [rewrite Hperm; by constructor|].
  split; [rewrite Hperm; solve_Permutation|]. split; [lia|]. split; [by right|done].
Qed.

Lemma rotate_left h fuel nd n defer st x :
  insert_spec_at (S h) ->
  (S h < fuel)%nat ->
  0 <= n - wid (S (S h)) -> n + wid (S (S h)) < ssize st ->
  st_ok fs st (S (S h)) n -> kd_ok st nd (S (S h)) n ->
  sta st n <> fs ->
  defer_ok defer st x (n - wid (S (S h))) (n + wid (S (S h))) ->
  sta st (n - off (S (S h))) = fs ->
  select_compare nd x (val st n) = true ->
  exists stb p,
    (_single_insert fuel fs (inc nd) (off (S h)) (n + off (S (S h)))
       (_deferred_memcpy n);;
     tmp <- maximum fuel nd (inc nd) (off (S h)) (n - off (S (S h)));;
     pv <- cref defer;; tv <- rdv tmp;;
     if select_compare nd pv tv then
       memcpy n tmp;;
       _erase_when_full fuel (inc nd) (off (S h)) (n - off (S (S h))) tmp;;
       _single_insert fuel fs (inc nd) (off (S h)) (n - off (S (S h))) defer
     else place_at defer n;; ret n) st = Ok p stb /\
    branch_post st x nd (S h) n stb p.
Proof.
  intros IH Hf Hlo Hhi Hst Hkd Hroom Hd Hfull Hcmp.
  pose proof (wid_nonneg (S h)) as Hw. pose proof (off_S (S h)) as Ho.
  pose proof (wid_S (S h)) as Hww.
  apply st_ok_S in Hst as (Hlive & Hiff & Hsl & Hsr).
  apply kd_ok_S in Hkd as (Hkl & Hkr & Hkdl & Hkdr).
  unfold branch_post. rewrite (elems_S st (S h) n), (here_live st n) by done.
  set (lc := n - off (S (S h))) in *. set (rc := n + off (S (S h))) in *.
  assert (Hlc : lc = n - (wid (S h) + 1)) by (unfold lc; lia).
  assert (Hrc : rc = n + (wid (S h) + 1)) by (unfold rc; lia).
  clearbody lc rc.
  (* the root value is pushed into the right subtree *)
  destruct (IH fuel (inc nd) rc (_deferred_memcpy n) st (val st n))
    as (st1 & p1 & Hrun1 & Hso1 & Hst1 & Hkd1 & Hperm1 & _);
    [lia|lia|lia|done|done| |cbn [defer_ok]; split; [lia|]; split; [lia|done]|].
  { intros Hr. apply Hroom. by apply Hiff. }
  rewrite (bind_ok _ _ _ _ _ Hrun1).
  assert (Hsz1 : ssize st1 = ssize st) by apply Hso1.
  assert (Hagl1 : agree st st1 (lc - wid (S h)) (lc + wid (S h)))
    by (eapply same_outside_agree; [exact Hso1|lia]).
  destruct (same_outside_at _ _ _ _ n Hso1) as [Hvn1 Hsn1]; [lia|].
  assert (Hso1' : same_outside st st1 (n - wid (S (S h))) (n + wid (S (S h))))
    by (eapply same_outside_sub; [exact Hso1|lia|lia]).
  (* the maximum of the left subtree *)
  destruct (maximum_spec Hsw fs nd (S h) fuel (inc nd) lc st1)
    as (tmp & Hmax & Htr & Htl & Htm);
    [lia|lia|lia|by eapply st_ok_agree|by eapply kd_ok_agree
    |eapply st_ok_live, st_ok_agree; [exact Hagl1|exact Hsl]|].
  rewrite (bind_ok _ _ _ _ _ Hmax).
  rewrite (elems_agree _ _ _ _ Hagl1) in Htm.
  destruct (Hagl1 tmp) as [Hvt Hst_tmp]; [lia|]. rewrite Hvt in Htm.
  rewrite (cref_run' _ _ _ _ _ _ _ Hd Hso1'). rewrite bind_rdv by lia. rewrite Hvt.
  assert (Hin : val st tmp ∈ elems st (S h) lc).
  { apply elem_of_elems. exists tmp. split; [lia|]. split; [|done].
    unfold live in *. by rewrite <- Hst_tmp. }
  assert (Hnt : select_compare nd (val st n) (val st tmp) = false).
  { rewrite Forall_forall in Hkl. by apply Hkl. }
  assert (HR1 : Forall (fun y => select_compare nd y (val st n) = false)
                  (elems st1 (S h) rc)).
  { rewrite Hperm1. constructor; [by apply cmp_irrefl|done]. }
  destruct (select_compare nd x (val st tmp)) eqn:Ecmp2.
  - (* the maximum moves up and the pending value goes left *)
    rewrite bind_memcpy by lia. rewrite Hvt.
    set (st2 := upd_v st1 n (val st tmp)).
    assert (Hsz2 : ssize st2 = ssize st) by (unfold st2; sz).
    assert (Hagl2 : agree st st2 (lc - wid (S h)) (lc + wid (S h))).
    { eapply agree_trans; [exact Hagl1|]. apply agree_upd_v. lia. }
    destruct (erase_when_full_spec Hsw fs Hfs h fuel (inc nd) lc tmp st2)
      as (st3 & Hrun3 & Hso3 & Hst3 & Hnf3 & Hkd3 & Hperm3);
      [lia|lia|lia|by eapply st_ok_agree
      |by destruct (Hagl2 lc) as [_ ->]; [lia|]
      |by eapply kd_ok_agree|lia|].
    rewrite (elems_agree _ _ _ _ Hagl2) in Hperm3.
    destruct (Hagl2 tmp) as [Hvt2 _]; [lia|]. rewrite Hvt2 in Hperm3.
    rewrite (bind_ok _ _ _ _ _ Hrun3). cbv beta.
    assert (Hsz3 : ssize st3 = ssize st) by (destruct Hso3; lia).
    assert (Hso03 : same_outside st st3 (n - wid (S (S h))) (n + wid (S (S h)))).
    { eapply same_outside_trans; [exact Hso1'|].
      eapply (same_outside_trans _ st2); [apply same_outside_upd_v; lia|].
      eapply same_outside_sub; [exact Hso3|lia|lia]. }
    destruct (IH fuel (inc nd) lc defer st3 x)
      as (st4 & p & Hrun4 & Hso4 & Hst4 & Hkd4 & Hperm4 & Hp & Hpl & Hpv);
      [lia|lia|lia|done|done|done| |].
    { eapply defer_ok_sub; [eapply defer_ok_frame; [exact Hd|exact Hso03]|lia|lia]. }
    assert (Hagr4 : agree st1 st4 (rc - wid (S h)) (rc + wid (S h))).
    { eapply (agree_trans _ st2); [apply agree_upd_v; lia|].
      eapply (agree_trans _ st3); [eapply same_outside_agree; [exact Hso3|lia]|].
      eapply same_outside_agree; [exact Hso4|lia]. }
    assert (Hvn4 : val st4 n = val st tmp).
    { destruct (same_outside_at _ _ _ _ n Hso4) as [-> _]; [lia|].
      destruct (same_outside_at _ _ _ _ n Hso3) as [-> _]; [lia|].
      unfold st2. by sto. }
    exists st4, p. split; [done|].
    split.
    { eapply same_outside_trans; [exact Hso03|].
      eapply same_outside_sub; [exact Hso4|lia|lia]. }
    split; [done|]. split; [by eapply st_ok_agree|].
    split; [done|]. split; [by eapply kd_ok_agree|].
    rewrite Hvn4, (elems_agree _ _ _ _ Hagr4).
    rewrite Hperm3 in Htm. apply Forall_cons in Htm as [_ Htm].
    split; [rewrite Hperm4; constructor; [by apply cmp_asym|done]|].
    split.
    { rewrite Hperm1. constructor; [done|]. eapply Forall_impl; [exact Hkr|].
      intros y Hy. simpl in *. eapply (cmp_ge_trans Hsw _ _ (val st n)); eauto. }
    split; [rewrite Hperm4, Hperm1, Hperm3; solve_Permutation|].
    split; [lia|]. split; [by right|done].
  - (* the pending value becomes the root *)
    rewrite (place_at_run' _ _ _ _ _ _ _ _ Hd Hso1') by lia.
    set (st2 := upd_v st1 n x).
    assert (Hagl2 : agree st st2 (lc - wid (S h)) (lc + wid (S h))).
    { eapply agree_trans; [exact Hagl1|]. apply agree_upd_v. lia. }
    assert (Hagr2 : agree st1 st2 (rc - wid (S h)) (rc + wid (S h))) by (apply agree_upd_v; lia).
    assert (Hvn2 : val st2 n = x) by (unfold st2; by sto).
    exists st2, n. split; [done|].
    split.
    { eapply same_outside_trans; [exact Hso1'|]. apply same_outside_upd_v. lia. }
    split; [by eapply st_ok_agree|]. split; [by eapply st_ok_agree|].
    split; [by eapply kd_ok_agree|]. split; [by eapply kd_ok_agree|].
    rewrite Hvn2, (elems_agree _ _ _ _ Hagl2), (elems_agree _ _ _ _ Hagr2).
    split.
    { eapply Forall_impl; [exact Htm|]. intros y Hy. simpl in *.
      eapply (cmp_ge_trans Hsw _ _ (val st tmp)); eauto. }
    split.
    { rewrite Hperm1. constructor; [by apply cmp_asym|]. eapply Forall_impl; [exact Hkr|].
      intros y Hy. simpl in *. eapply (cmp_ge_trans Hsw _ _ (val st n)); eauto.
      by apply cmp_asym. }
    split; [rewrite Hperm1; solve_Permutation|].
    split; [lia|]. split; [by left|done].
Qed.

Lemma rotate_right h fuel nd n defer st x :
  insert_spec_at (S h) ->
  (S h < fuel)%nat ->
  0 <= n - wid (S (S h)) -> n + wid (S (S h)) < ssize st ->
  st_ok fs st (S (S h)) n -> kd_ok st nd (S (S h)) n ->
  sta st n <> fs ->
  defer_ok defer st x (n - wid (S (S h))) (n + wid (S (S h))) ->
  sta st (n + off (S (S h))) = fs ->
  select_compare nd (val st n) x = true ->
  exists stb p,
    (_single_insert fuel fs (inc nd) (off (S h)) (n - off (S (S h)))
       (_deferred_memcpy n);;
     tmp <- minimum fuel nd (inc nd) (off (S h)) (n + off (S (S h)));;
     tv <- rdv tmp;; pv <- cref defer;;
     if select_compare nd tv pv then
       memcpy n tmp;;
       _erase_when_full fuel (inc nd) (off (S h)) (n + off (S (S h))) tmp;;
       _single_insert fuel fs (inc nd) (off (S h)) (n + off (S (S h))) defer
     else place_at defer n;; ret n) st = Ok p stb /\
    branch_post st x nd (S h) n stb p.
Proof.
  intros IH Hf Hlo Hhi Hst Hkd Hroom Hd Hfull Hcmp.
  pose proof (wid_nonneg (S h)) as Hw. pose proof (off_S (S h)) as Ho.
  pose proof (wid_S (S h)) as Hww.
  apply st_ok_S in Hst as (Hlive & Hiff & Hsl & Hsr).
  apply kd_ok_S in Hkd as (Hkl & Hkr & Hkdl & Hkdr).
  unfold branch_post. rewrite (elems_S st (S h) n), (here_live st n) by done.
  set (lc := n - off (S (S h))) in *. set (rc := n + off (S (S h))) in *.
  assert (Hlc : lc = n - (wid (S h) + 1)) by (unfold lc; lia).
  assert (Hrc : rc = n + (wid (S h) + 1)) by (unfold rc; lia).
  clearbody lc rc.
  (* the root value is pushed into the left subtree *)
  destruct (IH fuel (inc nd) lc (_deferred_memcpy n) st (val st n))
    as (st1 & p1 & Hrun1 & Hso1 & Hst1 & Hkd1 & Hperm1 & _);
    [lia|lia|lia|done|done| |cbn [defer_ok]; split; [lia|]; split; [lia|done]|].
  { intros Hr. apply Hroom. by apply Hiff. }
  rewrite (bind_ok _ _ _ _ _ Hrun1).
  assert (Hsz1 : ssize st1 = ssize st) by apply Hso1.
  assert (Hagr1 : agree st st1 (rc - wid (S h)) (rc + wid (S h)))
    by (eapply same_outside_agree; [exact Hso1|lia]).
  destruct (same_outside_at _ _ _ _ n Hso1) as [Hvn1 Hsn1]; [lia|].
  assert (Hso1' : same_outside st st1 (n - wid (S (S h))) (n + wid (S (S h))))
    by (eapply same_outside_sub; [exact Hso1|lia|lia]).
  (* the minimum of the right subtree *)
  destruct (minimum_spec Hsw fs nd (S h) fuel (inc nd) rc st1)
    as (tmp & Hmin & Htr & Htl & Htm);
    [lia|lia|lia|by eapply st_ok_agree|by eapply kd_ok_agree
    |eapply st_ok_live, st_ok_agree; [exact Hagr1|exact Hsr]|].
  rewrite (bind_ok _ _ _ _ _ Hmin).
  rewrite (elems_agree _ _ _ _ Hagr1) in Htm.
  destruct (Hagr1 tmp) as [Hvt Hst_tmp]; [lia|]. rewrite Hvt in Htm.
  rewrite bind_rdv by lia. rewrite (cref_run' _ _ _ _ _ _ _ Hd Hso1'). rewrite Hvt.
  assert (Hin : val st tmp ∈ elems st (S h) rc).
  { apply elem_of_elems. exists tmp. split; [lia|]. split; [|done].
    unfold live in *. by rewrite <- Hst_tmp. }
  assert (Hnt : select_compare nd (val st tmp) (val st n) = false).
  { rewrite Forall_forall in Hkr. by apply Hkr. }
  destruct (select_compare nd (val st tmp) x) eqn:Ecmp2.
  - (* the minimum moves up and the pending value goes right *)
    rewrite bind_memcpy by lia. rewrite Hvt.
    set (st2 := upd_v st1 n (val st tmp)).
    assert (Hsz2 : ssize st2 = ssize st) by (unfold st2; sz).
    assert (Hagr2 : agree st st2 (rc - wid (S h)) (rc + wid (S h))).
    { eapply agree_trans; [exact Hagr1|]. apply agree_upd_v. lia. }
    destruct (erase_when_full_spec Hsw fs Hfs h fuel (inc nd) rc tmp st2)
      as (st3 & Hrun3 & Hso3 & Hst3 & Hnf3 & Hkd3 & Hperm3);
      [lia|lia|lia|by eapply st_ok_agree
      |by destruct (Hagr2 rc) as [_ ->]; [lia|]
      |by eapply kd_ok_agree|lia|].
    rewrite (elems_agree _ _ _ _ Hagr2) in Hperm3.
    destruct (Hagr2 tmp) as [Hvt2 _]; [lia|]. rewrite Hvt2 in Hperm3.
    rewrite (bind_ok _ _ _ _ _ Hrun3). cbv beta.
    assert (Hsz3 : ssize st3 = ssize st) by (destruct Hso3; lia).
    assert (Hso03 : same_outside st st3 (n - wid (S (S h))) (n + wid (S (S h)))).
    { eapply same_outside_trans; [exact Hso1'|].
      eapply (same_outside_trans _ st2); [apply same_outside_upd_v; lia|].
      eapply same_outside_sub; [exact Hso3|lia|lia]. }
    destruct (IH fuel (inc nd) rc defer st3 x)
      as (st4 & p & Hrun4 & Hso4 & Hst4 & Hkd4 & Hperm4 & Hp & Hpl & Hpv);
      [lia|lia|lia|done|done|done| |].
    { eapply defer_ok_sub; [eapply defer_ok_frame; [exact Hd|exact Hso03]|lia|lia]. }
    assert (Hagl4 : agree st1 st4 (lc - wid (S h)) (lc + wid (S h))).
    { eapply (agree_trans _ st2); [apply agree_upd_v; lia|].
      eapply (agree_trans _ st3); [eapply same_outside_agree; [exact Hso3|lia]|].
      eapply same_outside_agree; [exact Hso4|lia]. }
    assert (Hvn4 : val st4 n = val st tmp).
    { destruct (same_outside_at _ _ _ _ n Hso4) as [-> _]; [lia|].
      destruct (same_outside_at _ _ _ _ n Hso3) as [-> _]; [lia|].
      unfold st2. by sto. }
    exists st4, p. split; [done|].
    split.
    { eapply same_outside_trans; [exact Hso03|].
      eapply same_outside_sub; [exact Hso4|lia|lia]. }
    split; [by eapply st_ok_agree|]. split; [done|].
    split; [by eapply kd_ok_agree|]. split; [done|].
    rewrite Hvn4, (elems_agree _ _ _ _ Hagl4).
    rewrite Hperm3 in Htm. apply Forall_cons in Htm as [_ Htm].
    split.
    { rewrite Hperm1. constructor; [done|]. eapply Forall_impl; [exact Hkl|].
      intros y Hy. simpl in *. eapply (cmp_ge_trans Hsw _ _ (val st n)); eauto. }
    split; [rewrite Hperm4; constructor; [by apply cmp_asym|done]|].
    split; [rewrite Hperm4, Hperm1, Hperm3; solve_Permutation|].
    split; [lia|]. split; [by right|done].
  - (* the pending value becomes the root *)
    rewrite (place_at_run' _ _ _ _ _ _ _ _ Hd Hso1') by lia.
    set (st2 := upd_v st1 n x).
    assert (Hagr2 : agree st st2 (rc - wid (S h)) (rc + wid (S h))).
    { eapply agree_trans; [exact Hagr1|]. apply agree_upd_v. lia. }
    assert (Hagl2 : agree st1 st2 (lc - wid (S h)) (lc + wid (S h)))
      by (apply agree_upd_v; lia).
    assert (Hvn2 : val st2 n = x) by (unfold st2; by sto).
    exists st2, n. split; [done|].
    split.
    { eapply same_outside_trans; [exact Hso1'|]. apply same_outside_upd_v. lia. }
    split; [by eapply st_ok_agree|]. split; [by eapply st_ok_agree|].
    split; [by eapply kd_ok_agree|]. split; [by eapply kd_ok_agree|].
    rewrite Hvn2, (elems_agree _ _ _ _ Hagl2), (elems_agree _ _ _ _ Hagr2).
    split.
    { rewrite Hperm1. constructor; [by apply cmp_asym|]. eapply Forall_impl; [exact Hkl|].
      intros y Hy. simpl in *. eapply (cmp_ge_trans Hsw _ _ (val st n)); eauto.
      by apply cmp_asym. }
    split.
    { eapply Forall_impl; [exact Htm|]. intros y Hy. simpl in *.
      eapply (cmp_ge_trans Hsw _ _ (val st tmp)); eauto. }
    split; [rewrite Hperm1; solve_Permutation|].
    split; [lia|]. split; [by left|done].
Qed.

Lemma off_ne1 h : (off (S (S h)) =? 1) = false.
Proof. rewrite off_S, wid_S. pose proof (wid_nonneg h). apply Z.eqb_neq. lia. Qed.

Lemma insert_node h : insert_spec_at (S h) -> insert_spec_at (S (S h)).
Proof.
  intros IH fuel nd n defer st x Hf Hlo Hhi Hst Hkd Hroom Hd.
  destruct fuel as [|fuel]; [lia|]. cbn [_single_insert].
  rewrite off_ne1, off_gt1, off_half. unfold left, right.
  pose proof (wid_nonneg (S h)) as Hw. pose proof (off_S (S h)) as Ho.
  pose proof (wid_S (S h)) as Hww.
  assert (Hiff : sta st n = fs <->
                 sta st (n - off (S (S h))) = fs /\ sta st (n + off (S (S h))) = fs)
    by apply Hst.
  rewrite (cref_run _ _ _ _ _ _ Hd). rewrite bind_rdv by lia.
  destruct (select_compare nd x (val st n)) eqn:E1.
  - rewrite bind_assoc, bind_rds by lia.
    destruct (decide (sta st (n - off (S (S h))) = fs)) as [El|El].
    + rewrite bool_decide_eq_true_2 by done.
      destruct (rotate_left h fuel nd n defer st x) as (stb & p & Hrun & Hpost);
        [done|lia|done|done|done|done|done|done|done|done|].
      rewrite (bind_ok _ _ _ _ _ Hrun).
        destruct (insert_finish h nd n st stb p x Hlo Hhi Hpost) as (st' & Hfin).
        by exists st', p.
    + rewrite bool_decide_eq_false_2 by done.
      destruct (recurse_left h fuel nd n defer st x) as (stb & p & Hrun & Hpost);
        [done|lia|done|done|done|done|done|done|by apply cmp_asym|].
      rewrite (bind_ok _ _ _ _ _ Hrun).
        destruct (insert_finish h nd n st stb p x Hlo Hhi Hpost) as (st' & Hfin).
        by exists st', p.
  - rewrite bind_assoc, bind_rdv by lia. rewrite bind_assoc, (cref_run _ _ _ _ _ _ Hd).
    destruct (select_compare nd (val st n) x) eqn:E2.
    + rewrite bind_assoc, bind_rds by lia.
      destruct (decide (sta st (n + off (S (S h))) = fs)) as [Er|Er].
      * rewrite bool_decide_eq_true_2 by done.
        destruct (rotate_right h fuel nd n defer st x) as (stb & p & Hrun & Hpost);
          [done|lia|done|done|done|done|done|done|done|done|].
        rewrite (bind_ok _ _ _ _ _ Hrun).
        destruct (insert_finish h nd n st stb p x Hlo Hhi Hpost) as (st' & Hfin).
        by exists st', p.
      * rewrite bool_decide_eq_false_2 by done.
        destruct (recurse_right h fuel nd n defer st x) as (stb & p & Hrun & Hpost);
          [done|lia|done|done|done|done|done|done|done|].
        rewrite (bind_ok _ _ _ _ _ Hrun).
        destruct (insert_finish h nd n st stb p x Hlo Hhi Hpost) as (st' & Hfin).
        by exists st', p.
    + rewrite bind_assoc, bind_rds by lia.
      destruct (decide (sta st (n - off (S (S h))) = fs)) as [El|El].
      * rewrite bool_decide_eq_true_2 by done.
        destruct (recurse_right h fuel nd n defer st x) as (stb & p & Hrun & Hpost);
          [done|lia|done|done|done|done|done| |done|].
        { intros Er. apply Hroom. by apply Hiff. }
        rewrite (bind_ok _ _ _ _ _ Hrun).
        destruct (insert_finish h nd n st stb p x Hlo Hhi Hpost) as (st' & Hfin).
        by exists st', p.
      * rewrite bool_decide_eq_false_2 by done.
        destruct (recurse_left h fuel nd n defer st x) as (stb & p & Hrun & Hpost);
          [done|lia|done|done|done|done|done|done|done|].
        rewrite (bind_ok _ _ _ _ _ Hrun).
        destruct (insert_finish h nd n st stb p x Hlo Hhi Hpost) as (st' & Hfin).
        by exists st', p.
Qed.

(** [_single_insert] meets its specification at every height. *)
Lemma single_insert_spec h : insert_spec_at h.
Proof.
  induction h as [|[|h] IH].
  - apply insert_leaf.
  - apply insert_leaves.
  - by apply insert_node.
Qed.

End Insert.

(** ** _find *)

Definition differ (i : nat) (a b : V) : bool :=
  select_compare i a b || select_compare i b a.

Lemma scan_axes_spec n : forall i a b,
  let r := scan_axes n i a b in
  (i <= r <= i + n)%nat /\
  (forall j, (i <= j < r)%nat -> differ j a b = false) /\
  ((r < i + n)%nat -> differ r a b = true).
Proof.
  induction n as [|n IH]; intros i a b; cbn [scan_axes].
  - split; [lia|]. split; [intros j Hj; lia|lia].
  - fold (differ i a b). destruct (differ i a b) eqn:E.
    + split; [lia|]. split; [intros j Hj; lia|done].
    + destruct (IH (S i) a b) as (H1 & H2 & H3). split; [lia|]. split.
      * intros j Hj. destruct (decide (j = i)) as [->|Hne]; [done|]. apply H2. lia.
      * intros Hr. apply H3. lia.
Qed.

Lemma all_axes_equal_spec nd a b :
  all_axes_equal nd a b = true <->
  (nd < K)%nat /\ forall j, (j < K)%nat -> j <> nd -> differ j a b = false.
Proof.
  unfold all_axes_equal.
  destruct (scan_axes_spec nd 0 a b) as (H1 & H2 & H3). simpl in *.
  destruct (Nat.eqb_spec (scan_axes nd 0 a b) nd) as [E|E].
  - rewrite E in *.
    destruct (scan_axes_spec (K - S nd) (S nd) a b) as (G1 & G2 & G3). simpl in *.
    rewrite Nat.eqb_eq. split.
    + intros E2. rewrite E2 in *. split; [lia|]. intros j Hj Hne.
      destruct (decide (j < nd)%nat); [apply H2; lia|apply G2; lia].
    + intros [Hlt Hall].
      destruct (decide (scan_axes (K - S nd) (S nd) a b = K)) as [|Hne]; [done|].
      rewrite Hall in G3 by lia. discriminate G3. lia.
  - split; [done|]. intros [Hlt Hall]. rewrite Hall in H3 by lia.
    discriminate H3. lia.
Qed.

Lemma inc_lt d : (0 < K)%nat -> (inc d < K)%nat.
Proof. intros HK. unfold inc. apply Nat.mod_upper_bound. lia. Qed.

Section Find.
Hypothesis Hsw : strict_weak.
Hypothesis HK : (0 < K)%nat.
Variable fs : State.

Lemma axis_equal_differ nd a b :
  (nd < K)%nat ->
  select_compare nd a b = false -> select_compare nd b a = false ->
  (all_axes_equal nd a b = true <-> axis_equal a b).
Proof.
  intros Hnd H1 H2. rewrite all_axes_equal_spec. unfold axis_equal, differ. split.
  - intros [_ Hall] d Hd. destruct (decide (d = nd)) as [->|Hne]; [done|].
    by apply orb_false_elim, Hall.
  - intros Hall. split; [done|]. intros j Hj _. destruct (Hall j Hj) as [-> ->]. done.
Qed.

(** What the lookup establishes on a subtree: a hit is a live slot of the
    subtree that equals [v] on every axis, and it does not miss a value
    that the subtree holds. *)
Lemma find_spec : forall h fuel fin nd n v st,
  (h < fuel)%nat ->
  0 <= n - wid h -> n + wid h < ssize st ->
  (nd < K)%nat ->
  st_ok fs st h n -> kd_ok st nd h n ->
  exists r,
    _find fuel fin nd (off h) n v st = Ok r st /\
    (r = fin \/ (n - wid h <= r <= n + wid h /\ live st r /\ axis_equal (val st r) v)) /\
    ((exists q, n - wid h <= q <= n + wid h /\ live st q /\ axis_equal (val st q) v) ->
     (n - wid h <= r <= n + wid h /\ live st r /\ axis_equal (val st r) v)).
Proof.
  induction h as [|h IH]; intros fuel fin nd n v st Hf Hlo Hhi Hnd Hst Hkd;
    (destruct fuel as [|fuel]; [lia|]); cbn [_find].
  - (* a leaf *)
    simpl in Hlo, Hhi. change (off 0) with 0. change (wid 0) with 0.
    rewrite bind_is_valid by lia.
    destruct (decide (sta st n = Invalid)) as [E|E].
    + rewrite bool_decide_eq_true_2 by done. simpl. exists fin.
      split; [done|]. split; [by left|]. intros (q & Hq & Hl & _).
      replace q with n in Hl by lia. done.
    + rewrite bool_decide_eq_false_2 by done. cbn [negb]. rewrite bind_rdv by lia.
      destruct (select_compare nd v (val st n)) eqn:E1;
        [|destruct (select_compare nd (val st n) v) eqn:E2;
          [|destruct (all_axes_equal nd (val st n) v) eqn:E3]]; simpl.
      * exists fin. split; [done|]. split; [by left|]. intros (q & Hq & _ & Ha).
        replace q with n in Ha by lia. destruct (Ha nd Hnd). congruence.
      * exists fin. split; [done|]. split; [by left|]. intros (q & Hq & _ & Ha).
        replace q with n in Ha by lia. destruct (Ha nd Hnd). congruence.
      * apply axis_equal_differ in E3; [|done..].
        exists n. split; [done|]. split; [right|]; (split; [lia|done]).
      * exists fin. split; [done|]. split; [by left|]. intros (q & Hq & _ & Ha).
        replace q with n in Ha by lia.
        assert (all_axes_equal nd (val st n) v = true) by (by apply axis_equal_differ).
        congruence.
  - (* a node with two subtrees *)
    pose proof (wid_nonneg h) as Hw. pose proof (off_S h) as Ho.
    pose proof (wid_S h) as Hww.
    apply st_ok_S in Hst as (Hlive & _ & Hsl & Hsr).
    apply kd_ok_S in Hkd as (Hkl & Hkr & Hkdl & Hkdr).
    rewrite bind_is_valid by lia. rewrite bool_decide_eq_false_2 by done.
    cbn [negb]. rewrite bind_rdv by lia. rewrite off_half. unfold left, right.
    set (lc := n - off (S h)) in *. set (rc := n + off (S h)) in *.
    assert (Hlc : lc = n - (wid h + 1)) by (unfold lc; lia).
    assert (Hrc : rc = n + (wid h + 1)) by (unfold rc; lia).
    assert (Hoff : (off (S h) =? 0) = false) by (apply Z.eqb_neq; lia).
    clearbody lc rc. rewrite Hoff. cbn [negb].
    destruct (IH fuel fin (inc nd) lc v st) as (rl & Hrl & Hrl1 & Hrl2);
      [lia|lia|lia|by apply inc_lt|done|done|].
    destruct (IH fuel fin (inc nd) rc v st) as (rr & Hrr & Hrr1 & Hrr2);
      [lia|lia|lia|by apply inc_lt|done|done|].
    (* where a value equal to [v] can be *)
    assert (Hleft : forall q, lc - wid h <= q <= lc + wid h -> live st q ->
              axis_equal (val st q) v -> select_compare nd (val st n) v = false).
    { intros q Hq Hl Ha. rewrite Forall_forall in Hkl.
      assert (Hin : val st q ∈ elems st h lc) by (apply elem_of_elems; eauto).
      specialize (Hkl _ Hin). destruct (Ha nd Hnd).
      eapply (cmp_ge_trans Hsw _ _ (val st q)); eauto. }
    assert (Hright : forall q, rc - wid h <= q <= rc + wid h -> live st q ->
              axis_equal (val st q) v -> select_compare nd v (val st n) = false).
    { intros q Hq Hl Ha. rewrite Forall_forall in Hkr.
      assert (Hin : val st q ∈ elems st h rc) by (apply elem_of_elems; eauto).
      specialize (Hkr _ Hin). destruct (Ha nd Hnd).
      eapply (cmp_ge_trans Hsw _ _ (val st q)); eauto. }
    assert (Hhit : select_compare nd v (val st n) = false ->
              select_compare nd (val st n) v = false ->
              all_axes_equal nd (val st n) v = true ->
              exists r, ret n st = Ok r st /\
                (r = fin \/ (n - wid (S h) <= r <= n + wid (S h) /\ live st r /\
                             axis_equal (val st r) v)) /\
                ((exists q, n - wid (S h) <= q <= n + wid (S h) /\ live st q /\
                            axis_equal (val st q) v) ->
                 (n - wid (S h) <= r <= n + wid (S h) /\ live st r /\
                  axis_equal (val st r) v))).
    { intros E1 E2 E3. apply axis_equal_differ in E3; [|done..].
      exists n. split; [done|]. split; [right|intros _]; (split; [lia|done]). }
    assert (Hsplit : forall q, n - wid (S h) <= q <= n + wid (S h) ->
              q = n \/ lc - wid h <= q <= lc + wid h \/ rc - wid h <= q <= rc + wid h)
      by (intros q Hq; lia).
    destruct (select_compare nd v (val st n)) eqn:E1;
      [|destruct (select_compare nd (val st n) v) eqn:E2;
        [|destruct (all_axes_equal nd (val st n) v) eqn:E3]]; cbn [negb andb];
      [| | by apply Hhit |].
    + (* left only *)
      rewrite (cmp_asym Hsw _ _ _ E1). cbn [negb andb].
      rewrite (bind_ok _ _ _ _ _ Hrl). cbv beta.
      assert (Hnone : forall q, n - wid (S h) <= q <= n + wid (S h) -> live st q ->
                axis_equal (val st q) v -> lc - wid h <= q <= lc + wid h).
      { intros q Hq Hl Ha. destruct (Hsplit q Hq) as [->|[?|Hr]]; [|done|].
        - destruct (Ha nd Hnd). congruence.
        - specialize (Hright q Hr Hl Ha). congruence. }
      destruct (rl =? fin) eqn:Efin; cbn [negb].
      * apply Z.eqb_eq in Efin. subst rl. exists fin. split; [done|]. split; [by left|].
        intros (q & Hq & Hl & Ha). destruct Hrl2 as (Hr1 & Hr2 & Hr3); [eauto|].
        split; [lia|done].
      * apply Z.eqb_neq in Efin. exists rl. split; [done|].
        destruct Hrl1 as [?|(Hr1 & Hr2 & Hr3)]; [done|].
        split; [right|intros _]; (split; [lia|done]).
    + (* right only *)
      cbn [negb andb]. rewrite bind_ret. cbv beta. cbn [negb andb].
      assert (Hnone : forall q, n - wid (S h) <= q <= n + wid (S h) -> live st q ->
                axis_equal (val st q) v -> rc - wid h <= q <= rc + wid h).
      { intros q Hq Hl Ha. destruct (Hsplit q Hq) as [->|[Hl'|?]]; [| |done].
        - destruct (Ha nd Hnd). congruence.
        - specialize (Hleft q Hl' Hl Ha). congruence. }
      exists rr. split; [done|]. split.
      * destruct Hrr1 as [?|(Hr1 & Hr2 & Hr3)]; [by left|]. right. split; [lia|done].
      * intros (q & Hq & Hl & Ha). destruct Hrr2 as (Hr1 & Hr2 & Hr3); [eauto|].
        split; [lia|done].
    + (* equal on the split axis, but not the value looked for *)
      rewrite (bind_ok _ _ _ _ _ Hrl). cbv beta.
      destruct (rl =? fin) eqn:Efin; cbn [negb].
      * apply Z.eqb_eq in Efin. subst rl. exists rr. split; [done|]. split.
        -- destruct Hrr1 as [?|(Hr1 & Hr2 & Hr3)]; [by left|]. right. split; [lia|done].
        -- intros (q & Hq & Hl & Ha).
           destruct (Hsplit q Hq) as [->|[Hl'|Hr']].
           ++ assert (all_axes_equal nd (val st n) v = true)
                by (by apply axis_equal_differ).
              congruence.
           ++ destruct Hrl2 as (Hr1 & Hr2 & Hr3); [eauto|].
              destruct Hrr1 as [->|(G1 & G2 & G3)]; [|split; [lia|done]].
              split; [lia|done].
           ++ destruct Hrr2 as (Hr1 & Hr2 & Hr3); [eauto|]. split; [lia|done].
      * apply Z.eqb_neq in Efin. exists rl. split; [done|].
        destruct Hrl1 as [?|(Hr1 & Hr2 & Hr3)]; [done|].
        split; [right|intros _]; (split; [lia|done]).
Qed.

End Find.

(** ** Full subtrees *)

Lemma full_all fs h : forall st n,
  st_ok fs st h n -> sta st n = fs ->
  forall q, n - wid h <= q <= n + wid h -> sta st q = fs.
Proof.
  induction h as [|h IH]; intros st n Hst Hfull q Hq.
  - simpl in Hq. by replace q with n by lia.
  - pose proof (wid_nonneg h) as Hw. pose proof (off_S h) as Ho.
    pose proof (wid_S h) as Hww.
    apply st_ok_S in Hst as (_ & Hiff & Hsl & Hsr).
    apply Hiff in Hfull as Hch. destruct Hch as [Hl Hr].
    destruct (Z.lt_trichotomy q n) as [Hlt|[->|Hgt]]; [|done|].
    + eapply (IH st (n - off (S h))); [done|done|lia].
    + eapply (IH st (n + off (S h))); [done|done|lia].
Qed.

Lemma here_length st p : (length (here st p) <= 1)%nat.
Proof. unfold here. destruct (decide _); simpl; lia. Qed.

Lemma elems_length_le h : forall st n,
  Z.of_nat (length (elems st h n)) <= 2 * wid h + 1.
Proof.
  induction h as [|h IH]; intros st n.
  - simpl. pose proof (here_length st n). lia.
  - rewrite elems_S, !length_app, wid_S.
    pose proof (here_length st n).
    pose proof (IH st (n - off (S h))). pose proof (IH st (n + off (S h))). lia.
Qed.

Lemma elems_length_full fs h : forall st n,
  fs <> Invalid -> st_ok fs st h n ->
  (Z.of_nat (length (elems st h n)) = 2 * wid h + 1 <-> sta st n = fs).
Proof.
  induction h as [|h IH]; intros st n Hfs Hst.
  - simpl in *. unfold here. destruct (decide (sta st n = Invalid)) as [E|E]; simpl.
    + split; [lia|congruence].
    + split; [|done]. intros _. by destruct Hst.
  - apply st_ok_S in Hst as (Hlive & Hiff & Hsl & Hsr).
    rewrite elems_S, !length_app, wid_S, (here_live st n) by done. cbn [length].
    pose proof (elems_length_le h st (n - off (S h))).
    pose proof (elems_length_le h st (n + off (S h))).
    rewrite Hiff, <- (IH st (n - off (S h))), <- (IH st (n + off (S h))) by done.
    lia.
Qed.

(** ** _expand *)

Definition src_of (old : option store) (st : store) : store :=
  match old with None => st | Some o => o end.

Lemma src_rds_run {B} old st p (k : State -> M store B) :
  0 <= p < ssize (src_of old st) ->
  bind (src_rds old p) k st = k (sta (src_of old st) p) st.
Proof.
  intros Hp. destruct old as [o|]; simpl in *.
  - unfold bind. by rewrite rds_ok.
  - by rewrite bind_rds.
Qed.

Lemma src_rdv_run {B} old st p (k : V -> M store B) :
  0 <= p < ssize (src_of old st) ->
  bind (src_rdv old p) k st = k (val (src_of old st) p) st.
Proof.
  intros Hp. destruct old as [o|]; simpl in *.
  - unfold bind. by rewrite rdv_ok.
  - by rewrite bind_rdv.
Qed.

(** The loop of [_expand] with [slow] at [k] and [last] at [2k]: the slots
    [0 .. k-1] of the source end up at the odd slots below [2k], the even
    slots below [2k] are [Invalid], and nothing from [2k] on is written. *)
Lemma expand_loop_spec old : forall (k fuel : nat) st,
  (k <= fuel)%nat ->
  2 * Z.of_nat k <= ssize st ->
  Z.of_nat k <= ssize (src_of old st) ->
  exists st',
    _expand_loop fuel old 0 (2 * Z.of_nat k) (Z.of_nat k) st = Ok tt st' /\
    ssize st' = ssize st /\
    (forall i, 0 <= i < Z.of_nat k ->
       val st' (2 * i + 1) = val (src_of old st) i /\
       sta st' (2 * i + 1) = sta (src_of old st) i /\
       sta st' (2 * i) = Invalid) /\
    (forall q, 2 * Z.of_nat k <= q -> val st' q = val st q /\ sta st' q = sta st q).
Proof.
  induction k as [|k IH]; intros fuel st Hf Hsz Hsrc.
  - exists st. destruct fuel; simpl; (split; [done|]); (split; [done|]);
      (split; [intros i Hi; lia|done]).
  - destruct fuel as [|fuel]; [lia|]. cbn [_expand_loop].
    assert (Hne : (2 * Z.of_nat (S k) =? 0) = false) by (apply Z.eqb_neq; lia).
    rewrite Hne. cbn [negb].
    replace (Z.of_nat (S k) - 1) with (Z.of_nat k) by lia.
    replace (2 * Z.of_nat (S k) - 1) with (2 * Z.of_nat k + 1) by lia.
    rewrite src_rds_run by lia. rewrite bind_wrs by lia.
    set (st1 := upd_s st (2 * Z.of_nat k + 1) (sta (src_of old st) (Z.of_nat k))).
    assert (Hsrc1 : val (src_of old st1) (Z.of_nat k) = val (src_of old st) (Z.of_nat k)).
    { destruct old; [done|]. simpl. unfold st1. by sto. }
    assert (Hsz1 : ssize (src_of old st1) = ssize (src_of old st)).
    { destruct old; [done|]. simpl. unfold st1. apply ssize_upd_s. }
    rewrite src_rdv_run by lia. rewrite Hsrc1.
    assert (Hs1 : ssize st1 = ssize st) by apply ssize_upd_s.
    rewrite bind_wrv by lia.
    replace (2 * Z.of_nat k + 1 - 1) with (2 * Z.of_nat k) by lia.
    rewrite bind_wrs by sz.
    set (st2 := upd_s (upd_v st1 (2 * Z.of_nat k + 1) (val (src_of old st) (Z.of_nat k)))
                  (2 * Z.of_nat k) Invalid).
    assert (Hs2 : ssize st2 = ssize st) by (unfold st2; sz).
    assert (Hsrc2 : forall i, 0 <= i < Z.of_nat k ->
              val (src_of old st2) i = val (src_of old st) i /\
              sta (src_of old st2) i = sta (src_of old st) i).
    { intros i Hi. destruct old; [done|]. simpl. unfold st2, st1. by sto. }
    destruct (IH fuel st2) as (st' & Hrun & Hsz' & Hodd & Hhigh); [lia|lia| |].
    { destruct old; simpl in *; lia. }
    exists st'. split; [done|]. split; [lia|]. split.
    + intros i Hi. destruct (decide (i = Z.of_nat k)) as [->|Hne'].
      * destruct (Hhigh (2 * Z.of_nat k + 1)) as [-> ->]; [lia|].
        destruct (Hhigh (2 * Z.of_nat k)) as [_ ->]; [lia|].
        unfold st2, st1. by sto.
      * destruct (Hodd i) as (-> & -> & ->); [lia|].
        destruct (Hsrc2 i) as [-> ->]; [lia|]. done.
    + intros q Hq. destruct (Hhigh q) as [-> ->]; [lia|].
      unfold st2, st1. by sto.
Qed.

(** A full tree after the doubling: every old slot [i] is slot [2i + 1], the
    even slots are [Invalid], and full is now spelled [fs']. *)
Lemma expand_tree fs fs' h : forall nd n st st',
  fs <> Invalid -> fs' <> Invalid -> fs <> fs' ->
  (forall i, n - wid h <= i <= n + wid h ->
     val st' (2 * i + 1) = val st i /\ sta st' (2 * i + 1) = sta st i) ->
  (forall j, n - wid h <= j <= n + wid h + 1 -> sta st' (2 * j) = Invalid) ->
  st_ok fs st h n -> sta st n = fs ->
  st_ok fs' st' (S h) (2 * n + 1) /\
  elems st' (S h) (2 * n + 1) = elems st h n /\
  (kd_ok st nd h n -> kd_ok st' nd (S h) (2 * n + 1)) /\
  sta st' (2 * n + 1) <> fs'.
Proof.
  induction h as [|h IH]; intros nd n st st' Hfs Hfs' Hne Hodd Heven Hst Hfull.
  - simpl in Hodd, Heven. destruct (Hodd n) as [Hv Hs]; [lia|].
    pose proof (Heven n) as He1. pose proof (Heven (n + 1)) as He2.
    replace (2 * (n + 1)) with (2 * n + 1 + 1) in He2 by lia.
    replace (2 * n) with (2 * n + 1 - 1) in He1 by lia.
    split; [|split; [|split]].
    + apply st_ok_S. change (off 1) with 1. simpl.
      rewrite Hs, He1, He2 by lia. split; [congruence|].
      split; [|split; by left]. split; [congruence|]. intros [? _]. congruence.
    + cbn [elems]. change (off 1) with 1.
      rewrite (here_dead st' (2 * n + 1 - 1)), (here_dead st' (2 * n + 1 + 1)) by (apply He1 || apply He2; lia).
      unfold here. rewrite Hs, Hv. by rewrite app_nil_r.
    + intros _. apply kd_ok_S. change (off 1) with 1. cbn [elems kd_ok].
      rewrite (here_dead st' (2 * n + 1 - 1)), (here_dead st' (2 * n + 1 + 1)) by (apply He1 || apply He2; lia).
      done.
    + congruence.
  - pose proof (wid_nonneg h) as Hw. pose proof (off_S h) as Ho.
    pose proof (wid_S h) as Hww. pose proof (off_S (S h)) as Ho'.
    pose proof (wid_S (S h)) as Hww'.
    apply st_ok_S in Hst as (Hlive & Hiff & Hsl & Hsr).
    apply Hiff in Hfull as Hch. destruct Hch as [Hl Hr].
    destruct (Hodd n) as [Hv Hs]; [lia|].
    destruct (IH (inc nd) (n - off (S h)) st st') as (L1 & L2 & L3 & L4);
      [done|done|done|intros i Hi; apply Hodd; lia|intros j Hj; apply Heven; lia
      |done|done|].
    destruct (IH (inc nd) (n + off (S h)) st st') as (R1 & R2 & R3 & R4);
      [done|done|done|intros i Hi; apply Hodd; lia|intros j Hj; apply Heven; lia
      |done|done|].
    replace (2 * (n - off (S h)) + 1) with (2 * n + 1 - off (S (S h))) in * by lia.
    replace (2 * (n + off (S h)) + 1) with (2 * n + 1 + off (S (S h))) in * by lia.
    split; [|split; [|split]].
    + apply st_ok_S. rewrite Hs. split; [done|]. split; [|done].
      split; [congruence|]. intros [? _]. done.
    + rewrite (elems_S st' (S h)), (elems_S st h), L2, R2. unfold here.
      by rewrite Hs, Hv.
    + intros Hkd. apply kd_ok_S in Hkd as (Hkl & Hkr & Hkdl & Hkdr).
      apply kd_ok_S. rewrite L2, R2, Hv. auto.
    + congruence.
Qed.

(** ** The container *)

Definition height_of_span (s : Z) : nat := (Z.to_nat (Z.log2 (s + 1)) - 1)%nat.

(** The live values of a container, in slot order. *)
Definition contents (c : kdtree) : list V :=
  if _finish c =? 0 then []
  else elems (_buf c) (height_of_span (_finish c)) (root 0 (_finish c)).

(** The data-model invariants of a container, in the form that insertion
    keeps: capacity and span are of the form [2^k - 1], the arrays have the
    capacity as their length, [count] is the number of live slots, the
    states follow the state discipline for the current [full_state], and the
    values are k-d ordered from the root, which splits on axis [0]. *)
Definition wf (c : kdtree) : Prop :=
  (_full_state c = Heads \/ _full_state c = Tails) /\
  ssize (_buf c) = _capacity c /\
  (_capacity c = 0 \/ exists H, (H <= 63)%nat /\ _capacity c = wid (S H)) /\
  ((_finish c = 0 /\ _count c = 0) \/
   exists h,
     _finish c = wid (S h) /\ _finish c <= _capacity c /\
     st_ok (_full_state c) (_buf c) h (wid h) /\
     kd_ok (_buf c) 0 h (wid h) /\
     _count c = Z.of_nat (length (elems (_buf c) h (wid h))) /\
     0 < _count c).

Lemma height_of_span_wid h : height_of_span (wid (S h)) = h.
Proof.
  unfold height_of_span. rewrite wid_pow.
  replace (2 ^ Z.of_nat (S h) - 1 + 1) with (2 ^ Z.of_nat (S h)) by lia.
  rewrite Z.log2_pow2 by lia. lia.
Qed.

Lemma wid_pos_S h : 0 < wid (S h).
Proof. rewrite wid_S. pose proof (wid_nonneg h). lia. Qed.

Lemma contents_wid c h :
  _finish c = wid (S h) -> contents c = elems (_buf c) h (wid h).
Proof.
  intros Hf. unfold contents. rewrite Hf, height_of_span_wid, root_wid.
  pose proof (wid_pos_S h). by destruct (Z.eqb_spec (wid (S h)) 0); [lia|].
Qed.

Lemma wid_mono a b : (a <= b)%nat -> wid a <= wid b.
Proof.
  induction 1 as [|b Hle IH]; [lia|]. rewrite wid_S. pose proof (wid_nonneg b). lia.
Qed.

Lemma wid_lt_inv a b : wid a < wid b -> (a < b)%nat.
Proof.
  intros Hlt. destruct (decide (a < b)%nat) as [|Hge]; [done|].
  pose proof (wid_mono b a). lia.
Qed.

Lemma wid_64 : wid 64 = 2 ^ 64 - 1.
Proof. by rewrite wid_pow. Qed.

Lemma ssize_allocate n : 0 <= n -> ssize (allocate n) = n.
Proof.
  intros Hn. unfold ssize, allocate, zlen. simpl. rewrite !length_replicate. lia.
Qed.

Lemma expand_spec dst c :
  0 <= _finish c -> _finish c <= ssize (_buf c) ->
  2 * _finish c + 1 <= ssize (match dst with None => _buf c | Some d => d end) ->
  exists b',
    _expand dst c = Ok tt (mkTree b' (2 * _finish c + 1) (_capacity c) (_count c)
                             (_full_state c)) /\
    ssize b' = ssize (match dst with None => _buf c | Some d => d end) /\
    (forall i, 0 <= i < _finish c ->
       val b' (2 * i + 1) = val (_buf c) i /\ sta b' (2 * i + 1) = sta (_buf c) i) /\
    (forall j, 0 <= j <= _finish c -> sta b' (2 * j) = Invalid).
Proof.
  intros H0 Hsrc Hdst. unfold _expand.
  set (target := match dst with None => _buf c | Some d => d end) in *.
  set (old := match dst with None => None | Some _ => Some (_buf c) end).
  replace ((_finish c - 0) * 2) with (2 * Z.of_nat (Z.to_nat (_finish c))) by lia.
  rewrite bind_wrs by lia.
  set (k := Z.to_nat (_finish c)).
  set (st1 := upd_s target (2 * Z.of_nat k) Invalid).
  assert (Hk : Z.of_nat k = _finish c) by (unfold k; lia).
  assert (Hs1 : ssize st1 = ssize target) by apply ssize_upd_s.
  assert (Hsrc1 : forall i, 0 <= i < _finish c ->
            val (src_of old st1) i = val (_buf c) i /\
            sta (src_of old st1) i = sta (_buf c) i).
  { intros i Hi. unfold old, st1, target. destruct dst; simpl; [done|]. by sto. }
  destruct (expand_loop_spec old k (Z.to_nat (2 * Z.of_nat k)) st1)
    as (b' & Hrun & Hsz & Hodd & Hhigh); [lia|lia| |].
  { unfold old, target in *. destruct dst; simpl; [lia|]. rewrite Hs1. lia. }
  clearbody k. rewrite <- Hk in *. rewrite Hrun.
  exists b'. split; [done|]. split; [lia|]. split.
  - intros i Hi. destruct (Hodd i) as (-> & -> & _); [lia|]. by apply Hsrc1.
  - intros j Hj. destruct (decide (j = Z.of_nat k)) as [->|Hne].
    + destruct (Hhigh (2 * Z.of_nat k)) as [_ ->]; [lia|]. unfold st1. by sto.
    + by destruct (Hodd j) as (_ & _ & ->); [lia|].
Qed.

Lemma ftz_1 : bitwise.ftz 1 = 1.
Proof. reflexivity. Qed.

Lemma wrap64_small z : 0 <= z < 2 ^ 64 -> wrap64 z = z.
Proof. intros Hz. unfold wrap64. by apply Z.mod_small. Qed.

Lemma wf_capacity_bound c : wf c -> 0 <= _capacity c <= 2 ^ 64 - 1.
Proof.
  intros (_ & _ & [->|(H & HH & ->)] & _); [lia|].
  pose proof (wid_mono (S H) 64). pose proof (wid_nonneg (S H)). rewrite wid_64 in *. lia.
Qed.

(** The container as [_prepare_insert] leaves it: a tree of some height [h]
    with room for one more value, holding what the container held. *)
Lemma prepare_insert_spec c :
  wf c -> _count c < 2 ^ 64 - 1 ->
  exists c1 h,
    _prepare_insert c = Ok tt c1 /\
    (_full_state c1 = Heads \/ _full_state c1 = Tails) /\
    ssize (_buf c1) = _capacity c1 /\
    (exists H, (H <= 63)%nat /\ _capacity c1 = wid (S H)) /\
    _finish c1 = wid (S h) /\ _finish c1 <= _capacity c1 /\
    _count c1 = _count c /\
    ((_count c = 0 /\ h = 0%nat /\ _finish c = 0) \/
     (st_ok (_full_state c1) (_buf c1) h (wid h) /\
      kd_ok (_buf c1) 0 h (wid h) /\
      sta (_buf c1) (wid h) <> _full_state c1 /\
      elems (_buf c1) h (wid h) = contents c /\
      0 < _count c /\ _count c = Z.of_nat (length (contents c)))).
Proof.
  intros Hwf Hroom. pose proof (wf_capacity_bound c Hwf) as Hcb.
  destruct Hwf as (Hfs & Hsz & Hcap & [[Hfin Hcnt]|(h & Hfin & Hle & Hst & Hkd & Hcnt & Hpos)]).
  - (* nothing stored yet *)
    unfold _prepare_insert. rewrite Hcnt. cbn [Z.eqb].
    destruct (Z.eqb_spec (_capacity c) 0) as [E|E].
    + unfold _alloc_storage. cbn [Z.eqb]. rewrite ftz_1. cbn [_buf _capacity _count _full_state].
      eexists _, 0%nat. split; [reflexivity|]. cbn [_buf _capacity _count _full_state _finish].
      split; [done|]. split; [by apply ssize_allocate|].
      split; [exists 0%nat; split; [lia|done]|]. split; [done|]. split; [done|]. split; [done|].
      left. done.
    + destruct Hcap as [?|(H & HH & Hc)]; [done|].
      eexists _, 0%nat. split; [reflexivity|]. cbn [_buf _capacity _count _full_state _finish].
      split; [done|]. split; [done|]. split; [by exists H|]. split; [done|].
      split; [rewrite Hc; pose proof (wid_pos_S H); change (wid 1) with 1; lia|].
      split; [done|]. left. done.
  - pose proof (contents_wid c h Hfin) as Hcont.
    assert (Hfl : _full_state c <> Invalid) by (destruct Hfs; congruence).
    destruct Hcap as [Hc0|(H & HH & Hc)]; [pose proof (wid_pos_S h); lia|].
    unfold _prepare_insert.
    destruct (Z.eqb_spec (_count c) 0) as [E0|E0]; [lia|].
    destruct (Z.eqb_spec (_count c) (_finish c - 0)) as [E1|E1].
    + (* the tree is full: one more level *)
      assert (Hfull : sta (_buf c) (wid h) = _full_state c).
      { apply (elems_length_full _ h _ _ Hfl Hst). rewrite wid_S in Hfin. lia. }
      assert (Hnew : forall (b' : store) cap',
        ssize b' = cap' -> 2 * _finish c + 1 <= cap' ->
        (exists H', (H' <= 63)%nat /\ cap' = wid (S H')) ->
        (forall i, 0 <= i < _finish c ->
           val b' (2 * i + 1) = val (_buf c) i /\ sta b' (2 * i + 1) = sta (_buf c) i) ->
        (forall j, 0 <= j <= _finish c -> sta b' (2 * j) = Invalid) ->
        exists c1 h1,
          Ok tt (mkTree b' (2 * _finish c + 1) cap' (_count c) (State_not (_full_state c)))
            = Ok tt c1 /\
          (_full_state c1 = Heads \/ _full_state c1 = Tails) /\
          ssize (_buf c1) = _capacity c1 /\
          (exists H, (H <= 63)%nat /\ _capacity c1 = wid (S H)) /\
          _finish c1 = wid (S h1) /\ _finish c1 <= _capacity c1 /\
          _count c1 = _count c /\
          ((_count c = 0 /\ h1 = 0%nat /\ _finish c = 0) \/
           (st_ok (_full_state c1) (_buf c1) h1 (wid h1) /\
            kd_ok (_buf c1) 0 h1 (wid h1) /\
            sta (_buf c1) (wid h1) <> _full_state c1 /\
            elems (_buf c1) h1 (wid h1) = contents c /\
            0 < _count c /\ _count c = Z.of_nat (length (contents c))))).
      { intros b' cap' Hsb Hcap' HH' Hodd Heven.
        pose proof (wid_nonneg h) as Hw. pose proof (wid_S h) as Hww.
        destruct (expand_tree (_full_state c) (State_not (_full_state c)) h 0 (wid h)
                    (_buf c) b') as (T1 & T2 & T3 & T4);
          [done|destruct Hfs as [-> | ->]; done
          |intros Heq; by apply (State_not_ne (_full_state c))
          |intros i Hi; apply Hodd; lia|intros j Hj; apply Heven; lia|done|done|].
        replace (2 * wid h + 1) with (wid (S h)) in * by lia.
        eexists _, (S h). split; [reflexivity|].
        cbn [_buf _capacity _count _full_state _finish].
        split; [destruct Hfs as [-> | ->]; [by right|by left]|].
        split; [done|]. split; [done|].
        split; [rewrite Hfin, (wid_S (S h)); lia|]. split; [lia|]. split; [done|].
        right. split; [done|]. split; [by apply T3|]. split; [done|].
        split; [by rewrite Hcont|]. split; [done|]. by rewrite Hcont. }
      destruct (Z.eqb_spec (_count c) (_capacity c)) as [E2|E2].
      * (* into a new buffer of twice the size *)
        assert (HH' : (S H <= 63)%nat).
        { assert (wid (S H) < wid 64) by (rewrite wid_64; lia).
          apply wid_lt_inv in H0. lia. }
        assert (Hn : wrap64 (_capacity c * 2 + 1) = wid (S (S H))).
        { replace (_capacity c * 2 + 1) with (wid (S (S H))) by (rewrite (wid_S (S H)); lia).
          apply wrap64_small. pose proof (wid_mono (S (S H)) 64) as Hm.
          pose proof (wid_nonneg (S (S H))). rewrite wid_64 in Hm. lia. }
        unfold _expand_alloc. rewrite Hn.
        pose proof (wid_nonneg (S (S H))) as Hw2.
        destruct (expand_spec (Some (allocate (wid (S (S H))))) c)
          as (b' & Hrun & Hsb & Hodd & Heven);
          [lia|lia|rewrite ssize_allocate by lia; rewrite (wid_S (S H)); lia|].
        rewrite Hrun. cbn [_buf _capacity _count _full_state _finish].
        rewrite ssize_allocate in Hsb by lia.
        apply Hnew; [done|rewrite (wid_S (S H)); lia|by exists (S H)|done|done].
      * (* in place *)
        assert (Hlt : (S h < S H)%nat) by (apply wid_lt_inv; lia).
        pose proof (wid_mono (S (S h)) (S H)) as Hm. rewrite (wid_S (S h)) in Hm.
        destruct (expand_spec None c) as (b' & Hrun & Hsb & Hodd & Heven);
          [lia|lia|lia|].
        rewrite Hrun. cbn [_buf _capacity _count _full_state _finish].
        apply Hnew; [lia|lia|by exists H|done|done].
    + (* there is room *)
      exists c, h. split; [done|]. split; [done|]. split; [done|].
      split; [by exists H|]. split; [done|]. split; [done|]. split; [done|].
      right. split; [done|]. split; [done|]. split.
      { intros Hf. apply (elems_length_full _ h _ _ Hfl Hst) in Hf.
        rewrite wid_S in Hfin. lia. }
      split; [done|]. split; [done|]. by rewrite Hcont.
Qed.

Lemma wid_ge h : Z.of_nat h <= wid h.
Proof. induction h as [|h IH]; [done|]. rewrite wid_S. lia. Qed.

(** A user's pending value: constructed by copy or by move, without
    raising. *)
Definition defer_user (defer : DeferredOp) (x : V) : Prop :=
  match defer with
  | _deferred_memcpy _ => False
  | _deferred_copy v => v = x /\ copy_throws v = false
  | _deferred_move v => v = x /\ move_throws v = false
  end.

Lemma defer_user_ok defer x st lo hi :
  defer_user defer x -> defer_ok defer st x lo hi.
Proof. by destruct defer. Qed.

Lemma insert_first fuel fs nd defer st x :
  defer_ok defer st x 0 0 -> 0 < ssize st ->
  _single_insert (S fuel) fs nd 0 0 defer st = Ok 0 (upd_s (upd_v st 0 x) 0 fs).
Proof.
  intros Hd Hsz. cbn [_single_insert Z.eqb Z.ltb Z.compare].
  rewrite (place_at_run _ _ _ _ _ _ _ Hd) by lia. by rewrite bind_wrs by sz.
Qed.

Section InsertTop.
Hypothesis Hsw : strict_weak.

(** [insert] on a well-formed container that is not at the end of the
    [size_t] range, with a value whose construction does not raise: the
    call returns, the container stays well-formed and holds the value in
    the slot returned. *)
Lemma insert_with_spec c defer x :
  wf c -> _count c < 2 ^ 64 - 1 -> defer_user defer x ->
  exists c' it,
    insert_with defer c = Ok it c' /\
    wf c' /\
    contents c' ≡ₚ x :: contents c /\
    0 <= it < _finish c' /\ live (_buf c') it /\ val (_buf c') it = x /\
    _count c' = _count c + 1 /\
    _finish c' <> 0.
Proof.
  intros Hwf Hroom Hdu.
  assert (Hcnt0 : 0 <= _count c).
  { destruct Hwf as (_ & _ & _ & [[_ ->]|(h & _ & _ & _ & _ & _ & ?)]); lia. }
  destruct (prepare_insert_spec c Hwf Hroom)
    as (c1 & h & Hprep & Hfs & Hsz & Hcap & Hfin & Hle & Hcnt & Hready).
  unfold insert_with. rewrite (bind_ok _ _ _ _ _ Hprep). cbv beta.
  unfold incr_count at 1. unfold bind at 1. rewrite Hcnt.
  rewrite wrap64_small by lia.
  cbn [_buf _finish _capacity _count _full_state]. unfold on_buf.
  cbn [_buf _finish _capacity _count _full_state].
  rewrite Hfin. replace (wid (S h) - 0) with (wid (S h)) by lia.
  rewrite root_offset_wid, root_wid.
  pose proof (wid_nonneg h) as Hw. pose proof (wid_S h) as Hww.
  pose proof (wid_ge (S h)) as Hge.
  destruct Hready as [(Hc0 & -> & Hf0)|(Hst & Hkd & Hnf & Hel & Hpos & Hlen)].
  - (* the first value *)
    change (wid 1) with 1 in *. change (wid 0) with 0 in *. change (off 0) with 0.
    change (Z.to_nat 1) with 1%nat.
    assert (Hcont : contents c = []) by (unfold contents; by rewrite Hf0).
    rewrite (insert_first _ _ _ _ _ x); [|by apply defer_user_ok|lia].
    eexists _, 0. split; [reflexivity|]. unfold set_buf.
    cbn [_buf _finish _capacity _count _full_state].
    assert (Hfl : _full_state c1 <> Invalid) by (destruct Hfs; congruence).
    split.
    { unfold wf. cbn [_buf _finish _capacity _count _full_state].
      split; [done|]. split; [sz|]. split; [by right|]. right. exists 0%nat.
      cbn [_buf _finish _capacity _count _full_state]. change (wid 1) with 1.
      change (wid 0) with 0. split; [done|]. split; [lia|].
      split; [simpl; sto; by right|]. split; [done|].
      simpl. hsimp. simpl. lia. }
    split.
    { rewrite Hcont. unfold contents. cbn [_buf _finish]. change (1 =? 0) with false.
      cbv iota. change (height_of_span 1) with 0%nat. change (root 0 1) with 0.
      cbn [elems]. hsimp. by sto. }
    split; [lia|]. split; [unfold live; sto; done|]. split; [by sto|]. split; [lia|lia].
  - (* the general case *)
    destruct (single_insert_spec Hsw (_full_state c1) Hfs h (Z.to_nat (wid (S h))) 0%nat
                (wid h) defer (_buf c1) x)
      as (st' & p & Hrun & [Hsz' Hfr] & Hst' & Hkd' & Hperm & Hp & Hpl & Hpv);
      [lia|lia|lia|done|done|done|by apply defer_user_ok|].
    rewrite Hrun. eexists _, p. split; [reflexivity|]. unfold set_buf.
    cbn [_buf _finish _capacity _count _full_state].
    split.
    { unfold wf. cbn [_buf _finish _capacity _count _full_state].
      split; [done|]. split; [lia|]. split; [by right|]. right. exists h.
      cbn [_buf _finish _capacity _count _full_state].
      split; [done|]. split; [lia|]. split; [done|]. split; [done|].
      rewrite Hperm. cbn [length]. rewrite Hel. lia. }
    split.
    { unfold contents at 1. cbn [_buf _finish]. rewrite height_of_span_wid, root_wid.
      destruct (Z.eqb_spec (wid (S h)) 0) as [?|_]; [lia|]. by rewrite Hperm, Hel. }
    split; [lia|]. split; [done|]. split; [done|]. split; [lia|lia].
Qed.

End InsertTop.

(** ** Outcomes that are not a normal return *)

Definition never_ok {S A} (m : M S A) : Prop := forall s a s', m s <> Ok a s'.

Lemma never_ok_bind_l {S A B} (m : M S A) (k : A -> M S B) :
  never_ok m -> never_ok (bind m k).
Proof.
  intros Hm s b s'. unfold bind. specialize (Hm s). destruct (m s); try done.
  by destruct (Hm a s0).
Qed.

Lemma never_ok_bind_r {S A B} (m : M S A) (k : A -> M S B) :
  (forall a, never_ok (k a)) -> never_ok (bind m k).
Proof.
  intros Hk s b s'. unfold bind. destruct (m s); try done. apply Hk.
Qed.

Lemma never_ok_nofuel {S A} : never_ok (@nofuel S A).
Proof. by intros s a s'. Qed.

Definition defer_throws (defer : DeferredOp) : bool :=
  match defer with
  | _deferred_memcpy _ => false
  | _deferred_copy v => copy_throws v
  | _deferred_move v => move_throws v
  end.

Lemma place_at_throws defer p st :
  defer_throws defer = true -> place_at defer p st = Throw st.
Proof. destruct defer; simpl; [done|by intros ->|by intros ->]. Qed.

Lemma never_ok_place_at defer p :
  defer_throws defer = true -> never_ok (place_at defer p).
Proof. intros Hd s a s'. by rewrite place_at_throws. Qed.

Ltac nok IH Hd :=
  repeat first
    [ apply IH
    | apply never_ok_nofuel
    | apply (never_ok_place_at _ _ Hd)
    | match goal with
      | |- never_ok (if ?b then _ else _) => destruct b
      | |- never_ok (bind (place_at _ _) _) =>
        apply never_ok_bind_l, (never_ok_place_at _ _ Hd)
      | |- never_ok (bind (_single_insert _ _ _ _ _ (_deferred_memcpy _)) _) =>
        apply never_ok_bind_r; intros ?
      | |- never_ok (bind (_single_insert _ _ _ _ _ _) _) =>
        apply never_ok_bind_l, IH
      | |- never_ok (bind (if _ then _ else _) _) => apply never_ok_bind_l
      | |- never_ok (bind _ _) => apply never_ok_bind_r; intros ?
      end ].

(** A construction that raises never lets [_single_insert] return. *)
Lemma single_insert_never_ok defer :
  defer_throws defer = true ->
  forall fuel fs nd offset n, never_ok (_single_insert fuel fs nd offset n defer).
Proof.
  intros Hd. induction fuel as [|fuel IH]; intros fs nd offset n.
  - apply never_ok_nofuel.
  - cbn [_single_insert]. nok IH Hd.
Qed.

Lemma insert_with_never_ok defer :
  defer_throws defer = true -> never_ok (insert_with defer).
Proof.
  intros Hd. unfold insert_with.
  apply never_ok_bind_r; intros _. apply never_ok_bind_r; intros _.
  intros c it c'. unfold on_buf.
  pose proof (single_insert_never_ok defer Hd (Z.to_nat (_finish c - 0)) (_full_state c)
                0%nat (root_offset (_finish c - 0)) (root 0 (_finish c - 0)) (_buf c)) as H.
  destruct (_single_insert _ _ _ _ _ _ _); try done. by destruct (H a s).
Qed.

Lemma wf_count_bound c : wf c -> 0 <= _count c <= _finish c /\ _finish c <= _capacity c.
Proof.
  intros Hwf. pose proof (wf_capacity_bound c Hwf) as Hcb.
  destruct Hwf as (_ & _ & _ & [[-> ->]|(h & Hfin & Hle & _ & _ & Hcnt & Hpos)]); [lia|].
  pose proof (elems_length_le h (_buf c) (wid h)). rewrite wid_S in Hfin. lia.
Qed.

(** At the end of the [size_t] range the new capacity wraps around and the
    expansion writes past the new arrays. *)
Lemma wrs_fault p s st : zlen (sts st) <= p -> wrs p s st = Fault.
Proof.
  intros Hp. unfold wrs. destruct (p <? zlen (sts st)) eqn:E; [lia|].
  by rewrite andb_false_r.
Qed.

Lemma zlen_sts_allocate n : 0 <= n -> zlen (sts (allocate n)) = n.
Proof. intros Hn. unfold allocate, zlen. cbn [sts]. rewrite length_replicate. lia. Qed.

Lemma insert_with_at_limit c defer :
  wf c -> 2 ^ 64 - 1 <= _count c -> insert_with defer c = Fault.
Proof.
  intros Hwf Hlim. pose proof (wf_count_bound c Hwf) as [Hc Hf].
  pose proof (wf_capacity_bound c Hwf) as Hcb.
  assert (Hexp : _expand_alloc c = Fault).
  { unfold _expand_alloc.
    assert (Hn : wrap64 (_capacity c * 2 + 1) = 2 ^ 64 - 1).
    { replace (_capacity c) with (2 ^ 64 - 1) by lia. reflexivity. }
    rewrite Hn.
    assert (Hx : _expand (Some (allocate (2 ^ 64 - 1))) c = Fault); [|by rewrite Hx].
    unfold _expand, bind. rewrite wrs_fault; [reflexivity|].
    rewrite zlen_sts_allocate; lia. }
  assert (Hprep : _prepare_insert c = Fault).
  { unfold _prepare_insert.
    destruct (Z.eqb_spec (_count c) 0); [lia|].
    destruct (Z.eqb_spec (_count c) (_finish c - 0)); [|lia].
    destruct (Z.eqb_spec (_count c) (_capacity c)); [|lia].
    by rewrite Hexp. }
  unfold insert_with, bind. by rewrite Hprep.
Qed.

Lemma insert_with_returns c defer it c' :
  wf c -> insert_with defer c = Ok it c' ->
  defer_throws defer = false /\ _count c < 2 ^ 64 - 1.
Proof.
  intros Hwf Hrun. split.
  - destruct (defer_throws defer) eqn:E; [|done].
    by destruct (insert_with_never_ok defer E c it c').
  - destruct (Z.lt_ge_cases (_count c) (2 ^ 64 - 1)) as [|Hge]; [done|].
    rewrite (insert_with_at_limit c defer Hwf) in Hrun by lia. done.
Qed.

(** ** Balance and ordering as the tree shows them *)

(** Height of the live part of a subtree; an [Invalid] slot is an empty
    tree. *)
Fixpoint height (st : store) (h : nat) (n : Z) : nat :=
  if decide (sta st n = Invalid) then 0%nat
  else match h with
       | O => 1%nat
       | S h' => S (Nat.max (height st h' (n - off h)) (height st h' (n + off h)))
       end.

Fixpoint balanced (st : store) (h : nat) (n : Z) : Prop :=
  match h with
  | O => True
  | S h' =>
    (live st n ->
     (height st h' (n - off h) <= height st h' (n + off h) + 1)%nat /\
     (height st h' (n + off h) <= height st h' (n - off h) + 1)%nat) /\
    balanced st h' (n - off h) /\ balanced st h' (n + off h)
  end.

Fixpoint kd_ordered (st : store) (dim : nat) (h : nat) (n : Z) : Prop :=
  match h with
  | O => True
  | S h' =>
    (live st n ->
     Forall (fun x => select_compare dim (val st n) x = false) (elems st h' (n - off h)) /\
     Forall (fun x => select_compare dim x (val st n) = false) (elems st h' (n + off h))) /\
    kd_ordered st (inc dim) h' (n - off h) /\ kd_ordered st (inc dim) h' (n + off h)
  end.

Definition tree_balanced (c : kdtree) : Prop :=
  _finish c = 0 \/
  balanced (_buf c) (height_of_span (_finish c)) (root 0 (_finish c)).

Definition tree_ordered (c : kdtree) : Prop :=
  _finish c = 0 \/
  kd_ordered (_buf c) 0 (height_of_span (_finish c)) (root 0 (_finish c)).

Lemma st_ok_height fs h : forall st n,
  st_ok fs st h n -> (h <= height st h n <= S h)%nat.
Proof.
  induction h as [|h IH]; intros st n Hst.
  - simpl. destruct (decide _); lia.
  - apply st_ok_S in Hst as (Hlive & _ & Hsl & Hsr).
    cbn [height]. rewrite decide_False by done.
    pose proof (IH _ _ Hsl). pose proof (IH _ _ Hsr). lia.
Qed.

Lemma st_ok_balanced fs h : forall st n, st_ok fs st h n -> balanced st h n.
Proof.
  induction h as [|h IH]; intros st n Hst; [done|].
  apply st_ok_S in Hst as (Hlive & _ & Hsl & Hsr). cbn [balanced].
  pose proof (st_ok_height fs h _ _ Hsl). pose proof (st_ok_height fs h _ _ Hsr).
  split; [intros _; lia|]. split; by apply IH.
Qed.

Lemma kd_ok_ordered h : forall st dim n, kd_ok st dim h n -> kd_ordered st dim h n.
Proof.
  induction h as [|h IH]; intros st dim n Hkd; [done|].
  apply kd_ok_S in Hkd as (Hkl & Hkr & Hkdl & Hkdr). cbn [kd_ordered].
  split; [done|]. split; by apply IH.
Qed.

Lemma wf_balanced c : wf c -> tree_balanced c.
Proof.
  intros (_ & _ & _ & [[Hf _]|(h & Hfin & _ & Hst & _)]); [by left|]. right.
  rewrite Hfin, height_of_span_wid, root_wid. by eapply st_ok_balanced.
Qed.

Lemma wf_ordered c : wf c -> tree_ordered c.
Proof.
  intros (_ & _ & _ & [[Hf _]|(h & Hfin & _ & _ & Hkd & _)]); [by left|]. right.
  rewrite Hfin, height_of_span_wid, root_wid. by apply kd_ok_ordered.
Qed.

Lemma insert_with_wf c defer it c' :
  strict_weak -> wf c ->
  (exists v, defer = _deferred_copy v \/ defer = _deferred_move v) ->
  insert_with defer c = Ok it c' -> wf c'.
Proof.
  intros Hsw Hwf (v & Hv) Hrun.
  destruct (insert_with_returns c defer it c' Hwf Hrun) as [Hnt Hroom].
  destruct (insert_with_spec Hsw c defer v Hwf Hroom) as (c2 & it2 & Hrun2 & Hwf2 & _).
  { by destruct Hv as [-> | ->]. }
  congruence.
Qed.

(** C1. After any successful insert (by copy or by move) into a container
    that satisfies the data-model invariants, the heights of the live left
    and right subtrees of every live node differ by at most one. *)
Theorem insert_keeps_balance (c c' : kdtree) (v : V) (it : Z) :
  strict_weak -> wf c ->
  insert v c = Ok it c' \/ insert_move v c = Ok it c' ->
  tree_balanced c'.
Proof.
  intros Hsw Hwf [Hrun|Hrun]; apply wf_balanced;
    (eapply (insert_with_wf c _ it c' Hsw Hwf); [|exact Hrun]); exists v; auto.
Qed.

(** C2. After any successful insert (by copy or by move) into a container
    that satisfies the data-model invariants, for every live node that
    splits on axis [d] no live value of its right subtree is strictly less
    than it on [d] and no live value of its left subtree is strictly
    greater. *)
Theorem insert_keeps_order (c c' : kdtree) (v : V) (it : Z) :
  strict_weak -> wf c ->
  insert v c = Ok it c' \/ insert_move v c = Ok it c' ->
  tree_ordered c'.
Proof.
  intros Hsw Hwf [Hrun|Hrun]; apply wf_ordered;
    (eapply (insert_with_wf c _ it c' Hsw Hwf); [|exact Hrun]); exists v; auto.
Qed.

(** ** Construction *)

Lemma ftz_wid n :
  0 < n < 2 ^ 64 -> exists H, (H <= 63)%nat /\ bitwise.ftz n = wid (S H).
Proof.
  intros Hn. assert (Hlog : 0 <= Z.log2 n < 64).
  { split; [apply Z.log2_nonneg|]. apply Z.log2_lt_pow2; lia. }
  exists (Z.to_nat (Z.log2 n)). split; [lia|].
  rewrite ftz_ones by done. rewrite Z.ones_equiv, wid_pow.
  replace (Z.of_nat (S (Z.to_nat (Z.log2 n)))) with (Z.log2 n + 1) by lia. lia.
Qed.

Lemma kdtree_sized_wf n : 0 <= n < 2 ^ 64 -> wf (kdtree_sized n).
Proof.
  intros Hn. unfold kdtree_sized, _alloc_storage.
  destruct (Z.eqb_spec n 0) as [E|E].
  - unfold wf, _kdtree_members. cbn [_buf _finish _capacity _count _full_state].
    split; [by left|]. split; [done|]. split; [by left|]. by left.
  - destruct (ftz_wid n) as (H & HH & Hftz); [lia|].
    unfold wf, _kdtree_members. cbn [_buf _finish _capacity _count _full_state].
    pose proof (wid_nonneg (S H)).
    split; [by left|]. split; [rewrite ssize_allocate; lia|].
    split; [right; by exists H|]. by left.
Qed.

(** ** Round trip *)

(** [insert] called for each value of a list in turn. *)
Fixpoint insert_all (vs : list V) : M kdtree unit :=
  match vs with
  | [] => ret tt
  | v :: vs => insert v ;; insert_all vs
  end.

Lemma set_buf_id c : set_buf c (_buf c) = c.
Proof. by destruct c. Qed.

Section RoundTrip.
Hypothesis Hsw : strict_weak.

Lemma axis_equal_refl a : axis_equal a a.
Proof. intros d _. split; by apply cmp_irrefl. Qed.

Lemma insert_all_spec : forall vs c,
  wf c -> _count c + Z.of_nat (length vs) < 2 ^ 64 ->
  Forall (fun v => copy_throws v = false) vs ->
  exists c',
    insert_all vs c = Ok tt c' /\ wf c' /\
    contents c' ≡ₚ vs ++ contents c /\
    _count c' = _count c + Z.of_nat (length vs).
Proof.
  induction vs as [|v vs IH]; intros c Hwf Hroom Hnt.
  - exists c. split; [done|]. split; [done|]. split; [done|]. simpl. lia.
  - apply Forall_cons in Hnt as [Hv Hnt]. cbn [insert_all length] in *.
    destruct (insert_with_spec Hsw c (_deferred_copy v) v Hwf)
      as (c1 & it & Hrun & Hwf1 & Hperm1 & _ & _ & _ & Hcnt1 & _); [lia|done|].
    unfold insert. rewrite (bind_ok _ _ _ _ _ Hrun).
    destruct (IH c1 Hwf1) as (c' & Hrun' & Hwf' & Hperm' & Hcnt'); [lia|done|].
    exists c'. split; [done|]. split; [done|]. split; [|lia].
    rewrite Hperm', Hperm1. solve_Permutation.
Qed.

(** A well-formed container finds every value it holds. *)
Lemma find_holds c v :
  (0 < K)%nat -> wf c -> v ∈ contents c ->
  exists p,
    find v c = Ok p c /\ 0 <= p < _finish c /\
    live (_buf c) p /\ axis_equal (val (_buf c) p) v.
Proof.
  intros HK Hwf Hin.
  destruct Hwf as (Hfs & Hsz & Hcap & [[Hfin Hcnt]|(h & Hfin & Hle & Hst & Hkd & Hcnt & Hpos)]).
  { unfold contents in Hin. rewrite Hfin in Hin. by apply elem_of_nil in Hin. }
  rewrite (contents_wid c h Hfin) in Hin.
  apply elem_of_elems in Hin as (q & Hq & Hql & Hqv).
  pose proof (wid_nonneg h) as Hw. pose proof (wid_S h) as Hww.
  pose proof (wid_ge (S h)) as Hge.
  destruct (find_spec Hsw HK (_full_state c) h (Z.to_nat (wid (S h))) (_finish c) 0%nat
              (wid h) v (_buf c)) as (r & Hrun & _ & Hcomp);
    [lia|lia|lia|done|done|done|].
  destruct Hcomp as (Hr & Hrl & Hra).
  { exists q. split; [done|]. split; [done|]. rewrite Hqv. apply axis_equal_refl. }
  exists r. split; [|split; [lia|done]].
  unfold find. destruct (Z.eqb_spec (_count c) 0) as [?|_]; [lia|].
  unfold on_buf. rewrite Hfin in Hrun |- *.
  replace (wid (S h) - 0) with (wid (S h)) by lia.
  rewrite root_offset_wid, root_wid, Hrun. by rewrite set_buf_id.
Qed.

End RoundTrip.


(** ** Capacity geometry *)

(** C7. A container constructed with size hint [n] has capacity
    [fill_trailing_zeros n] and size 0; that capacity is of the form
    [2^k - 1], is at least [n], is the smallest such value, and is 0 for
    hint 0. Hints 10, 0 and 1 give capacities 15, 0 and 1. *)
Theorem sized_capacity (n : Z) :
  0 <= n < 2 ^ 64 ->
  capacity (kdtree_sized n) = bitwise.ftz n /\
  size (kdtree_sized n) = 0 /\
  (exists k, 0 <= k <= 64 /\ capacity (kdtree_sized n) = 2 ^ k - 1) /\
  n <= capacity (kdtree_sized n) /\
  (forall k, 0 <= k -> n <= 2 ^ k - 1 -> capacity (kdtree_sized n) <= 2 ^ k - 1) /\
  bitwise.ftz 0 = 0 /\
  capacity (kdtree_sized 10) = 15 /\
  capacity (kdtree_sized 0) = 0 /\
  capacity (kdtree_sized 1) = 1.
Proof.
  intros Hn.
  assert (Hcap : capacity (kdtree_sized n) = bitwise.ftz n).
  { unfold capacity, kdtree_sized, _alloc_storage.
    destruct (Z.eqb_spec n 0) as [->|_]; [by rewrite ftz_zero|done]. }
  destruct (ftz_smallest n Hn) as (Hk & Hge & Hmin).
  rewrite Hcap. split; [done|]. split.
  { unfold size, kdtree_sized, _alloc_storage. by destruct (n =? 0). }
  split; [done|]. split; [done|]. split; [done|].
  split; [reflexivity|]. split; [reflexivity|]. split; reflexivity.
Qed.

(** ** Erasure *)

(** C9. Both [erase] overloads only decrement the count (an unsigned
    64-bit counter, so a count of 0 wraps to [2^64 - 1]): the value array,
    the state array, the span, the capacity and [full_state] are what they
    were, hence every slot keeps its state, and the overload taking a value
    returns 0 whether or not the value is held. *)
Theorem erase_only_decrements (c : kdtree) (v : V) (it : Z) :
  0 <= _count c < 2 ^ 64 ->
  exists c',
    erase v c = Ok 0 c' /\ erase_at it c = Ok tt c' /\
    _count c' = (if _count c =? 0 then 2 ^ 64 - 1 else _count c - 1) /\
    _buf c' = _buf c /\ _finish c' = _finish c /\
    _capacity c' = _capacity c /\ _full_state c' = _full_state c /\
    (forall p, sta (_buf c') p = sta (_buf c) p) /\
    (forall p, val (_buf c') p = val (_buf c) p).
Proof.
  intros Hc.
  exists (mkTree (_buf c) (_finish c) (_capacity c) (wrap64 (_count c - 1)) (_full_state c)).
  split; [done|]. split; [done|]. cbn [_buf _finish _capacity _count _full_state].
  split; [|done].
  unfold wrap64. destruct (Z.eqb_spec (_count c) 0) as [->|Hne]; [done|].
  apply Z.mod_small. lia.
Qed.

(** ** The side taken on a tie *)

(** C5. In a subtree with [offset > 1] that has room, a pending value that
    is neither less nor greater than the node's value on the node's split
    dimension is passed to the right child when the state of the left child
    is [full_state], and to the left child otherwise: so when neither child
    is full the value ends up in the left subtree. *)
Theorem insert_tie_side (fs : State) (h fuel nd : nat) (n : Z)
    (defer : DeferredOp) (st : store) (x : V) :
  strict_weak -> fs = Heads \/ fs = Tails ->
  (S (S h) < fuel)%nat ->
  0 <= n - wid (S (S h)) -> n + wid (S (S h)) < ssize st ->
  st_ok fs st (S (S h)) n -> kd_ok st nd (S (S h)) n -> sta st n <> fs ->
  defer_ok defer st x (n - wid (S (S h))) (n + wid (S (S h))) ->
  select_compare nd x (val st n) = false ->
  select_compare nd (val st n) x = false ->
  let lnode := left n (off (S (S h))) in
  let rnode := right n (off (S (S h))) in
  let child := if bool_decide (sta st lnode = fs) then rnode else lnode in
  _single_insert fuel fs nd (off (S (S h))) n defer st =
    (insert <- _single_insert (pred fuel) fs (inc nd) (Z.quot (off (S (S h))) 2)
                 child defer ;;
     ls <- rds lnode ;; rs <- rds rnode ;;
     wrs n (State_add ls rs) ;; ret insert) st /\
  exists st' p,
    _single_insert fuel fs nd (off (S (S h))) n defer st = Ok p st' /\
    child - wid (S h) <= p <= child + wid (S h) /\
    live st' p /\ val st' p = x /\
    (sta st lnode <> fs -> p < n) /\ (sta st lnode = fs -> n < p).
Proof.
  intros Hsw Hfs Hf Hlo Hhi Hst Hkd Hroom Hd E1 E2 lnode rnode child.
  pose proof (wid_nonneg (S h)) as Hw. pose proof (off_S (S h)) as Ho.
  pose proof (wid_S (S h)) as Hww.
  assert (Heq : _single_insert fuel fs nd (off (S (S h))) n defer st =
    (insert <- _single_insert (pred fuel) fs (inc nd) (Z.quot (off (S (S h))) 2)
                 child defer ;;
     ls <- rds lnode ;; rs <- rds rnode ;;
     wrs n (State_add ls rs) ;; ret insert) st).
  { destruct fuel as [|fuel]; [lia|]. cbn [_single_insert pred].
    rewrite off_ne1, off_gt1. fold lnode rnode.
    rewrite (cref_run _ _ _ _ _ _ Hd). rewrite bind_rdv by lia. rewrite E1.
    rewrite bind_assoc, bind_rdv by lia. rewrite bind_assoc, (cref_run _ _ _ _ _ _ Hd).
    rewrite E2. rewrite bind_assoc, bind_rds by (unfold lnode, left; lia).
    unfold child. by destruct (bool_decide (sta st lnode = fs)). }
  split; [exact Heq|].
  destruct (single_insert_spec Hsw fs Hfs (S (S h)) fuel nd n defer st x)
    as (st' & p & Hrun & Hso & Hst' & _ & _ & Hp & Hpl & Hpv);
    [lia|done|done|done|done|done|done|].
  exists st', p. split; [done|].
  assert (Hiff : sta st n = fs <->
                 sta st (n - off (S (S h))) = fs /\ sta st (n + off (S (S h))) = fs)
    by apply Hst.
  apply st_ok_S in Hst as (Hlive & _ & Hsl & Hsr).
  apply kd_ok_S in Hkd as (_ & _ & Hkdl & Hkdr).
  assert (Hc : child = lnode /\ sta st lnode <> fs \/ child = rnode /\ sta st lnode = fs).
  { unfold child. destruct (decide (sta st lnode = fs)) as [E|E].
    - rewrite bool_decide_eq_true_2 by done. by right.
    - rewrite bool_decide_eq_false_2 by done. by left. }
  assert (Hcroom : sta st child <> fs).
  { destruct Hc as [[-> ?]|[-> El]]; [done|]. intros Er. apply Hroom, Hiff. done. }
  assert (Hcb : child = n - (wid (S h) + 1) \/ child = n + (wid (S h) + 1)).
  { unfold lnode, rnode, left, right in Hc. destruct Hc as [[-> _]|[-> _]]; lia. }
  destruct (single_insert_spec Hsw fs Hfs (S h) (pred fuel) (inc nd) child defer st x)
    as (stb & q & Hrunb & Hsob & _ & _ & _ & Hq & Hql & Hqv);
    [lia|lia|lia
    |unfold lnode, rnode, left, right in Hc; by destruct Hc as [[-> _]|[-> _]]
    |unfold lnode, rnode, left, right in Hc; by destruct Hc as [[-> _]|[-> _]]
    |done|eapply defer_ok_sub; [exact Hd|lia|lia]|].
  rewrite Heq, off_half in Hrun. rewrite (bind_ok _ _ _ _ _ Hrunb) in Hrun.
  assert (Hszb : ssize stb = ssize st) by apply Hsob.
  rewrite bind_rds in Hrun by (unfold lnode, left; lia).
  rewrite bind_rds in Hrun by (unfold rnode, right; lia).
  rewrite bind_wrs in Hrun by lia. injection Hrun as <- <-.
  split; [done|]. split; [done|]. split; [done|].
  unfold lnode, rnode, left, right in Hc.
  split; intros Hl; destruct Hc as [[Hc ?]|[Hc ?]]; try done; lia.
Qed.

(** ** Ties between extrema *)

(** A strict weak ordering given as a boolean relation. *)
Definition strict_weak_on (lt : V -> V -> bool) : Prop :=
  (forall a b, lt a b = true -> lt b a = false) /\
  (forall a b c, lt a b = true -> lt a c = true \/ lt c b = true).

Lemma strict_weak_axis fd : strict_weak -> strict_weak_on (select_compare fd).
Proof. intros [Ha Hc]. split; [apply Ha|apply Hc]. Qed.

Lemma strict_weak_flip fd :
  strict_weak -> strict_weak_on (fun a b => select_compare fd b a).
Proof.
  intros [Ha Hc]. split; [intros a b; apply Ha|].
  intros a b c Hab. destruct (Hc _ _ _ c Hab); [by right|by left].
Qed.

(** [r] is, among the slots [l] listed in the order in which they were
    examined, the last one that no other beats: no slot examined before it
    is smaller under [lt], and every slot examined after it is strictly
    greater. *)
Definition last_best (lt : V -> V -> bool) (st : store) (l : list Z) (r : Z) : Prop :=
  exists l1 l2, l = l1 ++ r :: l2 /\
    Forall (fun p => lt (val st p) (val st r) = false) l1 /\
    Forall (fun q => lt (val st r) (val st q) = true) l2.

Lemma last_best_one lt st r : last_best lt st [r] r.
Proof. exists [], []. by repeat split. Qed.

(** The comparison [if (!lt(best, child)) best = child] joins two runs. *)
Lemma last_best_app lt st l l' r r' :
  strict_weak_on lt -> last_best lt st l r -> last_best lt st l' r' ->
  last_best lt st (l ++ l') (if negb (lt (val st r) (val st r')) then r' else r).
Proof.
  intros [Hasym Hco] (l1 & l2 & -> & H1 & H2) (l1' & l2' & -> & H1' & H2').
  assert (Htrans : forall a b c, lt a b = true -> lt b c = true -> lt a c = true).
  { intros a b c Hab Hbc. destruct (Hco _ _ c Hab) as [|Hcb]; [done|].
    apply Hasym in Hbc. congruence. }
  destruct (lt (val st r) (val st r')) eqn:E; cbn [negb].
  - exists l1, (l2 ++ l1' ++ r' :: l2'). split; [by rewrite <- !app_assoc|].
    split; [done|]. rewrite !Forall_app, Forall_cons. split; [done|].
    split; [|split; [done|]].
    + eapply Forall_impl; [exact H1'|]. intros q Hq. simpl in Hq.
      destruct (Hco _ _ (val st q) E); congruence.
    + eapply Forall_impl; [exact H2'|]. intros q Hq. simpl in Hq. by eapply Htrans.
  - exists ((l1 ++ r :: l2) ++ l1'), l2'. split; [by rewrite <- !app_assoc|].
    split; [|done]. rewrite !Forall_app, Forall_cons. split; [split; [|split; [done|]]|done].
    + eapply Forall_impl; [exact H1|]. intros p Hp. simpl in Hp.
      destruct (lt (val st p) (val st r')) eqn:E'; [|done].
      destruct (Hco _ _ (val st r) E'); congruence.
    + eapply Forall_impl; [exact H2|]. intros p Hp. simpl in Hp.
      destruct (lt (val st p) (val st r')) eqn:E'; [|done].
      rewrite (Htrans _ _ _ Hp E') in E. done.
Qed.

Definition live_slot (st : store) (p : Z) : list Z :=
  if decide (sta st p = Invalid) then [] else [p].

(** The slots that [minimum], started at node [n], compares with its
    running best, in the order of the comparisons: the result of the left
    subtree stands for the slots examined there; the right child follows
    unless the node splits on the fixed dimension; the two leaves under the
    last node are looked at only if they are valid. *)
Fixpoint later_min (st : store) (fd nd : nat) (h : nat) (n : Z) : list Z :=
  match h with
  | O => []
  | S h' =>
    match h' with
    | O => live_slot st (left n (off h)) ++ live_slot st (right n (off h))
    | S _ =>
      (left n (off h) :: later_min st fd (inc nd) h' (left n (off h))) ++
      (if (nd =? fd)%nat then []
       else right n (off h) :: later_min st fd (inc nd) h' (right n (off h)))
    end
  end.

(** The same for [maximum], which takes the right subtree first. *)
Fixpoint later_max (st : store) (fd nd : nat) (h : nat) (n : Z) : list Z :=
  match h with
  | O => []
  | S h' =>
    match h' with
    | O => live_slot st (left n (off h)) ++ live_slot st (right n (off h))
    | S _ =>
      (right n (off h) :: later_max st fd (inc nd) h' (right n (off h))) ++
      (if (nd =? fd)%nat then []
       else left n (off h) :: later_max st fd (inc nd) h' (left n (off h)))
    end
  end.

Lemma last_best_leaf_min fd st L best c :
  strict_weak -> last_best (select_compare fd) st L best ->
  last_best (select_compare fd) st (L ++ live_slot st c) (leaf_min fd st best c).
Proof.
  intros Hsw HL. unfold leaf_min, live_slot, pick_min.
  destruct (decide (sta st c = Invalid)) as [E|E].
  - rewrite bool_decide_eq_true_2 by done. cbn [negb]. by rewrite app_nil_r.
  - rewrite bool_decide_eq_false_2 by done. cbn [negb].
    apply (last_best_app _ st L [c] best c);
      [by apply strict_weak_axis|done|apply last_best_one].
Qed.

Lemma last_best_leaf_max fd st L best c :
  strict_weak -> last_best (fun a b => select_compare fd b a) st L best ->
  last_best (fun a b => select_compare fd b a) st (L ++ live_slot st c)
    (leaf_max fd st best c).
Proof.
  intros Hsw HL. unfold leaf_max, live_slot, pick_max.
  destruct (decide (sta st c = Invalid)) as [E|E].
  - rewrite bool_decide_eq_true_2 by done. cbn [negb]. by rewrite app_nil_r.
  - rewrite bool_decide_eq_false_2 by done. cbn [negb].
    apply (last_best_app (fun a b => select_compare fd b a) st L [c] best c);
      [by apply strict_weak_flip|done|apply last_best_one].
Qed.

Lemma leaf_min_range fd st best c : leaf_min fd st best c = best \/ leaf_min fd st best c = c.
Proof.
  unfold leaf_min, pick_min. destruct (negb _); [|by left]. destruct (negb _); auto.
Qed.

Lemma leaf_max_range fd st best c : leaf_max fd st best c = best \/ leaf_max fd st best c = c.
Proof.
  unfold leaf_max, pick_max. destruct (negb _); [|by left]. destruct (negb _); auto.
Qed.

Lemma later_min_S st fd nd h n :
  later_min st fd nd (S (S h)) n =
    (left n (off (S (S h))) :: later_min st fd (inc nd) (S h) (left n (off (S (S h))))) ++
    (if (nd =? fd)%nat then []
     else right n (off (S (S h))) ::
          later_min st fd (inc nd) (S h) (right n (off (S (S h))))).
Proof. done. Qed.

Lemma later_max_S st fd nd h n :
  later_max st fd nd (S (S h)) n =
    (right n (off (S (S h))) :: later_max st fd (inc nd) (S h) (right n (off (S (S h))))) ++
    (if (nd =? fd)%nat then []
     else left n (off (S (S h))) ::
          later_max st fd (inc nd) (S h) (left n (off (S (S h))))).
Proof. done. Qed.

(** [minimum]'s loop returns the last best of the slots it examines. *)
Lemma minimum_loop_visits fd : forall h fuel nd n best st L,
  strict_weak -> (h < fuel)%nat ->
  0 <= n - wid h -> n + wid h < ssize st ->
  0 <= best < ssize st ->
  last_best (select_compare fd) st L best ->
  exists r,
    minimum_loop fuel fd nd (off h) n best st = Ok r st /\
    (r = best \/ n - wid h <= r <= n + wid h) /\
    last_best (select_compare fd) st (L ++ later_min st fd nd h n) r.
Proof.
  induction h as [|[|h] IH]; intros fuel nd n best st L Hsw Hf Hlo Hhi Hb HL;
    (destruct fuel as [|fuel]; [lia|]); cbn [minimum_loop].
  - simpl. exists best. split; [done|]. split; [by left|]. by rewrite app_nil_r.
  - change (off 1) with 1. change (wid 1) with 1 in *.
    cbn [Z.ltb Z.eqb Z.compare Pos.compare Pos.compare_cont Pos.eqb].
    cbn [later_min]. change (off 1) with 1. unfold left, right.
    rewrite bind_is_valid by lia. rewrite leaf_min_run by lia.
    pose proof (leaf_min_range fd st best (n - 1)) as Hr1.
    pose proof (last_best_leaf_min fd st L best (n - 1) Hsw HL) as HL1.
    set (b1 := leaf_min fd st best (n - 1)) in *. clearbody b1.
    assert (Hb1 : 0 <= b1 < ssize st) by (destruct Hr1 as [->| ->]; lia).
    rewrite bind_is_valid by lia.
    pose proof (leaf_min_range fd st b1 (n + 1)) as Hr2.
    pose proof (last_best_leaf_min fd st _ b1 (n + 1) Hsw HL1) as HL2.
    exists (leaf_min fd st b1 (n + 1)). split; [apply leaf_min_run0; lia|].
    split; [|by rewrite app_assoc].
    destruct Hr2 as [->| ->]; [destruct Hr1 as [->| ->]|]; [by left|right; lia|right; lia].
  - rewrite off_gt1, off_half, later_min_S. unfold left, right.
    pose proof (wid_nonneg (S h)) as Hw. pose proof (off_S (S h)) as Ho.
    pose proof (wid_S (S h)) as Hww.
    set (lc := n - off (S (S h))) in *. set (rc := n + off (S (S h))) in *.
    assert (Hlc : lc = n - (wid (S h) + 1)) by (unfold lc; lia).
    assert (Hrc : rc = n + (wid (S h) + 1)) by (unfold rc; lia).
    clearbody lc rc.
    destruct (IH fuel (inc nd) lc lc st [lc] Hsw) as (c & Hc & Hc1 & Hc2);
      [lia|lia|lia|lia|apply last_best_one|].
    assert (Hcr : 0 <= c < ssize st) by (destruct Hc1 as [->|?]; lia).
    rewrite (bind_ok _ _ _ _ _ Hc). cbv beta.
    rewrite !bind_rdv by lia.
    pose proof (last_best_app _ st _ _ best c (strict_weak_axis fd Hsw) HL Hc2) as HL1.
    set (b1 := if negb (select_compare fd (val st best) (val st c)) then c else best) in *.
    assert (Hb1 : b1 = best \/ n - wid (S (S h)) <= b1 <= n + wid (S (S h))).
    { unfold b1. destruct (negb _); [right|by left]. destruct Hc1 as [->|?]; lia. }
    clearbody b1.
    destruct (nd =? fd)%nat eqn:Edim.
    + exists b1. split; [done|]. split; [done|]. by rewrite app_nil_r.
    + rewrite !bind_rdv by (destruct Hb1 as [->|?]; lia).
      pose proof (last_best_app _ st _ _ b1 rc (strict_weak_axis fd Hsw) HL1
                    (last_best_one _ st rc)) as HL2.
      set (b2 := if negb (select_compare fd (val st b1) (val st rc)) then rc else b1) in *.
      assert (Hb2 : b2 = best \/ n - wid (S (S h)) <= b2 <= n + wid (S (S h))).
      { unfold b2. destruct (negb _); [right; lia|done]. }
      clearbody b2.
      destruct (IH fuel (inc nd) rc b2 st _ Hsw ltac:(lia) ltac:(lia) ltac:(lia)
                  ltac:(destruct Hb2 as [->|?]; lia) HL2) as (r & Hr & Hr1 & Hr2).
      exists r. split; [done|]. split.
      * destruct Hr1 as [->|?]; [done|right; lia].
      * by rewrite <- !app_assoc in Hr2.
Qed.

(** [maximum]'s loop returns the last best, for the reversed order, of the
    slots it examines. *)
Lemma maximum_loop_visits fd : forall h fuel nd n best st L,
  strict_weak -> (h < fuel)%nat ->
  0 <= n - wid h -> n + wid h < ssize st ->
  0 <= best < ssize st ->
  last_best (fun a b => select_compare fd b a) st L best ->
  exists r,
    maximum_loop fuel fd nd (off h) n best st = Ok r st /\
    (r = best \/ n - wid h <= r <= n + wid h) /\
    last_best (fun a b => select_compare fd b a) st (L ++ later_max st fd nd h n) r.
Proof.
  induction h as [|[|h] IH]; intros fuel nd n best st L Hsw Hf Hlo Hhi Hb HL;
    (destruct fuel as [|fuel]; [lia|]); cbn [maximum_loop].
  - simpl. exists best. split; [done|]. split; [by left|]. by rewrite app_nil_r.
  - change (off 1) with 1. change (wid 1) with 1 in *.
    cbn [Z.ltb Z.eqb Z.compare Pos.compare Pos.compare_cont Pos.eqb].
    cbn [later_max]. change (off 1) with 1. unfold left, right.
    rewrite bind_is_valid by lia. rewrite leaf_max_run by lia.
    pose proof (leaf_max_range fd st best (n - 1)) as Hr1.
    pose proof (last_best_leaf_max fd st L best (n - 1) Hsw HL) as HL1.
    set (b1 := leaf_max fd st best (n - 1)) in *. clearbody b1.
    assert (Hb1 : 0 <= b1 < ssize st) by (destruct Hr1 as [->| ->]; lia).
    rewrite bind_is_valid by lia.
    pose proof (leaf_max_range fd st b1 (n + 1)) as Hr2.
    pose proof (last_best_leaf_max fd st _ b1 (n + 1) Hsw HL1) as HL2.
    exists (leaf_max fd st b1 (n + 1)). split; [apply leaf_max_run0; lia|].
    split; [|by rewrite app_assoc].
    destruct Hr2 as [->| ->]; [destruct Hr1 as [->| ->]|]; [by left|right; lia|right; lia].
  - rewrite off_gt1, off_half, later_max_S. unfold left, right.
    pose proof (wid_nonneg (S h)) as Hw. pose proof (off_S (S h)) as Ho.
    pose proof (wid_S (S h)) as Hww.
    set (lc := n - off (S (S h))) in *. set (rc := n + off (S (S h))) in *.
    assert (Hlc : lc = n - (wid (S h) + 1)) by (unfold lc; lia).
    assert (Hrc : rc = n + (wid (S h) + 1)) by (unfold rc; lia).
    clearbody lc rc.
    destruct (IH fuel (inc nd) rc rc st [rc] Hsw) as (c & Hc & Hc1 & Hc2);
      [lia|lia|lia|lia|apply last_best_one|].
    assert (Hcr : 0 <= c < ssize st) by (destruct Hc1 as [->|?]; lia).
    rewrite (bind_ok _ _ _ _ _ Hc). cbv beta.
    rewrite !bind_rdv by lia.
    pose proof (last_best_app _ st _ _ best c (strict_weak_flip fd Hsw) HL Hc2) as HL1.
    cbv beta in HL1.
    set (b1 := if negb (select_compare fd (val st c) (val st best)) then c else best) in *.
    assert (Hb1 : b1 = best \/ n - wid (S (S h)) <= b1 <= n + wid (S (S h))).
    { unfold b1. destruct (negb _); [right|by left]. destruct Hc1 as [->|?]; lia. }
    clearbody b1.
    destruct (nd =? fd)%nat eqn:Edim.
    + exists b1. split; [done|]. split; [done|]. by rewrite app_nil_r.
    + rewrite !bind_rdv by (destruct Hb1 as [->|?]; lia).
      pose proof (last_best_app _ st _ _ b1 lc (strict_weak_flip fd Hsw) HL1
                    (last_best_one _ st lc)) as HL2.
      cbv beta in HL2.
      set (b2 := if negb (select_compare fd (val st lc) (val st b1)) then lc else b1) in *.
      assert (Hb2 : b2 = best \/ n - wid (S (S h)) <= b2 <= n + wid (S (S h))).
      { unfold b2. destruct (negb _); [right; lia|done]. }
      clearbody b2.
      destruct (IH fuel (inc nd) lc b2 st _ Hsw ltac:(lia) ltac:(lia) ltac:(lia)
                  ltac:(destruct Hb2 as [->|?]; lia) HL2) as (r & Hr & Hr1 & Hr2).
      exists r. split; [done|]. split.
      * destruct Hr1 as [->|?]; [done|right; lia].
      * by rewrite <- !app_assoc in Hr2.
Qed.

(** C4. On a subtree that satisfies the tree invariants and whose root is
    live, [minimum] for a fixed axis returns a live slot of the subtree
    whose key on that axis is not greater than the key of any live value
    of the subtree, and of the slots it examines that tie for the minimum
    it returns the one examined last: every slot examined after the result
    has a strictly greater key. [maximum] is symmetric: no live value has
    a greater key, and every slot examined after the result has a strictly
    smaller one. *)
Theorem extremum_last_wins (fs : State) (fd h fuel nd : nat) (n : Z) (st : store) :
  strict_weak ->
  (h < fuel)%nat ->
  0 <= n - wid h -> n + wid h < ssize st ->
  st_ok fs st h n -> kd_ok st nd h n -> live st n ->
  (exists r,
     minimum fuel fd nd (off h) n st = Ok r st /\
     n - wid h <= r <= n + wid h /\ live st r /\
     Forall (fun y => select_compare fd y (val st r) = false) (elems st h n) /\
     exists before after,
       n :: later_min st fd nd h n = before ++ r :: after /\
       Forall (fun q => select_compare fd (val st r) (val st q) = true) after) /\
  (exists r,
     maximum fuel fd nd (off h) n st = Ok r st /\
     n - wid h <= r <= n + wid h /\ live st r /\
     Forall (fun y => select_compare fd (val st r) y = false) (elems st h n) /\
     exists before after,
       n :: later_max st fd nd h n = before ++ r :: after /\
       Forall (fun q => select_compare fd (val st q) (val st r) = true) after).
Proof.
  intros Hsw Hf Hlo Hhi Hst Hkd Hlive. pose proof (wid_nonneg h) as Hw. split.
  - destruct (minimum_spec Hsw fs fd h fuel nd n st) as (r & Hrun & Hr & Hrl & Hmin);
      [done|done|done|done|done|done|].
    destruct (minimum_loop_visits fd h fuel nd n n st [n] Hsw)
      as (r' & Hrun' & _ & (l1 & l2 & Heq & _ & Hafter));
      [done|done|done|lia|apply last_best_one|].
    unfold minimum in Hrun. rewrite Hrun in Hrun'. injection Hrun' as <-.
    exists r. split; [done|]. split; [done|]. split; [done|]. split; [done|].
    by exists l1, l2.
  - destruct (maximum_spec Hsw fs fd h fuel nd n st) as (r & Hrun & Hr & Hrl & Hmax);
      [done|done|done|done|done|done|].
    destruct (maximum_loop_visits fd h fuel nd n n st [n] Hsw)
      as (r' & Hrun' & _ & (l1 & l2 & Heq & _ & Hafter));
      [done|done|done|lia|apply last_best_one|].
    unfold maximum in Hrun. rewrite Hrun in Hrun'. injection Hrun' as <-.
    exists r. split; [done|]. split; [done|]. split; [done|]. split; [done|].
    by exists l1, l2.
Qed.

(** * Further properties of the container *)

(** ** Lookup: present and absent keys *)

(** X1. In a container that satisfies the invariants, [find] returns
    [end()] exactly when no stored value equals the probe on every axis;
    otherwise it returns a slot of the live region that is live and whose
    value equals the probe on every axis. The container is not modified. *)
Theorem find_sound_complete (c : kdtree) (v : V) :
  strict_weak -> (0 < K)%nat -> wf c ->
  exists r,
    find v c = Ok r c /\
    (r = end_ c \/
     (begin_ c <= r < end_ c /\ live (_buf c) r /\ axis_equal (val (_buf c) r) v)) /\
    (r <> end_ c <-> exists x, x ∈ contents c /\ axis_equal x v).
Proof.
  intros Hsw HK Hwf. unfold begin_, end_.
  destruct Hwf as (Hfs & Hsz & Hcap & [[Hfin Hcnt]|(h & Hfin & Hle & Hst & Hkd & Hcnt & Hpos)]).
  - exists (_finish c). split; [unfold find; by rewrite Hcnt|]. split; [by left|].
    split; [done|]. intros (x & Hx & _). unfold contents in Hx. rewrite Hfin in Hx.
    by apply elem_of_nil in Hx.
  - pose proof (wid_nonneg h) as Hw. pose proof (wid_S h) as Hww.
    pose proof (wid_ge (S h)) as Hge.
    destruct (find_spec Hsw HK (_full_state c) h (Z.to_nat (wid (S h))) (_finish c) 0%nat
                (wid h) v (_buf c)) as (r & Hrun & Hsound & Hcomp);
      [lia|lia|lia|done|done|done|].
    exists r. split.
    { unfold find. destruct (Z.eqb_spec (_count c) 0) as [?|_]; [lia|].
      unfold on_buf. rewrite Hfin in Hrun |- *.
      replace (wid (S h) - 0) with (wid (S h)) by lia.
      rewrite root_offset_wid, root_wid, Hrun. by rewrite set_buf_id. }
    split.
    { destruct Hsound as [->|(Hr & Hl & Ha)]; [by left|right]. split; [lia|done]. }
    rewrite (contents_wid c h Hfin). split.
    + intros Hne. destruct Hsound as [->|(Hr & Hl & Ha)]; [done|].
      exists (val (_buf c) r). split; [|done]. apply elem_of_elems. by exists r.
    + intros (x & Hx & Ha). apply elem_of_elems in Hx as (q & Hq & Hql & Hqv).
      destruct Hcomp as (Hr & _); [|lia]. exists q. by rewrite Hqv.
Qed.

(** ** What an insertion adds *)

Lemma insert_with_shape c defer it c' :
  insert_with defer c = Ok it c' ->
  exists c1,
    _prepare_insert c = Ok tt c1 /\
    _finish c' = _finish c1 /\ _capacity c' = _capacity c1 /\
    _full_state c' = _full_state c1 /\ _count c' = wrap64 (_count c1 + 1).
Proof.
  unfold insert_with, bind at 1.
  destruct (_prepare_insert c) as [[] c1| | |]; try done.
  unfold bind, incr_count, on_buf. cbn [_buf _finish _capacity _count _full_state].
  destruct (_single_insert _ _ _ _ _ _ _) as [p st'| | |]; try done.
  intros [= <- <-]. by exists c1.
Qed.

(** The span and the capacity [_prepare_insert] leaves. *)
Lemma prepare_insert_shape c :
  wf c -> _count c < 2 ^ 64 - 1 ->
  exists c1,
    _prepare_insert c = Ok tt c1 /\
    _finish c1 = (if _count c =? _finish c then 2 * _finish c + 1 else _finish c) /\
    _capacity c1 = (if _count c =? _capacity c then 2 * _capacity c + 1 else _capacity c) /\
    _full_state c1 =
      (if (0 <? _count c) && (_count c =? _finish c) then State_not (_full_state c)
       else _full_state c).
Proof.
  intros Hwf Hroom. pose proof (wf_capacity_bound c Hwf) as Hcb.
  pose proof (wf_count_bound c Hwf) as [Hcnt Hfc].
  destruct Hwf as (Hfs & Hsz & Hcap & Hshape). unfold _prepare_insert.
  destruct (Z.eqb_spec (_count c) 0) as [E0|E0].
  - assert (Hf0 : _finish c = 0).
    { destruct Hshape as [[? _]|(h & _ & _ & _ & _ & _ & ?)]; [done|lia]. }
    rewrite E0, Hf0, Z.eqb_refl, Z.ltb_irrefl. cbn [andb].
    destruct (Z.eqb_spec (_capacity c) 0) as [Ec|Ec].
    + eexists. split; [reflexivity|]. unfold _alloc_storage.
      change (1 =? 0) with false. cbn iota. rewrite ftz_1, Ec.
      cbn [_finish _capacity _full_state]. by rewrite Z.eqb_refl.
    + eexists. split; [reflexivity|]. cbn [_finish _capacity _full_state].
      by destruct (Z.eqb_spec 0 (_capacity c)); [lia|].
  - assert (Hpos : (0 <? _count c) = true) by (apply Z.ltb_lt; lia).
    rewrite Hpos. cbn [andb].
    replace (_finish c - 0) with (_finish c) by lia.
    destruct (Z.eqb_spec (_count c) (_finish c)) as [E1|E1].
    + destruct Hcap as [Hc0|(H & HH & Hc)]; [lia|].
      destruct Hshape as [[? ?]|(h & Hfin & _)]; [lia|].
      destruct (Z.eqb_spec (_count c) (_capacity c)) as [E2|E2].
      * assert (Hlt64 : wid (S H) < wid 64) by (rewrite wid_64; lia).
        apply wid_lt_inv in Hlt64.
        pose proof (wid_mono (S (S H)) 64) as Hm64. rewrite wid_64, (wid_S (S H)) in Hm64.
        assert (Hn : wrap64 (_capacity c * 2 + 1) = 2 * _capacity c + 1)
          by (rewrite wrap64_small; lia).
        unfold _expand_alloc. rewrite Hn.
        destruct (expand_spec (Some (allocate (2 * _capacity c + 1))) c)
          as (b' & Hrun & _); [lia|lia|rewrite ssize_allocate by lia; lia|].
        rewrite Hrun. eexists. split; [reflexivity|].
        cbn [_finish _capacity _full_state]. done.
      * assert (Hlt : (S h < S H)%nat) by (apply wid_lt_inv; lia).
        pose proof (wid_mono (S (S h)) (S H)) as Hm. rewrite (wid_S (S h)) in Hm.
        destruct (expand_spec None c) as (b' & Hrun & _); [lia|lia|lia|].
        rewrite Hrun. eexists. split; [reflexivity|].
        cbn [_finish _capacity _full_state]. done.
    + assert (Hne : _count c <> _capacity c) by lia.
      eexists. split; [reflexivity|].
      by destruct (Z.eqb_spec (_count c) (_capacity c)); [lia|].
Qed.


(** ** Growth *)

Lemma insert_with_growth c defer it c' :
  strict_weak -> wf c ->
  (exists x, defer = _deferred_copy x \/ defer = _deferred_move x) ->
  insert_with defer c = Ok it c' ->
  wf c' /\ _count c' = _count c + 1 /\
  _capacity c' = (if _count c =? _capacity c then 2 * _capacity c + 1 else _capacity c) /\
  _finish c' = (if _count c =? _finish c then 2 * _finish c + 1 else _finish c).
Proof.
  intros Hsw Hwf Hdefer Hrun.
  destruct (insert_with_returns c defer it c' Hwf Hrun) as [_ Hroom].
  pose proof (insert_with_wf c defer it c' Hsw Hwf Hdefer Hrun) as Hwf'.
  destruct (insert_with_shape c defer it c' Hrun) as (c1 & Hprep & Hf & Hc & _ & Hn).
  destruct (prepare_insert_spec c Hwf Hroom)
    as (c2 & h & Hprep2 & _ & _ & _ & _ & _ & Hcnt2 & _).
  destruct (prepare_insert_shape c Hwf Hroom) as (c1' & Hprep' & Hf1 & Hc1 & _).
  rewrite Hprep in Hprep', Hprep2. injection Hprep' as <-. injection Hprep2 as <-.
  pose proof (wf_count_bound c Hwf) as [Hcnt _].
  split; [done|]. split; [rewrite Hn, Hcnt2; apply wrap64_small; lia|].
  by rewrite Hf, Hc, Hf1, Hc1.
Qed.

(** X3. A successful insertion into a container that satisfies the
    invariants changes the capacity only when the container is full ([size() == capacity()]), and then from [cap] to
    [2 * cap + 1] (from 0 to 1); likewise the span of the live region
    grows from [span] to [2 * span + 1] exactly when every slot of it is
    taken. Neither ever shrinks. *)
Theorem insert_growth (c c' : kdtree) (v : V) (it : Z) :
  strict_weak -> wf c ->
  insert v c = Ok it c' \/ insert_move v c = Ok it c' ->
  capacity c' = (if size c =? capacity c then 2 * capacity c + 1 else capacity c) /\
  end_ c' - begin_ c' =
    (if size c =? end_ c - begin_ c then 2 * (end_ c - begin_ c) + 1
     else end_ c - begin_ c) /\
  capacity c <= capacity c' /\ end_ c <= end_ c' /\ end_ c' <= capacity c'.
Proof.
  intros Hsw Hwf Hrun.
  assert (Hw : exists defer, insert_with defer c = Ok it c' /\
             exists x, defer = _deferred_copy x \/ defer = _deferred_move x).
  { destruct Hrun as [Hrun|Hrun]; eexists; (split; [exact Hrun|]); exists v; auto. }
  destruct Hw as (defer & Hrun' & Hdefer).
  destruct (insert_with_growth c defer it c' Hsw Hwf Hdefer Hrun')
    as (Hwf' & _ & Hc & Hf).
  pose proof (wf_count_bound c Hwf) as [Hcnt Hfc].
  pose proof (wf_count_bound c' Hwf') as [Hcnt' Hfc'].
  unfold capacity, size, begin_, end_. rewrite Hf, Hc.
  replace (_finish c - 0) with (_finish c) by lia.
  replace ((if _count c =? _finish c then 2 * _finish c + 1 else _finish c) - 0)
    with (if _count c =? _finish c then 2 * _finish c + 1 else _finish c) by lia.
  split; [done|]. split; [done|].
  rewrite Hf, Hc in Hfc'.
  destruct (_count c =? _capacity c); destruct (_count c =? _finish c); lia.
Qed.

(** *** The rounding helper along a run of insertions *)

Lemma ftz_range u : 0 <= u < 2 ^ 64 -> 0 <= bitwise.ftz u < 2 ^ 64.
Proof.
  intros Hu. destruct (ftz_smallest u Hu) as ((k & Hk & ->) & _ & _).
  assert (2 ^ k <= 2 ^ 64) by (apply Z.pow_le_mono_r; lia).
  pose proof (Z.pow_pos_nonneg 2 k). lia.
Qed.

Lemma ftz_mono u v : 0 <= u <= v -> v < 2 ^ 64 -> bitwise.ftz u <= bitwise.ftz v.
Proof.
  intros Huv Hv.
  destruct (ftz_smallest u) as (_ & _ & Hmin); [lia|].
  destruct (ftz_smallest v) as ((k & Hk & Hkv) & Hge & _); [lia|].
  rewrite Hkv in *. apply Hmin; lia.
Qed.

Lemma ftz_fixed u : 0 <= u < 2 ^ 64 -> bitwise.ftz (bitwise.ftz u) = bitwise.ftz u.
Proof.
  intros Hu. pose proof (ftz_range u Hu) as Hr.
  destruct (ftz_smallest u Hu) as ((k & Hk & Hku) & _ & _).
  destruct (ftz_smallest (bitwise.ftz u) Hr) as (_ & Hge & Hmin).
  specialize (Hmin k). rewrite <- Hku in Hmin. lia.
Qed.

(** Two values of the form [2^k - 1]: the greater is at least twice the
    smaller plus one. *)
Lemma pow2m1_gap a b :
  0 <= a -> 0 <= b -> 2 ^ a - 1 < 2 ^ b - 1 -> 2 * (2 ^ a - 1) + 1 <= 2 ^ b - 1.
Proof.
  intros Ha Hb Hlt. assert (a < b) by (apply (Z.pow_lt_mono_r_iff 2); lia).
  assert (2 ^ (a + 1) <= 2 ^ b) by (apply Z.pow_le_mono_r; lia).
  rewrite Z.pow_add_r in * by lia. lia.
Qed.

Lemma ftz_gap u v :
  0 <= u < 2 ^ 64 -> 0 <= v < 2 ^ 64 -> bitwise.ftz u < bitwise.ftz v ->
  2 * bitwise.ftz u + 1 <= bitwise.ftz v.
Proof.
  intros Hu Hv Hlt.
  destruct (ftz_smallest u Hu) as ((a & Ha & Hau) & _ & _).
  destruct (ftz_smallest v Hv) as ((b & Hb & Hbv) & _ & _).
  rewrite Hau, Hbv in *. apply pow2m1_gap; lia.
Qed.

Lemma ftz_succ m :
  0 <= m < 2 ^ 64 - 1 ->
  bitwise.ftz (m + 1) = (if m =? bitwise.ftz m then 2 * m + 1 else bitwise.ftz m).
Proof.
  intros Hm.
  destruct (ftz_smallest m) as ((k & Hk & Hkm) & Hge & Hmin); [lia|].
  destruct (ftz_smallest (m + 1)) as ((j & Hj & Hjm) & Hge' & Hmin'); [lia|].
  destruct (Z.eqb_spec m (bitwise.ftz m)) as [E|E].
  - assert (Hlt : bitwise.ftz m < bitwise.ftz (m + 1)) by lia.
    pose proof (ftz_gap m (m + 1) ltac:(lia) ltac:(lia) Hlt) as Hgap.
    specialize (Hmin' (k + 1) ltac:(lia)).
    rewrite Z.pow_add_r in Hmin' by lia. lia.
  - specialize (Hmin' k ltac:(lia)). specialize (Hmin j ltac:(lia)). lia.
Qed.

Lemma insert_all_growth (n0 : Z) : forall vs c,
  strict_weak -> 0 <= n0 < 2 ^ 64 ->
  wf c -> _finish c = bitwise.ftz (_count c) ->
  _capacity c = Z.max (bitwise.ftz n0) (bitwise.ftz (_count c)) ->
  _count c + Z.of_nat (length vs) < 2 ^ 64 ->
  Forall (fun v => copy_throws v = false) vs ->
  exists c',
    insert_all vs c = Ok tt c' /\ wf c' /\
    _count c' = _count c + Z.of_nat (length vs) /\
    _finish c' = bitwise.ftz (_count c') /\
    _capacity c' = Z.max (bitwise.ftz n0) (bitwise.ftz (_count c')).
Proof.
  induction vs as [|v vs IH]; intros c Hsw Hn0 Hwf Hf Hc Hroom Hnt.
  - exists c. simpl. split; [done|]. split; [done|]. split; [lia|done].
  - apply Forall_cons in Hnt as [Hv Hnt]. cbn [insert_all length] in Hroom |- *.
    pose proof (wf_count_bound c Hwf) as [Hcnt _].
    destruct (insert_with_spec Hsw c (_deferred_copy v) v Hwf)
      as (c1 & it & Hrun & _); [lia|done|].
    destruct (insert_with_growth c (_deferred_copy v) it c1 Hsw Hwf)
      as (Hwf1 & Hcnt1 & Hc1 & Hf1); [by exists v; left|done|].
    unfold insert. rewrite (bind_ok _ _ _ _ _ Hrun).
    pose proof (ftz_succ (_count c) ltac:(lia)) as Hs.
    pose proof (ftz_range n0 Hn0) as Hr0.
    destruct (ftz_smallest (_count c)) as (_ & Hge & _); [lia|].
    assert (Hf1' : _finish c1 = bitwise.ftz (_count c1)).
    { rewrite Hf1, Hcnt1, Hs, Hf.
      destruct (Z.eqb_spec (_count c) (bitwise.ftz (_count c))); lia. }
    assert (Hc1' : _capacity c1 = Z.max (bitwise.ftz n0) (bitwise.ftz (_count c1))).
    { rewrite Hc1, Hcnt1, Hs, Hc.
      destruct (Z.eqb_spec (_count c) (bitwise.ftz (_count c))) as [E|E];
        destruct (Z.eqb_spec (_count c)
                    (Z.max (bitwise.ftz n0) (bitwise.ftz (_count c)))) as [E'|E']; try lia.
      assert (Hlt : bitwise.ftz (_count c) < bitwise.ftz n0) by lia.
      pose proof (ftz_gap (_count c) n0 ltac:(lia) Hn0 Hlt). lia. }
    destruct (IH c1 Hsw Hn0 Hwf1 Hf1' Hc1') as (c' & Hrun' & Hwf' & Hcnt' & Hf' & Hc');
      [lia|done|].
    exists c'. split; [done|]. split; [done|]. split; [lia|done].
Qed.

(** X4. Inserting [n] values one after the other, by copy, into a
    container built
    with size hint [n0] leaves [size() == n], a live region of
    [fill_trailing_zeros(n)] slots (the smallest tree of the form
    [2^k - 1] that can hold them, so the depth is the least possible),
    and a capacity of [fill_trailing_zeros] of the larger of [n0] and [n]:
    the container never allocates more than the hint asks for unless the
    values need it. *)
Theorem inserts_fill_smallest_tree (n0 : Z) (vs : list V) :
  strict_weak -> 0 <= n0 < 2 ^ 64 -> Z.of_nat (length vs) < 2 ^ 64 ->
  Forall (fun v => copy_throws v = false) vs ->
  exists c,
    insert_all vs (kdtree_sized n0) = Ok tt c /\
    size c = Z.of_nat (length vs) /\
    end_ c - begin_ c = bitwise.ftz (Z.of_nat (length vs)) /\
    capacity c = bitwise.ftz (Z.max n0 (Z.of_nat (length vs))).
Proof.
  intros Hsw Hn0 Hlen Hnt.
  assert (Hc0 : _count (kdtree_sized n0) = 0).
  { unfold kdtree_sized, _alloc_storage. by destruct (n0 =? 0). }
  assert (Hf0 : _finish (kdtree_sized n0) = 0).
  { unfold kdtree_sized, _alloc_storage. by destruct (n0 =? 0). }
  assert (Hcap0 : _capacity (kdtree_sized n0) = bitwise.ftz n0).
  { unfold kdtree_sized, _alloc_storage.
    destruct (Z.eqb_spec n0 0) as [->|_]; [by rewrite ftz_zero|done]. }
  pose proof (ftz_range n0 Hn0) as Hr0.
  destruct (insert_all_growth n0 vs (kdtree_sized n0) Hsw Hn0)
    as (c & Hrun & _ & Hcnt & Hf & Hc);
    [by apply kdtree_sized_wf|by rewrite Hf0, Hc0, ftz_zero
    |rewrite Hcap0, Hc0, ftz_zero; lia|lia|done|].
  exists c. split; [done|]. unfold size, begin_, end_, capacity.
  rewrite Hc, Hf, Hcnt, Hc0, Z.add_0_l. split; [done|]. split; [lia|].
  destruct (Z.max_spec n0 (Z.of_nat (length vs))) as [[Hlt ->]|[Hle ->]].
  - pose proof (ftz_mono n0 (Z.of_nat (length vs)) ltac:(lia) Hlen). lia.
  - pose proof (ftz_mono (Z.of_nat (length vs)) n0 ltac:(lia) ltac:(lia)). lia.
Qed.

(** ** Walking the live region *)

(** The loop a user runs over a container,
    [for (auto ref : tree) if (ref.is_valid()) { ... ref.value() ... }]:
    from [begin()], [operator++] steps to the next slot until [end()] is
    met; the values of the valid slots are collected in the order in which
    they are met. *)
Fixpoint valid_values_loop (fuel : nat) (it finish : Z) : M store (list V) :=
  if it =? finish then ret []
  else
    match fuel with
    | O => nofuel
    | S fuel =>
      ok <- is_valid it ;;
      if ok then
        v <- rdv it ;;
        rest <- valid_values_loop fuel (it + 1) finish ;;
        ret (v :: rest)
      else valid_values_loop fuel (it + 1) finish
    end.

Definition valid_values : M kdtree (list V) :=
  fun c =>
    on_buf (valid_values_loop (Z.to_nat (end_ c - begin_ c)) (begin_ c) (end_ c)) c.

(** The live values of [k] consecutive slots from [a] on. *)
Fixpoint live_run (st : store) (a : Z) (k : nat) : list V :=
  match k with
  | O => []
  | S k => here st a ++ live_run st (a + 1) k
  end.

(** The number of slots of a subtree of height [h]. *)
Fixpoint slots (h : nat) : nat :=
  match h with O => 1 | S h => slots h + 1 + slots h end%nat.

Lemma slots_wid h : Z.of_nat (slots h) = 2 * wid h + 1.
Proof. induction h as [|h IH]; [done|]. cbn [slots]. rewrite wid_S. lia. Qed.

Lemma live_run_app st : forall k1 k2 a,
  live_run st a (k1 + k2) = live_run st a k1 ++ live_run st (a + Z.of_nat k1) k2.
Proof.
  induction k1 as [|k1 IH]; intros k2 a.
  - simpl. by rewrite Z.add_0_r.
  - cbn [live_run Nat.add]. rewrite IH, <- app_assoc.
    by replace (a + 1 + Z.of_nat k1) with (a + Z.of_nat (S k1)) by lia.
Qed.

Lemma elems_live_run st : forall h n,
  elems st h n = live_run st (n - wid h) (slots h).
Proof.
  induction h as [|h IH]; intros n.
  - simpl. by rewrite Z.sub_0_r, app_nil_r.
  - rewrite elems_S, !IH. cbn [slots]. rewrite !live_run_app.
    pose proof (slots_wid h) as Hs. rewrite off_S, wid_S. cbn [live_run].
    rewrite app_nil_r.
    replace (n - (wid h + 1) - wid h) with (n - (2 * wid h + 1)) by lia.
    replace (n - (2 * wid h + 1) + Z.of_nat (slots h)) with n by lia.
    replace (n - (2 * wid h + 1) + Z.of_nat (slots h + 1))
      with (n + (wid h + 1) - wid h) by lia.
    by rewrite app_assoc.
Qed.

Lemma valid_values_loop_run : forall k fuel a st,
  (k <= fuel)%nat -> 0 <= a -> a + Z.of_nat k <= ssize st ->
  valid_values_loop fuel a (a + Z.of_nat k) st = Ok (live_run st a k) st.
Proof.
  induction k as [|k IH]; intros fuel a st Hf Ha Hhi.
  - rewrite Z.add_0_r. destruct fuel; cbn [valid_values_loop]; by rewrite Z.eqb_refl.
  - destruct fuel as [|fuel]; [lia|]. cbn [valid_values_loop live_run].
    destruct (Z.eqb_spec a (a + Z.of_nat (S k))) as [?|_]; [lia|].
    rewrite bind_is_valid by lia.
    replace (a + Z.of_nat (S k)) with (a + 1 + Z.of_nat k) by lia.
    unfold here. destruct (decide (sta st a = Invalid)) as [E|E].
    + rewrite bool_decide_eq_true_2 by done. cbn [negb app]. apply IH; lia.
    + rewrite bool_decide_eq_false_2 by done. cbn [negb app].
      rewrite bind_rdv by lia. unfold bind. by rewrite IH by lia.
Qed.

Lemma ssize_nonneg st : 0 <= ssize st.
Proof. unfold ssize, zlen. lia. Qed.

Lemma valid_values_contents c : wf c -> valid_values c = Ok (contents c) c.
Proof.
  intros Hwf. unfold valid_values, end_, begin_, on_buf.
  destruct Hwf as (_ & Hsz & _ & [[Hfin Hcnt]|(h & Hfin & Hle & _)]).
  - unfold contents. rewrite Hfin. change (0 - 0) with 0.
    replace 0 with (0 + Z.of_nat 0) at 3 by done.
    pose proof (ssize_nonneg (_buf c)).
    rewrite valid_values_loop_run by (cbn [Z.to_nat Z.of_nat]; lia).
    cbn [live_run Z.eqb]. by rewrite set_buf_id.
  - rewrite (contents_wid c h Hfin), elems_live_run.
    pose proof (slots_wid h) as Hs. pose proof (wid_S h) as Hww.
    replace (wid h - wid h) with 0 by lia.
    replace (_finish c) with (0 + Z.of_nat (slots h)) at 2 by lia.
    rewrite valid_values_loop_run by lia. by rewrite set_buf_id.
Qed.

(** X5. Walking a container that satisfies the invariants from [begin()]
    to [end()] and keeping the valid slots visits every stored value once:
    the walk returns the live values in slot order, their number is
    [size()], and the container is left as it is. *)
Theorem walk_visits_contents (c : kdtree) :
  wf c ->
  exists l,
    valid_values c = Ok l c /\ l = contents c /\
    Z.of_nat (length l) = size c /\
    (forall v, v ∈ l <->
       exists p, begin_ c <= p < end_ c /\ live (_buf c) p /\ val (_buf c) p = v).
Proof.
  intros Hwf. exists (contents c). split; [by apply valid_values_contents|].
  split; [done|]. unfold size, begin_, end_.
  destruct Hwf as (_ & _ & _ & [[Hfin Hcnt]|(h & Hfin & _ & _ & _ & Hcnt & _)]).
  - unfold contents. rewrite Hfin, Hcnt. cbn [Z.eqb length]. split; [done|].
    intros v. split; [by intros ?%elem_of_nil|]. intros (p & Hp & _). lia.
  - rewrite (contents_wid c h Hfin). split; [done|]. intros v.
    rewrite elem_of_elems. pose proof (wid_S h).
    split; intros (p & Hp & H'); exists p; (split; [lia|done]).
Qed.

(** *** One dimension: the walk is sorted *)

Lemma ForallOrdPairs_app {A} (R : A -> A -> Prop) (l1 l2 : list A) :
  ForallOrdPairs R l1 -> ForallOrdPairs R l2 ->
  Forall (fun a => Forall (R a) l2) l1 ->
  ForallOrdPairs R (l1 ++ l2).
Proof.
  induction 1 as [|a l1 Ha Hl1 IH]; intros H2 H12; [done|].
  apply Forall_cons in H12 as [Ha2 H12]. cbn [app]. constructor.
  - apply Forall_app. by split.
  - by apply IH.
Qed.

Lemma kd_sorted fs st : strict_weak -> K = 1%nat -> forall h n,
  st_ok fs st h n -> kd_ok st 0 h n ->
  ForallOrdPairs (fun a b => select_compare 0 b a = false) (elems st h n).
Proof.
  intros Hsw HK. assert (Hinc : inc 0 = 0%nat) by (unfold inc; by rewrite HK).
  induction h as [|h IH]; intros n Hst Hkd.
  - simpl. unfold here. destruct (decide _); repeat constructor.
  - apply st_ok_S in Hst as (Hlive & _ & Hsl & Hsr).
    apply kd_ok_S in Hkd as (Hkl & Hkr & Hkdl & Hkdr). rewrite Hinc in Hkdl, Hkdr.
    rewrite elems_S, (here_live st n) by done.
    apply ForallOrdPairs_app; [by apply IH| |].
    + cbn [app]. constructor; [done|by apply IH].
    + eapply Forall_impl; [exact Hkl|]. intros a Ha. simpl in Ha.
      cbn [app]. constructor; [done|].
      eapply Forall_impl; [exact Hkr|]. intros b Hb. simpl in Hb.
      by apply (cmp_ge_trans Hsw _ _ (val st n)).
Qed.

(** X6. With a single dimension ([K = 1]) the walk from [begin()] to
    [end()] over the valid slots meets the stored values in non-decreasing
    order: no value is less than one met before it. *)
Theorem walk_sorted_one_dimension (c : kdtree) :
  strict_weak -> K = 1%nat -> wf c ->
  exists l,
    valid_values c = Ok l c /\
    ForallOrdPairs (fun a b => select_compare 0 b a = false) l.
Proof.
  intros Hsw HK Hwf. exists (contents c). split; [by apply valid_values_contents|].
  destruct Hwf as (_ & _ & _ & [[Hfin Hcnt]|(h & Hfin & _ & Hst & Hkd & _)]).
  - unfold contents. rewrite Hfin. cbn [Z.eqb]. constructor.
  - rewrite (contents_wid c h Hfin). by eapply kd_sorted.
Qed.

(** ** clear *)

(** The loop of [_destroy]: the result lists the values whose destructor
    is run, in the order of the calls. *)
Fixpoint _destroy_loop (fuel : nat) (i finish : Z) : M store (list V) :=
  if negb (i =? finish) then
    match fuel with
    | O => nofuel
    | S fuel =>
      ok <- is_valid i ;;
      destroyed <- (if ok then v <- rdv i ;; ret [v] else ret []) ;;
      rest <- _destroy_loop fuel (i + 1) finish ;;
      ret (destroyed ++ rest)
    end
  else ret [].

(** [_destroy] *)
Definition _destroy : M kdtree (list V) :=
  fun c =>
    match _destroy_loop (Z.to_nat (_finish c - 0)) 0 (_finish c) (_buf c) with
    | Ok l b => Ok l (mkTree b 0 (_capacity c) 0 (_full_state c))
    | Throw _ => Fault
    | Fault => Fault
    | NoFuel => NoFuel
    end.

(** [clear] *)
Definition clear : M kdtree (list V) :=
  fun c => if negb (_count c =? 0) then _destroy c else Ok [] c.

Lemma destroy_loop_run : forall k fuel a st,
  (k <= fuel)%nat -> 0 <= a -> a + Z.of_nat k <= ssize st ->
  _destroy_loop fuel a (a + Z.of_nat k) st = Ok (live_run st a k) st.
Proof.
  induction k as [|k IH]; intros fuel a st Hf Ha Hhi.
  - rewrite Z.add_0_r. destruct fuel; cbn [_destroy_loop]; by rewrite Z.eqb_refl.
  - destruct fuel as [|fuel]; [lia|]. cbn [_destroy_loop live_run].
    destruct (Z.eqb_spec a (a + Z.of_nat (S k))) as [?|_]; [lia|]. cbn [negb].
    rewrite bind_is_valid by lia.
    replace (a + Z.of_nat (S k)) with (a + 1 + Z.of_nat k) by lia.
    unfold here. destruct (decide (sta st a = Invalid)) as [E|E].
    + rewrite bool_decide_eq_true_2 by done. cbn [negb]. rewrite bind_ret.
      unfold bind. by rewrite IH by lia.
    + rewrite bool_decide_eq_false_2 by done. cbn [negb].
      rewrite bind_assoc, bind_rdv, bind_ret by lia.
      unfold bind. by rewrite IH by lia.
Qed.

Lemma wf_cleared c :
  wf c -> wf (mkTree (_buf c) 0 (_capacity c) 0 (_full_state c)).
Proof.
  intros (Hfs & Hsz & Hcap & _). unfold wf.
  cbn [_buf _finish _capacity _count _full_state]. by repeat split; [..|left].
Qed.

(** X7. [clear] on a container that satisfies the invariants runs the
    destructor of every stored value once, in slot order, and of nothing
    else; afterwards [size()] is 0, [begin() == end()], the capacity and
    the parity are as before, the invariants hold (so the container can be
    filled again), and [find] returns [end()] for every probe. *)
Theorem clear_empties (c : kdtree) :
  wf c ->
  exists c',
    clear c = Ok (contents c) c' /\
    size c' = 0 /\ empty c' = true /\ begin_ c' = end_ c' /\
    capacity c' = capacity c /\ _full_state c' = _full_state c /\
    wf c' /\ contents c' = [] /\
    forall v, find v c' = Ok (end_ c') c'.
Proof.
  intros Hwf. pose proof (wf_cleared c Hwf) as Hwf'.
  destruct Hwf as (Hfs & Hsz & Hcap & [[Hfin Hcnt]|(h & Hfin & Hle & _ & _ & _ & Hpos)]).
  - exists c. unfold clear, contents. rewrite Hcnt, Hfin. cbn [Z.eqb negb].
    split; [done|]. unfold size, empty, size, begin_, end_, contents, find.
    rewrite Hcnt, Hfin. cbn [Z.eqb].
    split; [done|]. split; [done|]. split; [done|]. split; [done|].
    split; [done|]. split; [|by split].
    unfold wf. rewrite Hfin, Hcnt. split; [done|]. split; [done|]. split; [done|]. by left.
  - exists (mkTree (_buf c) 0 (_capacity c) 0 (_full_state c)). split.
    + unfold clear. destruct (Z.eqb_spec (_count c) 0) as [?|_]; [lia|]. cbn [negb].
      unfold _destroy. rewrite (contents_wid c h Hfin), elems_live_run.
      pose proof (slots_wid h) as Hs. pose proof (wid_S h) as Hww.
      replace (wid h - wid h) with 0 by lia.
      replace (_finish c) with (0 + Z.of_nat (slots h)) at 2 by lia.
      by rewrite destroy_loop_run by lia.
    + unfold size, empty, size, begin_, end_, capacity, contents, find.
      cbn [_buf _finish _capacity _count _full_state Z.eqb].
      split; [done|]. split; [done|]. split; [done|]. split; [done|].
      split; [done|]. split; [exact Hwf'|]. by split.
Qed.

(** ** The erase stubs and lookup *)

Lemma find_count_irrelevant (c : kdtree) (n : Z) (v : V) (p : Z) :
  _count c <> 0 -> n <> 0 -> find v c = Ok p c ->
  find v (mkTree (_buf c) (_finish c) (_capacity c) n (_full_state c)) =
    Ok p (mkTree (_buf c) (_finish c) (_capacity c) n (_full_state c)).
Proof.
  intros Hc Hn. unfold find, on_buf. cbn [_buf _finish _capacity _count _full_state].
  destruct (Z.eqb_spec (_count c) 0) as [?|_]; [done|].
  destruct (Z.eqb_spec n 0) as [?|_]; [done|].
  destruct (_find _ _ _ _ _ _ _) as [r b| | |]; try done.
  unfold set_buf. cbn [_buf _finish _capacity _count _full_state].
  destruct c as [b0 f0 c0 n0 fs0]. cbn [_buf _finish _capacity _count _full_state].
  by intros [= -> ->].
Qed.

(** X10. The [erase] stub removes nothing. After [erase(v)] on a
    container that satisfies the invariants and holds [v], a walk over the
    valid slots still meets every value that was stored, [v] included;
    when the container held at least two values, [find(v)] still returns
    a live slot holding a value equal to [v] on every axis; when it held
    only [v], the count has dropped to 0 and [find] returns [end()] for
    every probe although the slot is still valid. *)
Theorem erase_removes_nothing (c : kdtree) (v : V) :
  strict_weak -> (0 < K)%nat -> wf c -> v ∈ contents c ->
  exists c',
    erase v c = Ok 0 c' /\
    size c' = size c - 1 /\
    valid_values c' = Ok (contents c) c' /\
    (2 <= size c ->
     exists p, find v c' = Ok p c' /\ p <> end_ c' /\
       live (_buf c') p /\ axis_equal (val (_buf c') p) v) /\
    (size c = 1 -> forall w, find w c' = Ok (end_ c') c').
Proof.
  intros Hsw HK Hwf Hin.
  pose proof (wf_count_bound c Hwf) as [Hcnt Hfc].
  pose proof (wf_capacity_bound c Hwf) as Hcb.
  assert (Hpos : 0 < _count c).
  { destruct Hwf as (_ & _ & _ & [[Hfin _]|(h & _ & _ & _ & _ & _ & ?)]); [|done].
    unfold contents in Hin. rewrite Hfin in Hin. by apply elem_of_nil in Hin. }
  assert (Hw : wrap64 (_count c - 1) = _count c - 1) by (apply wrap64_small; lia).
  exists (mkTree (_buf c) (_finish c) (_capacity c) (_count c - 1) (_full_state c)).
  split; [unfold erase, bind, decr_count, ret; by rewrite Hw|].
  unfold size. cbn [_count]. split; [done|]. split.
  { pose proof (valid_values_contents c Hwf) as Hv.
    unfold valid_values, on_buf, begin_, end_ in *.
    cbn [_buf _finish _capacity _count _full_state].
    destruct (valid_values_loop _ _ _ _) as [l b| | |]; try done.
    unfold set_buf in *. cbn [_buf _finish _capacity _count _full_state].
    destruct c as [b0 f0 c0 n0 fs0]. cbn [_buf _finish _capacity _count _full_state] in *.
    by injection Hv as -> ->. }
  split.
  - intros H2. destruct (find_holds Hsw c v HK Hwf Hin) as (p & Hf & Hp & Hl & Ha).
    exists p. split; [apply find_count_irrelevant; [lia|lia|done]|].
    unfold end_. cbn [_buf _finish]. split; [lia|done].
  - intros H1 w. unfold find, end_. cbn [_count _finish]. by rewrite H1.
Qed.

(** ** Construction from a list *)

(** [_uninitialized_insert]: its body is empty. *)
Definition _uninitialized_insert (l : list V) : M kdtree unit := ret tt.

(** [kdtree(std::initializer_list<value_type>)] *)
Definition kdtree_of_list (l : list V) : result kdtree unit :=
  _uninitialized_insert l (_alloc_storage (Z.of_nat (length l)) _kdtree_members).

(** X9. The constructor taking an initializer list reserves room for the
    listed values and stores none of them: the container it returns has
    capacity [fill_trailing_zeros] of the length of the list, size 0, no
    live value, and [find] returns [end()] for every value, the listed
    ones included. *)
Theorem list_constructor_stores_nothing (l : list V) :
  Z.of_nat (length l) < 2 ^ 64 ->
  exists c,
    kdtree_of_list l = Ok tt c /\
    capacity c = bitwise.ftz (Z.of_nat (length l)) /\
    size c = 0 /\ empty c = true /\ begin_ c = end_ c /\
    wf c /\ contents c = [] /\
    valid_values c = Ok [] c /\
    forall v, find v c = Ok (end_ c) c.
Proof.
  intros Hlen. exists (kdtree_sized (Z.of_nat (length l))). split; [done|].
  pose proof (kdtree_sized_wf (Z.of_nat (length l)) ltac:(lia)) as Hwf.
  assert (Hc : _count (kdtree_sized (Z.of_nat (length l))) = 0).
  { unfold kdtree_sized, _alloc_storage. by destruct (_ =? 0). }
  assert (Hf : _finish (kdtree_sized (Z.of_nat (length l))) = 0).
  { unfold kdtree_sized, _alloc_storage. by destruct (_ =? 0). }
  assert (Hcont : contents (kdtree_sized (Z.of_nat (length l))) = []).
  { unfold contents. by rewrite Hf. }
  split.
  { unfold capacity, kdtree_sized, _alloc_storage.
    destruct (Z.eqb_spec (Z.of_nat (length l)) 0) as [->|_]; [by rewrite ftz_zero|done]. }
  unfold size, empty, size, begin_, end_. rewrite Hc, Hf. cbn [Z.eqb].
  split; [done|]. split; [done|]. split; [done|]. split; [done|]. split; [done|].
  split; [by rewrite valid_values_contents, Hcont|].
  intros v. unfold find. by rewrite Hc, Hf.
Qed.

(** ** Copy construction *)

(** [std::uninitialized_copy(first, last, d)]: the values of the slots
    [first .. last) of the arrays [src] are copy-constructed, one after
    the other, into the slots from [d] on of the memory at hand. *)
Fixpoint uninitialized_copy (fuel : nat) (src : store) (first last d : Z)
    : M store unit :=
  if negb (first =? last) then
    match fuel with
    | O => nofuel
    | S fuel =>
      v <- src_rdv (Some src) first ;;
      place_at (_deferred_copy v) d ;;
      uninitialized_copy fuel src (first + 1) last (d + 1)
    end
  else ret tt.

(** [std::memcpy(dst_states, src_states, n)] on arrays of one-byte states,
    both from their first slot. *)
Definition memcpy_states (src : store) (n : Z) : M store unit :=
  fun st =>
    if (0 <=? n) && (n <=? zlen (sts src)) && (n <=? zlen (sts st)) then
      Ok tt (mkStore (vals st)
               (take (Z.to_nat n) (sts src) ++ drop (Z.to_nat n) (sts st)))
    else Fault.

(** [_dealloc_storage]: the arrays are gone. *)
Definition _dealloc_storage (c : kdtree) : kdtree :=
  mkTree (mkStore [] []) (_finish c) 0 (_count c) (_full_state c).

(** [kdtree(const kdtree& x)]; the outcome holds the container under
    construction. *)
Definition kdtree_copy (x : kdtree) : result kdtree unit :=
  let c := mkTree (mkStore [] []) 0 0 0 (_full_state x) in
  let c := _alloc_storage (_capacity x) c in
  let dist := _finish x - 0 in
  match uninitialized_copy (Z.to_nat dist) (_buf x) 0 (_finish x) 0 (_buf c) with
  | Ok _ b =>
    match memcpy_states (_buf x) dist b with
    | Ok _ b' => Ok tt (mkTree b' (0 + dist) (_capacity c) (_count x) (_full_state x))
    | _ => Fault
    end
  | Throw _ => Throw (_dealloc_storage c)
  | Fault => Fault
  | NoFuel => NoFuel
  end.

Lemma uninitialized_copy_run src : forall k fuel a st,
  (k <= fuel)%nat -> 0 <= a ->
  a + Z.of_nat k <= ssize src -> a + Z.of_nat k <= ssize st ->
  (forall i, a <= i < a + Z.of_nat k -> copy_throws (val src i) = false) ->
  exists st',
    uninitialized_copy fuel src a (a + Z.of_nat k) a st = Ok tt st' /\
    ssize st' = ssize st /\ sts st' = sts st /\
    (forall i, a <= i < a + Z.of_nat k -> val st' i = val src i) /\
    (forall i, i < a \/ a + Z.of_nat k <= i -> val st' i = val st i).
Proof.
  induction k as [|k IH]; intros fuel a st Hf Ha Hsrc Hdst Hnt.
  - rewrite Z.add_0_r. exists st.
    split; [destruct fuel; cbn [uninitialized_copy]; by rewrite Z.eqb_refl|].
    split; [done|]. split; [done|]. split; [intros; lia|done].
  - destruct fuel as [|fuel]; [lia|]. cbn [uninitialized_copy].
    destruct (Z.eqb_spec a (a + Z.of_nat (S k))) as [?|_]; [lia|]. cbn [negb].
    rewrite (src_rdv_run (Some src)) by (simpl; lia). cbn [src_of place_at].
    rewrite Hnt by lia. rewrite bind_wrv by lia.
    replace (a + Z.of_nat (S k)) with (a + 1 + Z.of_nat k) in * by lia.
    destruct (IH fuel (a + 1) (upd_v st a (val src a)))
      as (st' & Hrun & Hsz & Hsts & Hin & Hout);
      [lia|lia|lia|rewrite ssize_upd_v; lia|intros i Hi; apply Hnt; lia|].
    exists st'. split; [done|]. split; [by rewrite Hsz, ssize_upd_v|].
    split; [by rewrite Hsts|]. split.
    + intros i Hi. destruct (decide (i = a)) as [->|Hne].
      * rewrite Hout by lia. apply val_upd_v_eq. lia.
      * apply Hin. lia.
    + intros i Hi. rewrite Hout by lia. apply val_upd_v_ne. lia.
Qed.

Lemma memcpy_states_run src n st :
  0 <= n -> n <= ssize src -> n <= ssize st ->
  exists st',
    memcpy_states src n st = Ok tt st' /\ ssize st' = ssize st /\
    (forall i, val st' i = val st i) /\
    (forall i, 0 <= i < n -> sta st' i = sta src i) /\
    (forall i, n <= i -> sta st' i = sta st i).
Proof.
  intros Hn Hsrc Hdst. unfold ssize, zlen in Hsrc, Hdst. unfold memcpy_states, zlen.
  destruct (Z.leb_spec 0 n); [|lia].
  destruct (Z.leb_spec n (Z.of_nat (length (sts src)))); [|lia].
  destruct (Z.leb_spec n (Z.of_nat (length (sts st)))); [|lia]. cbn [andb].
  eexists. split; [reflexivity|].
  split.
  { unfold ssize, zlen. cbn [vals sts].
    rewrite length_app, length_take, length_drop. lia. }
  split; [done|]. unfold sta, zlookup. cbn [sts]. split.
  - intros i Hi. destruct (Z.ltb_spec i 0); [lia|].
    rewrite lookup_app_l by (rewrite length_take; lia).
    by rewrite lookup_take_lt by lia.
  - intros i Hi. destruct (Z.ltb_spec i 0); [lia|].
    rewrite lookup_app_r by (rewrite length_take; lia).
    rewrite length_take, lookup_drop. f_equal. f_equal. lia.
Qed.

Lemma ftz_of_wid H : (H <= 63)%nat -> bitwise.ftz (wid (S H)) = wid (S H).
Proof.
  intros HH. pose proof (wid_mono (S H) 64 ltac:(lia)) as Hm. rewrite wid_64 in Hm.
  pose proof (wid_pos_S H) as Hp.
  destruct (ftz_smallest (wid (S H))) as (_ & Hge & Hmin); [lia|].
  specialize (Hmin (Z.of_nat (S H)) ltac:(lia)). rewrite wid_pow in *. lia.
Qed.

(** [_find] reads nothing outside of the subtree it is started on. *)
Lemma find_agree : forall h fuel fin nd n v st st',
  (h < fuel)%nat ->
  0 <= n - wid h -> n + wid h < ssize st -> n + wid h < ssize st' ->
  agree st st' (n - wid h) (n + wid h) ->
  exists r,
    _find fuel fin nd (off h) n v st = Ok r st /\
    _find fuel fin nd (off h) n v st' = Ok r st'.
Proof.
  induction h as [|h IH]; intros fuel fin nd n v st st' Hf Hlo Hhi Hhi' Hag;
    (destruct fuel as [|fuel]; [lia|]); cbn [_find].
  - simpl in Hlo, Hhi, Hhi'. change (off 0) with 0.
    destruct (Hag n) as [Hv Hs]; [simpl; lia|].
    rewrite !bind_is_valid by lia. rewrite Hs.
    destruct (negb (bool_decide (sta st n = Invalid))); [|by exists fin].
    rewrite !bind_rdv by lia. rewrite Hv. cbn [Z.eqb negb].
    destruct (_ && _ && _); [by exists n|by exists fin].
  - pose proof (wid_nonneg h) as Hw.
    pose proof (off_S h) as Ho. pose proof (wid_S h) as Hww.
    destruct (Hag n) as [Hv Hs]; [lia|].
    rewrite !bind_is_valid by lia. rewrite Hs.
    destruct (negb (bool_decide (sta st n = Invalid))); [|by exists fin].
    rewrite !bind_rdv by lia. rewrite Hv, off_half. unfold left, right.
    destruct (_ && _ && _); [by exists n|].
    assert (Hoff : (off (S h) =? 0) = false) by (apply Z.eqb_neq; lia).
    rewrite Hoff. cbn [negb].
    destruct (IH fuel fin (inc nd) (n - off (S h)) v st st') as (rl & Hl & Hl');
      [lia|lia|lia|lia|eapply agree_sub; [exact Hag|lia|lia]|].
    destruct (IH fuel fin (inc nd) (n + off (S h)) v st st') as (rr & Hr & Hr');
      [lia|lia|lia|lia|eapply agree_sub; [exact Hag|lia|lia]|].
    destruct (negb (select_compare nd (val st n) v)); cbn [andb].
    + rewrite (bind_ok _ _ _ _ _ Hl), (bind_ok _ _ _ _ _ Hl').
      destruct (negb (rl =? fin)); [by exists rl|].
      destruct (select_compare nd v (val st n)); [by exists fin|by exists rr].
    + rewrite !bind_ret.
      destruct (select_compare nd v (val st n)); [by exists fin|by exists rr].
Qed.

Lemma kdtree_copy_spec (x : kdtree) :
  wf x ->
  (forall i, 0 <= i < _finish x -> copy_throws (val (_buf x) i) = false) ->
  exists b',
    kdtree_copy x =
      Ok tt (mkTree b' (_finish x) (_capacity x) (_count x) (_full_state x)) /\
    ssize b' = _capacity x /\
    agree (_buf x) b' 0 (_finish x - 1).
Proof.
  intros Hwf Hnt. pose proof (wf_count_bound x Hwf) as [Hcnt Hfc].
  destruct Hwf as (Hfs & Hsz & Hcap & Hshape). unfold kdtree_copy.
  replace (_finish x - 0) with (_finish x) by lia.
  replace (0 + _finish x) with (_finish x) by lia.
  set (k := Z.to_nat (_finish x)).
  assert (Hk : _finish x = 0 + Z.of_nat k) by (unfold k; lia).
  assert (Hall : forall c0 : kdtree,
    ssize (_buf c0) = _capacity x -> _capacity c0 = _capacity x ->
    exists b',
      match uninitialized_copy k (_buf x) 0 (_finish x) 0 (_buf c0) with
      | Ok _ b =>
        match memcpy_states (_buf x) (_finish x) b with
        | Ok _ b' => Ok tt (mkTree b' (_finish x) (_capacity c0) (_count x) (_full_state x))
        | _ => Fault
        end
      | Throw _ => Throw (_dealloc_storage c0)
      | Fault => Fault
      | NoFuel => NoFuel
      end = Ok tt (mkTree b' (_finish x) (_capacity x) (_count x) (_full_state x)) /\
      ssize b' = _capacity x /\ agree (_buf x) b' 0 (_finish x - 1)).
  { intros c0 Hc0 Hcap0.
    destruct (uninitialized_copy_run (_buf x) k k 0 (_buf c0))
      as (b & Hrun & Hszb & _ & Hin & _); [lia|lia|lia|lia|intros i Hi; apply Hnt; lia|].
    rewrite <- Hk in Hrun. rewrite Hrun.
    destruct (memcpy_states_run (_buf x) (_finish x) b)
      as (b' & Hrun' & Hszb' & Hv & Hs & _); [lia|lia|lia|].
    rewrite Hrun', Hcap0. exists b'. split; [done|]. split; [lia|].
    intros q Hq. split; [rewrite Hv; apply Hin; lia|apply Hs; lia]. }
  apply Hall; unfold _alloc_storage; destruct (Z.eqb_spec (_capacity x) 0) as [E|E];
    cbn [_buf _capacity]; try done.
  - destruct Hcap as [?|(H & HH & Hc)]; [done|].
    rewrite Hc, ftz_of_wid by done. apply ssize_allocate. pose proof (wid_nonneg (S H)). lia.
  - destruct Hcap as [?|(H & HH & Hc)]; [done|]. rewrite Hc. by apply ftz_of_wid.
Qed.

(** X8. Copy construction from a container that satisfies the invariants,
    when copying no slot of its live region throws, gives a container
    with the same size, span, capacity and parity, the same value and
    state in every slot of the live region, hence the same live values in
    the same order, that satisfies the invariants, and in which [find]
    returns the iterator at the same distance from [begin()] as in the
    original, for every probe. *)
Theorem copy_is_faithful (x : kdtree) :
  wf x ->
  (forall i, begin_ x <= i < end_ x -> copy_throws (val (_buf x) i) = false) ->
  exists c,
    kdtree_copy x = Ok tt c /\ wf c /\
    size c = size x /\ capacity c = capacity x /\
    begin_ c = begin_ x /\ end_ c = end_ x /\ _full_state c = _full_state x /\
    (forall i, begin_ x <= i < end_ x ->
       val (_buf c) i = val (_buf x) i /\ sta (_buf c) i = sta (_buf x) i) /\
    contents c = contents x /\
    forall v, exists r, find v x = Ok r x /\ find v c = Ok r c.
Proof.
  unfold begin_, end_. intros Hwf Hnt.
  destruct (kdtree_copy_spec x Hwf Hnt) as (b' & Hrun & Hszb & Hag).
  pose proof (wf_count_bound x Hwf) as [Hcnt Hfc].
  exists (mkTree b' (_finish x) (_capacity x) (_count x) (_full_state x)).
  split; [done|]. unfold size, capacity. cbn [_buf _finish _capacity _count _full_state].
  destruct Hwf as (Hfs & Hsz & Hcap & Hshape).
  assert (Hslots : forall i, 0 <= i < _finish x ->
            val b' i = val (_buf x) i /\ sta b' i = sta (_buf x) i)
    by (intros i Hi; apply Hag; lia).
  destruct Hshape as [[Hfin Hc0]|(h & Hfin & Hle & Hst & Hkd & Hc & Hpos)].
  - split.
    { unfold wf. cbn [_buf _finish _capacity _count _full_state].
      split; [done|]. split; [done|]. split; [done|]. by left. }
    split; [done|]. split; [done|]. split; [done|]. split; [done|]. split; [done|].
    split; [done|]. split.
    { unfold contents. cbn [_finish]. by rewrite Hfin. }
    intros v. exists (_finish x). unfold find. cbn [_count _finish]. by rewrite Hc0.
  - pose proof (wid_nonneg h) as Hw. pose proof (wid_S h) as Hww.
    pose proof (wid_ge (S h)) as Hge.
    assert (Hag' : agree (_buf x) b' (wid h - wid h) (wid h + wid h))
      by (eapply agree_sub; [exact Hag|lia|lia]).
    split.
    { unfold wf. cbn [_buf _finish _capacity _count _full_state].
      split; [done|]. split; [done|]. split; [done|]. right. exists h.
      split; [done|]. split; [done|]. split; [by eapply st_ok_agree|].
      split; [by eapply kd_ok_agree|]. split; [|done].
      by rewrite (elems_agree h _ _ _ Hag'). }
    split; [done|]. split; [done|]. split; [done|]. split; [done|]. split; [done|].
    split; [done|]. split.
    { rewrite (contents_wid x h Hfin). unfold contents. cbn [_finish _buf].
      rewrite Hfin, height_of_span_wid, root_wid.
      destruct (Z.eqb_spec (wid (S h)) 0) as [?|_]; [lia|].
      by apply elems_agree. }
    intros v.
    destruct (find_agree h (Z.to_nat (wid (S h))) (_finish x) 0%nat (wid h) v (_buf x) b')
      as (r & Hr & Hr'); [lia|lia|lia|lia|done|].
    exists r. unfold find, on_buf. cbn [_buf _finish _capacity _count _full_state].
    destruct (Z.eqb_spec (_count x) 0) as [?|_]; [lia|].
    replace (_finish x - 0) with (wid (S h)) by lia.
    rewrite root_offset_wid, root_wid, Hr, Hr'. rewrite set_buf_id.
    split; [done|]. unfold set_buf. by cbn [_buf _finish _capacity _count _full_state].
Qed.

Lemma uninitialized_copy_throws src : forall k fuel a st,
  (k <= fuel)%nat -> 0 <= a ->
  a + Z.of_nat k <= ssize src -> a + Z.of_nat k <= ssize st ->
  (exists i, a <= i < a + Z.of_nat k /\ copy_throws (val src i) = true) ->
  exists st', uninitialized_copy fuel src a (a + Z.of_nat k) a st = Throw st'.
Proof.
  induction k as [|k IH]; intros fuel a st Hf Ha Hsrc Hdst (i & Hi & Hthrow); [lia|].
  destruct fuel as [|fuel]; [lia|]. cbn [uninitialized_copy].
  destruct (Z.eqb_spec a (a + Z.of_nat (S k))) as [?|_]; [lia|]. cbn [negb].
  rewrite (src_rdv_run (Some src)) by (simpl; lia). cbn [src_of place_at].
  destruct (copy_throws (val src a)) eqn:E; [by exists st|].
  rewrite bind_wrv by lia.
  replace (a + Z.of_nat (S k)) with (a + 1 + Z.of_nat k) in * by lia.
  apply IH; [lia|lia|lia|rewrite ssize_upd_v; lia|].
  exists i. split; [|done]. destruct (decide (i = a)) as [->|?]; [congruence|lia].
Qed.

(** X11. Copy construction copies the value of every slot of the live
    region of the original, valid or not: when copying the value of any
    such slot throws, the construction throws, with the storage of the
    new container released. *)
Theorem copy_fails_on_any_slot (x : kdtree) (i : Z) :
  wf x -> begin_ x <= i < end_ x -> copy_throws (val (_buf x) i) = true ->
  exists c, kdtree_copy x = Throw c /\ capacity c = 0 /\ ssize (_buf c) = 0.
Proof.
  unfold begin_, end_. intros Hwf Hi Hthrow.
  pose proof (wf_count_bound x Hwf) as [Hcnt Hfc].
  destruct Hwf as (Hfs & Hsz & Hcap & Hshape). unfold kdtree_copy.
  replace (_finish x - 0) with (_finish x) by lia.
  set (k := Z.to_nat (_finish x)).
  assert (Hk : _finish x = 0 + Z.of_nat k) by (unfold k; lia).
  destruct Hcap as [?|(H & HH & Hc)]; [lia|].
  unfold _alloc_storage. destruct (Z.eqb_spec (_capacity x) 0) as [E|E]; [lia|].
  cbn [_buf]. rewrite Hc, ftz_of_wid by done. pose proof (wid_nonneg (S H)).
  destruct (uninitialized_copy_throws (_buf x) k k 0 (allocate (wid (S H))))
    as (st' & Hrun); [lia|lia|lia|rewrite ssize_allocate by lia; lia|exists i; split; [lia|done]|].
  rewrite <- Hk in Hrun. rewrite Hrun. by eexists.
Qed.

(** ** Removal inside a full subtree *)

(** X12. [_erase_when_full], run on a full subtree of any height for one
    of its slots, returns and removes exactly the value of that slot: the
    live values before are those after together with the erased one.
    Nothing outside of the subtree changes; inside, the state discipline
    and the k-d ordering are kept, and the root is no longer marked full,
    so the subtree has room for one value. *)
Theorem erase_when_full_removes_one (fs : State) (h fuel nd : nat)
    (n erased : Z) (st : store) :
  strict_weak -> fs = Heads \/ fs = Tails ->
  (h < fuel)%nat ->
  0 <= n - wid h -> n + wid h < ssize st ->
  st_ok fs st h n -> sta st n = fs -> kd_ok st nd h n ->
  n - wid h <= erased <= n + wid h ->
  exists st',
    _erase_when_full fuel nd (off h) n erased st = Ok tt st' /\
    same_outside st st' (n - wid h) (n + wid h) /\
    st_ok fs st' h n /\ sta st' n <> fs /\ kd_ok st' nd h n /\
    elems st h n ≡ₚ val st erased :: elems st' h n /\
    length (elems st h n) = S (length (elems st' h n)).
Proof.
  intros Hsw Hfs Hf Hlo Hhi Hst Hfull Hkd He.
  assert (Hall : exists st',
    _erase_when_full fuel nd (off h) n erased st = Ok tt st' /\
    same_outside st st' (n - wid h) (n + wid h) /\
    st_ok fs st' h n /\ sta st' n <> fs /\ kd_ok st' nd h n /\
    elems st h n ≡ₚ val st erased :: elems st' h n).
  { destruct h as [|h]; [|by apply erase_when_full_spec].
    simpl in Hlo, Hhi, He. assert (erased = n) as -> by lia.
    destruct fuel as [|fuel]; [lia|]. change (off 0) with 0.
    cbn [_erase_when_full Z.ltb Z.eqb Z.compare]. rewrite wrs_ok by lia.
    eexists. split; [reflexivity|].
    assert (Hl : sta st n <> Invalid) by (destruct Hfs; congruence).
    split; [apply same_outside_upd_s; simpl; lia|].
    assert (Hs' : sta (upd_s st n Invalid) n = Invalid) by (apply sta_upd_s_eq; lia).
    split; [by left|]. split; [rewrite Hs'; destruct Hfs; congruence|].
    split; [done|]. cbn [elems]. unfold here.
    rewrite decide_False by done. by rewrite decide_True by done. }
  destruct Hall as (st' & Hrun & Hso & Hst' & Hnf & Hkd' & Hperm).
  exists st'. repeat (split; [done|]).
  by rewrite Hperm.
Qed.

(** ** Doubling into a new buffer *)

(** X13. When a container that satisfies the invariants is full
    ([0 < size() == capacity()]), [_prepare_insert] moves it into a new
    buffer of [2 * capacity + 1] slots: the value and the state of every
    old slot [i] are found at slot [2i + 1], every even slot of the new
    live region is [Invalid], the live region has [2 * span + 1] slots and
    [full_state] is toggled. The live values and their order are what
    they were, and the invariants hold for the new parity. *)
Theorem doubling_into_new_buffer (c : kdtree) :
  wf c -> 0 < _count c -> _count c = _capacity c -> _count c < 2 ^ 64 - 1 ->
  exists b',
    let c' := mkTree b' (2 * _finish c + 1) (2 * _capacity c + 1) (_count c)
                (State_not (_full_state c)) in
    _prepare_insert c = Ok tt c' /\
    ssize b' = 2 * _capacity c + 1 /\
    (forall i, 0 <= i < _finish c ->
       val b' (2 * i + 1) = val (_buf c) i /\ sta b' (2 * i + 1) = sta (_buf c) i) /\
    (forall j, 0 <= j <= _finish c -> sta b' (2 * j) = Invalid) /\
    wf c' /\ contents c' = contents c.
Proof.
  intros Hwf Hpos Hfull Hroom.
  pose proof (wf_capacity_bound c Hwf) as Hcb.
  pose proof (wf_count_bound c Hwf) as [Hcnt Hfc].
  destruct (prepare_insert_spec c Hwf Hroom)
    as (c1 & h1 & Hprep & Hfs1 & Hsz1 & Hcap1 & Hfin1 & Hle1 & Hcnt1 & Hpost).
  destruct Hpost as [(? & _)|(Hst1 & Hkd1 & _ & Hel1 & _ & Hlen1)]; [lia|].
  destruct Hwf as (Hfs & Hsz & Hcap & Hshape).
  destruct Hcap as [Hc0|(H & HH & Hc)]; [lia|].
  assert (Hlt64 : wid (S H) < wid 64) by (rewrite wid_64; lia).
  apply wid_lt_inv in Hlt64.
  pose proof (wid_mono (S (S H)) 64) as Hm64. rewrite wid_64, (wid_S (S H)) in Hm64.
  assert (Hn : wrap64 (_capacity c * 2 + 1) = 2 * _capacity c + 1)
    by (rewrite wrap64_small; lia).
  destruct (expand_spec (Some (allocate (2 * _capacity c + 1))) c)
    as (b' & Hrun & Hsb & Hodd & Heven); [lia|lia|rewrite ssize_allocate by lia; lia|].
  assert (Hrun1 : _prepare_insert c =
            Ok tt (mkTree b' (2 * _finish c + 1) (2 * _capacity c + 1) (_count c)
                     (State_not (_full_state c)))).
  { unfold _prepare_insert.
    destruct (Z.eqb_spec (_count c) 0) as [?|_]; [lia|].
    destruct (Z.eqb_spec (_count c) (_finish c - 0)) as [_|?]; [|lia].
    destruct (Z.eqb_spec (_count c) (_capacity c)) as [_|?]; [|lia].
    unfold _expand_alloc. by rewrite Hn, Hrun. }
  rewrite Hrun1 in Hprep. injection Hprep as <-.
  cbn [_buf _finish _capacity _count _full_state] in *.
  exists b'. cbn zeta. split; [done|].
  split; [rewrite Hsb, ssize_allocate; lia|]. split; [done|]. split; [done|]. split.
  - unfold wf. cbn [_buf _finish _capacity _count _full_state].
    split; [done|]. split; [done|]. split; [by right|]. right. exists h1.
    split; [done|]. split; [done|]. split; [done|]. split; [done|].
    split; [by rewrite Hel1|done].
  - rewrite <- Hel1. by apply contents_wid.
Qed.

(** ** The rotating insertion on a subtree *)

(** X14. [_single_insert] on a subtree of any height that keeps the state
    discipline and the k-d ordering and whose root is not marked full
    returns; it touches no slot outside of the subtree; the live values
    of the subtree afterwards are those before together with the pending
    value; the state discipline and the k-d ordering still hold; and the
    returned slot lies in the subtree, is live and holds the pending
    value. This holds for a value pushed down from another slot as for a
    value of the caller. *)
Theorem single_insert_frame (fs : State) (h fuel nd : nat) (n : Z)
    (defer : DeferredOp) (st : store) (x : V) :
  strict_weak -> fs = Heads \/ fs = Tails ->
  (h < fuel)%nat ->
  0 <= n - wid h -> n + wid h < ssize st ->
  st_ok fs st h n -> kd_ok st nd h n -> sta st n <> fs ->
  defer_ok defer st x (n - wid h) (n + wid h) ->
  exists st' p,
    _single_insert fuel fs nd (off h) n defer st = Ok p st' /\
    ssize st' = ssize st /\
    (forall q, q < n - wid h \/ n + wid h < q ->
       val st' q = val st q /\ sta st' q = sta st q) /\
    st_ok fs st' h n /\ kd_ok st' nd h n /\
    elems st' h n ≡ₚ x :: elems st h n /\
    n - wid h <= p <= n + wid h /\ live st' p /\ val st' p = x.
Proof.
  intros Hsw Hfs Hf Hlo Hhi Hst Hkd Hroom Hd.
  destruct (single_insert_spec Hsw fs Hfs h fuel nd n defer st x)
    as (st' & p & Hrun & [Hsz Hout] & Hst' & Hkd' & Hperm & Hp & Hl & Hv);
    [done|done|done|done|done|done|done|].
  exists st', p. by repeat (split; [done|]).
Qed.

(** ** Extrema of a container *)

Lemma wf_root_live c h :
  wf c -> _finish c = wid (S h) -> live (_buf c) (wid h).
Proof.
  intros (Hfs & _ & _ & Hshape) Hfin.
  destruct Hshape as [[? _]|(h' & Hfin' & _ & Hst & _ & Hcnt & Hpos)].
  { pose proof (wid_pos_S h). lia. }
  assert (h' = h) as ->.
  { rewrite Hfin in Hfin'. destruct (Nat.lt_trichotomy h h') as [Hl|[->|Hl]]; [|done|].
    - pose proof (wid_mono (S (S h)) (S h') ltac:(lia)). rewrite (wid_S (S h)) in *.
      pose proof (wid_pos_S h). lia.
    - pose proof (wid_mono (S (S h')) (S h) ltac:(lia)). rewrite (wid_S (S h')) in *.
      pose proof (wid_pos_S h'). lia. }
  destruct h as [|h]; [|by eapply st_ok_live].
  simpl in Hst, Hcnt. unfold here, live in *.
  destruct (decide (sta (_buf c) 0 = Invalid)); [simpl in Hcnt; lia|done].
Qed.

(** X15. For a container that satisfies the invariants and holds at least
    one value, [minimum] and [maximum] called for an axis on the root of
    the live region, as [root(begin(), end() - begin())] with offset
    [root_offset(end() - begin())], return live slots of the live region
    whose values are the least and the greatest of all stored values on
    that axis. *)
Theorem container_extrema (c : kdtree) (fd : nat) :
  strict_weak -> wf c -> 0 < size c ->
  let dist := end_ c - begin_ c in
  exists lo hi,
    minimum (Z.to_nat dist) fd 0 (root_offset dist) (root (begin_ c) dist) (_buf c)
      = Ok lo (_buf c) /\
    maximum (Z.to_nat dist) fd 0 (root_offset dist) (root (begin_ c) dist) (_buf c)
      = Ok hi (_buf c) /\
    begin_ c <= lo < end_ c /\ begin_ c <= hi < end_ c /\
    live (_buf c) lo /\ live (_buf c) hi /\
    Forall (fun y => select_compare fd y (val (_buf c) lo) = false) (contents c) /\
    Forall (fun y => select_compare fd (val (_buf c) hi) y = false) (contents c).
Proof.
  unfold size, begin_, end_. intros Hsw Hwf Hpos. cbn zeta.
  pose proof Hwf as (Hfs & Hsz & Hcap & Hshape).
  destruct Hshape as [[? ?]|(h & Hfin & Hle & Hst & Hkd & Hcnt & _)]; [lia|].
  pose proof (wf_root_live c h Hwf Hfin) as Hlive.
  pose proof (wid_nonneg h) as Hw. pose proof (wid_S h) as Hww.
  pose proof (wid_ge (S h)) as Hge.
  rewrite (contents_wid c h Hfin).
  replace (_finish c - 0) with (wid (S h)) by lia.
  rewrite root_offset_wid, root_wid.
  destruct (minimum_spec Hsw (_full_state c) fd h (Z.to_nat (wid (S h))) 0%nat (wid h) (_buf c))
    as (lo & Hlo & Hlor & Hlol & Hmin); [lia|lia|lia|done|done|done|].
  destruct (maximum_spec Hsw (_full_state c) fd h (Z.to_nat (wid (S h))) 0%nat (wid h) (_buf c))
    as (hi & Hhi & Hhir & Hhil & Hmax); [lia|lia|lia|done|done|done|].
  exists lo, hi. split; [done|]. split; [done|]. split; [lia|]. split; [lia|].
  by repeat (split; [done|]).
Qed.

(** ** The helpers *)

(** X17. On 64-bit values [fill_trailing_zeros] is a closure: it never
    decreases its argument, it is monotone, applying it twice is applying
    it once, and the values it leaves unchanged are exactly those of the
    form [2^k - 1]. *)
Theorem ftz_is_closure (u v : Z) :
  0 <= u <= v -> v < 2 ^ 64 ->
  u <= bitwise.ftz u /\
  bitwise.ftz u <= bitwise.ftz v /\
  bitwise.ftz (bitwise.ftz u) = bitwise.ftz u /\
  (bitwise.ftz u = u <-> exists k, 0 <= k <= 64 /\ u = 2 ^ k - 1).
Proof.
  intros Huv Hv.
  destruct (ftz_smallest u) as (Hform & Hge & Hmin); [lia|].
  split; [done|]. split; [by apply ftz_mono|]. split; [apply ftz_fixed; lia|]. split.
  - intros E. rewrite E in Hform. done.
  - intros (k & Hk & E). specialize (Hmin k ltac:(lia)). lia.
Qed.

(** X18. The two operators on states. [~] exchanges [Heads] with [Tails]
    and [Invalid] with [Unsure]; it is its own inverse and has no fixed
    point. [+] is idempotent, commutative and associative, [Unsure]
    absorbs, and the sum of two states is a parity ([Heads] or [Tails])
    exactly when both are that parity: a node is marked full only if both
    of its children are. *)
Theorem state_operators :
  (forall s, State_not (State_not s) = s /\ State_not s <> s) /\
  State_not Heads = Tails /\ State_not Invalid = Unsure /\
  (forall a, State_add a a = a) /\
  (forall a b, State_add a b = State_add b a) /\
  (forall a b c, State_add (State_add a b) c = State_add a (State_add b c)) /\
  (forall a, State_add a Unsure = Unsure) /\
  (forall a b fs, fs <> Unsure -> (State_add a b = fs <-> a = fs /\ b = fs)).
Proof.
  split; [intros s; split; [apply State_not_involutive|apply State_not_ne]|].
  split; [done|]. split; [done|].
  split; [by intros []|]. split; [by intros [] []|].
  split; [by intros [] [] []|]. split; [by intros []|].
  intros a b fs Hfs. by apply State_add_full.
Qed.

Lemma inc_iter d : forall i,
  (0 < K)%nat -> (d < K)%nat -> Nat.iter i inc d = ((d + i) mod K)%nat.
Proof.
  intros i HK Hd. induction i as [|i IH].
  - simpl. rewrite Nat.add_0_r. by rewrite Nat.mod_small.
  - rewrite Nat.iter_succ, IH. unfold inc.
    rewrite Nat.Div0.add_mod_idemp_l. f_equal. lia.
Qed.

(** X19. The split dimension cycles through the axes: from a dimension
    below [K], [inc] stays below [K], [K] steps lead back to where they
    started, and every axis is met on the way. *)
Theorem inc_cycles (d : nat) :
  (0 < K)%nat -> (d < K)%nat ->
  (inc d < K)%nat /\
  Nat.iter K inc d = d /\
  (forall j, (j < K)%nat -> exists i, (i < K)%nat /\ Nat.iter i inc d = j).
Proof.
  intros HK Hd. split; [by apply inc_lt|]. split.
  - rewrite inc_iter by done.
    replace (d + K)%nat with (d + 1 * K)%nat by lia.
    rewrite Nat.Div0.mod_add. by apply Nat.mod_small.
  - intros j Hj. destruct (decide (d <= j)%nat) as [Hle|Hgt].
    + exists (j - d)%nat. split; [lia|]. rewrite inc_iter by done.
      replace (d + (j - d))%nat with j by lia. by apply Nat.mod_small.
    + exists (K - d + j)%nat. split; [lia|]. rewrite inc_iter by done.
      replace (d + (K - d + j))%nat with (j + 1 * K)%nat by lia.
      rewrite Nat.Div0.mod_add. by apply Nat.mod_small.
Qed.

(** X20. The geometry helpers split a span in halves. For a span of
    [2^(k+1) - 1] slots from [x] on, [root] is the middle slot; going
    [left] or [right] from it by [root_offset] of the span leads to the
    roots of the two halves of [2^k - 1] slots on either side of it; and
    half of that offset is the [root_offset] of a half. *)
Theorem geometry_halves (x k : Z) :
  1 <= k ->
  let span := 2 ^ (k + 1) - 1 in
  let half := 2 ^ k - 1 in
  root x span = x + half /\
  left (root x span) (root_offset span) = root x half /\
  right (root x span) (root_offset span) = root (x + half + 1) half /\
  Z.quot (root_offset span) 2 = root_offset half /\
  span = half + 1 + half.
Proof.
  intros Hk span half.
  assert (Hq : exists q, 0 < q /\ 2 ^ k = 2 * q).
  { exists (2 ^ (k - 1)). split; [apply Z.pow_pos_nonneg; lia|].
    rewrite <- Z.pow_succ_r by lia. f_equal. lia. }
  destruct Hq as (q & Hq & Hpow).
  assert (Hspan : span = 4 * q - 1).
  { unfold span. rewrite Z.pow_add_r by lia. change (2 ^ 1) with 2. lia. }
  assert (Hhalf : half = 2 * q - 1) by (unfold half; lia).
  clearbody span half. subst span half.
  assert (R1 : Z.quot (4 * q - 1) 2 = 2 * q - 1).
  { rewrite Z.quot_div_nonneg by lia. symmetry. apply (Z.div_unique _ _ _ 1); lia. }
  assert (R2 : Z.quot (4 * q - 1 + 1) 4 = q).
  { replace (4 * q - 1 + 1) with (q * 4) by lia. apply Z.quot_mul. lia. }
  assert (R3 : Z.quot (2 * q - 1) 2 = q - 1).
  { rewrite Z.quot_div_nonneg by lia. symmetry. apply (Z.div_unique _ _ _ 1); lia. }
  assert (R4 : Z.quot (2 * q - 1 + 1) 4 = Z.quot q 2).
  { replace (2 * q - 1 + 1) with (2 * q) by lia.
    rewrite !Z.quot_div_nonneg by lia.
    replace 4 with (2 * 2) by lia. rewrite Z.div_mul_cancel_l by lia. done. }
  unfold root, left, right, root_offset. rewrite R1, R2, R3, R4.
  repeat split; lia.
Qed.

(** ** The first value and the root *)

(** X21. The first insertion, by copy, into an empty container that
    satisfies the
    invariants (freshly constructed, with or without a size hint, or
    cleared) places the value at [begin()]: the live region becomes that
    one slot, which is valid and holds the value; one slot is allocated
    if there was none, otherwise the capacity is kept; the parity is
    kept. The comparator is not consulted. *)
Theorem first_insert_at_begin (c : kdtree) (v : V) :
  wf c -> size c = 0 -> copy_throws v = false ->
  exists c',
    insert v c = Ok (begin_ c') c' /\
    end_ c' - begin_ c' = 1 /\ size c' = 1 /\
    live (_buf c') (begin_ c') /\ val (_buf c') (begin_ c') = v /\
    capacity c' = Z.max 1 (capacity c) /\ _full_state c' = _full_state c.
Proof.
  unfold size, begin_, end_, capacity. intros Hwf Hc Hv.
  pose proof (wf_capacity_bound c Hwf) as Hcb.
  destruct Hwf as (Hfs & Hsz & Hcap & _).
  assert (Hprep : exists b cap,
    _prepare_insert c = Ok tt (mkTree b 1 cap 0 (_full_state c)) /\
    ssize b = cap /\ cap = Z.max 1 (_capacity c)).
  { unfold _prepare_insert. rewrite Hc. cbn [Z.eqb].
    destruct (Z.eqb_spec (_capacity c) 0) as [E|E].
    - unfold _alloc_storage. cbn [Z.eqb]. rewrite ftz_1.
      cbn [_buf _capacity _count _full_state]. rewrite Hc. change (0 + 1) with 1.
      eexists _, _. split; [reflexivity|].
      split; [by apply ssize_allocate|lia].
    - rewrite Hc. change (0 + 1) with 1.
      eexists _, _. split; [reflexivity|]. split; [done|lia]. }
  destruct Hprep as (b & cap & Hprep & Hszb & Hcapb).
  unfold insert, insert_with. rewrite (bind_ok _ _ _ _ _ Hprep).
  unfold bind at 1, incr_count, on_buf. cbn [_buf _finish _capacity _count _full_state].
  change (root_offset (1 - 0)) with 0. change (root 0 (1 - 0)) with 0.
  change (Z.to_nat (1 - 0)) with 1%nat.
  rewrite (insert_first 0 (_full_state c) 0 (_deferred_copy v) b v) by (simpl; lia || done).
  eexists. split; [reflexivity|]. unfold set_buf.
  cbn [_buf _finish _capacity _count _full_state].
  assert (Hl : _full_state c <> Invalid) by (destruct Hfs; congruence).
  split; [done|]. split; [done|].
  split; [unfold live; rewrite sta_upd_s_eq by (rewrite ssize_upd_v; lia); done|].
  split; [rewrite val_upd_s; apply val_upd_v_eq; lia|]. done.
Qed.

(** X22. In a container that satisfies the invariants and holds at least
    one value, the state of the root slot tells whether the live region
    is full: it equals [full_state] exactly when every slot of the live
    region is taken ([size()] equals the span), which is when the next
    insertion has to double. *)
Theorem root_state_tells_full (c : kdtree) :
  wf c -> 0 < size c ->
  (sta (_buf c) (root (begin_ c) (end_ c - begin_ c)) = _full_state c <->
   size c = end_ c - begin_ c) /\
  live (_buf c) (root (begin_ c) (end_ c - begin_ c)).
Proof.
  unfold size, begin_, end_. intros Hwf Hpos.
  pose proof Hwf as (Hfs & _ & _ & Hshape).
  destruct Hshape as [[? ?]|(h & Hfin & _ & Hst & _ & Hcnt & _)]; [lia|].
  replace (_finish c - 0) with (wid (S h)) by lia. rewrite root_wid.
  split; [|by apply wf_root_live].
  assert (Hl : _full_state c <> Invalid) by (destruct Hfs; congruence).
  pose proof (elems_length_full (_full_state c) h (_buf c) (wid h) Hl Hst) as Hiff.
  rewrite wid_S, Hcnt. by rewrite Hiff.
Qed.

(** ** An insertion whose construction throws *)

(** A user's pending value whose construction raises. *)
Definition defer_fails (defer : DeferredOp) (x : V) : Prop :=
  match defer with
  | _deferred_memcpy _ => False
  | _deferred_copy v => v = x /\ copy_throws v = true
  | _deferred_move v => v = x /\ move_throws v = true
  end.

Lemma cref_fails {B} defer st x (k : V -> M store B) :
  defer_fails defer x -> bind (cref defer) k st = k x st.
Proof. destruct defer as [p|v|v]; simpl; [done|by intros [-> _]|by intros [-> _]]. Qed.

Lemma place_at_fails {B} defer st x p (k : unit -> M store B) :
  defer_fails defer x -> bind (place_at defer p) k st = Throw st.
Proof.
  destruct defer as [q|v|v]; simpl; [done| |]; intros [_ H]; unfold bind; by rewrite H.
Qed.

Lemma bind_fails {S A B} (m : M S A) (k : A -> M S B) s s' :
  m s = Throw s' -> bind m k s = Throw s'.
Proof. unfold bind. by intros ->. Qed.

(** The values of [l'] are those of [l], one of them possibly twice. *)
Definition one_twice (l l' : list V) : Prop :=
  l' ≡ₚ l \/ exists d, d ∈ l /\ l' ≡ₚ d :: l.

Lemma one_twice_frame l l' a b :
  one_twice l l' -> one_twice (a ++ l ++ b) (a ++ l' ++ b).
Proof.
  intros [H|(d & Hd & H)].
  - left. by rewrite H.
  - right. exists d. split; [rewrite !elem_of_app; auto|]. rewrite H. solve_Permutation.
Qed.

Lemma one_twice_perm l1 l1' l2 l2' :
  l1 ≡ₚ l2 -> l1' ≡ₚ l2' -> one_twice l1 l1' -> one_twice l2 l2'.
Proof.
  intros H1 H2 [H|(d & Hd & H)].
  - left. by rewrite <- H1, <- H2.
  - right. exists d. split; [by rewrite <- H1|]. by rewrite <- H1, <- H2.
Qed.

Section Failing.
Hypothesis Hsw : strict_weak.
Variable fs : State.
Hypothesis Hfs : fs = Heads \/ fs = Tails.

(** What a throwing [_single_insert] leaves behind on a subtree of height
    [h] that has room: the exception comes out, nothing outside of the
    subtree is touched, and the live values of the subtree are those it
    had, one of them possibly in two slots. *)
Definition insert_fails_at (h : nat) : Prop :=
  forall fuel nd n defer st x,
    (h < fuel)%nat ->
    0 <= n - wid h -> n + wid h < ssize st ->
    st_ok fs st h n -> kd_ok st nd h n -> sta st n <> fs ->
    defer_fails defer x ->
    exists st',
      _single_insert fuel fs nd (off h) n defer st = Throw st' /\
      same_outside st st' (n - wid h) (n + wid h) /\
      one_twice (elems st h n) (elems st' h n).

Lemma fail_leaf : insert_fails_at 0.
Proof.
  intros fuel nd n defer st x Hf Hlo Hhi Hst Hkd Hroom Hd.
  destruct fuel as [|fuel]; [lia|]. cbn [_single_insert]. simpl in *.
  rewrite (place_at_fails _ _ _ _ _ Hd).
  exists st. split; [done|]. split; [apply same_outside_refl|by left].
Qed.

Ltac fs_ H := repeat first [mstep | rewrite (cref_fails _ _ _ _ H); cbv beta].

Ltac in_list := rewrite ?elem_of_app, ?elem_of_cons; auto.

Ltac fail_goals :=
  rewrite (place_at_fails _ _ _ _ _ ltac:(eassumption));
  eexists; split; [reflexivity|];
  split; [so_chain|];
  cbn [elems]; change (off 1) with 1; hsimp; sto; cbn [app].

Lemma fail_leaves : insert_fails_at 1.
Proof.
  intros fuel nd n defer st x Hf Hlo Hhi Hst Hkd Hroom Hd.
  pose proof (fs_live fs Hfs) as Hfl. pose proof (fs_sure fs Hfs) as Hfu.
  destruct fuel as [|fuel]; [lia|]. cbn [_single_insert].
  change (off 1) with 1. change (wid 1) with 1 in *.
  cbn [Z.ltb Z.eqb Z.compare Pos.compare Pos.compare_cont Pos.eqb]. unfold left, right.
  apply st_ok_S in Hst as (Hlive & Hiff & Hl & Hr). change (off 1) with 1 in *.
  simpl in Hl, Hr.
  fs_ Hd.
  destruct (select_compare nd x (val st n)) eqn:Ecmp.
  - fs_ Hd. destruct (decide (sta st (n - 1) = Invalid)) as [El|El].
    + rewrite bool_decide_eq_true_2 by done. cbn [negb].
      fail_goals. by left.
    + rewrite bool_decide_eq_false_2 by done. cbn [negb]. fs_ Hd.
      assert (Esl : sta st (n - 1) = fs) by (by destruct Hl).
      assert (Er : sta st (n + 1) = Invalid).
      { destruct Hr as [?|Hr]; [done|]. destruct Hroom. by apply Hiff. }
      sto. destruct (select_compare nd x (val st (n - 1))) eqn:Ecmp2.
      * fs_ Hd. fail_goals. right. exists (val st (n - 1)).
        split; [in_list|solve_Permutation].
      * fail_goals. right. exists (val st n).
        split; [in_list|solve_Permutation].
  - fs_ Hd. destruct (decide (sta st (n + 1) = Invalid)) as [Er|Er].
    + rewrite bool_decide_eq_true_2 by done. cbn [negb].
      fail_goals. by left.
    + rewrite bool_decide_eq_false_2 by done. cbn [negb]. fs_ Hd.
      assert (Esr : sta st (n + 1) = fs) by (by destruct Hr).
      assert (El : sta st (n - 1) = Invalid).
      { destruct Hl as [?|Hl]; [done|]. destruct Hroom. by apply Hiff. }
      sto. destruct (select_compare nd (val st (n + 1)) x) eqn:Ecmp2.
      * fs_ Hd. fail_goals. right. exists (val st (n + 1)).
        split; [in_list|solve_Permutation].
      * fail_goals. right. exists (val st n).
        split; [in_list|solve_Permutation].
Qed.


(** A failure below the left or the right child, seen from the node. *)
Lemma fail_in_left h n st st' :
  0 <= n - wid (S (S h)) ->
  same_outside st st' (n - off (S (S h)) - wid (S h)) (n - off (S (S h)) + wid (S h)) ->
  one_twice (elems st (S h) (n - off (S (S h)))) (elems st' (S h) (n - off (S (S h)))) ->
  same_outside st st' (n - wid (S (S h))) (n + wid (S (S h))) /\
  one_twice (elems st (S (S h)) n) (elems st' (S (S h)) n).
Proof.
  intros Hlo Hso H.
  pose proof (wid_nonneg (S h)) as Hw. pose proof (off_S (S h)) as Ho.
  pose proof (wid_S (S h)) as Hww.
  split; [eapply same_outside_sub; [exact Hso|lia|lia]|].
  rewrite (elems_S st (S h) n), (elems_S st' (S h) n).
  assert (Hagr : agree st st' (n + off (S (S h)) - wid (S h)) (n + off (S (S h)) + wid (S h)))
    by (eapply same_outside_agree; [exact Hso|lia]).
  destruct (same_outside_at _ _ _ _ n Hso) as [Hvn Hsn]; [lia|].
  rewrite (elems_agree _ _ _ _ Hagr).
  replace (here st' n) with (here st n) by (unfold here; by rewrite Hvn, Hsn).
  by apply (one_twice_frame _ _ []).
Qed.

Lemma fail_in_right h n st st' :
  0 <= n - wid (S (S h)) ->
  same_outside st st' (n + off (S (S h)) - wid (S h)) (n + off (S (S h)) + wid (S h)) ->
  one_twice (elems st (S h) (n + off (S (S h)))) (elems st' (S h) (n + off (S (S h)))) ->
  same_outside st st' (n - wid (S (S h))) (n + wid (S (S h))) /\
  one_twice (elems st (S (S h)) n) (elems st' (S (S h)) n).
Proof.
  intros Hlo Hso H.
  pose proof (wid_nonneg (S h)) as Hw. pose proof (off_S (S h)) as Ho.
  pose proof (wid_S (S h)) as Hww.
  split; [eapply same_outside_sub; [exact Hso|lia|lia]|].
  rewrite (elems_S st (S h) n), (elems_S st' (S h) n).
  assert (Hagl : agree st st' (n - off (S (S h)) - wid (S h)) (n - off (S (S h)) + wid (S h)))
    by (eapply same_outside_agree; [exact Hso|lia]).
  destruct (same_outside_at _ _ _ _ n Hso) as [Hvn Hsn]; [lia|].
  rewrite (elems_agree _ _ _ _ Hagl).
  replace (here st' n) with (here st n) by (unfold here; by rewrite Hvn, Hsn).
  rewrite !app_assoc.
  pose proof (one_twice_frame _ _ (elems st (S h) (n - off (S (S h))) ++ here st n) [] H) as H'.
  by rewrite !app_nil_r in H'.
Qed.

Lemma fail_recurse_left h fuel nd n defer st x :
  insert_fails_at (S h) ->
  (S h < fuel)%nat ->
  0 <= n - wid (S (S h)) -> n + wid (S (S h)) < ssize st ->
  st_ok fs st (S (S h)) n -> kd_ok st nd (S (S h)) n ->
  defer_fails defer x ->
  sta st (n - off (S (S h))) <> fs ->
  exists st',
    _single_insert fuel fs (inc nd) (off (S h)) (n - off (S (S h))) defer st = Throw st' /\
    same_outside st st' (n - wid (S (S h))) (n + wid (S (S h))) /\
    one_twice (elems st (S (S h)) n) (elems st' (S (S h)) n).
Proof.
  intros IH Hf Hlo Hhi Hst Hkd Hd Hroom.
  pose proof (wid_nonneg (S h)) as Hw. pose proof (off_S (S h)) as Ho.
  pose proof (wid_S (S h)) as Hww.
  apply st_ok_S in Hst as (Hlive & Hiff & Hsl & Hsr).
  apply kd_ok_S in Hkd as (Hkl & Hkr & Hkdl & Hkdr).
  destruct (IH fuel (inc nd) (n - off (S (S h))) defer st x)
    as (st' & Hrun & Hso & Hone); [lia|lia|lia|done|done|done|done|].
  exists st'. split; [done|]. by apply fail_in_left.
Qed.

Lemma fail_recurse_right h fuel nd n defer st x :
  insert_fails_at (S h) ->
  (S h < fuel)%nat ->
  0 <= n - wid (S (S h)) -> n + wid (S (S h)) < ssize st ->
  st_ok fs st (S (S h)) n -> kd_ok st nd (S (S h)) n ->
  defer_fails defer x ->
  sta st (n + off (S (S h))) <> fs ->
  exists st',
    _single_insert fuel fs (inc nd) (off (S h)) (n + off (S (S h))) defer st = Throw st' /\
    same_outside st st' (n - wid (S (S h))) (n + wid (S (S h))) /\
    one_twice (elems st (S (S h)) n) (elems st' (S (S h)) n).
Proof.
  intros IH Hf Hlo Hhi Hst Hkd Hd Hroom.
  pose proof (wid_nonneg (S h)) as Hw. pose proof (off_S (S h)) as Ho.
  pose proof (wid_S (S h)) as Hww.
  apply st_ok_S in Hst as (Hlive & Hiff & Hsl & Hsr).
  apply kd_ok_S in Hkd as (Hkl & Hkr & Hkdl & Hkdr).
  destruct (IH fuel (inc nd) (n + off (S (S h))) defer st x)
    as (st' & Hrun & Hso & Hone); [lia|lia|lia|done|done|done|done|].
  exists st'. split; [done|]. by apply fail_in_right.
Qed.

Lemma fail_rotate_left h fuel nd n defer st x :
  insert_fails_at (S h) ->
  (S h < fuel)%nat ->
  0 <= n - wid (S (S h)) -> n + wid (S (S h)) < ssize st ->
  st_ok fs st (S (S h)) n -> kd_ok st nd (S (S h)) n ->
  sta st n <> fs ->
  defer_fails defer x ->
  sta st (n - off (S (S h))) = fs ->
  exists st',
    (_single_insert fuel fs (inc nd) (off (S h)) (n + off (S (S h)))
       (_deferred_memcpy n);;
     tmp <- maximum fuel nd (inc nd) (off (S h)) (n - off (S (S h)));;
     pv <- cref defer;; tv <- rdv tmp;;
     if select_compare nd pv tv then
       memcpy n tmp;;
       _erase_when_full fuel (inc nd) (off (S h)) (n - off (S (S h))) tmp;;
       _single_insert fuel fs (inc nd) (off (S h)) (n - off (S (S h))) defer
     else place_at defer n;; ret n) st = Throw st' /\
    same_outside st st' (n - wid (S (S h))) (n + wid (S (S h))) /\
    one_twice (elems st (S (S h)) n) (elems st' (S (S h)) n).
Proof.
  intros IH Hf Hlo Hhi Hst Hkd Hroom Hd Hfull.
  pose proof (wid_nonneg (S h)) as Hw. pose proof (off_S (S h)) as Ho.
  pose proof (wid_S (S h)) as Hww.
  apply st_ok_S in Hst as (Hlive & Hiff & Hsl & Hsr).
  apply kd_ok_S in Hkd as (Hkl & Hkr & Hkdl & Hkdr).
  rewrite (elems_S st (S h) n), (here_live st n) by done.
  set (lc := n - off (S (S h))) in *. set (rc := n + off (S (S h))) in *.
  assert (Hlc : lc = n - (wid (S h) + 1)) by (unfold lc; lia).
  assert (Hrc : rc = n + (wid (S h) + 1)) by (unfold rc; lia).
  (* the root value is pushed into the right subtree *)
  destruct (single_insert_spec Hsw fs Hfs (S h) fuel (inc nd) rc (_deferred_memcpy n) st
              (val st n))
    as (st1 & p1 & Hrun1 & Hso1 & Hst1 & Hkd1 & Hperm1 & _);
    [lia|lia|lia|done|done| |cbn [defer_ok]; split; [lia|]; split; [lia|done]|].
  { intros Hr. apply Hroom. by apply Hiff. }
  rewrite (bind_ok _ _ _ _ _ Hrun1).
  assert (Hsz1 : ssize st1 = ssize st) by apply Hso1.
  assert (Hagl1 : agree st st1 (lc - wid (S h)) (lc + wid (S h)))
    by (eapply same_outside_agree; [exact Hso1|lia]).
  destruct (same_outside_at _ _ _ _ n Hso1) as [Hvn1 Hsn1]; [lia|].
  assert (Hso1' : same_outside st st1 (n - wid (S (S h))) (n + wid (S (S h))))
    by (eapply same_outside_sub; [exact Hso1|lia|lia]).
  (* the maximum of the left subtree *)
  destruct (maximum_spec Hsw fs nd (S h) fuel (inc nd) lc st1)
    as (tmp & Hmax & Htr & Htl & Htm);
    [lia|lia|lia|by eapply st_ok_agree|by eapply kd_ok_agree
    |eapply st_ok_live, st_ok_agree; [exact Hagl1|exact Hsl]|].
  rewrite (bind_ok _ _ _ _ _ Hmax).
  destruct (Hagl1 tmp) as [Hvt Hst_tmp]; [lia|].
  rewrite (cref_fails _ _ _ _ Hd). rewrite bind_rdv by lia. rewrite Hvt.
  destruct (select_compare nd x (val st tmp)) eqn:Ecmp2.
  - (* the maximum moves up; the failure is below the left child *)
    rewrite bind_memcpy by lia. rewrite Hvt.
    set (st2 := upd_v st1 n (val st tmp)).
    assert (Hsz2 : ssize st2 = ssize st) by (unfold st2; sz).
    assert (Hagl2 : agree st st2 (lc - wid (S h)) (lc + wid (S h))).
    { eapply agree_trans; [exact Hagl1|]. apply agree_upd_v. lia. }
    destruct (erase_when_full_spec Hsw fs Hfs h fuel (inc nd) lc tmp st2)
      as (st3 & Hrun3 & Hso3 & Hst3 & Hnf3 & Hkd3 & Hperm3);
      [lia|lia|lia|by eapply st_ok_agree
      |by destruct (Hagl2 lc) as [_ ->]; [lia|]
      |by eapply kd_ok_agree|lia|].
    rewrite (elems_agree _ _ _ _ Hagl2) in Hperm3.
    destruct (Hagl2 tmp) as [Hvt2 _]; [lia|]. rewrite Hvt2 in Hperm3.
    rewrite (bind_ok _ _ _ _ _ Hrun3). cbv beta.
    assert (Hsz3 : ssize st3 = ssize st) by (destruct Hso3; lia).
    destruct (IH fuel (inc nd) lc defer st3 x)
      as (st4 & Hrun4 & Hso4 & Hone); [lia|lia|lia|done|done|done|done|].
    exists st4. split; [done|].
    assert (Hso14 : same_outside st1 st4 (n - wid (S (S h))) (n + wid (S (S h)))).
    { eapply (same_outside_trans _ st2); [apply same_outside_upd_v; lia|].
      eapply (same_outside_trans _ st3);
        (eapply same_outside_sub; [eassumption|lia|lia]). }
    split; [by eapply same_outside_trans|].
    assert (Hagr4 : agree st1 st4 (rc - wid (S h)) (rc + wid (S h))).
    { eapply (agree_trans _ st2); [apply agree_upd_v; lia|].
      eapply (agree_trans _ st3); [eapply same_outside_agree; [exact Hso3|lia]|].
      eapply same_outside_agree; [exact Hso4|lia]. }
    assert (Hvn4 : val st4 n = val st tmp).
    { destruct (same_outside_at _ _ _ _ n Hso4) as [-> _]; [lia|].
      destruct (same_outside_at _ _ _ _ n Hso3) as [-> _]; [lia|].
      unfold st2. by sto. }
    assert (Hsn4 : sta st4 n = sta st n).
    { destruct (same_outside_at _ _ _ _ n Hso4) as [_ ->]; [lia|].
      destruct (same_outside_at _ _ _ _ n Hso3) as [_ ->]; [lia|].
      unfold st2. by sto. }
    rewrite (elems_S st4 (S h) n). fold lc rc.
    rewrite (here_live st4 n) by (by rewrite Hsn4).
    rewrite Hvn4, (elems_agree _ _ _ _ Hagr4).
    eapply (one_twice_perm
              (elems st3 (S h) lc ++ val st tmp :: val st n :: elems st (S h) rc)
              (elems st4 (S h) lc ++ val st tmp :: val st n :: elems st (S h) rc)).
    { rewrite Hperm3. solve_Permutation. }
    { rewrite Hperm1. solve_Permutation. }
    by apply (one_twice_frame _ _ []).
  - (* the failure is at the node, whose value is already on the right *)
    rewrite (place_at_fails _ _ _ _ _ Hd).
    exists st1. split; [done|]. split; [done|].
    rewrite (elems_S st1 (S h) n). fold lc rc.
    rewrite (here_live st1 n) by (by rewrite Hsn1).
    rewrite Hvn1, (elems_agree _ _ _ _ Hagl1).
    eapply (one_twice_perm _
              (elems st (S h) lc ++ val st n :: val st n :: elems st (S h) rc));
      [reflexivity|rewrite Hperm1; solve_Permutation|].
    right. exists (val st n). split; [in_list|solve_Permutation].
Qed.

Lemma fail_rotate_right h fuel nd n defer st x :
  insert_fails_at (S h) ->
  (S h < fuel)%nat ->
  0 <= n - wid (S (S h)) -> n + wid (S (S h)) < ssize st ->
  st_ok fs st (S (S h)) n -> kd_ok st nd (S (S h)) n ->
  sta st n <> fs ->
  defer_fails defer x ->
  sta st (n + off (S (S h))) = fs ->
  exists st',
    (_single_insert fuel fs (inc nd) (off (S h)) (n - off (S (S h)))
       (_deferred_memcpy n);;
     tmp <- minimum fuel nd (inc nd) (off (S h)) (n + off (S (S h)));;
     tv <- rdv tmp;; pv <- cref defer;;
     if select_compare nd tv pv then
       memcpy n tmp;;
       _erase_when_full fuel (inc nd) (off (S h)) (n + off (S (S h))) tmp;;
       _single_insert fuel fs (inc nd) (off (S h)) (n + off (S (S h))) defer
     else place_at defer n;; ret n) st = Throw st' /\
    same_outside st st' (n - wid (S (S h))) (n + wid (S (S h))) /\
    one_twice (elems st (S (S h)) n) (elems st' (S (S h)) n).
Proof.
  intros IH Hf Hlo Hhi Hst Hkd Hroom Hd Hfull.
  pose proof (wid_nonneg (S h)) as Hw. pose proof (off_S (S h)) as Ho.
  pose proof (wid_S (S h)) as Hww.
  apply st_ok_S in Hst as (Hlive & Hiff & Hsl & Hsr).
  apply kd_ok_S in Hkd as (Hkl & Hkr & Hkdl & Hkdr).
  rewrite (elems_S st (S h) n), (here_live st n) by done.
  set (lc := n - off (S (S h))) in *. set (rc := n + off (S (S h))) in *.
  assert (Hlc : lc = n - (wid (S h) + 1)) by (unfold lc; lia).
  assert (Hrc : rc = n + (wid (S h) + 1)) by (unfold rc; lia).
  (* the root value is pushed into the left subtree *)
  destruct (single_insert_spec Hsw fs Hfs (S h) fuel (inc nd) lc (_deferred_memcpy n) st
              (val st n))
    as (st1 & p1 & Hrun1 & Hso1 & Hst1 & Hkd1 & Hperm1 & _);
    [lia|lia|lia|done|done| |cbn [defer_ok]; split; [lia|]; split; [lia|done]|].
  { intros Hr. apply Hroom. by apply Hiff. }
  rewrite (bind_ok _ _ _ _ _ Hrun1).
  assert (Hsz1 : ssize st1 = ssize st) by apply Hso1.
  assert (Hagr1 : agree st st1 (rc - wid (S h)) (rc + wid (S h)))
    by (eapply same_outside_agree; [exact Hso1|lia]).
  destruct (same_outside_at _ _ _ _ n Hso1) as [Hvn1 Hsn1]; [lia|].
  assert (Hso1' : same_outside st st1 (n - wid (S (S h))) (n + wid (S (S h))))
    by (eapply same_outside_sub; [exact Hso1|lia|lia]).
  (* the minimum of the right subtree *)
  destruct (minimum_spec Hsw fs nd (S h) fuel (inc nd) rc st1)
    as (tmp & Hmin & Htr & Htl & Htm);
    [lia|lia|lia|by eapply st_ok_agree|by eapply kd_ok_agree
    |eapply st_ok_live, st_ok_agree; [exact Hagr1|exact Hsr]|].
  rewrite (bind_ok _ _ _ _ _ Hmin).
  destruct (Hagr1 tmp) as [Hvt Hst_tmp]; [lia|].
  rewrite bind_rdv by lia. rewrite (cref_fails _ _ _ _ Hd). rewrite Hvt.
  destruct (select_compare nd (val st tmp) x) eqn:Ecmp2.
  - (* the minimum moves up; the failure is below the right child *)
    rewrite bind_memcpy by lia. rewrite Hvt.
    set (st2 := upd_v st1 n (val st tmp)).
    assert (Hsz2 : ssize st2 = ssize st) by (unfold st2; sz).
    assert (Hagr2 : agree st st2 (rc - wid (S h)) (rc + wid (S h))).
    { eapply agree_trans; [exact Hagr1|]. apply agree_upd_v. lia. }
    destruct (erase_when_full_spec Hsw fs Hfs h fuel (inc nd) rc tmp st2)
      as (st3 & Hrun3 & Hso3 & Hst3 & Hnf3 & Hkd3 & Hperm3);
      [lia|lia|lia|by eapply st_ok_agree
      |by destruct (Hagr2 rc) as [_ ->]; [lia|]
      |by eapply kd_ok_agree|lia|].
    rewrite (elems_agree _ _ _ _ Hagr2) in Hperm3.
    destruct (Hagr2 tmp) as [Hvt2 _]; [lia|]. rewrite Hvt2 in Hperm3.
    rewrite (bind_ok _ _ _ _ _ Hrun3). cbv beta.
    assert (Hsz3 : ssize st3 = ssize st) by (destruct Hso3; lia).
    destruct (IH fuel (inc nd) rc defer st3 x)
      as (st4 & Hrun4 & Hso4 & Hone); [lia|lia|lia|done|done|done|done|].
    exists st4. split; [done|].
    assert (Hso14 : same_outside st1 st4 (n - wid (S (S h))) (n + wid (S (S h)))).
    { eapply (same_outside_trans _ st2); [apply same_outside_upd_v; lia|].
      eapply (same_outside_trans _ st3);
        (eapply same_outside_sub; [eassumption|lia|lia]). }
    split; [by eapply same_outside_trans|].
    assert (Hagl4 : agree st1 st4 (lc - wid (S h)) (lc + wid (S h))).
    { eapply (agree_trans _ st2); [apply agree_upd_v; lia|].
      eapply (agree_trans _ st3); [eapply same_outside_agree; [exact Hso3|lia]|].
      eapply same_outside_agree; [exact Hso4|lia]. }
    assert (Hvn4 : val st4 n = val st tmp).
    { destruct (same_outside_at _ _ _ _ n Hso4) as [-> _]; [lia|].
      destruct (same_outside_at _ _ _ _ n Hso3) as [-> _]; [lia|].
      unfold st2. by sto. }
    assert (Hsn4 : sta st4 n = sta st n).
    { destruct (same_outside_at _ _ _ _ n Hso4) as [_ ->]; [lia|].
      destruct (same_outside_at _ _ _ _ n Hso3) as [_ ->]; [lia|].
      unfold st2. by sto. }
    rewrite (elems_S st4 (S h) n). fold lc rc.
    rewrite (here_live st4 n) by (by rewrite Hsn4).
    rewrite Hvn4, (elems_agree _ _ _ _ Hagl4).
    eapply (one_twice_perm
              ((val st n :: val st tmp :: elems st (S h) lc) ++ elems st3 (S h) rc ++ [])
              ((val st n :: val st tmp :: elems st (S h) lc) ++ elems st4 (S h) rc ++ [])).
    { rewrite Hperm3. solve_Permutation. }
    { rewrite Hperm1. solve_Permutation. }
    by apply one_twice_frame.
  - (* the failure is at the node, whose value is already on the left *)
    rewrite (place_at_fails _ _ _ _ _ Hd).
    exists st1. split; [done|]. split; [done|].
    rewrite (elems_S st1 (S h) n). fold lc rc.
    rewrite (here_live st1 n) by (by rewrite Hsn1).
    rewrite Hvn1, (elems_agree _ _ _ _ Hagr1).
    eapply (one_twice_perm _
              (val st n :: elems st (S h) lc ++ val st n :: elems st (S h) rc));
      [reflexivity|rewrite Hperm1; solve_Permutation|].
    right. exists (val st n). split; [in_list|solve_Permutation].
Qed.

Lemma fail_node h : insert_fails_at (S h) -> insert_fails_at (S (S h)).
Proof.
  intros IH fuel nd n defer st x Hf Hlo Hhi Hst Hkd Hroom Hd.
  destruct fuel as [|fuel]; [lia|]. cbn [_single_insert].
  rewrite off_ne1, off_gt1, off_half. unfold left, right.
  pose proof (wid_nonneg (S h)) as Hw. pose proof (off_S (S h)) as Ho.
  pose proof (wid_S (S h)) as Hww.
  assert (Hiff : sta st n = fs <->
                 sta st (n - off (S (S h))) = fs /\ sta st (n + off (S (S h))) = fs)
    by apply Hst.
  rewrite (cref_fails _ _ _ _ Hd). rewrite bind_rdv by lia.
  destruct (select_compare nd x (val st n)) eqn:E1.
  - rewrite bind_assoc, bind_rds by lia.
    destruct (decide (sta st (n - off (S (S h))) = fs)) as [El|El].
    + rewrite bool_decide_eq_true_2 by done.
      destruct (fail_rotate_left h fuel nd n defer st x) as (st' & Hrun & Hpost);
        [done|lia|done|done|done|done|done|done|done|].
      rewrite (bind_fails _ _ _ _ Hrun). by exists st'.
    + rewrite bool_decide_eq_false_2 by done.
      destruct (fail_recurse_left h fuel nd n defer st x) as (st' & Hrun & Hpost);
        [done|lia|done|done|done|done|done|done|].
      rewrite (bind_fails _ _ _ _ Hrun). by exists st'.
  - rewrite bind_assoc, bind_rdv by lia. rewrite bind_assoc, (cref_fails _ _ _ _ Hd).
    destruct (select_compare nd (val st n) x) eqn:E2.
    + rewrite bind_assoc, bind_rds by lia.
      destruct (decide (sta st (n + off (S (S h))) = fs)) as [Er|Er].
      * rewrite bool_decide_eq_true_2 by done.
        destruct (fail_rotate_right h fuel nd n defer st x) as (st' & Hrun & Hpost);
          [done|lia|done|done|done|done|done|done|done|].
        rewrite (bind_fails _ _ _ _ Hrun). by exists st'.
      * rewrite bool_decide_eq_false_2 by done.
        destruct (fail_recurse_right h fuel nd n defer st x) as (st' & Hrun & Hpost);
          [done|lia|done|done|done|done|done|done|].
        rewrite (bind_fails _ _ _ _ Hrun). by exists st'.
    + rewrite bind_assoc, bind_rds by lia.
      destruct (decide (sta st (n - off (S (S h))) = fs)) as [El|El].
      * rewrite bool_decide_eq_true_2 by done.
        destruct (fail_recurse_right h fuel nd n defer st x) as (st' & Hrun & Hpost);
          [done|lia|done|done|done|done|done| |].
        { intros Er. apply Hroom. by apply Hiff. }
        rewrite (bind_fails _ _ _ _ Hrun). by exists st'.
      * rewrite bool_decide_eq_false_2 by done.
        destruct (fail_recurse_left h fuel nd n defer st x) as (st' & Hrun & Hpost);
          [done|lia|done|done|done|done|done|done|].
        rewrite (bind_fails _ _ _ _ Hrun). by exists st'.
Qed.

(** A throwing [_single_insert] loses no value, at every height. *)
Lemma single_insert_fails h : insert_fails_at h.
Proof.
  induction h as [|[|h] IH].
  - apply fail_leaf.
  - apply fail_leaves.
  - by apply fail_node.
Qed.

End Failing.

(** The walk from [begin()] to [end()] needs the span only. *)
Lemma valid_values_span c h :
  _finish c = wid (S h) -> _finish c <= ssize (_buf c) ->
  valid_values c = Ok (contents c) c.
Proof.
  intros Hfin Hle. unfold valid_values, end_, begin_, on_buf.
  rewrite (contents_wid c h Hfin), elems_live_run.
  pose proof (slots_wid h) as Hs. pose proof (wid_S h) as Hww.
  replace (wid h - wid h) with 0 by lia.
  replace (_finish c) with (0 + Z.of_nat (slots h)) at 2 by lia.
  rewrite valid_values_loop_run by lia. by rewrite set_buf_id.
Qed.

(** X23. When the construction of the value throws during an insertion
    into a container that satisfies the invariants and holds at least one
    value, the exception reaches the caller and no stored value is lost:
    the values in valid slots afterwards, which a walk from [begin()] to
    [end()] meets, are those stored before, except that one of them may now
    be in two valid slots (the insertion had moved values by [memcpy] to
    make room when the construction threw). [size()] is one more than
    before. ([insert v] is [insert_with (_deferred_copy v)] and fails when
    [copy_throws v]; [insert_move v] is [insert_with (_deferred_move v)]
    and fails when [move_throws v].) *)
Theorem failed_insert_keeps_values (c : kdtree) (defer : DeferredOp) :
  strict_weak -> wf c -> 0 < size c -> _count c < 2 ^ 64 - 1 ->
  defer_throws defer = true ->
  exists c',
    insert_with defer c = Throw c' /\
    size c' = size c + 1 /\
    (contents c' ≡ₚ contents c \/
     exists d, d ∈ contents c /\ contents c' ≡ₚ d :: contents c) /\
    valid_values c' = Ok (contents c') c'.
Proof.
  intros Hsw Hwf Hpos Hroom Hdt. unfold size in *.
  assert (Hd : exists x, defer_fails defer x).
  { destruct defer as [p|x|x]; simpl in Hdt; [done|by exists x|by exists x]. }
  destruct Hd as [x Hd].
  destruct (prepare_insert_spec c Hwf Hroom)
    as (c1 & h & Hprep & Hfs & Hsz & Hcap & Hfin & Hle & Hcnt & Hready).
  unfold insert_with. rewrite (bind_ok _ _ _ _ _ Hprep). cbv beta.
  unfold incr_count at 1. unfold bind at 1. rewrite Hcnt.
  rewrite wrap64_small by lia.
  cbn [_buf _finish _capacity _count _full_state]. unfold on_buf.
  cbn [_buf _finish _capacity _count _full_state].
  rewrite Hfin. replace (wid (S h) - 0) with (wid (S h)) by lia.
  rewrite root_offset_wid, root_wid.
  pose proof (wid_nonneg h) as Hw. pose proof (wid_S h) as Hww.
  pose proof (wid_ge (S h)) as Hge.
  destruct Hready as [(Hc0 & _)|(Hst & Hkd & Hnf & Hel & _ & Hlen)]; [lia|].
  destruct (single_insert_fails Hsw (_full_state c1) Hfs h (Z.to_nat (wid (S h))) 0%nat
              (wid h) defer (_buf c1) x)
    as (st' & Hrun & [Hsz' Hfr] & Hone); [lia|lia|lia|done|done|done|done|].
  rewrite Hrun. eexists. split; [reflexivity|]. unfold set_buf.
  cbn [_buf _finish _capacity _count _full_state].
  split; [done|].
  set (c' := mkTree st' (wid (S h)) (_capacity c1) (_count c + 1) (_full_state c1)).
  assert (Hc' : contents c' = elems st' h (wid h)) by (by apply contents_wid).
  split.
  - rewrite Hc', <- Hel. exact Hone.
  - apply (valid_values_span c' h); [done|]. unfold c'. cbn [_buf _finish]. lia.
Qed.

(** ** Doubling, and doubling again *)

(** In a full container every slot of the live region reads [full_state]. *)
Lemma wf_full_states c :
  wf c -> 0 < _count c -> _count c = _finish c ->
  forall q, 0 <= q < _finish c -> sta (_buf c) q = _full_state c.
Proof.
  intros (Hfs & _ & _ & Hshape) Hpos Hfull q Hq.
  destruct Hshape as [[? ?]|(h & Hfin & _ & Hst & _ & Hcnt & _)]; [lia|].
  assert (Hl : _full_state c <> Invalid) by (destruct Hfs; congruence).
  pose proof (elems_length_full (_full_state c) h (_buf c) (wid h) Hl Hst) as Hiff.
  rewrite wid_S in Hfin.
  apply (full_all (_full_state c) h (_buf c) (wid h)); [done| |lia].
  apply Hiff. lia.
Qed.

(** A full container doubles when the next insertion is prepared, in place
    when the capacity allows it and into new arrays otherwise. *)
Lemma prepare_insert_doubles c :
  wf c -> 0 < _count c -> _count c = _finish c -> _count c < 2 ^ 64 - 1 ->
  exists b',
    _prepare_insert c =
      Ok tt (mkTree b' (2 * _finish c + 1)
               (if _count c =? _capacity c then 2 * _capacity c + 1 else _capacity c)
               (_count c) (State_not (_full_state c))) /\
    (forall i, 0 <= i < _finish c ->
       val b' (2 * i + 1) = val (_buf c) i /\ sta b' (2 * i + 1) = sta (_buf c) i) /\
    (forall j, 0 <= j <= _finish c -> sta b' (2 * j) = Invalid).
Proof.
  intros Hwf Hpos Hfull Hroom.
  pose proof (wf_capacity_bound c Hwf) as Hcb.
  destruct Hwf as (Hfs & Hsz & Hcap & [[Hfin Hcnt]|(h & Hfin & Hle & _)]); [lia|].
  destruct Hcap as [Hc0|(H & HH & Hc)]; [lia|].
  pose proof (wid_nonneg (S h)) as Hw.
  destruct (Z.eqb_spec (_count c) (_capacity c)) as [Heq|Hne].
  - assert (Hlt64 : wid (S H) < wid 64) by (rewrite wid_64; lia).
    apply wid_lt_inv in Hlt64.
    pose proof (wid_mono (S (S H)) 64) as Hm64. rewrite wid_64, (wid_S (S H)) in Hm64.
    assert (Hn : wrap64 (_capacity c * 2 + 1) = 2 * _capacity c + 1)
      by (rewrite wrap64_small; lia).
    destruct (expand_spec (Some (allocate (2 * _capacity c + 1))) c)
      as (b' & Hrun & Hsb & Hodd & Heven); [lia|lia|rewrite ssize_allocate by lia; lia|].
    exists b'. split; [|done].
    unfold _prepare_insert.
    destruct (Z.eqb_spec (_count c) 0) as [?|_]; [lia|].
    destruct (Z.eqb_spec (_count c) (_finish c - 0)) as [_|?]; [|lia].
    destruct (Z.eqb_spec (_count c) (_capacity c)) as [_|?]; [|lia].
    unfold _expand_alloc. by rewrite Hn, Hrun.
  - assert (Hh : (S h < S H)%nat) by (apply wid_lt_inv; lia).
    pose proof (wid_mono (S (S h)) (S H)) as Hm. rewrite (wid_S (S h)) in Hm.
    destruct (expand_spec None c) as (b' & Hrun & Hsb & Hodd & Heven); [lia|lia|lia|].
    exists b'. split; [|done].
    unfold _prepare_insert.
    destruct (Z.eqb_spec (_count c) 0) as [?|_]; [lia|].
    destruct (Z.eqb_spec (_count c) (_finish c - 0)) as [_|?]; [|lia].
    destruct (Z.eqb_spec (_count c) (_capacity c)) as [?|_]; [lia|].
    by rewrite Hrun.
Qed.

(** While the live region has room, insertions leave the span, the
    capacity and [full_state] alone. *)
Lemma insert_all_steady : forall vs c,
  strict_weak -> wf c -> 0 < _count c ->
  _count c + Z.of_nat (length vs) <= _finish c ->
  Forall (fun v => copy_throws v = false) vs ->
  exists c',
    insert_all vs c = Ok tt c' /\ wf c' /\
    _count c' = _count c + Z.of_nat (length vs) /\
    _finish c' = _finish c /\ _capacity c' = _capacity c /\
    _full_state c' = _full_state c.
Proof.
  induction vs as [|v vs IH]; intros c Hsw Hwf Hpos Hroom Hnt.
  - exists c. split; [done|]. split; [done|]. split; [simpl; lia|done].
  - apply Forall_cons in Hnt as [Hv Hnt]. cbn [insert_all length] in *.
    pose proof (wf_count_bound c Hwf) as [_ Hfc].
    pose proof (wf_capacity_bound c Hwf) as Hcb.
    destruct (insert_with_spec Hsw c (_deferred_copy v) v Hwf)
      as (c1 & it & Hrun & Hwf1 & _ & _ & _ & _ & Hcnt1 & _); [lia|done|].
    destruct (insert_with_shape c (_deferred_copy v) it c1 Hrun)
      as (c0 & Hprep & Hf0 & Hc0 & Hs0 & _).
    assert (Hsame : _prepare_insert c = Ok tt c).
    { unfold _prepare_insert.
      destruct (Z.eqb_spec (_count c) 0) as [?|_]; [lia|].
      destruct (Z.eqb_spec (_count c) (_finish c - 0)) as [?|_]; [lia|done]. }
    rewrite Hsame in Hprep. injection Hprep as <-.
    destruct (IH c1 Hsw Hwf1) as (c' & Hrun' & Hwf' & Hcnt' & Hf' & Hc' & Hs');
      [lia|lia|done|].
    exists c'. unfold insert. rewrite (bind_ok _ _ _ _ _ Hrun).
    split; [done|]. split; [done|]. split; [lia|]. split; [congruence|].
    split; congruence.
Qed.

(** C6. When the insertion into a container that satisfies the invariants
    finds [0 < count = span < capacity], [_prepare_insert] expands it in
    place: the value and the state of every slot [i] of the old live region
    are found at slot [2i + 1] of the new one, whose length is
    [2 * span + 1]; every even slot is [Invalid]; [full_state] is toggled,
    the capacity and the count are kept. Hence a slot whose state was the
    old [full_state] now differs from the container's [full_state]. It
    differs again after the second doubling: the live region doubles again
    only when [span + 1] insertions have filled it, by then the slot reads
    the toggled [full_state], and the second toggle, which gives the first
    parity back, makes it differ once more at its new place
    [2 (2i + 1) + 1]. *)
Theorem doubling_in_place (c : kdtree) :
  wf c -> 0 < _count c -> _count c = _finish c -> _finish c < _capacity c ->
  exists b',
    _prepare_insert c =
      Ok tt (mkTree b' (2 * _finish c + 1) (_capacity c) (_count c)
               (State_not (_full_state c))) /\
    (forall i, 0 <= i < _finish c ->
       val b' (2 * i + 1) = val (_buf c) i /\ sta b' (2 * i + 1) = sta (_buf c) i) /\
    (forall j, 0 <= j <= _finish c -> sta b' (2 * j) = Invalid) /\
    (forall i, 0 <= i < _finish c -> sta (_buf c) i = _full_state c ->
       sta b' (2 * i + 1) <> State_not (_full_state c)) /\
    (forall vs,
       strict_weak -> Forall (fun v => copy_throws v = false) vs ->
       Z.of_nat (length vs) = _finish c + 1 ->
       2 * _finish c + 1 < 2 ^ 64 - 1 ->
       exists c2 b3 cap3,
         insert_all vs c = Ok tt c2 /\
         size c2 = 2 * _finish c + 1 /\
         end_ c2 - begin_ c2 = 2 * _finish c + 1 /\
         _full_state c2 = State_not (_full_state c) /\
         _prepare_insert c2 =
           Ok tt (mkTree b3 (2 * (2 * _finish c + 1) + 1) cap3 (2 * _finish c + 1)
                    (_full_state c)) /\
         (forall i, 0 <= i < _finish c -> sta (_buf c) i = _full_state c ->
            sta (_buf c2) (2 * i + 1) = State_not (_full_state c) /\
            sta b3 (2 * (2 * i + 1) + 1) = State_not (_full_state c) /\
            sta b3 (2 * (2 * i + 1) + 1) <> _full_state c)).
Proof.
  intros Hwf Hpos Hfull Hlt.
  pose proof (wf_count_bound c Hwf) as [_ Hfc].
  pose proof (wf_capacity_bound c Hwf) as Hcb.
  destruct (prepare_insert_doubles c Hwf Hpos Hfull) as (b' & Hprep & Hodd & Heven); [lia|].
  destruct (Z.eqb_spec (_count c) (_capacity c)) as [?|_]; [lia|].
  exists b'. split; [done|]. split; [done|]. split; [done|]. split.
  { intros i Hi Hs. destruct (Hodd i Hi) as [_ ->]. rewrite Hs.
    intros Heq. by apply (State_not_ne (_full_state c)). }
  intros [|v vs] Hsw Hnt Hlen Hroom; [simpl in Hlen; lia|].
  apply Forall_cons in Hnt as [Hv Hnt]. cbn [length] in Hlen.
  (* the first insertion doubles the live region *)
  destruct (insert_with_spec Hsw c (_deferred_copy v) v Hwf)
    as (c1 & it & Hrun & Hwf1 & _ & _ & _ & _ & Hcnt1 & _); [lia|done|].
  destruct (insert_with_shape c (_deferred_copy v) it c1 Hrun)
    as (c0 & Hprep0 & Hf0 & Hc0 & Hs0 & _).
  rewrite Hprep in Hprep0. injection Hprep0 as <-.
  cbn [_finish _capacity _full_state] in Hf0, Hc0, Hs0.
  (* the others fill it *)
  destruct (insert_all_steady vs c1 Hsw Hwf1) as (c2 & Hrun2 & Hwf2 & Hcnt2 & Hf2 & Hc2 & Hs2);
    [lia|lia|done|].
  (* and the next one would double it again *)
  destruct (prepare_insert_doubles c2 Hwf2) as (b3 & Hprep3 & Hodd3 & _); [lia|lia|lia|].
  exists c2, b3,
    (if _count c2 =? _capacity c2 then 2 * _capacity c2 + 1 else _capacity c2).
  split.
  { cbn [insert_all]. unfold insert. by rewrite (bind_ok _ _ _ _ _ Hrun). }
  unfold size, end_, begin_.
  split; [lia|]. split; [lia|]. split; [congruence|]. split.
  { rewrite Hprep3. f_equal. f_equal; [lia|lia|].
    rewrite Hs2, Hs0. apply State_not_involutive. }
  intros i Hi Hs.
  assert (H2 : sta (_buf c2) (2 * i + 1) = State_not (_full_state c)).
  { rewrite <- Hs0, <- Hs2. apply wf_full_states; [done|lia|lia|lia]. }
  destruct (Hodd3 (2 * i + 1)) as [_ H3]; [lia|].
  rewrite H3, H2. split; [done|]. split; [done|].
  apply State_not_ne.
Qed.

(** ** The slot of a failed construction *)

(** What a failed construction leaves at the slot [p] where the value was
    to be constructed, [l] being the live values before the insertion and
    [l'] those after it: the slot is [Invalid] and the live values are as
    before, or it is valid and holds a second copy of one of them. *)
Definition slot_left (st' : store) (p : Z) (l l' : list V) : Prop :=
  (sta st' p = Invalid /\ l' ≡ₚ l) \/
  (live st' p /\ val st' p ∈ l /\ l' ≡ₚ val st' p :: l).

Lemma slot_left_frame st' p l l' a b :
  slot_left st' p l l' -> slot_left st' p (a ++ l ++ b) (a ++ l' ++ b).
Proof.
  intros [[Hs H]|(Hl & Hd & H)].
  - left. split; [done|]. by rewrite H.
  - right. split; [done|]. split; [rewrite !elem_of_app; auto|].
    rewrite H. solve_Permutation.
Qed.

Lemma slot_left_perm st' p l1 l1' l2 l2' :
  l1 ≡ₚ l2 -> l1' ≡ₚ l2' -> slot_left st' p l1 l1' -> slot_left st' p l2 l2'.
Proof.
  intros H1 H2 [[Hs H]|(Hl & Hd & H)].
  - left. split; [done|]. by rewrite <- H1, <- H2.
  - right. split; [done|]. split; [by rewrite <- H1|]. by rewrite <- H1, <- H2.
Qed.

Section FailedSlot.
Hypothesis Hsw : strict_weak.
Variable fs : State.
Hypothesis Hfs : fs = Heads \/ fs = Tails.

(** [_single_insert] run twice on a subtree of height [h] that has room,
    for the same value: with a construction that throws and with one that
    does not. The second run returns the slot [p] where the value is
    constructed; the first run throws, touches nothing outside of the
    subtree, and leaves [p] as [slot_left] says. *)
Definition insert_both_at (h : nat) : Prop :=
  forall fuel nd n defer defer' st x,
    (h < fuel)%nat ->
    0 <= n - wid h -> n + wid h < ssize st ->
    st_ok fs st h n -> kd_ok st nd h n -> sta st n <> fs ->
    defer_fails defer x -> defer_user defer' x ->
    exists st' st'' p,
      _single_insert fuel fs nd (off h) n defer st = Throw st' /\
      _single_insert fuel fs nd (off h) n defer' st = Ok p st'' /\
      ssize st'' = ssize st /\
      same_outside st st' (n - wid h) (n + wid h) /\
      n - wid h <= p <= n + wid h /\
      slot_left st' p (elems st h n) (elems st' h n).

Ltac bs_ H H' :=
  repeat first
    [ mstep
    | rewrite (cref_fails _ _ _ _ H); cbv beta
    | rewrite (place_at_fails _ _ _ _ _ H)
    | dstep H' ].

Ltac in_list := rewrite ?elem_of_app, ?elem_of_cons; auto.

Ltac both_goals :=
  eexists _, _, _; split; [reflexivity|]; split; [reflexivity|];
  split; [sz|]; split; [so_chain|]; split; [lia|];
  unfold slot_left, live; cbn [elems]; change (off 1) with 1; hsimp; sto; cbn [app].

Lemma both_leaf : insert_both_at 0.
Proof.
  intros fuel nd n defer defer' st x Hf Hlo Hhi Hst Hkd Hroom Hd Hu.
  pose proof (defer_user_ok defer' x st (n - wid 0) (n + wid 0) Hu) as Hd'.
  destruct fuel as [|fuel]; [lia|]. cbn [_single_insert]. simpl in *.
  bs_ Hd Hd'.
  assert (Hinv : sta st n = Invalid) by (by destruct Hst).
  eexists _, _, _. split; [reflexivity|]. split; [reflexivity|].
  split; [sz|]. split; [apply same_outside_refl|]. split; [lia|].
  left. by split.
Qed.

Lemma both_leaves : insert_both_at 1.
Proof.
  intros fuel nd n defer defer' st x Hf Hlo Hhi Hst Hkd Hroom Hd Hu.
  pose proof (defer_user_ok defer' x st (n - wid 1) (n + wid 1) Hu) as Hd'.
  pose proof (fs_live fs Hfs) as Hfl. pose proof (fs_sure fs Hfs) as Hfu.
  destruct fuel as [|fuel]; [lia|]. cbn [_single_insert].
  change (off 1) with 1. change (wid 1) with 1 in *.
  cbn [Z.ltb Z.eqb Z.compare Pos.compare Pos.compare_cont Pos.eqb]. unfold left, right.
  apply st_ok_S in Hst as (Hlive & Hiff & Hl & Hr). change (off 1) with 1 in *.
  simpl in Hl, Hr.
  bs_ Hd Hd'.
  destruct (select_compare nd x (val st n)) eqn:Ecmp.
  - bs_ Hd Hd'. destruct (decide (sta st (n - 1) = Invalid)) as [El|El].
    + rewrite bool_decide_eq_true_2 by done. cbn [negb]. bs_ Hd Hd'.
      destruct (decide (sta st (n + 1) = Invalid)) as [Er|Er].
      * rewrite bool_decide_eq_true_2 by (sto; done). cbn [negb]. bs_ Hd Hd'.
        both_goals. left. by split.
      * rewrite bool_decide_eq_false_2 by (sto; done). cbn [negb]. bs_ Hd Hd'.
        both_goals. left. by split.
    + rewrite bool_decide_eq_false_2 by done. cbn [negb]. bs_ Hd Hd'.
      assert (Esl : sta st (n - 1) = fs) by (by destruct Hl).
      assert (Er : sta st (n + 1) = Invalid).
      { destruct Hr as [?|Hr]; [done|]. destruct Hroom. by apply Hiff. }
      sto. destruct (select_compare nd x (val st (n - 1))) eqn:Ecmp2.
      * bs_ Hd Hd'. both_goals. right. split; [congruence|].
        split; [in_list|solve_Permutation].
      * bs_ Hd Hd'. both_goals. right. split; [congruence|].
        split; [in_list|solve_Permutation].
  - bs_ Hd Hd'. destruct (decide (sta st (n + 1) = Invalid)) as [Er|Er].
    + rewrite bool_decide_eq_true_2 by done. cbn [negb]. bs_ Hd Hd'.
      destruct (decide (sta st (n - 1) = Invalid)) as [El|El].
      * rewrite bool_decide_eq_true_2 by (sto; done). cbn [negb]. bs_ Hd Hd'.
        both_goals. left. by split.
      * rewrite bool_decide_eq_false_2 by (sto; done). cbn [negb]. bs_ Hd Hd'.
        both_goals. left. by split.
    + rewrite bool_decide_eq_false_2 by done. cbn [negb]. bs_ Hd Hd'.
      assert (Esr : sta st (n + 1) = fs) by (by destruct Hr).
      assert (El : sta st (n - 1) = Invalid).
      { destruct Hl as [?|Hl]; [done|]. destruct Hroom. by apply Hiff. }
      sto. destruct (select_compare nd (val st (n + 1)) x) eqn:Ecmp2.
      * bs_ Hd Hd'. both_goals. right. split; [congruence|].
        split; [in_list|solve_Permutation].
      * bs_ Hd Hd'. both_goals. right. split; [congruence|].
        split; [in_list|solve_Permutation].
Qed.

(** A failure below the left or the right child, seen from the node. *)
Lemma slot_in_left h n st st' p :
  0 <= n - wid (S (S h)) ->
  same_outside st st' (n - off (S (S h)) - wid (S h)) (n - off (S (S h)) + wid (S h)) ->
  slot_left st' p (elems st (S h) (n - off (S (S h))))
    (elems st' (S h) (n - off (S (S h)))) ->
  same_outside st st' (n - wid (S (S h))) (n + wid (S (S h))) /\
  slot_left st' p (elems st (S (S h)) n) (elems st' (S (S h)) n).
Proof.
  intros Hlo Hso H.
  pose proof (wid_nonneg (S h)) as Hw. pose proof (off_S (S h)) as Ho.
  pose proof (wid_S (S h)) as Hww.
  split; [eapply same_outside_sub; [exact Hso|lia|lia]|].
  rewrite (elems_S st (S h) n), (elems_S st' (S h) n).
  assert (Hagr : agree st st' (n + off (S (S h)) - wid (S h)) (n + off (S (S h)) + wid (S h)))
    by (eapply same_outside_agree; [exact Hso|lia]).
  destruct (same_outside_at _ _ _ _ n Hso) as [Hvn Hsn]; [lia|].
  rewrite (elems_agree _ _ _ _ Hagr).
  replace (here st' n) with (here st n) by (unfold here; by rewrite Hvn, Hsn).
  by apply (slot_left_frame _ _ _ _ []).
Qed.

Lemma slot_in_right h n st st' p :
  0 <= n - wid (S (S h)) ->
  same_outside st st' (n + off (S (S h)) - wid (S h)) (n + off (S (S h)) + wid (S h)) ->
  slot_left st' p (elems st (S h) (n + off (S (S h))))
    (elems st' (S h) (n + off (S (S h)))) ->
  same_outside st st' (n - wid (S (S h))) (n + wid (S (S h))) /\
  slot_left st' p (elems st (S (S h)) n) (elems st' (S (S h)) n).
Proof.
  intros Hlo Hso H.
  pose proof (wid_nonneg (S h)) as Hw. pose proof (off_S (S h)) as Ho.
  pose proof (wid_S (S h)) as Hww.
  split; [eapply same_outside_sub; [exact Hso|lia|lia]|].
  rewrite (elems_S st (S h) n), (elems_S st' (S h) n).
  assert (Hagl : agree st st' (n - off (S (S h)) - wid (S h)) (n - off (S (S h)) + wid (S h)))
    by (eapply same_outside_agree; [exact Hso|lia]).
  destruct (same_outside_at _ _ _ _ n Hso) as [Hvn Hsn]; [lia|].
  rewrite (elems_agree _ _ _ _ Hagl).
  replace (here st' n) with (here st n) by (unfold here; by rewrite Hvn, Hsn).
  rewrite !app_assoc.
  pose proof (slot_left_frame _ _ _ _
                (elems st (S h) (n - off (S (S h))) ++ here st n) [] H) as H'.
  by rewrite !app_nil_r in H'.
Qed.

Lemma both_recurse_left h fuel nd n defer defer' st x :
  insert_both_at (S h) ->
  (S h < fuel)%nat ->
  0 <= n - wid (S (S h)) -> n + wid (S (S h)) < ssize st ->
  st_ok fs st (S (S h)) n -> kd_ok st nd (S (S h)) n ->
  defer_fails defer x -> defer_user defer' x ->
  sta st (n - off (S (S h))) <> fs ->
  exists st' stb p,
    _single_insert fuel fs (inc nd) (off (S h)) (n - off (S (S h))) defer st = Throw st' /\
    _single_insert fuel fs (inc nd) (off (S h)) (n - off (S (S h))) defer' st = Ok p stb /\
    ssize stb = ssize st /\
    same_outside st st' (n - wid (S (S h))) (n + wid (S (S h))) /\
    n - wid (S (S h)) <= p <= n + wid (S (S h)) /\
    slot_left st' p (elems st (S (S h)) n) (elems st' (S (S h)) n).
Proof.
  intros IH Hf Hlo Hhi Hst Hkd Hd Hu Hroom.
  pose proof (wid_nonneg (S h)) as Hw. pose proof (off_S (S h)) as Ho.
  pose proof (wid_S (S h)) as Hww.
  apply st_ok_S in Hst as (Hlive & Hiff & Hsl & Hsr).
  apply kd_ok_S in Hkd as (Hkl & Hkr & Hkdl & Hkdr).
  destruct (IH fuel (inc nd) (n - off (S (S h))) defer defer' st x)
    as (st' & stb & p & Hrun & Hrun' & Hsz & Hso & Hp & Hslot);
    [lia|lia|lia|done|done|done|done|done|].
  exists st', stb, p. split; [done|]. split; [done|]. split; [done|].
  destruct (slot_in_left h n st st' p Hlo Hso Hslot) as [? ?].
  split; [done|]. split; [lia|done].
Qed.

Lemma both_recurse_right h fuel nd n defer defer' st x :
  insert_both_at (S h) ->
  (S h < fuel)%nat ->
  0 <= n - wid (S (S h)) -> n + wid (S (S h)) < ssize st ->
  st_ok fs st (S (S h)) n -> kd_ok st nd (S (S h)) n ->
  defer_fails defer x -> defer_user defer' x ->
  sta st (n + off (S (S h))) <> fs ->
  exists st' stb p,
    _single_insert fuel fs (inc nd) (off (S h)) (n + off (S (S h))) defer st = Throw st' /\
    _single_insert fuel fs (inc nd) (off (S h)) (n + off (S (S h))) defer' st = Ok p stb /\
    ssize stb = ssize st /\
    same_outside st st' (n - wid (S (S h))) (n + wid (S (S h))) /\
    n - wid (S (S h)) <= p <= n + wid (S (S h)) /\
    slot_left st' p (elems st (S (S h)) n) (elems st' (S (S h)) n).
Proof.
  intros IH Hf Hlo Hhi Hst Hkd Hd Hu Hroom.
  pose proof (wid_nonneg (S h)) as Hw. pose proof (off_S (S h)) as Ho.
  pose proof (wid_S (S h)) as Hww.
  apply st_ok_S in Hst as (Hlive & Hiff & Hsl & Hsr).
  apply kd_ok_S in Hkd as (Hkl & Hkr & Hkdl & Hkdr).
  destruct (IH fuel (inc nd) (n + off (S (S h))) defer defer' st x)
    as (st' & stb & p & Hrun & Hrun' & Hsz & Hso & Hp & Hslot);
    [lia|lia|lia|done|done|done|done|done|].
  exists st', stb, p. split; [done|]. split; [done|]. split; [done|].
  destruct (slot_in_right h n st st' p Hlo Hso Hslot) as [? ?].
  split; [done|]. split; [lia|done].
Qed.

Lemma both_rotate_left h fuel nd n defer defer' st x :
  insert_both_at (S h) ->
  (S h < fuel)%nat ->
  0 <= n - wid (S (S h)) -> n + wid (S (S h)) < ssize st ->
  st_ok fs st (S (S h)) n -> kd_ok st nd (S (S h)) n ->
  sta st n <> fs ->
  defer_fails defer x -> defer_user defer' x ->
  sta st (n - off (S (S h))) = fs ->
  exists st' stb p,
    (_single_insert fuel fs (inc nd) (off (S h)) (n + off (S (S h)))
       (_deferred_memcpy n);;
     tmp <- maximum fuel nd (inc nd) (off (S h)) (n - off (S (S h)));;
     pv <- cref defer;; tv <- rdv tmp;;
     if select_compare nd pv tv then
       memcpy n tmp;;
       _erase_when_full fuel (inc nd) (off (S h)) (n - off (S (S h))) tmp;;
       _single_insert fuel fs (inc nd) (off (S h)) (n - off (S (S h))) defer
     else place_at defer n;; ret n) st = Throw st' /\
    (_single_insert fuel fs (inc nd) (off (S h)) (n + off (S (S h)))
       (_deferred_memcpy n);;
     tmp <- maximum fuel nd (inc nd) (off (S h)) (n - off (S (S h)));;
     pv <- cref defer';; tv <- rdv tmp;;
     if select_compare nd pv tv then
       memcpy n tmp;;
       _erase_when_full fuel (inc nd) (off (S h)) (n - off (S (S h))) tmp;;
       _single_insert fuel fs (inc nd) (off (S h)) (n - off (S (S h))) defer'
     else place_at defer' n;; ret n) st = Ok p stb /\
    ssize stb = ssize st /\
    same_outside st st' (n - wid (S (S h))) (n + wid (S (S h))) /\
    n - wid (S (S h)) <= p <= n + wid (S (S h)) /\
    slot_left st' p (elems st (S (S h)) n) (elems st' (S (S h)) n).
Proof.
  intros IH Hf Hlo Hhi Hst Hkd Hroom Hd Hu Hfull.
  pose proof (defer_user_ok defer' x st (n - wid (S (S h))) (n + wid (S (S h))) Hu) as Hd'.
  pose proof (wid_nonneg (S h)) as Hw. pose proof (off_S (S h)) as Ho.
  pose proof (wid_S (S h)) as Hww.
  apply st_ok_S in Hst as (Hlive & Hiff & Hsl & Hsr).
  apply kd_ok_S in Hkd as (Hkl & Hkr & Hkdl & Hkdr).
  rewrite (elems_S st (S h) n), (here_live st n) by done.
  set (lc := n - off (S (S h))) in *. set (rc := n + off (S (S h))) in *.
  assert (Hlc : lc = n - (wid (S h) + 1)) by (unfold lc; lia).
  assert (Hrc : rc = n + (wid (S h) + 1)) by (unfold rc; lia).
  (* the root value is pushed into the right subtree *)
  destruct (single_insert_spec Hsw fs Hfs (S h) fuel (inc nd) rc (_deferred_memcpy n) st
              (val st n))
    as (st1 & p1 & Hrun1 & Hso1 & Hst1 & Hkd1 & Hperm1 & _);
    [lia|lia|lia|done|done| |cbn [defer_ok]; split; [lia|]; split; [lia|done]|].
  { intros Hr. apply Hroom. by apply Hiff. }
  rewrite !(bind_ok _ _ _ _ _ Hrun1).
  assert (Hsz1 : ssize st1 = ssize st) by apply Hso1.
  assert (Hagl1 : agree st st1 (lc - wid (S h)) (lc + wid (S h)))
    by (eapply same_outside_agree; [exact Hso1|lia]).
  destruct (same_outside_at _ _ _ _ n Hso1) as [Hvn1 Hsn1]; [lia|].
  assert (Hso1' : same_outside st st1 (n - wid (S (S h))) (n + wid (S (S h))))
    by (eapply same_outside_sub; [exact Hso1|lia|lia]).
  (* the maximum of the left subtree *)
  destruct (maximum_spec Hsw fs nd (S h) fuel (inc nd) lc st1)
    as (tmp & Hmax & Htr & Htl & Htm);
    [lia|lia|lia|by eapply st_ok_agree|by eapply kd_ok_agree
    |eapply st_ok_live, st_ok_agree; [exact Hagl1|exact Hsl]|].
  rewrite !(bind_ok _ _ _ _ _ Hmax).
  destruct (Hagl1 tmp) as [Hvt Hst_tmp]; [lia|].
  rewrite (cref_fails _ _ _ _ Hd), (cref_run' _ _ _ _ _ _ _ Hd' Hso1').
  rewrite !bind_rdv by lia. rewrite Hvt.
  destruct (select_compare nd x (val st tmp)) eqn:Ecmp2.
  - (* the maximum moves up; the failure is below the left child *)
    rewrite !bind_memcpy by lia. rewrite Hvt.
    set (st2 := upd_v st1 n (val st tmp)).
    assert (Hsz2 : ssize st2 = ssize st) by (unfold st2; sz).
    assert (Hagl2 : agree st st2 (lc - wid (S h)) (lc + wid (S h))).
    { eapply agree_trans; [exact Hagl1|]. apply agree_upd_v. lia. }
    destruct (erase_when_full_spec Hsw fs Hfs h fuel (inc nd) lc tmp st2)
      as (st3 & Hrun3 & Hso3 & Hst3 & Hnf3 & Hkd3 & Hperm3);
      [lia|lia|lia|by eapply st_ok_agree
      |by destruct (Hagl2 lc) as [_ ->]; [lia|]
      |by eapply kd_ok_agree|lia|].
    rewrite (elems_agree _ _ _ _ Hagl2) in Hperm3.
    destruct (Hagl2 tmp) as [Hvt2 _]; [lia|]. rewrite Hvt2 in Hperm3.
    rewrite !(bind_ok _ _ _ _ _ Hrun3). cbv beta.
    assert (Hsz3 : ssize st3 = ssize st) by (destruct Hso3; lia).
    destruct (IH fuel (inc nd) lc defer defer' st3 x)
      as (st4 & stb & p & Hrun4 & Hrun4' & Hszb & Hso4 & Hp & Hslot);
      [lia|lia|lia|done|done|done|done|done|].
    exists st4, stb, p. split; [done|]. split; [done|]. split; [lia|].
    assert (Hso14 : same_outside st1 st4 (n - wid (S (S h))) (n + wid (S (S h)))).
    { eapply (same_outside_trans _ st2); [apply same_outside_upd_v; lia|].
      eapply (same_outside_trans _ st3);
        (eapply same_outside_sub; [eassumption|lia|lia]). }
    split; [by eapply same_outside_trans|]. split; [lia|].
    assert (Hagr4 : agree st1 st4 (rc - wid (S h)) (rc + wid (S h))).
    { eapply (agree_trans _ st2); [apply agree_upd_v; lia|].
      eapply (agree_trans _ st3); [eapply same_outside_agree; [exact Hso3|lia]|].
      eapply same_outside_agree; [exact Hso4|lia]. }
    assert (Hvn4 : val st4 n = val st tmp).
    { destruct (same_outside_at _ _ _ _ n Hso4) as [-> _]; [lia|].
      destruct (same_outside_at _ _ _ _ n Hso3) as [-> _]; [lia|].
      unfold st2. by sto. }
    assert (Hsn4 : sta st4 n = sta st n).
    { destruct (same_outside_at _ _ _ _ n Hso4) as [_ ->]; [lia|].
      destruct (same_outside_at _ _ _ _ n Hso3) as [_ ->]; [lia|].
      unfold st2. by sto. }
    rewrite (elems_S st4 (S h) n). fold lc rc.
    rewrite (here_live st4 n) by (by rewrite Hsn4).
    rewrite Hvn4, (elems_agree _ _ _ _ Hagr4).
    eapply (slot_left_perm _ _
              (elems st3 (S h) lc ++ val st tmp :: val st n :: elems st (S h) rc)
              (elems st4 (S h) lc ++ val st tmp :: val st n :: elems st (S h) rc)).
    { rewrite Hperm3. solve_Permutation. }
    { rewrite Hperm1. solve_Permutation. }
    by apply (slot_left_frame _ _ _ _ []).
  - (* the failure is at the node, whose value is already on the right *)
    rewrite (place_at_fails _ _ _ _ _ Hd).
    rewrite (place_at_run' _ _ _ _ _ _ _ _ Hd' Hso1') by lia. cbv beta.
    exists st1, (upd_v st1 n x), n. split; [done|]. split; [done|]. split; [sz|].
    split; [done|]. split; [lia|].
    rewrite (elems_S st1 (S h) n). fold lc rc.
    rewrite (here_live st1 n) by (by rewrite Hsn1).
    rewrite Hvn1, (elems_agree _ _ _ _ Hagl1).
    eapply (slot_left_perm _ _ _
              (elems st (S h) lc ++ val st n :: val st n :: elems st (S h) rc));
      [reflexivity|rewrite Hperm1; solve_Permutation|].
    right. split; [unfold live; by rewrite Hsn1|]. rewrite Hvn1.
    split; [in_list|solve_Permutation].
Qed.

Lemma both_rotate_right h fuel nd n defer defer' st x :
  insert_both_at (S h) ->
  (S h < fuel)%nat ->
  0 <= n - wid (S (S h)) -> n + wid (S (S h)) < ssize st ->
  st_ok fs st (S (S h)) n -> kd_ok st nd (S (S h)) n ->
  sta st n <> fs ->
  defer_fails defer x -> defer_user defer' x ->
  sta st (n + off (S (S h))) = fs ->
  exists st' stb p,
    (_single_insert fuel fs (inc nd) (off (S h)) (n - off (S (S h)))
       (_deferred_memcpy n);;
     tmp <- minimum fuel nd (inc nd) (off (S h)) (n + off (S (S h)));;
     tv <- rdv tmp;; pv <- cref defer;;
     if select_compare nd tv pv then
       memcpy n tmp;;
       _erase_when_full fuel (inc nd) (off (S h)) (n + off (S (S h))) tmp;;
       _single_insert fuel fs (inc nd) (off (S h)) (n + off (S (S h))) defer
     else place_at defer n;; ret n) st = Throw st' /\
    (_single_insert fuel fs (inc nd) (off (S h)) (n - off (S (S h)))
       (_deferred_memcpy n);;
     tmp <- minimum fuel nd (inc nd) (off (S h)) (n + off (S (S h)));;
     tv <- rdv tmp;; pv <- cref defer';;
     if select_compare nd tv pv then
       memcpy n tmp;;
       _erase_when_full fuel (inc nd) (off (S h)) (n + off (S (S h))) tmp;;
       _single_insert fuel fs (inc nd) (off (S h)) (n + off (S (S h))) defer'
     else place_at defer' n;; ret n) st = Ok p stb /\
    ssize stb = ssize st /\
    same_outside st st' (n - wid (S (S h))) (n + wid (S (S h))) /\
    n - wid (S (S h)) <= p <= n + wid (S (S h)) /\
    slot_left st' p (elems st (S (S h)) n) (elems st' (S (S h)) n).
Proof.
  intros IH Hf Hlo Hhi Hst Hkd Hroom Hd Hu Hfull.
  pose proof (defer_user_ok defer' x st (n - wid (S (S h))) (n + wid (S (S h))) Hu) as Hd'.
  pose proof (wid_nonneg (S h)) as Hw. pose proof (off_S (S h)) as Ho.
  pose proof (wid_S (S h)) as Hww.
  apply st_ok_S in Hst as (Hlive & Hiff & Hsl & Hsr).
  apply kd_ok_S in Hkd as (Hkl & Hkr & Hkdl & Hkdr).
  rewrite (elems_S st (S h) n), (here_live st n) by done.
  set (lc := n - off (S (S h))) in *. set (rc := n + off (S (S h))) in *.
  assert (Hlc : lc = n - (wid (S h) + 1)) by (unfold lc; lia).
  assert (Hrc : rc = n + (wid (S h) + 1)) by (unfold rc; lia).
  (* the root value is pushed into the left subtree *)
  destruct (single_insert_spec Hsw fs Hfs (S h) fuel (inc nd) lc (_deferred_memcpy n) st
              (val st n))
    as (st1 & p1 & Hrun1 & Hso1 & Hst1 & Hkd1 & Hperm1 & _);
    [lia|lia|lia|done|done| |cbn [defer_ok]; split; [lia|]; split; [lia|done]|].
  { intros Hr. apply Hroom. by apply Hiff. }
  rewrite !(bind_ok _ _ _ _ _ Hrun1).
  assert (Hsz1 : ssize st1 = ssize st) by apply Hso1.
  assert (Hagr1 : agree st st1 (rc - wid (S h)) (rc + wid (S h)))
    by (eapply same_outside_agree; [exact Hso1|lia]).
  destruct (same_outside_at _ _ _ _ n Hso1) as [Hvn1 Hsn1]; [lia|].
  assert (Hso1' : same_outside st st1 (n - wid (S (S h))) (n + wid (S (S h))))
    by (eapply same_outside_sub; [exact Hso1|lia|lia]).
  (* the minimum of the right subtree *)
  destruct (minimum_spec Hsw fs nd (S h) fuel (inc nd) rc st1)
    as (tmp & Hmin & Htr & Htl & Htm);
    [lia|lia|lia|by eapply st_ok_agree|by eapply kd_ok_agree
    |eapply st_ok_live, st_ok_agree; [exact Hagr1|exact Hsr]|].
  rewrite !(bind_ok _ _ _ _ _ Hmin).
  destruct (Hagr1 tmp) as [Hvt Hst_tmp]; [lia|].
  rewrite !bind_rdv by lia.
  rewrite (cref_fails _ _ _ _ Hd), (cref_run' _ _ _ _ _ _ _ Hd' Hso1'). rewrite Hvt.
  destruct (select_compare nd (val st tmp) x) eqn:Ecmp2.
  - (* the minimum moves up; the failure is below the right child *)
    rewrite !bind_memcpy by lia. rewrite Hvt.
    set (st2 := upd_v st1 n (val st tmp)).
    assert (Hsz2 : ssize st2 = ssize st) by (unfold st2; sz).
    assert (Hagr2 : agree st st2 (rc - wid (S h)) (rc + wid (S h))).
    { eapply agree_trans; [exact Hagr1|]. apply agree_upd_v. lia. }
    destruct (erase_when_full_spec Hsw fs Hfs h fuel (inc nd) rc tmp st2)
      as (st3 & Hrun3 & Hso3 & Hst3 & Hnf3 & Hkd3 & Hperm3);
      [lia|lia|lia|by eapply st_ok_agree
      |by destruct (Hagr2 rc) as [_ ->]; [lia|]
      |by eapply kd_ok_agree|lia|].
    rewrite (elems_agree _ _ _ _ Hagr2) in Hperm3.
    destruct (Hagr2 tmp) as [Hvt2 _]; [lia|]. rewrite Hvt2 in Hperm3.
    rewrite !(bind_ok _ _ _ _ _ Hrun3). cbv beta.
    assert (Hsz3 : ssize st3 = ssize st) by (destruct Hso3; lia).
    destruct (IH fuel (inc nd) rc defer defer' st3 x)
      as (st4 & stb & p & Hrun4 & Hrun4' & Hszb & Hso4 & Hp & Hslot);
      [lia|lia|lia|done|done|done|done|done|].
    exists st4, stb, p. split; [done|]. split; [done|]. split; [lia|].
    assert (Hso14 : same_outside st1 st4 (n - wid (S (S h))) (n + wid (S (S h)))).
    { eapply (same_outside_trans _ st2); [apply same_outside_upd_v; lia|].
      eapply (same_outside_trans _ st3);
        (eapply same_outside_sub; [eassumption|lia|lia]). }
    split; [by eapply same_outside_trans|]. split; [lia|].
    assert (Hagl4 : agree st1 st4 (lc - wid (S h)) (lc + wid (S h))).
    { eapply (agree_trans _ st2); [apply agree_upd_v; lia|].
      eapply (agree_trans _ st3); [eapply same_outside_agree; [exact Hso3|lia]|].
      eapply same_outside_agree; [exact Hso4|lia]. }
    assert (Hvn4 : val st4 n = val st tmp).
    { destruct (same_outside_at _ _ _ _ n Hso4) as [-> _]; [lia|].
      destruct (same_outside_at _ _ _ _ n Hso3) as [-> _]; [lia|].
      unfold st2. by sto. }
    assert (Hsn4 : sta st4 n = sta st n).
    { destruct (same_outside_at _ _ _ _ n Hso4) as [_ ->]; [lia|].
      destruct (same_outside_at _ _ _ _ n Hso3) as [_ ->]; [lia|].
      unfold st2. by sto. }
    rewrite (elems_S st4 (S h) n). fold lc rc.
    rewrite (here_live st4 n) by (by rewrite Hsn4).
    rewrite Hvn4, (elems_agree _ _ _ _ Hagl4).
    eapply (slot_left_perm _ _
              ((val st n :: val st tmp :: elems st (S h) lc) ++ elems st3 (S h) rc ++ [])
              ((val st n :: val st tmp :: elems st (S h) lc) ++ elems st4 (S h) rc ++ [])).
    { rewrite Hperm3. solve_Permutation. }
    { rewrite Hperm1. solve_Permutation. }
    by apply slot_left_frame.
  - (* the failure is at the node, whose value is already on the left *)
    rewrite (place_at_fails _ _ _ _ _ Hd).
    rewrite (place_at_run' _ _ _ _ _ _ _ _ Hd' Hso1') by lia. cbv beta.
    exists st1, (upd_v st1 n x), n. split; [done|]. split; [done|]. split; [sz|].
    split; [done|]. split; [lia|].
    rewrite (elems_S st1 (S h) n). fold lc rc.
    rewrite (here_live st1 n) by (by rewrite Hsn1).
    rewrite Hvn1, (elems_agree _ _ _ _ Hagr1).
    eapply (slot_left_perm _ _ _
              (val st n :: elems st (S h) lc ++ val st n :: elems st (S h) rc));
      [reflexivity|rewrite Hperm1; solve_Permutation|].
    right. split; [unfold live; by rewrite Hsn1|]. rewrite Hvn1.
    split; [in_list|solve_Permutation].
Qed.

Ltac both_close H Hlo :=
  let st' := fresh "st'" in let stb := fresh "stb" in let p := fresh "p" in
  let Hrun := fresh "Hrun" in let Hrun' := fresh "Hrun'" in
  let Hszb := fresh "Hszb" in let Hpost := fresh "Hpost" in
  destruct H as (st' & stb & p & Hrun & Hrun' & Hszb & Hpost);
  rewrite (bind_fails _ _ _ _ Hrun), (bind_ok _ _ _ _ _ Hrun');
  msteps;
  eexists _, _, _; split; [reflexivity|]; split; [reflexivity|];
  split; [sz|exact Hpost].

Lemma both_node h : insert_both_at (S h) -> insert_both_at (S (S h)).
Proof.
  intros IH fuel nd n defer defer' st x Hf Hlo Hhi Hst Hkd Hroom Hd Hu.
  pose proof (defer_user_ok defer' x st (n - wid (S (S h))) (n + wid (S (S h))) Hu) as Hd'.
  destruct fuel as [|fuel]; [lia|]. cbn [_single_insert].
  rewrite off_ne1, off_gt1, off_half. unfold left, right.
  pose proof (wid_nonneg (S h)) as Hw. pose proof (off_S (S h)) as Ho.
  pose proof (wid_S (S h)) as Hww.
  assert (Hiff : sta st n = fs <->
                 sta st (n - off (S (S h))) = fs /\ sta st (n + off (S (S h))) = fs)
    by apply Hst.
  rewrite (cref_fails _ _ _ _ Hd), (cref_run _ _ _ _ _ _ Hd'). rewrite !bind_rdv by lia.
  destruct (select_compare nd x (val st n)) eqn:E1.
  - rewrite !bind_assoc, !bind_rds by lia.
    destruct (decide (sta st (n - off (S (S h))) = fs)) as [El|El].
    + rewrite !bool_decide_eq_true_2 by done.
      pose proof (both_rotate_left h fuel nd n defer defer' st x IH ltac:(lia)
                    Hlo Hhi Hst Hkd Hroom Hd Hu El) as H.
      both_close H Hlo.
    + rewrite !bool_decide_eq_false_2 by done.
      pose proof (both_recurse_left h fuel nd n defer defer' st x IH ltac:(lia)
                    Hlo Hhi Hst Hkd Hd Hu El) as H.
      both_close H Hlo.
  - rewrite !bind_assoc, !bind_rdv by lia.
    rewrite !bind_assoc, (cref_fails _ _ _ _ Hd), (cref_run _ _ _ _ _ _ Hd').
    destruct (select_compare nd (val st n) x) eqn:E2.
    + rewrite !bind_assoc, !bind_rds by lia.
      destruct (decide (sta st (n + off (S (S h))) = fs)) as [Er|Er].
      * rewrite !bool_decide_eq_true_2 by done.
        pose proof (both_rotate_right h fuel nd n defer defer' st x IH ltac:(lia)
                      Hlo Hhi Hst Hkd Hroom Hd Hu Er) as H.
        both_close H Hlo.
      * rewrite !bool_decide_eq_false_2 by done.
        pose proof (both_recurse_right h fuel nd n defer defer' st x IH ltac:(lia)
                      Hlo Hhi Hst Hkd Hd Hu Er) as H.
        both_close H Hlo.
    + rewrite !bind_assoc, !bind_rds by lia.
      destruct (decide (sta st (n - off (S (S h))) = fs)) as [El|El].
      * rewrite !bool_decide_eq_true_2 by done.
        assert (Er : sta st (n + off (S (S h))) <> fs).
        { intros Er. apply Hroom. by apply Hiff. }
        pose proof (both_recurse_right h fuel nd n defer defer' st x IH ltac:(lia)
                      Hlo Hhi Hst Hkd Hd Hu Er) as H.
        both_close H Hlo.
      * rewrite !bool_decide_eq_false_2 by done.
        pose proof (both_recurse_left h fuel nd n defer defer' st x IH ltac:(lia)
                      Hlo Hhi Hst Hkd Hd Hu El) as H.
        both_close H Hlo.
Qed.

(** The two runs of [_single_insert], at every height. *)
Lemma single_insert_both h : insert_both_at h.
Proof.
  induction h as [|[|h] IH].
  - apply both_leaf.
  - apply both_leaves.
  - by apply both_node.
Qed.

End FailedSlot.

(** The two runs of [insert], for a value whose construction [defer]
    throws and whose construction [defer'] does not. *)
Lemma insert_with_both c defer defer' x :
  strict_weak -> wf c -> _count c < 2 ^ 64 - 1 ->
  defer_fails defer x -> defer_user defer' x ->
  exists c' c'' p,
    insert_with defer c = Throw c' /\
    size c' = size c + 1 /\
    insert_with defer' c = Ok p c'' /\
    begin_ c' <= p < end_ c' /\
    (0 < size c -> slot_left (_buf c') p (contents c) (contents c')) /\
    (size c = 0 -> p = begin_ c' /\ (_capacity c <> 0 -> _buf c' = _buf c)).
Proof.
  intros Hsw Hwf Hroom Hd Hu. unfold size, begin_, end_.
  pose proof (wf_count_bound c Hwf) as [Hc _].
  destruct (prepare_insert_spec c Hwf Hroom)
    as (c1 & h & Hprep & Hfs & Hsz & Hcap & Hfin & Hle & Hcnt & Hready).
  pose proof (wid_nonneg h) as Hw. pose proof (wid_S h) as Hww.
  pose proof (wid_ge (S h)) as Hge.
  assert (Hpre : forall d,
    insert_with d c =
    on_buf (_single_insert (Z.to_nat (wid (S h))) (_full_state c1) 0 (off h) (wid h) d)
      (mkTree (_buf c1) (wid (S h)) (_capacity c1) (_count c + 1) (_full_state c1))).
  { intros d. unfold insert_with. rewrite (bind_ok _ _ _ _ _ Hprep). cbv beta.
    unfold incr_count at 1. unfold bind at 1. rewrite Hcnt.
    rewrite wrap64_small by lia.
    cbn [_buf _finish _capacity _count _full_state]. unfold on_buf.
    cbn [_buf _finish _capacity _count _full_state].
    rewrite Hfin. replace (wid (S h) - 0) with (wid (S h)) by lia.
    by rewrite root_offset_wid, root_wid. }
  rewrite !Hpre. unfold on_buf. cbn [_buf].
  destruct Hready as [(Hc0 & -> & Hf0)|(Hst & Hkd & Hnf & Hel & Hpos & Hlen)].
  - (* the container was empty *)
    change (wid 1) with 1 in *. change (wid 0) with 0 in *. change (off 0) with 0.
    change (Z.to_nat 1) with 1%nat.
    rewrite (insert_first 0 (_full_state c1) 0 defer' (_buf c1) x);
      [|by apply defer_user_ok|lia].
    cbn [_single_insert Z.eqb Z.ltb Z.compare]. rewrite (place_at_fails _ _ _ _ _ Hd).
    eexists _, _, 0. split; [reflexivity|]. unfold set_buf.
    cbn [_buf _finish _capacity _count _full_state].
    split; [done|]. split; [reflexivity|]. split; [lia|]. split; [lia|].
    intros _. split; [done|]. intros Hne.
    unfold _prepare_insert in Hprep. rewrite Hc0 in Hprep. cbn [Z.eqb] in Hprep.
    destruct (Z.eqb_spec (_capacity c) 0) as [?|_]; [done|].
    by injection Hprep as <-.
  - (* the general case *)
    destruct (single_insert_both Hsw (_full_state c1) Hfs h (Z.to_nat (wid (S h))) 0%nat
                (wid h) defer defer' (_buf c1) x)
      as (st' & st'' & p & Hrun & Hrun' & Hsz' & [Hszf Hfr] & Hp & Hslot);
      [lia|lia|lia|done|done|done|done|done|].
    rewrite Hrun, Hrun'. eexists _, _, p. split; [reflexivity|]. unfold set_buf.
    cbn [_buf _finish _capacity _count _full_state].
    split; [done|]. split; [reflexivity|]. split; [lia|]. split; [|lia].
    intros _.
    set (c' := mkTree st' (wid (S h)) (_capacity c1) (_count c + 1) (_full_state c1)).
    assert (Hc' : contents c' = elems st' h (wid h)) by (by apply contents_wid).
    by rewrite Hc', <- Hel.
Qed.

End KDTree.

(** * A construction that throws *)

Section Throwing.
Context {V : Type}.
Variable K : nat.
Variable select_compare : nat -> V -> V -> bool.
Variable copy_throws move_throws : V -> bool.
Variable raw_value : V.
Variable raw_state : State.

(** A value type whose constructions never throw. *)
Definition quiet : V -> bool := fun _ => false.

Lemma bind_ext {S A B} (m m' : M S A) (k k' : A -> M S B) s :
  m s = m' s -> (forall a s1, k a s1 = k' a s1) -> bind m k s = bind m' k' s.
Proof. intros Hm Hk. unfold bind. rewrite Hm. destruct (m' s); auto. Qed.

Ltac same_step IH :=
  match goal with
  | |- _single_insert _ _ _ _ _ _ _ _ _ _ _ = _single_insert _ _ _ _ _ _ _ _ _ _ _ =>
      apply IH
  | |- bind _ _ _ = bind _ _ _ => apply bind_ext; [|intros ? ?]
  | |- (if ?c then _ else _) _ = (if ?c then _ else _) _ => destruct c
  | |- _ => reflexivity
  end.

(** Pushing a stored value down does not depend on how the value type
    behaves on construction. *)
Lemma single_insert_memcpy_any (ct mt ct' mt' : V -> bool) :
  forall fuel fs nd offset n p st,
    _single_insert K select_compare ct mt fuel fs nd offset n (_deferred_memcpy p) st =
    _single_insert K select_compare ct' mt' fuel fs nd offset n (_deferred_memcpy p) st.
Proof.
  induction fuel as [|fuel IH]; intros fs nd offset n p st; [done|].
  cbn [_single_insert place_at]. repeat same_step IH.
Qed.

(** Two constructions of one value, by copy or by move, for value types
    under which both throw or both return. *)
Definition same_construction (ct mt ct' mt' : V -> bool) (d d' : DeferredOp) : Prop :=
  exists x,
    (d = _deferred_copy x \/ d = _deferred_move x) /\
    (d' = _deferred_copy x \/ d' = _deferred_move x) /\
    defer_throws ct mt d = defer_throws ct' mt' d'.

Ltac same_step2 IH :=
  match goal with
  | |- _single_insert _ _ _ _ _ _ _ _ _ (_deferred_memcpy _) _ = _ =>
      apply single_insert_memcpy_any
  | |- _single_insert _ _ _ _ _ _ _ _ _ _ _ = _single_insert _ _ _ _ _ _ _ _ _ _ _ =>
      apply IH
  | |- bind _ _ _ = bind _ _ _ => apply bind_ext; [|intros ? ?]
  | |- (if ?c then _ else _) _ = (if ?c then _ else _) _ => destruct c
  | |- _ => reflexivity
  end.

(** They give the same run of [_single_insert], and of [insert]. *)
Lemma single_insert_same ct mt ct' mt' d d' :
  same_construction ct mt ct' mt' d d' ->
  forall fuel fs nd offset n st,
    _single_insert K select_compare ct mt fuel fs nd offset n d st =
    _single_insert K select_compare ct' mt' fuel fs nd offset n d' st.
Proof.
  intros (x & Hd & Hd' & Ht).
  destruct Hd as [-> | ->], Hd' as [-> | ->]; cbn [defer_throws] in Ht;
    (induction fuel as [|fuel IH]; intros fs nd offset n st; [done|];
     cbn [_single_insert place_at cref]; rewrite ?Ht; repeat same_step2 IH).
Qed.

Lemma insert_with_same ct mt ct' mt' d d' c :
  same_construction ct mt ct' mt' d d' ->
  insert_with K select_compare ct mt raw_value raw_state d c =
  insert_with K select_compare ct' mt' raw_value raw_state d' c.
Proof.
  intros H. unfold insert_with.
  apply bind_ext; [done|intros ? ?]. apply bind_ext; [done|intros ? c1].
  unfold on_buf. by rewrite (single_insert_same _ _ _ _ _ _ H).
Qed.

(** C8. When the construction of the value fails during an insertion into
    a container that satisfies the invariants and has room, the failure
    reaches the caller, and the count has already been incremented and
    stays so: [size()] is one more than before the call. The target slot
    [p], where the value was to be constructed, is the slot that the same
    insertion returns for a value type whose constructions do not throw.
    It is not always [Invalid]. If the container held a value, either the
    target slot is [Invalid] and the valid slots hold the values stored
    before the call, or it is valid and holds a second copy of a value
    that is stored in another valid slot. If the container was empty, the
    target slot is [begin()] and, unless the arrays had to be allocated,
    they are as before the call. ([insert v] is
    [insert_with (_deferred_copy v)] and fails when [copy_throws v];
    [insert_move v] is [insert_with (_deferred_move v)] and fails when
    [move_throws v].) *)
Theorem failed_insert_counted (c : kdtree) (defer : DeferredOp) :
  strict_weak select_compare ->
  wf K select_compare raw_value c ->
  _count c < 2 ^ 64 - 1 ->
  defer_throws copy_throws move_throws defer = true ->
  exists c' c'' p,
    insert_with K select_compare copy_throws move_throws raw_value raw_state defer c
      = Throw c' /\
    size c' = size c + 1 /\
    insert_with K select_compare quiet quiet raw_value raw_state defer c = Ok p c'' /\
    begin_ c' <= p < end_ c' /\
    (0 < size c ->
       (sta (_buf c') p = Invalid /\
        contents raw_value c' ≡ₚ contents raw_value c) \/
       (live (_buf c') p /\
        val raw_value (_buf c') p ∈ contents raw_value c /\
        contents raw_value c' ≡ₚ val raw_value (_buf c') p :: contents raw_value c)) /\
    (size c = 0 ->
       p = begin_ c' /\ (_capacity c <> 0 -> _buf c' = _buf c)).
Proof.
  intros Hsw Hwf Hroom Hd.
  destruct defer as [q|x|x]; cbn [defer_throws] in Hd; [done| |].
  - destruct (insert_with_both K select_compare copy_throws quiet raw_value raw_state
                c (_deferred_copy x) (_deferred_move x) x Hsw Hwf Hroom)
      as (c' & c'' & p & Hf & Hsz & Hs & Hrest); [by split|by split|].
    exists c', c'', p.
    rewrite (insert_with_same copy_throws move_throws copy_throws quiet
               (_deferred_copy x) (_deferred_copy x))
      by (exists x; split; [by left|]; split; [by left|done]).
    rewrite (insert_with_same quiet quiet copy_throws quiet
               (_deferred_copy x) (_deferred_move x))
      by (exists x; split; [by left|]; split; [by right|done]).
    split; [exact Hf|]. split; [exact Hsz|]. split; [exact Hs|]. exact Hrest.
  - destruct (insert_with_both K select_compare quiet move_throws raw_value raw_state
                c (_deferred_move x) (_deferred_copy x) x Hsw Hwf Hroom)
      as (c' & c'' & p & Hf & Hsz & Hs & Hrest); [by split|by split|].
    exists c', c'', p.
    rewrite (insert_with_same copy_throws move_throws quiet move_throws
               (_deferred_move x) (_deferred_move x))
      by (exists x; split; [by right|]; split; [by right|done]).
    rewrite (insert_with_same quiet quiet quiet move_throws
               (_deferred_move x) (_deferred_copy x))
      by (exists x; split; [by right|]; split; [by left|done]).
    split; [exact Hf|]. split; [exact Hsz|]. split; [exact Hs|]. exact Hrest.
Qed.

End Throwing.


(** * Lookup in an empty container *)

(** C10. In a container whose size is 0, whatever its arrays, its span and
    its capacity are, [find] returns [end()] for every probe and every
    comparator, and leaves the container as it is. This holds in
    particular when the arrays have no slot at all, where reading any slot
    is a fault: no slot is read and the comparator is not consulted. *)
Theorem find_on_empty {V : Type} (K : nat) (select_compare : nat -> V -> V -> bool)
    (c : kdtree) (v : V) :
  size c = 0 ->
  find K select_compare v c = Ok (end_ c) c /\
  (forall p, rdv p (mkStore (@nil V) []) = Fault) /\
  (forall p, rds p (mkStore (@nil V) []) = Fault).
Proof.
  intros Hc. unfold size in Hc. split.
  - unfold find, end_. by rewrite Hc.
  - split; intros p; unfold rdv, rds, zlookup; cbn [vals sts];
      destruct (p <? 0); by rewrite ?lookup_nil.
Qed.


(** * Worked instances *)

(** One-dimensional integer keys under [<]; constructions never throw
    unless stated. *)
Definition less1 : nat -> Z -> Z -> bool := fun _ a b => a <? b.

Lemma less1_strict_weak : strict_weak less1.
Proof.
  split; unfold less1.
  - intros _ a b H. apply Z.ltb_lt in H. apply Z.ltb_ge. lia.
  - intros _ a b c H. apply Z.ltb_lt in H.
    destruct (Z.ltb_spec a c); [by left|right]. apply Z.ltb_lt. lia.
Qed.

(** What [insert_all] builds from an empty container is well formed. *)
Lemma built_wf (n : Z) (vs : list Z) (c : kdtree) :
  0 <= n < 2 ^ 64 -> Z.of_nat (length vs) < 2 ^ 64 ->
  insert_all 1 less1 quiet quiet 0 Invalid vs (kdtree_sized 0 Invalid n) = Ok tt c ->
  wf 1 less1 0 c.
Proof.
  intros Hn Hlen Hrun.
  destruct (insert_all_spec 1 less1 quiet quiet 0 Invalid less1_strict_weak vs
              (kdtree_sized 0 Invalid n)) as (c' & Hrun' & Hwf & _).
  - by apply kdtree_sized_wf.
  - assert (_count (kdtree_sized 0 Invalid n) = 0); [|lia].
    unfold kdtree_sized, _alloc_storage. by destruct (n =? 0).
  - apply Forall_forall. by intros.
  - congruence.
Qed.

Ltac by_run := vm_compute; intuition (try discriminate; try congruence).

(** The tree of 1, 2, 3, 4, 5 inserted in this order: its right subtree is
    full, so that inserting 6 rotates the root. *)
Definition tree_12345 : kdtree :=
  mkTree (mkStore [0; 1; 0; 2; 3; 4; 5]
                  [Invalid; Tails; Invalid; Unsure; Heads; Heads; Heads])
         7 7 5 Heads.

Definition tree_123456 : kdtree :=
  mkTree (mkStore [0; 1; 2; 3; 4; 5; 6]
                  [Invalid; Tails; Heads; Unsure; Heads; Heads; Heads])
         7 7 6 Heads.

Lemma tree_12345_wf : wf 1 less1 0 tree_12345.
Proof. apply (built_wf 0 [1; 2; 3; 4; 5]); [lia|simpl; lia|reflexivity]. Qed.

Lemma insert_keeps_balance_witness : tree_balanced tree_123456.
Proof.
  apply (insert_keeps_balance 1 less1 quiet quiet 0 Invalid tree_12345 tree_123456 6 6).
  - exact less1_strict_weak.
  - exact tree_12345_wf.
  - left. reflexivity.
Defined.

(** The tree of 4, 2, 6, 1, 3, 5: its left subtree is full, so that
    inserting 0 rotates the root the other way. *)
Definition tree_426135 : kdtree :=
  mkTree (mkStore [1; 2; 3; 4; 5; 6; 0]
                  [Heads; Heads; Heads; Unsure; Heads; Tails; Invalid])
         7 7 6 Heads.

Definition tree_4261350 : kdtree :=
  mkTree (mkStore [0; 1; 2; 3; 4; 5; 6]
                  [Heads; Heads; Heads; Heads; Heads; Heads; Heads])
         7 7 7 Heads.

Lemma tree_426135_wf : wf 1 less1 0 tree_426135.
Proof. apply (built_wf 0 [4; 2; 6; 1; 3; 5]); [lia|simpl; lia|reflexivity]. Qed.

Lemma insert_keeps_order_witness : tree_ordered 1 less1 0 tree_4261350.
Proof.
  apply (insert_keeps_order 1 less1 quiet quiet 0 Invalid tree_426135 tree_4261350 0 0).
  - exact less1_strict_weak.
  - exact tree_426135_wf.
  - right. reflexivity.
Defined.



(** Three equal keys in a three-slot subtree, all live. *)
Definition ties3 : store := mkStore [5; 5; 5] [Heads; Heads; Heads].

(** On [ties3] the root (slot 1) is examined first, then slot 0, then
    slot 2; all three tie, and both searches return slot 2. *)
Lemma extremum_first_tie_counterexample :
  st_ok Heads ties3 1 1 /\ kd_ok 1 less1 0 ties3 0 1 1 /\ live ties3 1 /\
  1 :: later_min 1 ties3 0 0 1 1 = [1; 0; 2] /\
  1 :: later_max 1 ties3 0 0 1 1 = [1; 0; 2] /\
  less1 0 (val 0 ties3 1) (val 0 ties3 2) = false /\
  less1 0 (val 0 ties3 2) (val 0 ties3 1) = false /\
  minimum 1 less1 2 0 0 (off 1) 1 ties3 = Ok 2 ties3 /\
  maximum 1 less1 2 0 0 (off 1) 1 ties3 = Ok 2 ties3.
Proof.
  split; [by_run|]. split; [vm_compute; repeat constructor|].
  split; [by_run|]. repeat split; reflexivity.
Qed.

Lemma extremum_last_wins_witness :
  (exists r,
     minimum 1 less1 2 0 0 (off 1) 1 ties3 = Ok r ties3 /\
     1 - wid 1 <= r <= 1 + wid 1 /\ live ties3 r /\
     Forall (fun y => less1 0 y (val 0 ties3 r) = false) (elems 0 ties3 1 1) /\
     exists before after,
       1 :: later_min 1 ties3 0 0 1 1 = before ++ r :: after /\
       Forall (fun q => less1 0 (val 0 ties3 r) (val 0 ties3 q) = true) after) /\
  (exists r,
     maximum 1 less1 2 0 0 (off 1) 1 ties3 = Ok r ties3 /\
     1 - wid 1 <= r <= 1 + wid 1 /\ live ties3 r /\
     Forall (fun y => less1 0 (val 0 ties3 r) y = false) (elems 0 ties3 1 1) /\
     exists before after,
       1 :: later_max 1 ties3 0 0 1 1 = before ++ r :: after /\
       Forall (fun q => less1 0 (val 0 ties3 q) (val 0 ties3 r) = true) after).
Proof.
  apply (extremum_last_wins 1 less1 0 Heads 0 1 2 0 1 ties3).
  - exact less1_strict_weak.
  - lia.
  - vm_compute. discriminate.
  - reflexivity.
  - by_run.
  - vm_compute. repeat constructor.
  - by_run.
Defined.

(** A seven-slot tree right after a doubling: three equal keys on the odd
    slots, none of them marked with the new [full_state] [Tails]. *)
Definition ties7 : store :=
  mkStore [0; 5; 0; 5; 0; 5; 0]
          [Invalid; Heads; Invalid; Heads; Invalid; Heads; Invalid].

(** A fourth equal key ties with the root (slot 3) while neither child
    (slots 1 and 5) is full: it is placed at slot 2, in the left subtree. *)
Lemma tie_prefers_right_counterexample :
  st_ok Tails ties7 2 3 /\ kd_ok 1 less1 0 ties7 0 2 3 /\
  sta ties7 (left 3 (off 2)) <> Tails /\ sta ties7 (right 3 (off 2)) <> Tails /\
  less1 0 5 (val 0 ties7 3) = false /\ less1 0 (val 0 ties7 3) 5 = false /\
  _single_insert 1 less1 quiet quiet 3 Tails 0 (off 2) 3 (_deferred_copy 5) ties7 =
    Ok 2 (mkStore [0; 5; 5; 5; 0; 5; 0]
                  [Invalid; Heads; Tails; Heads; Invalid; Heads; Invalid]) /\
  2 < 3.
Proof.
  split; [by_run|]. split; [vm_compute; repeat constructor|].
  split; [by_run|]. split; [by_run|]. repeat split; reflexivity.
Qed.

Lemma insert_tie_side_witness :
  exists st' p,
    _single_insert 1 less1 quiet quiet 3 Tails 0 (off 2) 3 (_deferred_copy 5) ties7 =
      Ok p st' /\
    live st' p /\ val 0 st' p = 5 /\ p < 3.
Proof.
  destruct (insert_tie_side 1 less1 quiet quiet 0 Tails 0 3 0 3 (_deferred_copy 5) ties7 5)
    as (_ & st' & p & Hrun & _ & Hl & Hv & Hleft & _).
  - exact less1_strict_weak.
  - by right.
  - lia.
  - vm_compute. discriminate.
  - reflexivity.
  - by_run.
  - vm_compute. repeat constructor.
  - by_run.
  - by_run.
  - reflexivity.
  - reflexivity.
  - exists st', p. split; [exact Hrun|]. split; [exact Hl|]. split; [exact Hv|].
    apply Hleft. by_run.
Defined.


(** One value in a container built with size hint 3. *)
Definition tree_7_of_3 : kdtree :=
  mkTree (mkStore [7; 0; 0] [Heads; Invalid; Invalid]) 1 3 1 Heads.

Lemma tree_7_of_3_wf : wf 1 less1 0 tree_7_of_3.
Proof. apply (built_wf 3 [7]); [lia|simpl; lia|reflexivity]. Qed.

(** Two runs of the doubling. A container built with size hint 1 and
    memory that happens to read [Tails] has
    [count = span = 0 < capacity = 1], yet the first insertion prepares it
    without toggling [full_state] and without writing [Invalid] to slot 0.
    And in the container that holds 7, slot 0 reads [full_state]; the
    insertion of 8 doubles the live region, the slot is then slot 1 and
    differs from [full_state]; 9 fills the region, the next insertion
    doubles it again, and the slot, now slot 3, reads [Tails] while
    [full_state] is [Heads]: it differs again. *)
Lemma doubling_parity_counterexample :
  (let c := kdtree_sized 0 Tails 1 in
   _count c = _finish c /\ _finish c < _capacity c /\
   exists c',
     _prepare_insert 0 Tails c = Ok tt c' /\
     _finish c' = 2 * _finish c + 1 /\
     _full_state c' = _full_state c /\
     sta (_buf c') 0 = Tails) /\
  (_count tree_7_of_3 = _finish tree_7_of_3 /\
   _finish tree_7_of_3 < _capacity tree_7_of_3 /\
   sta (_buf tree_7_of_3) 0 = _full_state tree_7_of_3 /\
   exists c1 c2 c3,
     _prepare_insert 0 Invalid tree_7_of_3 = Ok tt c1 /\
     _finish c1 = 3 /\
     sta (_buf c1) 1 <> _full_state c1 /\
     insert_all 1 less1 quiet quiet 0 Invalid [8; 9] tree_7_of_3 = Ok tt c2 /\
     _prepare_insert 0 Invalid c2 = Ok tt c3 /\
     _finish c3 = 7 /\
     sts (_buf c3) = [Invalid; Tails; Invalid; Tails; Invalid; Tails; Invalid] /\
     _full_state c3 = Heads /\
     sta (_buf c3) 3 <> _full_state c3).
Proof.
  split.
  - split; [reflexivity|]. split; [reflexivity|].
    eexists. split; [reflexivity|]. repeat split; reflexivity.
  - split; [reflexivity|]. split; [reflexivity|]. split; [reflexivity|].
    eexists _, _, _. split; [vm_compute; reflexivity|]. split; [reflexivity|].
    split; [vm_compute; discriminate|]. split; [vm_compute; reflexivity|].
    split; [vm_compute; reflexivity|]. split; [reflexivity|]. split; [reflexivity|].
    split; [reflexivity|]. vm_compute. discriminate.
Qed.

Lemma doubling_in_place_witness :
  exists b',
    _prepare_insert 0 Invalid tree_7_of_3 =
      Ok tt (mkTree b' 3 3 1 Tails) /\
    (forall i, 0 <= i < 1 ->
       val 0 b' (2 * i + 1) = val 0 (_buf tree_7_of_3) i /\
       sta b' (2 * i + 1) = sta (_buf tree_7_of_3) i) /\
    (forall j, 0 <= j <= 1 -> sta b' (2 * j) = Invalid) /\
    (forall i, 0 <= i < 1 -> sta (_buf tree_7_of_3) i = Heads ->
       sta b' (2 * i + 1) <> Tails) /\
    exists c2 b3 cap3,
      insert_all 1 less1 quiet quiet 0 Invalid [8; 9] tree_7_of_3 = Ok tt c2 /\
      size c2 = 3 /\
      end_ c2 - begin_ c2 = 3 /\
      _full_state c2 = Tails /\
      _prepare_insert 0 Invalid c2 = Ok tt (mkTree b3 7 cap3 3 Heads) /\
      (forall i, 0 <= i < 1 -> sta (_buf tree_7_of_3) i = Heads ->
         sta (_buf c2) (2 * i + 1) = Tails /\
         sta b3 (2 * (2 * i + 1) + 1) = Tails /\
         sta b3 (2 * (2 * i + 1) + 1) <> Heads).
Proof.
  destruct (doubling_in_place 1 less1 quiet quiet 0 Invalid tree_7_of_3)
    as (b' & H1 & H2 & H3 & H4 & H5).
  - exact tree_7_of_3_wf.
  - reflexivity.
  - reflexivity.
  - reflexivity.
  - exists b'. split; [exact H1|]. split; [exact H2|]. split; [exact H3|].
    split; [exact H4|]. apply (H5 [8; 9]).
    + exact less1_strict_weak.
    + repeat constructor.
    + reflexivity.
    + reflexivity.
Defined.

Lemma sized_capacity_witness :
  capacity (kdtree_sized 0 Invalid 10) = bitwise.ftz 10 /\
  size (kdtree_sized 0 Invalid 10) = 0 /\
  (exists k, 0 <= k <= 64 /\ capacity (kdtree_sized 0 Invalid 10) = 2 ^ k - 1) /\
  10 <= capacity (kdtree_sized 0 Invalid 10) /\
  (forall k, 0 <= k -> 10 <= 2 ^ k - 1 ->
     capacity (kdtree_sized 0 Invalid 10) <= 2 ^ k - 1) /\
  bitwise.ftz 0 = 0 /\
  capacity (kdtree_sized 0 Invalid 10) = 15 /\
  capacity (kdtree_sized 0 Invalid 0) = 0 /\
  capacity (kdtree_sized 0 Invalid 1) = 1.
Proof. apply (sized_capacity 0 Invalid 10). lia. Defined.

(** A value type whose copy construction always throws. *)
Definition loud : Z -> bool := fun _ => true.

(** Two insertions that throw. A throwing first insertion into an empty
    container leaves the size at 1, not at 0. And a throwing insertion of 0
    into the tree that holds 1 to 6 in its first six slots: the value was
    to be constructed in slot 0, which the insertion returns when the
    construction does not throw; after the failure that slot is valid, not
    [Invalid], and holds 1, which slot 1 holds as well. *)
Lemma failed_insert_counterexample :
  (size (@kdtree_default Z) = 0 /\
   exists c',
     insert 1 less1 loud quiet 0 Invalid 7 kdtree_default = Throw c' /\
     size c' = 1) /\
  (sts (_buf tree_426135) = [Heads; Heads; Heads; Unsure; Heads; Tails; Invalid] /\
   exists c' c'',
     insert 1 less1 loud quiet 0 Invalid 0 tree_426135 = Throw c' /\
     insert 1 less1 quiet quiet 0 Invalid 0 tree_426135 = Ok 0 c'' /\
     sta (_buf c') 0 = Heads /\
     sta (_buf c') 0 <> Invalid /\
     val 0 (_buf c') 0 = 1 /\
     val 0 (_buf c') 1 = 1 /\
     size c' = size tree_426135 + 1).
Proof.
  split.
  - split; [reflexivity|]. eexists. split; reflexivity.
  - split; [reflexivity|]. eexists _, _.
    split; [vm_compute; reflexivity|]. split; [vm_compute; reflexivity|].
    split; [reflexivity|]. split; [vm_compute; discriminate|].
    split; [reflexivity|]. split; reflexivity.
Qed.

Lemma failed_insert_counted_witness :
  exists c' c'' p,
    insert_with 1 less1 loud quiet 0 Invalid (_deferred_copy 0) tree_426135 = Throw c' /\
    size c' = size tree_426135 + 1 /\
    insert_with 1 less1 quiet quiet 0 Invalid (_deferred_copy 0) tree_426135 = Ok p c'' /\
    begin_ c' <= p < end_ c' /\
    (0 < size tree_426135 ->
       (sta (_buf c') p = Invalid /\ contents 0 c' ≡ₚ contents 0 tree_426135) \/
       (live (_buf c') p /\
        val 0 (_buf c') p ∈ contents 0 tree_426135 /\
        contents 0 c' ≡ₚ val 0 (_buf c') p :: contents 0 tree_426135)) /\
    (size tree_426135 = 0 ->
       p = begin_ c' /\ (_capacity tree_426135 <> 0 -> _buf c' = _buf tree_426135)).
Proof.
  apply (failed_insert_counted 1 less1 loud quiet 0 Invalid tree_426135 (_deferred_copy 0)).
  - exact less1_strict_weak.
  - exact tree_426135_wf.
  - reflexivity.
  - reflexivity.
Defined.

Lemma erase_only_decrements_witness :
  exists c',
    erase 9 tree_12345 = Ok 0 c' /\ erase_at 3 tree_12345 = Ok tt c' /\
    _count c' = (if _count tree_12345 =? 0 then 2 ^ 64 - 1 else _count tree_12345 - 1) /\
    _buf c' = _buf tree_12345 /\ _finish c' = _finish tree_12345 /\
    _capacity c' = _capacity tree_12345 /\ _full_state c' = _full_state tree_12345 /\
    (forall p, sta (_buf c') p = sta (_buf tree_12345) p) /\
    (forall p, val 0 (_buf c') p = val 0 (_buf tree_12345) p).
Proof. apply (erase_only_decrements 0 tree_12345 9 3). simpl. lia. Defined.

Lemma find_on_empty_witness :
  find 1 less1 7 (@kdtree_default Z) =
    Ok (end_ (@kdtree_default Z)) (@kdtree_default Z) /\
  (forall p, rdv p (mkStore (@nil Z) []) = Fault) /\
  (forall p, rds p (mkStore (@nil Z) []) = Fault).
Proof. apply (find_on_empty 1 less1 kdtree_default 7). reflexivity. Defined.


(** * The rounding helper at the narrower widths *)

(** [bitwise<U, 2>::ftz]: 16-bit unsigned integers. *)
Module bitwise2.

Definition ftz (u : Z) : Z :=
  let u := bitwise.or_shr u 1 in
  let u := bitwise.or_shr u 2 in
  let u := bitwise.or_shr u 4 in
  let u := bitwise.or_shr u 8 in
  u.

End bitwise2.

(** [bitwise<U, 4>::ftz]: 32-bit unsigned integers. *)
Module bitwise4.

Definition ftz (u : Z) : Z :=
  let u := bitwise.or_shr u 1 in
  let u := bitwise.or_shr u 2 in
  let u := bitwise.or_shr u 4 in
  let u := bitwise.or_shr u 8 in
  let u := bitwise.or_shr u 16 in
  u.

End bitwise4.

Lemma ftz2_testbit u i :
  0 <= i -> Z.testbit (bitwise2.ftz u) i = any_bit u i 16.
Proof.
  revert i. unfold bitwise2.ftz.
  assert (H1 : forall i, 0 <= i -> Z.testbit u i = any_bit u i 1).
  { intros i Hi. unfold any_bit. simpl. rewrite Z.add_0_r, orb_false_r. done. }
  pose proof (any_bit_double u _ 1 H1) as H2.
  pose proof (any_bit_double u _ 2 H2) as H4.
  pose proof (any_bit_double u _ 4 H4) as H8.
  exact (any_bit_double u _ 8 H8).
Qed.

Lemma ftz4_testbit u i :
  0 <= i -> Z.testbit (bitwise4.ftz u) i = any_bit u i 32.
Proof.
  revert i. unfold bitwise4.ftz.
  assert (H1 : forall i, 0 <= i -> Z.testbit u i = any_bit u i 1).
  { intros i Hi. unfold any_bit. simpl. rewrite Z.add_0_r, orb_false_r. done. }
  pose proof (any_bit_double u _ 1 H1) as H2.
  pose proof (any_bit_double u _ 2 H2) as H4.
  pose proof (any_bit_double u _ 4 H4) as H8.
  pose proof (any_bit_double u _ 8 H8) as H16.
  exact (any_bit_double u _ 16 H16).
Qed.

(** A value below [2^w] has no bit set from position [w] on, so looking at
    [w] or at more positions from [i] on makes no difference. *)
Lemma any_bit_below (w n : nat) u i :
  (w <= n)%nat -> 0 <= u < 2 ^ Z.of_nat w -> 0 <= i ->
  any_bit u i n = any_bit u i w.
Proof.
  intros Hwn Hu Hi. apply eq_true_iff_eq. rewrite !any_bit_true. split.
  - intros (j & Hj & Hb). exists j. split; [|done].
    destruct (Z.eq_dec u 0) as [->|Hne]; [by rewrite Z.bits_0 in Hb|].
    assert (Z.log2 u < Z.of_nat w) by (apply Z.log2_lt_pow2; lia).
    destruct (Z.lt_ge_cases (Z.log2 u) (i + j)) as [Hlt|Hge]; [|lia].
    rewrite Z.bits_above_log2 in Hb by lia. done.
  - intros (j & Hj & Hb). exists j. split; [lia|done].
Qed.

Lemma ftz2_agrees u : 0 <= u < 2 ^ 16 -> bitwise2.ftz u = bitwise.ftz u.
Proof.
  intros Hu. apply Z.bits_inj'. intros i Hi.
  rewrite ftz2_testbit, ftz_testbit by done. symmetry.
  by apply (any_bit_below 16 64); [lia| |].
Qed.

Lemma ftz4_agrees u : 0 <= u < 2 ^ 32 -> bitwise4.ftz u = bitwise.ftz u.
Proof.
  intros Hu. apply Z.bits_inj'. intros i Hi.
  rewrite ftz4_testbit, ftz_testbit by done. symmetry.
  by apply (any_bit_below 32 64); [lia| |].
Qed.

Lemma ftz_below (w u : Z) :
  0 <= w <= 64 -> 0 <= u < 2 ^ w -> bitwise.ftz u < 2 ^ w.
Proof.
  intros Hw Hu. assert (2 ^ w <= 2 ^ 64) by (apply Z.pow_le_mono_r; lia).
  destruct (ftz_smallest u) as (_ & _ & Hmin); [lia|].
  specialize (Hmin w ltac:(lia)). lia.
Qed.

(** X16. The 16-bit and the 32-bit variants of [fill_trailing_zeros]
    compute, on the values of their type, what the 64-bit variant
    computes: the smallest value of the form [2^k - 1] that is not below
    the argument. The result is again a value of the type, so no bit is
    lost. *)
Theorem ftz_narrow_widths (u : Z) :
  0 <= u ->
  (u < 2 ^ 16 ->
   bitwise2.ftz u = bitwise.ftz u /\ u <= bitwise2.ftz u < 2 ^ 16 /\
   (exists k, 0 <= k <= 16 /\ bitwise2.ftz u = 2 ^ k - 1) /\
   (forall k, 0 <= k -> u <= 2 ^ k - 1 -> bitwise2.ftz u <= 2 ^ k - 1)) /\
  (u < 2 ^ 32 ->
   bitwise4.ftz u = bitwise.ftz u /\ u <= bitwise4.ftz u < 2 ^ 32 /\
   (exists k, 0 <= k <= 32 /\ bitwise4.ftz u = 2 ^ k - 1) /\
   (forall k, 0 <= k -> u <= 2 ^ k - 1 -> bitwise4.ftz u <= 2 ^ k - 1)).
Proof.
  intros H0.
  assert (Hgen : forall w, 0 <= w <= 64 -> u < 2 ^ w ->
    u <= bitwise.ftz u < 2 ^ w /\
    (exists k, 0 <= k <= w /\ bitwise.ftz u = 2 ^ k - 1) /\
    (forall k, 0 <= k -> u <= 2 ^ k - 1 -> bitwise.ftz u <= 2 ^ k - 1)).
  { intros w Hw Hu. assert (2 ^ w <= 2 ^ 64) by (apply Z.pow_le_mono_r; lia).
    pose proof (ftz_below w u Hw ltac:(lia)) as Hlt.
    destruct (ftz_smallest u) as ((k & Hk & Hku) & Hge & Hmin); [lia|].
    split; [lia|]. split; [|done]. exists k. split; [|done]. split; [lia|].
    destruct (Z.le_gt_cases k w) as [|Hgt]; [done|].
    assert (2 ^ (w + 1) <= 2 ^ k) by (apply Z.pow_le_mono_r; lia).
    rewrite Z.pow_add_r in * by lia. lia. }
  split; intros Hu.
  - rewrite ftz2_agrees by lia. split; [done|]. apply (Hgen 16); lia.
  - rewrite ftz4_agrees by lia. split; [done|]. apply (Hgen 32); lia.
Qed.

(** * The comparator built from an accessor *)

(** [select_compare] for an index that carries one functor comparing two
    values on an axis. *)
Definition select_compare_ac {V : Type} (access_compare : nat -> V -> V -> bool)
    (d : nat) (a b : V) : bool :=
  access_compare d a b.

(** [select_compare] for an index that carries an accessor of the
    coordinates and a comparator of coordinates. *)
Definition select_compare_split {V T : Type} (accessor : nat -> V -> T)
    (compare : T -> T -> bool) (d : nat) (a b : V) : bool :=
  compare (accessor d a) (accessor d b).

(** An index made of a coordinate accessor and a comparator of
    coordinates meets the contract the container asks of its comparator,
    a strict weak ordering on every axis, as soon as the comparator of
    coordinates is a strict weak ordering; an index made of one functor
    meets it when the functor does. *)
Theorem split_comparator_contract {V T : Type} (accessor : nat -> V -> T)
    (compare : T -> T -> bool) (access_compare : nat -> V -> V -> bool) :
  (forall a b, compare a b = true -> compare b a = false) ->
  (forall a b c, compare a b = true -> compare a c = true \/ compare c b = true) ->
  strict_weak (select_compare_split accessor compare) /\
  (strict_weak access_compare -> strict_weak (select_compare_ac access_compare)).
Proof.
  intros Hasym Hco. split; [|done]. unfold select_compare_split. split.
  - intros d a b. apply Hasym.
  - intros d a b c. apply Hco.
Qed.


(** * Worked instances of the further properties *)

Lemma find_sound_complete_witness :
  exists r,
    find 1 less1 9 tree_12345 = Ok r tree_12345 /\
    (r = end_ tree_12345 \/
     (begin_ tree_12345 <= r < end_ tree_12345 /\ live (_buf tree_12345) r /\
      axis_equal 1 less1 (val 0 (_buf tree_12345) r) 9)) /\
    (r <> end_ tree_12345 <->
     exists x, x ∈ contents 0 tree_12345 /\ axis_equal 1 less1 x 9).
Proof.
  apply (find_sound_complete 1 less1 0 tree_12345 9).
  - exact less1_strict_weak.
  - lia.
  - exact tree_12345_wf.
Defined.


(** Seven values in seven slots: the next insertion has to double. *)
Lemma tree_4261350_wf : wf 1 less1 0 tree_4261350.
Proof. apply (built_wf 0 [4; 2; 6; 1; 3; 5; 0]); [lia|simpl; lia|reflexivity]. Qed.

Lemma insert_growth_witness :
  capacity tree_123456 =
    (if size tree_12345 =? capacity tree_12345 then 2 * capacity tree_12345 + 1
     else capacity tree_12345) /\
  end_ tree_123456 - begin_ tree_123456 =
    (if size tree_12345 =? end_ tree_12345 - begin_ tree_12345
     then 2 * (end_ tree_12345 - begin_ tree_12345) + 1
     else end_ tree_12345 - begin_ tree_12345) /\
  capacity tree_12345 <= capacity tree_123456 /\
  end_ tree_12345 <= end_ tree_123456 /\ end_ tree_123456 <= capacity tree_123456.
Proof.
  apply (insert_growth 1 less1 quiet quiet 0 Invalid tree_12345 tree_123456 6 6).
  - exact less1_strict_weak.
  - exact tree_12345_wf.
  - left. reflexivity.
Defined.

Lemma inserts_fill_smallest_tree_witness :
  exists c,
    insert_all 1 less1 quiet quiet 0 Invalid [3; 1; 2; 5] (kdtree_sized 0 Invalid 2) = Ok tt c /\
    size c = Z.of_nat (length [3; 1; 2; 5]) /\
    end_ c - begin_ c = bitwise.ftz (Z.of_nat (length [3; 1; 2; 5])) /\
    capacity c = bitwise.ftz (Z.max 2 (Z.of_nat (length [3; 1; 2; 5]))).
Proof.
  apply (inserts_fill_smallest_tree 1 less1 quiet quiet 0 Invalid 2 [3; 1; 2; 5]).
  - exact less1_strict_weak.
  - lia.
  - simpl. lia.
  - repeat constructor.
Defined.

Lemma walk_visits_contents_witness :
  exists l,
    valid_values tree_12345 = Ok l tree_12345 /\ l = contents 0 tree_12345 /\
    Z.of_nat (length l) = size tree_12345 /\
    (forall v, v ∈ l <->
       exists p, begin_ tree_12345 <= p < end_ tree_12345 /\
         live (_buf tree_12345) p /\ val 0 (_buf tree_12345) p = v).
Proof. apply (walk_visits_contents 1 less1 0 tree_12345). exact tree_12345_wf. Defined.

Lemma walk_sorted_one_dimension_witness :
  exists l,
    valid_values tree_426135 = Ok l tree_426135 /\
    ForallOrdPairs (fun a b => less1 0 b a = false) l.
Proof.
  apply (walk_sorted_one_dimension 1 less1 0 tree_426135).
  - exact less1_strict_weak.
  - reflexivity.
  - exact tree_426135_wf.
Defined.

Lemma clear_empties_witness :
  exists c',
    clear tree_12345 = Ok (contents 0 tree_12345) c' /\
    size c' = 0 /\ empty c' = true /\ begin_ c' = end_ c' /\
    capacity c' = capacity tree_12345 /\ _full_state c' = _full_state tree_12345 /\
    wf 1 less1 0 c' /\ contents 0 c' = [] /\
    forall v, find 1 less1 v c' = Ok (end_ c') c'.
Proof. apply (clear_empties 1 less1 0 tree_12345). exact tree_12345_wf. Defined.

Lemma copy_is_faithful_witness :
  exists c,
    kdtree_copy quiet quiet 0 Invalid tree_12345 = Ok tt c /\
    wf 1 less1 0 c /\ size c = size tree_12345 /\
    contents 0 c = contents 0 tree_12345 /\
    forall v, exists r, find 1 less1 v tree_12345 = Ok r tree_12345 /\ find 1 less1 v c = Ok r c.
Proof.
  destruct (copy_is_faithful 1 less1 quiet quiet 0 Invalid tree_12345)
    as (c & Hrun & Hwf & Hsize & _ & _ & _ & _ & _ & Hcont & Hfind).
  - exact tree_12345_wf.
  - intros i _. reflexivity.
  - exists c. split; [exact Hrun|]. split; [exact Hwf|]. split; [exact Hsize|].
    split; [exact Hcont|exact Hfind].
Defined.

Lemma list_constructor_stores_nothing_witness :
  exists c,
    kdtree_of_list 0 Invalid [1; 2; 3] = Ok tt c /\
    capacity c = bitwise.ftz (Z.of_nat (length [1; 2; 3])) /\
    size c = 0 /\ empty c = true /\ begin_ c = end_ c /\
    wf 1 less1 0 c /\ contents 0 c = [] /\
    valid_values c = Ok [] c /\
    forall v, find 1 less1 v c = Ok (end_ c) c.
Proof. apply (list_constructor_stores_nothing 1 less1 0 Invalid [1; 2; 3]). simpl. lia. Defined.

Lemma erase_removes_nothing_witness :
  exists c',
    erase 3 tree_12345 = Ok 0 c' /\
    size c' = size tree_12345 - 1 /\
    valid_values c' = Ok (contents 0 tree_12345) c' /\
    (2 <= size tree_12345 ->
     exists p, find 1 less1 3 c' = Ok p c' /\ p <> end_ c' /\
       live (_buf c') p /\ axis_equal 1 less1 (val 0 (_buf c') p) 3) /\
    (size tree_12345 = 1 -> forall w, find 1 less1 w c' = Ok (end_ c') c').
Proof.
  apply (erase_removes_nothing 1 less1 0 tree_12345 3).
  - exact less1_strict_weak.
  - lia.
  - exact tree_12345_wf.
  - change (3 ∈ [1; 2; 3; 4; 5]). repeat constructor.
Defined.

(** Slot 0 of [tree_12345] is not valid; its value is copied all the same. *)
Lemma copy_fails_on_any_slot_witness :
  sta (_buf tree_12345) 0 = Invalid /\
  exists c,
    kdtree_copy loud quiet 0 Invalid tree_12345 = Throw c /\
    capacity c = 0 /\ ssize (_buf c) = 0.
Proof.
  split; [reflexivity|].
  apply (copy_fails_on_any_slot 1 less1 loud quiet 0 Invalid tree_12345 0).
  - exact tree_12345_wf.
  - split; [reflexivity|reflexivity].
  - reflexivity.
Defined.

Lemma erase_when_full_removes_one_witness :
  exists st',
    _erase_when_full 1 less1 2 0 (off 1) 1 1 ties3 = Ok tt st' /\
    same_outside 0 ties3 st' (1 - wid 1) (1 + wid 1) /\
    st_ok Heads st' 1 1 /\ sta st' 1 <> Heads /\ kd_ok 1 less1 0 st' 0 1 1 /\
    elems 0 ties3 1 1 ≡ₚ val 0 ties3 1 :: elems 0 st' 1 1 /\
    length (elems 0 ties3 1 1) = S (length (elems 0 st' 1 1)).
Proof.
  apply (erase_when_full_removes_one 1 less1 0 Heads 1 2 0 1 1 ties3).
  - exact less1_strict_weak.
  - by left.
  - lia.
  - vm_compute. discriminate.
  - reflexivity.
  - by_run.
  - reflexivity.
  - vm_compute. repeat constructor.
  - vm_compute. split; discriminate.
Defined.

Lemma doubling_into_new_buffer_witness :
  exists b',
    _prepare_insert 0 Invalid tree_4261350 = Ok tt (mkTree b' 15 15 7 Tails) /\
    ssize b' = 15 /\
    wf 1 less1 0 (mkTree b' 15 15 7 Tails) /\
    contents 0 (mkTree b' 15 15 7 Tails) = contents 0 tree_4261350.
Proof.
  destruct (doubling_into_new_buffer 1 less1 0 Invalid tree_4261350)
    as (b' & Hrun & Hsz & _ & _ & Hwf & Hcont).
  - exact tree_4261350_wf.
  - reflexivity.
  - reflexivity.
  - reflexivity.
  - exists b'. split; [exact Hrun|]. split; [exact Hsz|]. split; [exact Hwf|exact Hcont].
Defined.

Lemma single_insert_frame_witness :
  exists st' p,
    _single_insert 1 less1 quiet quiet 3 Tails 0 (off 2) 3 (_deferred_copy 5) ties7 = Ok p st' /\
    ssize st' = ssize ties7 /\
    elems 0 st' 2 3 ≡ₚ 5 :: elems 0 ties7 2 3 /\
    live st' p /\ val 0 st' p = 5.
Proof.
  destruct (single_insert_frame 1 less1 quiet quiet 0 Tails 2 3 0 3 (_deferred_copy 5) ties7 5)
    as (st' & p & Hrun & Hsz & _ & _ & _ & Hperm & _ & Hl & Hv).
  - exact less1_strict_weak.
  - by right.
  - lia.
  - vm_compute. discriminate.
  - reflexivity.
  - by_run.
  - vm_compute. repeat constructor.
  - by_run.
  - by_run.
  - exists st', p. split; [exact Hrun|]. split; [exact Hsz|]. split; [exact Hperm|].
    split; [exact Hl|exact Hv].
Defined.

Lemma container_extrema_witness :
  exists lo hi,
    minimum 1 less1 7 0 0 (root_offset 7) (root 0 7) (_buf tree_12345)
      = Ok lo (_buf tree_12345) /\
    maximum 1 less1 7 0 0 (root_offset 7) (root 0 7) (_buf tree_12345)
      = Ok hi (_buf tree_12345) /\
    Forall (fun y => less1 0 y (val 0 (_buf tree_12345) lo) = false) (contents 0 tree_12345) /\
    Forall (fun y => less1 0 (val 0 (_buf tree_12345) hi) y = false) (contents 0 tree_12345).
Proof.
  destruct (container_extrema 1 less1 0 tree_12345 0)
    as (lo & hi & Hlo & Hhi & _ & _ & _ & _ & Hmin & Hmax).
  - exact less1_strict_weak.
  - exact tree_12345_wf.
  - reflexivity.
  - exists lo, hi. split; [exact Hlo|]. split; [exact Hhi|]. split; [exact Hmin|exact Hmax].
Defined.

Lemma ftz_narrow_widths_witness :
  bitwise2.ftz 10 = bitwise.ftz 10 /\ bitwise4.ftz 10 = bitwise.ftz 10.
Proof.
  destruct (ftz_narrow_widths 10) as [H16 H32]; [lia|].
  destruct H16 as [E16 _]; [lia|]. destruct H32 as [E32 _]; [lia|].
  split; [exact E16|exact E32].
Defined.

Lemma ftz_is_closure_witness :
  10 <= bitwise.ftz 10 /\
  bitwise.ftz 10 <= bitwise.ftz 20 /\
  bitwise.ftz (bitwise.ftz 10) = bitwise.ftz 10 /\
  (bitwise.ftz 10 = 10 <-> exists k, 0 <= k <= 64 /\ 10 = 2 ^ k - 1).
Proof. apply (ftz_is_closure 10 20); lia. Defined.

Lemma inc_cycles_witness :
  (inc 3 1 < 3)%nat /\
  Nat.iter 3 (inc 3) 1%nat = 1%nat /\
  (forall j, (j < 3)%nat -> exists i, (i < 3)%nat /\ Nat.iter i (inc 3) 1%nat = j).
Proof. apply (inc_cycles 3 1); lia. Defined.

Lemma geometry_halves_witness :
  root 0 7 = 0 + 3 /\
  left (root 0 7) (root_offset 7) = root 0 3 /\
  right (root 0 7) (root_offset 7) = root (0 + 3 + 1) 3 /\
  Z.quot (root_offset 7) 2 = root_offset 3 /\
  7 = 3 + 1 + 3.
Proof. apply (geometry_halves 0 2). lia. Defined.

Lemma split_comparator_contract_witness :
  strict_weak (select_compare_split (fun (_ : nat) (v : Z) => v) Z.ltb) /\
  (strict_weak less1 -> strict_weak (select_compare_ac less1)).
Proof.
  apply (split_comparator_contract (fun (_ : nat) (v : Z) => v) Z.ltb less1).
  - intros a b H. apply Z.ltb_lt in H. apply Z.ltb_ge. lia.
  - intros a b c H. apply Z.ltb_lt in H.
    destruct (Z.ltb_spec a c); [by left|right]. apply Z.ltb_lt. lia.
Defined.


Lemma first_insert_at_begin_witness :
  exists c',
    insert 1 less1 quiet quiet 0 Invalid 1 (kdtree_sized 0 Invalid 10) = Ok (begin_ c') c' /\
    end_ c' - begin_ c' = 1 /\ size c' = 1 /\
    live (_buf c') (begin_ c') /\ val 0 (_buf c') (begin_ c') = 1 /\
    capacity c' = Z.max 1 (capacity (kdtree_sized 0 Invalid 10)) /\
    _full_state c' = _full_state (kdtree_sized 0 Invalid 10).
Proof.
  apply (first_insert_at_begin 1 less1 quiet quiet 0 Invalid (kdtree_sized 0 Invalid 10) 1).
  - apply (kdtree_sized_wf 1 less1 0 Invalid 10). lia.
  - reflexivity.
  - reflexivity.
Defined.

Lemma root_state_tells_full_witness :
  (sta (_buf tree_12345) (root (begin_ tree_12345) (end_ tree_12345 - begin_ tree_12345))
     = _full_state tree_12345 <->
   size tree_12345 = end_ tree_12345 - begin_ tree_12345) /\
  live (_buf tree_12345) (root (begin_ tree_12345) (end_ tree_12345 - begin_ tree_12345)).
Proof.
  apply (root_state_tells_full 1 less1 0 tree_12345).
  - exact tree_12345_wf.
  - reflexivity.
Defined.


(** The tree of 4, 2, 6, 1, 3, 5 holds 1 to 6 in its first six slots. An
    insertion of 0 whose copy construction throws has by then shifted the
    values one slot to the right: 1 is left in two valid slots. *)
Lemma failed_insert_leaves_copy :
  valid_values tree_426135 = Ok [1; 2; 3; 4; 5; 6] tree_426135 /\
  exists c',
    insert 1 less1 loud quiet 0 Invalid 0 tree_426135 = Throw c' /\
    valid_values c' = Ok [1; 1; 2; 3; 4; 5; 6] c'.
Proof. split; [reflexivity|]. eexists. split; reflexivity. Qed.

Lemma failed_insert_keeps_values_witness :
  exists c',
    insert_with 1 less1 loud quiet 0 Invalid (_deferred_copy 0) tree_426135 = Throw c' /\
    size c' = size tree_426135 + 1 /\
    (contents 0 c' ≡ₚ contents 0 tree_426135 \/
     exists d, d ∈ contents 0 tree_426135 /\ contents 0 c' ≡ₚ d :: contents 0 tree_426135) /\
    valid_values c' = Ok (contents 0 c') c'.
Proof.
  apply (failed_insert_keeps_values 1 less1 loud quiet 0 Invalid tree_426135
           (_deferred_copy 0)).
  - exact less1_strict_weak.
  - exact tree_426135_wf.
  - reflexivity.
  - reflexivity.
  - reflexivity.
Defined.
